(** * IDE-Arena log-trajectory parser: a shallow embedding and its properties

    The development follows [src/app/api/sweagent/logs/route.ts] (the server
    side parser: [normalizeLine], [parseLogFile], [parseTestResults],
    [parseLabTrainingMetrics], [extractDuration], [determineFinalSuccess],
    [extractDiffs], [extractTimestamp]) and [src/app/page.tsx] (the client
    side helpers [parseTrajectoryFilename], [parsePassFailFromLogText],
    [getTaskIdFromFilename], [formatTaskIdToTitle]).

    JavaScript strings are sequences of UTF-16 code units; they are modelled
    as [list N].  Regular expressions are kept as syntax trees and run by a
    backtracking matcher that returns every way of matching in the priority
    order of ECMAScript (the first element is the match [exec] reports). *)

From Stdlib Require Import NArith ZArith List String Ascii Lia Bool.
From stdpp Require Import base option list gmap strings.

Set Default Proof Using "Type".
Local Open Scope nat_scope.

(** ** Strings as sequences of UTF-16 code units *)

Abbreviation jsstring := (list N).

Definition js (s : string) : jsstring :=
  List.map N_of_ascii (list_ascii_of_string s).

Definition eqs (a b : jsstring) : bool := bool_decide (a = b).

(** White space and line terminators of ECMAScript: the set removed by
    [String.prototype.trim] and matched by [\s]. *)
Definition isLineTerminator (c : N) : bool :=
  ((c =? 10) || (c =? 13) || (c =? 0x2028) || (c =? 0x2029))%N.

Definition isWS (c : N) : bool :=
  ((c =? 9) || (c =? 10) || (c =? 11) || (c =? 12) || (c =? 13) || (c =? 32)
   || (c =? 0xA0) || (c =? 0x1680) || ((0x2000 <=? c) && (c <=? 0x200A))
   || (c =? 0x2028) || (c =? 0x2029) || (c =? 0x202F) || (c =? 0x205F)
   || (c =? 0x3000) || (c =? 0xFEFF))%N.

Definition isDigit (c : N) : bool := ((48 <=? c) && (c <=? 57))%N.
Definition isUpper (c : N) : bool := ((65 <=? c) && (c <=? 90))%N.
Definition isLower (c : N) : bool := ((97 <=? c) && (c <=? 122))%N.
Definition isAlpha (c : N) : bool := isUpper c || isLower c.
(** [\w] *)
Definition isWord (c : N) : bool := isAlpha c || isDigit c || (c =? 95)%N.
(** [.] (no [s] flag): anything but a line terminator *)
Definition isDot (c : N) : bool := negb (isLineTerminator c).

(** ASCII case mappings.  [String.prototype.toUpperCase] also maps letters
    outside ASCII, but no such mapping produces or consumes the ASCII
    letters the parser looks for (the only code points whose upper case
    contains E, R or O are e, r and o); the parser only ever inspects the
    result through [includes("ERROR")] and [=== "true"]. *)
Definition upperCU (c : N) : N := if isLower c then (c - 32)%N else c.
Definition lowerCU (c : N) : N := if isUpper c then (c + 32)%N else c.
Definition toUpperCase (s : jsstring) : jsstring := List.map upperCU s.
Definition toLowerCase (s : jsstring) : jsstring := List.map lowerCU s.

Fixpoint dropWhile (p : N -> bool) (s : jsstring) : jsstring :=
  match s with
  | [] => []
  | c :: s' => if p c then dropWhile p s' else s
  end.

Fixpoint takeWhile (p : N -> bool) (s : jsstring) : jsstring :=
  match s with
  | [] => []
  | c :: s' => if p c then c :: takeWhile p s' else []
  end.

Definition trimStart (s : jsstring) : jsstring := dropWhile isWS s.
Definition trimEnd (s : jsstring) : jsstring := rev (dropWhile isWS (rev s)).
Definition trim (s : jsstring) : jsstring := trimEnd (trimStart s).

Fixpoint isPrefix (p s : jsstring) : bool :=
  match p, s with
  | [], _ => true
  | _ :: _, [] => false
  | a :: p', b :: s' => (a =? b)%N && isPrefix p' s'
  end.

(** [s.indexOf(sub)] ([None] for -1) and [s.includes(sub)] *)
Fixpoint indexOf (sub s : jsstring) : option nat :=
  if isPrefix sub s then Some 0
  else match s with
       | [] => None
       | _ :: s' => option_map S (indexOf sub s')
       end.

Definition includes (s sub : jsstring) : bool :=
  match indexOf sub s with Some _ => true | None => false end.

(** [s.substring(i)] for [0 <= i] *)
Definition substring (s : jsstring) (i : nat) : jsstring := drop i s.

(** [s.split(sep)] for a non-empty separator string: [skip] counts the code
    units of a separator occurrence still to be passed over, [cur] holds the
    current piece in reverse. *)
Fixpoint split_go (sep : jsstring) (skip : nat) (cur : jsstring) (s : jsstring)
  : list jsstring :=
  match s with
  | [] => [rev cur]
  | c :: s' =>
      match skip with
      | S k => split_go sep k cur s'
      | O => if isPrefix sep s
             then rev cur :: split_go sep (length sep - 1) [] s'
             else split_go sep 0 (c :: cur) s'
      end
  end.

Definition split (sep s : jsstring) : list jsstring := split_go sep 0 [] s.

(** [parts.join(sep)] *)
Fixpoint join (sep : jsstring) (parts : list jsstring) : jsstring :=
  match parts with
  | [] => []
  | [p] => p
  | p :: ps => p ++ sep ++ join sep ps
  end.

(** [s.replace(pat, rep)] with a string pattern: the first occurrence only.
    (No replacement string of the parser contains a dollar sign.) *)
Definition replaceStr (pat rep s : jsstring) : jsstring :=
  match indexOf pat s with
  | None => s
  | Some i => take i s ++ rep ++ drop (i + length pat) s
  end.

Definition LF : jsstring := [10%N].

(** ** Numbers

    A JavaScript number is an IEEE-754 double.  The parser only produces
    numbers through [parseInt(_, 10)], counters and [Math.max]: integers,
    infinities and NaN.  [Num z] stands for the double whose value is the
    integer [z] (the two zeros are identified, which [===], [>] and
    [Math.max] do not tell apart in the parser). *)
Inductive jsnum := NaN | Num (z : Z) | PosInf | NegInf.

Global Instance jsnum_eq_dec : EqDecision jsnum.
Proof. solve_decision. Defined.

(** Conversion of a non-negative integer to the nearest double, ties to
    even: exact below 2^53, infinite from 2^1024. *)
Definition roundDouble (n : N) : jsnum :=
  if (n <? 2 ^ 53)%N then Num (Z.of_N n)
  else
    let e := (N.log2 n - 52)%N in
    let q := N.shiftr n e in
    let r := (n - N.shiftl q e)%N in
    let half := (2 ^ (e - 1))%N in
    let q' := if (half <? r)%N || ((r =? half)%N && N.odd q) then (q + 1)%N else q in
    let v := N.shiftl q' e in
    if (2 ^ 1024 <=? v)%N then PosInf else Num (Z.of_N v).

Definition digitVal (c : N) : N := (c - 48)%N.

Definition decimal (ds : jsstring) : N :=
  fold_left (fun acc c => (10 * acc + digitVal c)%N) ds 0%N.

Definition jsneg (x : jsnum) : jsnum :=
  match x with
  | NaN => NaN
  | Num z => Num (- z)
  | PosInf => NegInf
  | NegInf => PosInf
  end.

(** [parseInt(s, 10)]: leading white space is skipped, an optional sign is
    read, then the longest run of decimal digits; NaN when there is none.
    (Beyond 20 significant digits ECMAScript lets an implementation
    approximate; V8 rounds the exact value, as here.) *)
Definition parseInt (s : jsstring) : jsnum :=
  let s1 := trimStart s in
  let '(neg, s2) :=
    match s1 with
    | c :: s' => if (c =? 45)%N then (true, s')
                 else if (c =? 43)%N then (false, s') else (false, s1)
    | [] => (false, s1)
    end in
  let ds := takeWhile isDigit s2 in
  match ds with
  | [] => NaN
  | _ => if neg then jsneg (roundDouble (decimal ds)) else roundDouble (decimal ds)
  end.

(** [a === b] on numbers *)
Definition num_eqb (a b : jsnum) : bool :=
  match a, b with
  | Num x, Num y => (x =? y)%Z
  | PosInf, PosInf => true
  | NegInf, NegInf => true
  | _, _ => false
  end.

(** [a > b] on numbers *)
Definition num_gtb (a b : jsnum) : bool :=
  match a, b with
  | NaN, _ | _, NaN => false
  | Num x, Num y => (y <? x)%Z
  | PosInf, PosInf => false
  | PosInf, _ => true
  | _, PosInf => false
  | NegInf, _ => false
  | Num _, NegInf => true
  end.

(** [a >= b] on numbers *)
Definition num_geb (a b : jsnum) : bool := num_gtb a b || num_eqb a b.

(** [Math.max(a, b)] *)
Definition num_max (a b : jsnum) : jsnum :=
  match a, b with
  | NaN, _ | _, NaN => NaN
  | _, _ => if num_gtb b a then b else a
  end.

(** ** Results of the parser: returned value, exception, or no return *)

Inductive outcome (A : Type) :=
| Returns (a : A)
| Throws
| Diverges.
Arguments Returns {A} a.
Arguments Throws {A}.
Arguments Diverges {A}.

Global Instance outcome_bind : MBind outcome := fun A B f x =>
  match x with
  | Returns a => f a
  | Throws => Throws
  | Diverges => Diverges
  end.

(** [v.method()] on a value that may be [undefined]: a TypeError *)
Definition defined {A} (o : option A) : outcome A :=
  match o with
  | Some a => Returns a
  | None => Throws
  end.

(** ** Regular expressions *)

Inductive regex :=
| Eps
| Chr (p : N -> bool)
| Seq (a b : regex)
| Alt (a b : regex)
| Star (greedy : bool) (a : regex)
| Group (i : nat) (a : regex)
| Bol
| Eol.

Record mstate := MState {
  m_pos : nat;
  m_rest : jsstring;
  m_caps : gmap nat jsstring
}.

(** Iteration of a quantified body.  As in ECMAScript an iteration that
    consumes nothing is rejected, so [S (length rest)] rounds always
    suffice and the [O] case is never reached from [run]. *)
Fixpoint star_loop (body : mstate -> list mstate) (greedy : bool) (fuel : nat)
  (st : mstate) : list mstate :=
  match fuel with
  | O => [st]
  | S n =>
      let more :=
        flat_map (fun st' =>
                    if length (m_rest st') <? length (m_rest st)
                    then star_loop body greedy n st' else [])
                 (body st) in
      if greedy then more ++ [st] else st :: more
  end.

(** All ways of matching [r] at state [st], most preferred first. *)
Fixpoint run (r : regex) (st : mstate) : list mstate :=
  match r with
  | Eps => [st]
  | Chr p =>
      match m_rest st with
      | c :: rest => if p c then [MState (S (m_pos st)) rest (m_caps st)] else []
      | [] => []
      end
  | Seq a b => flat_map (run b) (run a st)
  | Alt a b => run a st ++ run b st
  | Star g a => star_loop (run a) g (S (length (m_rest st))) st
  | Group i a =>
      List.map (fun st' =>
                  MState (m_pos st') (m_rest st')
                    (<[i := take (m_pos st' - m_pos st) (m_rest st)]> (m_caps st')))
               (run a st)
  | Bol => if m_pos st =? 0 then [st] else []
  | Eol => match m_rest st with [] => [st] | _ => [] end
  end.

(** Pattern building blocks *)
Definition chr (c : N) : regex := Chr (N.eqb c).
(** a literal character under the [i] flag (ASCII letters in all patterns) *)
Definition chr_ci (c : N) : regex := Chr (fun x => (upperCU x =? upperCU c)%N).
Definition seqs (rs : list regex) : regex := fold_right Seq Eps rs.
Definition lit (s : jsstring) : regex := seqs (List.map chr s).
Definition lit_ci (s : jsstring) : regex := seqs (List.map chr_ci s).
Definition star (a : regex) : regex := Star true a.
Definition plus (a : regex) : regex := Seq a (Star true a).
Definition plus_lazy (a : regex) : regex := Seq a (Star false a).
Definition star_lazy (a : regex) : regex := Star false a.
Definition opt (a : regex) : regex := Alt a Eps.
Definition rep (n : nat) (a : regex) : regex := seqs (repeat a n).

Definition ws : regex := Chr isWS.
Definition digit : regex := Chr isDigit.
Definition word : regex := Chr isWord.
Definition dot : regex := Chr isDot.

(** The result of a successful [exec]: index, end index, whole match and
    the captures. *)
Record matchres := MatchRes {
  mr_index : nat;
  mr_end : nat;
  mr_all : jsstring;
  mr_caps : gmap nat jsstring
}.

Definition cap (m : matchres) (i : nat) : option jsstring := mr_caps m !! i.

(** Try the start positions [i], [i+1], ... in turn; [s] is the input from
    position [i] on. *)
Fixpoint search (r : regex) (i : nat) (s : jsstring) : option matchres :=
  match head (run r (MState i s ∅)) with
  | Some st => Some (MatchRes i (m_pos st) (take (m_pos st - i) s) (m_caps st))
  | None =>
      match s with
      | [] => None
      | _ :: s' => search r (S i) s'
      end
  end.

(** [re.exec(s)] with [re.lastIndex = from] for a global pattern, and
    [s.match(re)] for a pattern without the [g] flag when [from = 0]. *)
Definition exec (r : regex) (s : jsstring) (from : nat) : option matchres :=
  if from <=? length s then search r from (drop from s) else None.

Definition test (r : regex) (s : jsstring) : bool :=
  match exec r s 0 with Some _ => true | None => false end.

(** The idiom [while ((m = re.exec(s)) !== null) { acc = f(acc, m) }] on a
    global pattern: [lastIndex] moves to the end of each match.  A match
    that does not move it would make the loop run forever; the model then
    runs out of fuel and reports [Diverges]. *)
Fixpoint exec_loop {A} (r : regex) (s : jsstring) (f : A -> matchres -> A)
  (fuel : nat) (lastIndex : nat) (acc : A) : outcome A :=
  match fuel with
  | O => Diverges
  | S n =>
      match exec r s lastIndex with
      | None => Returns acc
      | Some m => exec_loop r s f n (mr_end m) (f acc m)
      end
  end.

(** ** Outcome Extractor: [determineFinalSuccess] *)

(** [/Total\s+tests:\s*(\d+)\/(\d+)\s*passed/gi] *)
Definition totalTestsRegex : regex :=
  seqs [lit_ci (js "Total"); plus ws; lit_ci (js "tests:"); star ws;
        Group 1 (plus digit); chr 47; Group 2 (plus digit); star ws;
        lit_ci (js "passed")].

(** [/Passed\s*(\d+)\/(\d+)\s*tests/gi] *)
Definition passedLineRegex : regex :=
  seqs [lit_ci (js "Passed"); star ws; Group 1 (plus digit); chr 47;
        Group 2 (plus digit); star ws; lit_ci (js "tests")].

(** [parseInt(match[i], 10)]; an absent capture is [undefined], which
    [parseInt] turns into NaN. *)
Definition capInt (m : matchres) (i : nat) : jsnum :=
  match cap m i with
  | Some s => parseInt s
  | None => NaN
  end.

(** The pair [(lastPassed, lastTotal)] after the [while] loop over the
    matches of [r]; [None] while both are [null]. *)
Definition lastCounts (r : regex) (s : jsstring) : outcome (option (jsnum * jsnum)) :=
  exec_loop r s (fun _ m => Some (capInt m 1, capInt m 2)) (S (S (length s))) 0 None.

(** [if (total > 0) return passed === total; return false;] *)
Definition verdict (c : jsnum * jsnum) : bool :=
  if num_gtb (snd c) (Num 0) then num_eqb (fst c) (snd c) else false.

Definition determineFinalSuccess (content : jsstring) : outcome bool :=
  c ← lastCounts totalTestsRegex content;
  match c with
  | Some c => Returns (verdict c)
  | None =>
      c' ← lastCounts passedLineRegex content;
      match c' with
      | Some c' => Returns (verdict c')
      | None => Returns false
      end
  end.

(** ** Regular-expression forms of [replace], [split] and [matchAll] *)

(** [s.replace(re, rep)] for a pattern without the [g] flag *)
Definition replaceRe (r : regex) (rep s : jsstring) : jsstring :=
  match exec r s 0 with
  | None => s
  | Some m => take (mr_index m) s ++ rep ++ drop (mr_end m) s
  end.

(** The matches a global pattern yields to [replace] and [matchAll]: after
    an empty match the search resumes one code unit further. *)
Fixpoint matches_go (r : regex) (s : jsstring) (fuel : nat) (lastIndex : nat)
  : list matchres :=
  match fuel with
  | O => []
  | S n =>
      match exec r s lastIndex with
      | None => []
      | Some m =>
          m :: matches_go r s n
                 (if mr_end m =? mr_index m then S (mr_end m) else mr_end m)
      end
  end.

Definition matchAll (r : regex) (s : jsstring) : list matchres :=
  matches_go r s (S (S (length s))) 0.

Fixpoint replace_build (rep s : jsstring) (from : nat) (ms : list matchres)
  : jsstring :=
  match ms with
  | [] => drop from s
  | m :: ms' =>
      take (mr_index m - from) (drop from s) ++ rep ++ replace_build rep s (mr_end m) ms'
  end.

(** [s.replace(re, rep)] for a pattern with the [g] flag *)
Definition replaceAllRe (r : regex) (rep s : jsstring) : jsstring :=
  replace_build rep s 0 (matchAll r s).

(** [s.split(re)] for a pattern without capture groups: [p] is the start of
    the current piece, [q] the position tried next. *)
Fixpoint splitRe_go (r : regex) (s : jsstring) (fuel p q : nat) : list jsstring :=
  match fuel with
  | O => [drop p s]
  | S n =>
      if q <? length s then
        match head (run r (MState q (drop q s) ∅)) with
        | None => splitRe_go r s n p (S q)
        | Some st =>
            let e := Nat.min (m_pos st) (length s) in
            if e =? p then splitRe_go r s n p (S q)
            else take (q - p) (drop p s) :: splitRe_go r s n e e
        end
      else [drop p s]
  end.

Definition splitRe (r : regex) (s : jsstring) : list jsstring :=
  match s with
  | [] => match head (run r (MState 0 [] ∅)) with Some _ => [] | None => [[]] end
  | _ => splitRe_go r s (S (length s)) 0 0
  end.

(** ** Data model *)

(** The value stored under [changesApplied], [changesNotApplied] and
    [attemptedChanges]: [JSON.parse(s)] when [s] parses and the raw string
    [s] otherwise; both are functions of [s], which is what is kept. *)
Inductive jsonOrRaw := JsonOrRaw (s : jsstring).

(** [toolDetails]: the keys the parser writes, each absent until written. *)
Record ToolDetails := {
  editTarget : option jsstring;
  editInstructions : option jsstring;
  lineEditsCount : option jsstring;
  edits : option (list jsstring);
  syntaxValidation : option jsstring;
  syntaxError : option jsstring;
  syntaxErrorDetail : option jsstring;
  changesApplied : option jsonOrRaw;
  changesNotApplied : option jsonOrRaw;
  attemptedChanges : option jsonOrRaw;
  bytesWritten : option (option jsstring);
  filePath : option (option jsstring)
}.

Definition noDetails : ToolDetails :=
  {| editTarget := None; editInstructions := None; lineEditsCount := None;
     edits := None; syntaxValidation := None; syntaxError := None;
     syntaxErrorDetail := None; changesApplied := None;
     changesNotApplied := None; attemptedChanges := None;
     bytesWritten := None; filePath := None |}.

(** [success], [error]: [None] is [null] (or absent, for a start step);
    [toolCall]: the outer [None] is an absent key, [Some None] the value
    [undefined] of a capture that did not take part. *)
Record TrajectoryStep := {
  step_type : jsstring;
  step_content : jsstring;
  step_iteration : jsnum;
  step_success : option bool;
  step_timestamp : option jsstring;
  step_toolCall : option (option jsstring);
  step_error : option jsstring;
  step_toolDetails : option ToolDetails;
  step_toolResult : option (list jsstring)
}.

Inductive Status := pass | fail.

Global Instance Status_eq_dec : EqDecision Status.
Proof. solve_decision. Defined.

(** [name] holds a capture in the single-line shapes, hence the option:
    [None] is [undefined]. *)
Record TestResult := {
  tr_name : option jsstring;
  tr_status : Status;
  tr_fullName : jsstring
}.

Record DiffStats := {
  agentFilesChanged : nat;
  goldenFilesChanged : nat;
  agentLines : nat;
  goldenLines : nat
}.

Record DiffBundle := {
  agentDiff : option jsstring;
  goldenDiff : option jsstring;
  filesChanged : list (option jsstring);
  diffStats : DiffStats
}.

Inductive metric := MBool (b : bool) | MInt (n : jsnum).

Record Trajectory := {
  filename : jsstring;
  taskName : jsstring;
  modelName : jsstring;
  totalIterations : jsnum;
  toolCalls : nat;
  errors : nat;
  testsPassed : nat;
  totalTests : nat;
  finalSuccess : bool;
  duration : option jsstring;
  steps : list TrajectoryStep;
  finalDiffs : option DiffBundle;
  testResults : list TestResult;
  labTrainingMetrics : option (gmap string metric)
}.

(** ** Line Normalizer and Timestamp Extractor *)

(** The class [[🔍🚀📊🎯📝⏱️🧪]] of a pattern without the [u] flag: its
    members are the UTF-16 code units of the glyphs, each on its own. *)
Definition isGlyphUnit (c : N) : bool :=
  existsb (N.eqb c)
    [0xD83D; 0xDD0D; 0xD83D; 0xDE80; 0xD83D; 0xDCCA; 0xD83C; 0xDFAF;
     0xD83D; 0xDCDD; 0x23F1; 0xFE0F; 0xD83E; 0xDDEA]%N.

(** [/^[🔍🚀📊🎯📝⏱️🧪]\s+/] *)
Definition emojiPrefix : regex := seqs [Bol; Chr isGlyphUnit; plus ws].

Definition normalizeLine (line : jsstring) : jsstring :=
  trim (replaceRe emojiPrefix [] line).

(** [/\d{4}-\d{2}-\d{2}\s+\d{2}:\d{2}:\d{2}/] and [/\d{2}:\d{2}:\d{2}/] *)
Definition timestampPatterns : list regex :=
  [ seqs [rep 4 digit; chr 45; rep 2 digit; chr 45; rep 2 digit; plus ws;
          rep 2 digit; chr 58; rep 2 digit; chr 58; rep 2 digit];
    seqs [rep 2 digit; chr 58; rep 2 digit; chr 58; rep 2 digit] ].

Fixpoint firstMatch (ps : list regex) (line : jsstring) : option jsstring :=
  match ps with
  | [] => None
  | p :: ps' =>
      match exec p line 0 with
      | Some m => Some (mr_all m)
      | None => firstMatch ps' line
      end
  end.

Definition extractTimestamp (line : jsstring) : jsstring :=
  match firstMatch timestampPatterns line with
  | Some t => t
  | None => js "N/A"
  end.

(** ** Step Reconstructor: the loop of [parseLogFile] *)

(** The variables the loop of [parseLogFile] updates.  [currentStep] is a
    reference to an object that also sits in [trajectory.steps]; it is kept
    as the index of that object, and every write through it goes to the
    list. *)
Record pstate := {
  l_taskName : jsstring;
  l_modelName : jsstring;
  l_totalIterations : jsnum;
  l_toolCalls : nat;
  l_errors : nat;
  l_steps : list TrajectoryStep;
  currentIteration : option jsnum;
  currentStep : option nat;
  collectingToolResult : bool;
  toolResultBuffer : list jsstring
}.

Definition set_names (task model : jsstring) (p : pstate) : pstate :=
  {| l_taskName := task; l_modelName := model;
     l_totalIterations := l_totalIterations p; l_toolCalls := l_toolCalls p;
     l_errors := l_errors p; l_steps := l_steps p;
     currentIteration := currentIteration p; currentStep := currentStep p;
     collectingToolResult := collectingToolResult p;
     toolResultBuffer := toolResultBuffer p |}.

Definition set_iteration (it : jsnum) (p : pstate) : pstate :=
  {| l_taskName := l_taskName p; l_modelName := l_modelName p;
     l_totalIterations := num_max (l_totalIterations p) it;
     l_toolCalls := l_toolCalls p;
     l_errors := l_errors p; l_steps := l_steps p;
     currentIteration := Some it; currentStep := currentStep p;
     collectingToolResult := collectingToolResult p;
     toolResultBuffer := toolResultBuffer p |}.

Definition with_steps (f : list TrajectoryStep -> list TrajectoryStep)
  (p : pstate) : pstate :=
  {| l_taskName := l_taskName p; l_modelName := l_modelName p;
     l_totalIterations := l_totalIterations p; l_toolCalls := l_toolCalls p;
     l_errors := l_errors p; l_steps := f (l_steps p);
     currentIteration := currentIteration p; currentStep := currentStep p;
     collectingToolResult := collectingToolResult p;
     toolResultBuffer := toolResultBuffer p |}.

Definition add_error (p : pstate) : pstate :=
  {| l_taskName := l_taskName p; l_modelName := l_modelName p;
     l_totalIterations := l_totalIterations p; l_toolCalls := l_toolCalls p;
     l_errors := l_errors p + 1; l_steps := l_steps p;
     currentIteration := currentIteration p; currentStep := currentStep p;
     collectingToolResult := collectingToolResult p;
     toolResultBuffer := toolResultBuffer p |}.

Definition set_collecting (c : bool) (buf : list jsstring) (p : pstate) : pstate :=
  {| l_taskName := l_taskName p; l_modelName := l_modelName p;
     l_totalIterations := l_totalIterations p; l_toolCalls := l_toolCalls p;
     l_errors := l_errors p; l_steps := l_steps p;
     currentIteration := currentIteration p; currentStep := currentStep p;
     collectingToolResult := c; toolResultBuffer := buf |}.

(** [trajectory.toolCalls += 1; currentStep = {...}; trajectory.steps.push(currentStep);
    collectingToolResult = false; toolResultBuffer = []] *)
Definition start_step (s : TrajectoryStep) (p : pstate) : pstate :=
  {| l_taskName := l_taskName p; l_modelName := l_modelName p;
     l_totalIterations := l_totalIterations p; l_toolCalls := l_toolCalls p + 1;
     l_errors := l_errors p; l_steps := l_steps p ++ [s];
     currentIteration := currentIteration p;
     currentStep := Some (length (l_steps p));
     collectingToolResult := false; toolResultBuffer := [] |}.

Definition set_success (b : bool) (s : TrajectoryStep) : TrajectoryStep :=
  {| step_type := step_type s; step_content := step_content s;
     step_iteration := step_iteration s; step_success := Some b;
     step_timestamp := step_timestamp s; step_toolCall := step_toolCall s;
     step_error := step_error s; step_toolDetails := step_toolDetails s;
     step_toolResult := step_toolResult s |}.

Definition set_error (e : jsstring) (s : TrajectoryStep) : TrajectoryStep :=
  {| step_type := step_type s; step_content := step_content s;
     step_iteration := step_iteration s; step_success := step_success s;
     step_timestamp := step_timestamp s; step_toolCall := step_toolCall s;
     step_error := Some e; step_toolDetails := step_toolDetails s;
     step_toolResult := step_toolResult s |}.

Definition set_toolResult (r : list jsstring) (s : TrajectoryStep) : TrajectoryStep :=
  {| step_type := step_type s; step_content := step_content s;
     step_iteration := step_iteration s; step_success := step_success s;
     step_timestamp := step_timestamp s; step_toolCall := step_toolCall s;
     step_error := step_error s; step_toolDetails := step_toolDetails s;
     step_toolResult := Some r |}.

(** [s.toolDetails = s.toolDetails || {}] followed by a write [f] to it *)
Definition upd_details (f : ToolDetails -> ToolDetails) (s : TrajectoryStep)
  : TrajectoryStep :=
  {| step_type := step_type s; step_content := step_content s;
     step_iteration := step_iteration s; step_success := step_success s;
     step_timestamp := step_timestamp s; step_toolCall := step_toolCall s;
     step_error := step_error s;
     step_toolDetails := Some (f (default noDetails (step_toolDetails s)));
     step_toolResult := step_toolResult s |}.

(** A write through the reference [currentStep] *)
Definition on_step (idx : nat) (f : TrajectoryStep -> TrajectoryStep)
  (p : pstate) : pstate :=
  with_steps (alter f idx) p.

Section DetailWrites.
Variable d : ToolDetails.

Definition set_editTarget (v : jsstring) : ToolDetails :=
  {| editTarget := Some v; editInstructions := editInstructions d;
     lineEditsCount := lineEditsCount d; edits := edits d;
     syntaxValidation := syntaxValidation d; syntaxError := syntaxError d;
     syntaxErrorDetail := syntaxErrorDetail d; changesApplied := changesApplied d;
     changesNotApplied := changesNotApplied d;
     attemptedChanges := attemptedChanges d;
     bytesWritten := bytesWritten d; filePath := filePath d |}.

Definition set_editInstructions (v : jsstring) : ToolDetails :=
  {| editTarget := editTarget d; editInstructions := Some v;
     lineEditsCount := lineEditsCount d; edits := edits d;
     syntaxValidation := syntaxValidation d; syntaxError := syntaxError d;
     syntaxErrorDetail := syntaxErrorDetail d; changesApplied := changesApplied d;
     changesNotApplied := changesNotApplied d;
     attemptedChanges := attemptedChanges d;
     bytesWritten := bytesWritten d; filePath := filePath d |}.

Definition set_lineEditsCount (v : jsstring) : ToolDetails :=
  {| editTarget := editTarget d; editInstructions := editInstructions d;
     lineEditsCount := Some v; edits := edits d;
     syntaxValidation := syntaxValidation d; syntaxError := syntaxError d;
     syntaxErrorDetail := syntaxErrorDetail d; changesApplied := changesApplied d;
     changesNotApplied := changesNotApplied d;
     attemptedChanges := attemptedChanges d;
     bytesWritten := bytesWritten d; filePath := filePath d |}.

(** [d.edits = d.edits || []; d.edits.push(v)] *)
Definition push_edit (v : jsstring) : ToolDetails :=
  {| editTarget := editTarget d; editInstructions := editInstructions d;
     lineEditsCount := lineEditsCount d;
     edits := Some (default [] (edits d) ++ [v]);
     syntaxValidation := syntaxValidation d; syntaxError := syntaxError d;
     syntaxErrorDetail := syntaxErrorDetail d; changesApplied := changesApplied d;
     changesNotApplied := changesNotApplied d;
     attemptedChanges := attemptedChanges d;
     bytesWritten := bytesWritten d; filePath := filePath d |}.

Definition set_syntaxValidation (v : jsstring) : ToolDetails :=
  {| editTarget := editTarget d; editInstructions := editInstructions d;
     lineEditsCount := lineEditsCount d; edits := edits d;
     syntaxValidation := Some v; syntaxError := syntaxError d;
     syntaxErrorDetail := syntaxErrorDetail d; changesApplied := changesApplied d;
     changesNotApplied := changesNotApplied d;
     attemptedChanges := attemptedChanges d;
     bytesWritten := bytesWritten d; filePath := filePath d |}.

Definition set_syntaxFailed (msg : jsstring) : ToolDetails :=
  {| editTarget := editTarget d; editInstructions := editInstructions d;
     lineEditsCount := lineEditsCount d; edits := edits d;
     syntaxValidation := Some (js "failed"); syntaxError := Some msg;
     syntaxErrorDetail := syntaxErrorDetail d; changesApplied := changesApplied d;
     changesNotApplied := changesNotApplied d;
     attemptedChanges := attemptedChanges d;
     bytesWritten := bytesWritten d; filePath := filePath d |}.

Definition set_syntaxErrorDetail (v : jsstring) : ToolDetails :=
  {| editTarget := editTarget d; editInstructions := editInstructions d;
     lineEditsCount := lineEditsCount d; edits := edits d;
     syntaxValidation := syntaxValidation d; syntaxError := syntaxError d;
     syntaxErrorDetail := Some v; changesApplied := changesApplied d;
     changesNotApplied := changesNotApplied d;
     attemptedChanges := attemptedChanges d;
     bytesWritten := bytesWritten d; filePath := filePath d |}.

Definition set_changesApplied (v : jsonOrRaw) : ToolDetails :=
  {| editTarget := editTarget d; editInstructions := editInstructions d;
     lineEditsCount := lineEditsCount d; edits := edits d;
     syntaxValidation := syntaxValidation d; syntaxError := syntaxError d;
     syntaxErrorDetail := syntaxErrorDetail d; changesApplied := Some v;
     changesNotApplied := changesNotApplied d;
     attemptedChanges := attemptedChanges d;
     bytesWritten := bytesWritten d; filePath := filePath d |}.

Definition set_changesNotApplied (v : jsonOrRaw) : ToolDetails :=
  {| editTarget := editTarget d; editInstructions := editInstructions d;
     lineEditsCount := lineEditsCount d; edits := edits d;
     syntaxValidation := syntaxValidation d; syntaxError := syntaxError d;
     syntaxErrorDetail := syntaxErrorDetail d; changesApplied := changesApplied d;
     changesNotApplied := Some v;
     attemptedChanges := attemptedChanges d;
     bytesWritten := bytesWritten d; filePath := filePath d |}.

Definition set_attemptedChanges (v : jsonOrRaw) : ToolDetails :=
  {| editTarget := editTarget d; editInstructions := editInstructions d;
     lineEditsCount := lineEditsCount d; edits := edits d;
     syntaxValidation := syntaxValidation d; syntaxError := syntaxError d;
     syntaxErrorDetail := syntaxErrorDetail d; changesApplied := changesApplied d;
     changesNotApplied := changesNotApplied d;
     attemptedChanges := Some v;
     bytesWritten := bytesWritten d; filePath := filePath d |}.

Definition set_written (bytes path : option jsstring) : ToolDetails :=
  {| editTarget := editTarget d; editInstructions := editInstructions d;
     lineEditsCount := lineEditsCount d; edits := edits d;
     syntaxValidation := syntaxValidation d; syntaxError := syntaxError d;
     syntaxErrorDetail := syntaxErrorDetail d; changesApplied := changesApplied d;
     changesNotApplied := changesNotApplied d;
     attemptedChanges := attemptedChanges d;
     bytesWritten := Some bytes; filePath := Some path |}.
End DetailWrites.

(** Truthiness of a string that may be [undefined] *)
Definition truthy (o : option jsstring) : option jsstring :=
  match o with
  | Some [] => None
  | _ => o
  end.

(** [line.split(sep)[1]?.trim()] *)
Definition afterSep (sep line : jsstring) : option jsstring :=
  trim <$> (split sep line !! 1).

(** [/\d{4}-\d{2}-\d{2}/] *)
Definition datePattern : regex :=
  seqs [rep 4 digit; chr 45; rep 2 digit; chr 45; rep 2 digit].
(** [/Iteration (\d+)/] *)
Definition iterationRe : regex :=
  seqs [lit (js "Iteration "); Group 1 (plus digit)].
(** [/Tool call \d+: (\w+)/] *)
Definition toolCallRe : regex :=
  seqs [lit (js "Tool call "); plus digit; lit (js ": "); Group 1 (plus word)].
(** [/HARNESS: Edit \d+:/] *)
Definition editRe : regex :=
  seqs [lit (js "HARNESS: Edit "); plus digit; chr 58].
(** [/Writing (\d+) characters to (.+)/] *)
Definition writingRe : regex :=
  seqs [lit (js "Writing "); Group 1 (plus digit); lit (js " characters to ");
        Group 2 (plus dot)].
(** [/Tool 0 result success: (\w+)/] *)
Definition successRe : regex :=
  seqs [lit (js "Tool 0 result success: "); Group 1 (plus word)].

(** The template literal [`Executing ${toolName}`] *)
Definition executing (toolName : option jsstring) : jsstring :=
  js "Executing " ++ default (js "undefined") toolName.

(** The object pushed by the "Starting benchmark run" rule *)
Definition startStep (timestamp : jsstring) : TrajectoryStep :=
  {| step_type := js "start"; step_content := js "Starting benchmark run";
     step_iteration := Num 0; step_success := Some true;
     step_timestamp := Some timestamp; step_toolCall := None;
     step_error := None; step_toolDetails := None; step_toolResult := None |}.

(** The object the "HARNESS: Tool call" rule makes the current step *)
Definition iterationStep (it : jsnum) (toolName : option jsstring)
  (timestamp : jsstring) : TrajectoryStep :=
  {| step_type := js "iteration"; step_iteration := it;
     step_toolCall := Some toolName; step_success := None;
     step_content := executing toolName; step_error := None;
     step_toolDetails := Some noDetails; step_toolResult := Some [];
     step_timestamp := Some timestamp |}.

(** The [for (const part of parts)] loop of the "Dataset:" rule.
    [part.split("Model:")[1].trim()] has no [?.]: an absent second piece
    would raise a TypeError. *)
Fixpoint header_parts (parts : list jsstring) (p : pstate) : outcome pstate :=
  match parts with
  | [] => Returns p
  | part :: rest =>
      if includes part (js "Model:") then
        v ← defined (split (js "Model:") part !! 1);
        header_parts rest (set_names (l_taskName p) (trim v) p)
      else if includes part (js "Task:") then
        v ← defined (split (js "Task:") part !! 1);
        header_parts rest (set_names (trim v) (l_modelName p) p)
      else header_parts rest p
  end.

(** The rules of the loop body, named after the order in which the
    [if ... else if] chain tries them. *)
Inductive rule :=
| RStart | RHeader | RIteration | RToolCall
| REditTarget | REditInstructions | RLineEdits | REdit | RSyntaxPassed
| RSyntaxError | RSyntaxErrorDetail | RChangesApplied | RChangesNotApplied
| RAttempted | RWriting
| RCollect | RResult | RError | RNone.

Global Instance rule_eq_dec : EqDecision rule.
Proof. solve_decision. Defined.

Definition hasStep (p : pstate) : bool :=
  match currentStep p with Some _ => true | None => false end.

(** Which branch of the chain takes the normalized line [line] *)
Definition classify (p : pstate) (line : jsstring) : rule :=
  if includes line (js "Starting benchmark run") then RStart
  else if includes line (js "Dataset:") && includes line (js "Agent:")
          && includes line (js "Model:") then RHeader
  else if includes line (js "HARNESS: Iteration")
          && includes line (js "making LLM call") then RIteration
  else if includes line (js "HARNESS: Tool call")
          && bool_decide (currentIteration p <> None) then RToolCall
  else if hasStep p && includes line (js "HARNESS: Edit target:") then REditTarget
  else if hasStep p && includes line (js "HARNESS: Edit instructions:")
       then REditInstructions
  else if hasStep p && includes line (js "HARNESS: Line edits count:")
       then RLineEdits
  else if hasStep p && test editRe line then REdit
  else if hasStep p && includes line (js "HARNESS: Python syntax validation passed")
       then RSyntaxPassed
  else if hasStep p && includes line (js "HARNESS: Python syntax error")
       then RSyntaxError
  else if hasStep p && includes line (js "HARNESS: SYNTAX ERROR at line")
       then RSyntaxErrorDetail
  else if hasStep p && includes line (js "HARNESS: Changes applied:")
       then RChangesApplied
  else if hasStep p
          && includes line (js "HARNESS: Changes that would have been applied:")
       then RChangesNotApplied
  else if hasStep p && includes line (js "HARNESS: Attempted changes:")
       then RAttempted
  else if hasStep p && includes line (js "HARNESS: Writing")
          && includes line (js "characters to") then RWriting
  else if collectingToolResult p && hasStep p && negb (eqs line []) then RCollect
  else if includes line (js "Tool 0 result success:") && hasStep p then RResult
  else if includes (toUpperCase line) (js "ERROR") && hasStep p then RError
  else RNone.

(** A write to a detail of the current step, when the value is truthy *)
Definition write_detail (p : pstate) (v : option jsstring)
  (f : ToolDetails -> jsstring -> ToolDetails) : pstate :=
  match currentStep p, truthy v with
  | Some idx, Some s => on_step idx (upd_details (fun d => f d s)) p
  | _, _ => p
  end.

(** The body of the branch [r] on the trimmed line [rawLine] and its
    normalized form [line] *)
Definition apply_rule (r : rule) (p : pstate) (rawLine line : jsstring)
  : outcome pstate :=
  match r with
  | RStart =>
      let timestamp :=
        match exec datePattern rawLine 0 with
        | Some m => mr_all m
        | None => extractTimestamp rawLine
        end in
      Returns (with_steps (fun l => l ++ [startStep timestamp]) p)
  | RHeader => header_parts (split (js ",") line) p
  | RIteration =>
      match exec iterationRe line 0 with
      | Some m => Returns (set_iteration (capInt m 1) p)
      | None => Returns p
      end
  | RToolCall =>
      match exec toolCallRe line 0, currentIteration p with
      | Some m, Some it =>
          let toolName := cap m 1 in
          Returns (start_step
                     (iterationStep it toolName (extractTimestamp rawLine)) p)
      | _, _ => Returns p
      end
  | REditTarget =>
      Returns (write_detail p (afterSep (js "HARNESS: Edit target:") line)
                 set_editTarget)
  | REditInstructions =>
      Returns (write_detail p (afterSep (js "HARNESS: Edit instructions:") line)
                 set_editInstructions)
  | RLineEdits =>
      Returns (write_detail p (afterSep (js "HARNESS: Line edits count:") line)
                 set_lineEditsCount)
  | REdit =>
      Returns (write_detail p (trim <$> (splitRe editRe line !! 1)) push_edit)
  | RSyntaxPassed =>
      Returns match currentStep p with
              | Some idx =>
                  on_step idx
                    (upd_details (fun d => set_syntaxValidation d (js "passed"))) p
              | None => p
              end
  | RSyntaxError =>
      let errorMsg := afterSep (js "HARNESS: Python syntax error in") line in
      Returns match currentStep p with
              | Some idx =>
                  on_step idx
                    (upd_details (fun d =>
                       set_syntaxFailed d
                         (default (js "Syntax error detected") (truthy errorMsg)))) p
              | None => p
              end
  | RSyntaxErrorDetail =>
      Returns (write_detail p (afterSep (js "HARNESS: SYNTAX ERROR at line") line)
                 set_syntaxErrorDetail)
  | RChangesApplied =>
      Returns (write_detail p (afterSep (js "HARNESS: Changes applied:") line)
                 (fun d s => set_changesApplied d (JsonOrRaw s)))
  | RChangesNotApplied =>
      Returns (write_detail p
                 (afterSep (js "HARNESS: Changes that would have been applied:") line)
                 (fun d s => set_changesNotApplied d (JsonOrRaw s)))
  | RAttempted =>
      Returns (write_detail p (afterSep (js "HARNESS: Attempted changes:") line)
                 (fun d s => set_attemptedChanges d (JsonOrRaw s)))
  | RWriting =>
      match exec writingRe line 0, currentStep p with
      | Some m, Some idx =>
          Returns (on_step idx
                     (upd_details (fun d => set_written d (cap m 1) (cap m 2))) p)
      | _, _ => Returns p
      end
  | RCollect =>
      match currentStep p with
      | Some idx =>
          let buf := toolResultBuffer p ++ [line] in
          Returns (on_step idx (set_toolResult buf)
                     (set_collecting (collectingToolResult p) buf p))
      | None => Returns p
      end
  | RResult =>
      match exec successRe line 0, currentStep p with
      | Some m, Some idx =>
          w ← defined (cap m 1);
          let isSuccess := eqs (toLowerCase w) (js "true") in
          let p1 := on_step idx (set_success isSuccess) p in
          let p2 := if isSuccess then p1 else add_error p1 in
          Returns (set_collecting true [] p2)
      | _, _ => Returns p
      end
  | RError =>
      match currentStep p with
      | Some idx =>
          match l_steps p !! idx with
          | Some s =>
              match truthy (step_error s) with
              | None => Returns (add_error (on_step idx (set_error line) p))
              | Some _ => Returns p
              end
          | None => Returns p
          end
      | None => Returns p
      end
  | RNone => Returns p
  end.

(** One turn of the [for] loop over [lines] *)
Definition step_line (p : pstate) (l : jsstring) : outcome pstate :=
  let rawLine := trim l in
  if eqs rawLine [] then Returns p
  else
    let line := normalizeLine rawLine in
    apply_rule (classify p line) p rawLine line.

Fixpoint run_lines (lines : list jsstring) (p : pstate) : outcome pstate :=
  match lines with
  | [] => Returns p
  | l :: rest => p' ← step_line p l; run_lines rest p'
  end.

(** ** Test Result Extractor: [parseTestResults] *)

Definition lazyGroup (i : nat) : regex := Group i (plus_lazy dot).

(** [/pass\s+(.+?)::(.+?):\s+PASSED/] and [/fail\s+(.+?)::(.+?):\s+FAILED/] *)
Definition passMatchRe : regex :=
  seqs [lit (js "pass"); plus ws; lazyGroup 1; lit (js "::"); lazyGroup 2;
        chr 58; plus ws; lit (js "PASSED")].
Definition failMatchRe : regex :=
  seqs [lit (js "fail"); plus ws; lazyGroup 1; lit (js "::"); lazyGroup 2;
        chr 58; plus ws; lit (js "FAILED")].
(** [/pass\s+(.+?)::(.+?):\s*$/] and [/fail\s+(.+?)::(.+?):\s*$/] *)
Definition passStartRe : regex :=
  seqs [lit (js "pass"); plus ws; lazyGroup 1; lit (js "::"); lazyGroup 2;
        chr 58; star ws; Eol].
Definition failStartRe : regex :=
  seqs [lit (js "fail"); plus ws; lazyGroup 1; lit (js "::"); lazyGroup 2;
        chr 58; star ws; Eol].
(** [/^pass\s*$/] and [/^fail\s*$/] *)
Definition passOnlyRe : regex := seqs [Bol; lit (js "pass"); star ws; Eol].
Definition failOnlyRe : regex := seqs [Bol; lit (js "fail"); star ws; Eol].

(** [`${a}::${b}`] on two captures *)
Definition tmpl (o : option jsstring) : jsstring := default (js "undefined") o.

(** The record pushed for a match [m] of one of the four two-group patterns *)
Definition resultOf (m : matchres) (st : Status) : TestResult :=
  {| tr_name := cap m 2; tr_status := st;
     tr_fullName := tmpl (cap m 1) ++ js "::" ++ tmpl (cap m 2) |}.

(** The look-ahead [while (j < lines.length && j < i + 4)] of the two
    standalone branches; [budget] is [i + 4 - j].  [word] is the outcome word
    of the branch and [other] the opposite one.  The result is
    [(fullTestPath, j, foundEnd)] on leaving the loop. *)
Fixpoint lookahead (word other : jsstring) (lines : list jsstring)
  (budget j : nat) (fullTestPath : jsstring) : jsstring * nat * bool :=
  match budget with
  | O => (fullTestPath, j, false)
  | S b =>
      match lines !! j with
      | None => (fullTestPath, j, false)
      | Some l =>
          let nextLine := trim l in
          if eqs nextLine (js "pass") || eqs nextLine (js "fail")
          then (fullTestPath, j, false)
          else if includes nextLine (js ": " ++ word)
          then (fullTestPath ++ replaceStr (js ": " ++ word) [] nextLine, j, true)
          else if eqs nextLine word then (fullTestPath, j, true)
          else if includes nextLine (js "::")
          then lookahead word other lines b (S j) (fullTestPath ++ nextLine)
          else if (0 <? length nextLine) && negb (includes nextLine other)
          then lookahead word other lines b (S j) (fullTestPath ++ nextLine)
          else lookahead word other lines b (S j) fullTestPath
      end
  end.

(** The standalone branch: the results to push and the new value of [i] *)
Definition standalone (word other : jsstring) (st : Status)
  (lines : list jsstring) (i : nat) : list TestResult * nat :=
  let '(fullTestPath, j, foundEnd) := lookahead word other lines 3 (i + 1) [] in
  if foundEnd && includes fullTestPath (js "::") then
    let parts := split (js "::") fullTestPath in
    if 2 <=? length parts then
      let filePath := default [] (head parts) in
      let testName := join (js "::") (tail parts) in
      ([{| tr_name := Some testName; tr_status := st;
           tr_fullName := filePath ++ js "::" ++ testName |}], j)
    else ([], i)
  else ([], i).

(** The line following line [i], trimmed, when [i + 1 < lines.length] *)
Definition nextTrimmed (lines : list jsstring) (i : nat) : option jsstring :=
  trim <$> (lines !! (i + 1)).

(** The body of the [for] loop at index [i] on the trimmed line [line]:
    the results pushed and the value of [i] at the end of the body. *)
Definition test_body (lines : list jsstring) (i : nat) (line : jsstring)
  : list TestResult * nat :=
  let guard := bool_decide (is_Some (lines !! (i + 1))) in
  match exec passMatchRe line 0 with
  | Some m => ([resultOf m pass], i)
  | None =>
  match exec failMatchRe line 0 with
  | Some m => ([resultOf m fail], i)
  | None =>
  match (if guard then exec passStartRe line 0 else None) with
  | Some m =>
      if bool_decide (nextTrimmed lines i = Some (js "PASSED"))
      then ([resultOf m pass], i + 1) else ([], i)
  | None =>
  match (if guard then exec failStartRe line 0 else None) with
  | Some m =>
      if bool_decide (nextTrimmed lines i = Some (js "FAILED"))
      then ([resultOf m fail], i + 1) else ([], i)
  | None =>
      if guard && test passOnlyRe line
      then standalone (js "PASSED") (js "FAILED") pass lines i
      else if guard && test failOnlyRe line
      then standalone (js "FAILED") (js "PASSED") fail lines i
      else ([], i)
  end end end end.

(** [for (let i = 0; i < lines.length; i++)] with a body that may move [i] *)
Fixpoint test_loop (fuel : nat) (lines : list jsstring) (i : nat)
  (acc : list TestResult) : outcome (list TestResult) :=
  match fuel with
  | O => Diverges
  | S n =>
      match lines !! i with
      | None => Returns acc
      | Some l =>
          let '(new, i') := test_body lines i (trim l) in
          test_loop n lines (S i') (acc ++ new)
      end
  end.

Definition parseTestResults (content : jsstring) : outcome (list TestResult) :=
  let lines := split LF content in
  test_loop (S (length lines)) lines 0 [].

(** ** Lab Training Metrics Extractor: [parseLabTrainingMetrics] *)

(** [/Label:\s*(\d+)/] *)
Definition countRe (label : string) : regex :=
  seqs [lit (js label); star ws; Group 1 (plus digit)].

Definition set_count (label key : string) (metricLine : jsstring)
  (metrics : gmap string metric) : gmap string metric :=
  match exec (countRe label) metricLine 0 with
  | Some m => <[key := MInt (capInt m 1)]> metrics
  | None => metrics
  end.

Definition isTrue (metricLine : jsstring) : metric :=
  MBool (includes metricLine (js "True")).

(** The inner loop over the indices [j]; leaving the list early is [break] *)
Fixpoint scanMetrics (lines : list jsstring) (indices : list nat)
  (metrics : gmap string metric) : gmap string metric :=
  match indices with
  | [] => metrics
  | j :: rest =>
      let metricLine := trim (default [] (lines !! j)) in
      if includes metricLine (js "Tests Passed:")
      then scanMetrics lines rest (<["testsPassed" := isTrue metricLine]> metrics)
      else if includes metricLine (js "Agent Success:")
      then scanMetrics lines rest (<["agentSuccess" := isTrue metricLine]> metrics)
      else if includes metricLine (js "Code Changes Made:")
      then scanMetrics lines rest (<["codeChangesMade" := isTrue metricLine]> metrics)
      else if includes metricLine (js "No Syntax Errors:")
      then scanMetrics lines rest (<["noSyntaxErrors" := isTrue metricLine]> metrics)
      else if includes metricLine (js "Conversation Length:")
      then scanMetrics lines rest
             (set_count "Conversation Length:" "conversationLength" metricLine metrics)
      else if includes metricLine (js "Successful Edits:")
      then scanMetrics lines rest
             (set_count "Successful Edits:" "successfulEdits" metricLine metrics)
      else if includes metricLine (js "Final Code Files:")
      then scanMetrics lines rest
             (set_count "Final Code Files:" "finalCodeFiles" metricLine metrics)
      else if includes metricLine (js "-- Details --") then metrics
      else scanMetrics lines rest metrics
  end.

(** The indices of [for (let j = i + 1; j < Math.min(i + 20, n); j++)] *)
Definition window (i n : nat) : list nat :=
  seq (i + 1) (Nat.min (i + 20) n - (i + 1)).

(** The outer loop: [rest] is [lines] from index [i] on *)
Fixpoint findMetrics (lines : list jsstring) (i : nat) (rest : list jsstring)
  : gmap string metric :=
  match rest with
  | [] => ∅
  | l :: rest' =>
      if includes (trim l) (js "-- Lab Training Metrics --")
      then scanMetrics lines (window i (length lines)) ∅
      else findMetrics lines (S i) rest'
  end.

(** [None] is [undefined] *)
Definition parseLabTrainingMetrics (content : jsstring)
  : option (gmap string metric) :=
  let lines := split LF content in
  let metrics := findMetrics lines 0 lines in
  if 0 <? size metrics then Some metrics else None.

(** ** [extractDuration] *)

(** [/Total\s+duration:\s*([^\n]+)/i] *)
Definition durationRegex : regex :=
  seqs [lit_ci (js "Total"); plus ws; lit_ci (js "duration:"); star ws;
        Group 1 (plus (Chr (fun c => negb (c =? 10)%N)))].

Definition extractDuration (content : jsstring) : option jsstring :=
  match exec durationRegex content 0 with
  | Some m => trim <$> truthy (cap m 1)
  | None => None
  end.

(** ** Diff Extractor: [extractDiffs] *)

Definition notQuote : regex := Chr (fun c => negb (c =? 39)%N).

(** The pattern of [extractDiffs] for one key: the quoted key, a colon,
    optional white space, then a quoted value captured as group 1, the value
    being a run of non-quotes followed by any number of (backslash, quote,
    run of non-quotes) pieces. *)
Definition diffRe (key : string) : regex :=
  seqs [chr 39; lit (js key); chr 39; chr 58; star ws; chr 39;
        Group 1 (Seq (star notQuote)
                     (star (Seq (lit [92; 39]%N) (star notQuote))));
        chr 39].

(** [.replace(/\\'/g, "'").replace(/\\n/g, "\n").replace(/\\t/g, "\t")] *)
Definition unescape (s : jsstring) : jsstring :=
  replaceAllRe (lit [92; 116]%N) [9%N]
    (replaceAllRe (lit [92; 110]%N) [10%N]
       (replaceAllRe (lit [92; 39]%N) [39%N] s)).

(** [/--- a\/(.*?)\n\+\+\+ b\//g] *)
Definition fileRe : regex :=
  seqs [lit (js "--- a/"); Group 1 (star_lazy dot); chr 10; lit (js "+++ b/")].

(** [Array.from(new Set(xs))]: the first occurrence of each value is kept *)
Fixpoint dedupe (seen xs : list (option jsstring)) : list (option jsstring) :=
  match xs with
  | [] => []
  | x :: xs' =>
      if bool_decide (x ∈ seen) then dedupe seen xs'
      else x :: dedupe (x :: seen) xs'
  end.

(** The diff text of one key: [Returns None] when the fragment is absent;
    a capture that is [undefined] would raise on [.replace]. *)
Definition diffText (key : string) (content : jsstring)
  : outcome (option jsstring) :=
  match exec (diffRe key) content 0 with
  | Some m => c ← defined (cap m 1); Returns (Some (unescape c))
  | None => Returns None
  end.

(** [d ? d.split("\n").length : 0] *)
Definition lineCount (d : option jsstring) : nat :=
  match truthy d with
  | Some t => length (split LF t)
  | None => 0
  end.

Definition extractDiffs_body (content : jsstring) : outcome DiffBundle :=
  agent ← diffText "agent_diff" content;
  golden ← diffText "golden_diff" content;
  let files :=
    match truthy agent with
    | Some t => dedupe [] (List.map (fun m => cap m 1) (matchAll fileRe t))
    | None => []
    end in
  Returns {| agentDiff := agent; goldenDiff := golden; filesChanged := files;
             diffStats :=
               {| agentFilesChanged := length files;
                  goldenFilesChanged := match truthy golden with
                                        | Some _ => 1 | None => 0 end;
                  agentLines := lineCount agent;
                  goldenLines := lineCount golden |} |}.

(** [try { ... } catch (error) { return null }]; [None] is [null] *)
Definition extractDiffs (content : jsstring) : outcome (option DiffBundle) :=
  match extractDiffs_body content with
  | Returns b => Returns (Some b)
  | Throws => Returns None
  | Diverges => Diverges
  end.

(** ** Trajectory Assembler: [parseLogFile] *)

(** The model name read off an old-format file name *)
Definition modelOfFilename (filename : jsstring) : jsstring :=
  if includes filename (js "gpt-5") then js "gpt-5"
  else if includes filename (js "gpt-4") then js "gpt-4"
  else if includes filename (js "claude") then
    if includes filename (js "claude-3-5-sonnet") then js "claude-3-5-sonnet"
    else if includes filename (js "claude-sonnet-4") then js "claude-sonnet-4-5-20250929"
    else js "claude-3-5-sonnet"
  else if includes filename (js "gemini") then
    if includes filename (js "gemini-2.5-flash-preview-09-2025")
    then js "gemini-2.5-flash-preview"
    else if includes filename (js "gemini-2.5-pro") then js "gemini-2.5-pro"
    else js "gemini-2.5-flash"
  else js "unknown".

(** [(taskName, modelName)] after the file-name block *)
Definition namesOfFilename (filename : jsstring) : jsstring * jsstring :=
  let filenameParts := split (js "_") filename in
  if 2 <=? length filenameParts then
    if length filenameParts =? 2 then
      (replaceStr (js ".log") [] (default [] (filenameParts !! 1)),
       default [] (filenameParts !! 0))
    else
      (replaceStr (js ".log") [] (default [] (last filenameParts)),
       modelOfFilename filename)
  else (js "unknown", js "unknown").

Definition initial (fname : jsstring) : pstate :=
  {| l_taskName := fst (namesOfFilename fname);
     l_modelName := snd (namesOfFilename fname);
     l_totalIterations := Num 0; l_toolCalls := 0; l_errors := 0;
     l_steps := []; currentIteration := None; currentStep := None;
     collectingToolResult := false; toolResultBuffer := [] |}.

Definition parseLogFile (fname content : jsstring) : outcome Trajectory :=
  p ← run_lines (split LF content) (initial fname);
  results ← parseTestResults content;
  success ← determineFinalSuccess content;
  diffs ← extractDiffs content;
  Returns
    {| filename := fname;
       taskName := l_taskName p;
       modelName := l_modelName p;
       totalIterations := l_totalIterations p;
       toolCalls := l_toolCalls p;
       errors := l_errors p;
       testsPassed := length (List.filter (fun t => bool_decide (tr_status t = pass)) results);
       totalTests := length results;
       finalSuccess := success;
       duration := extractDuration content;
       steps := l_steps p;
       finalDiffs := diffs;
       testResults := results;
       labTrainingMetrics := parseLabTrainingMetrics content |}.

(** ** Client-side helpers of [src/app/page.tsx] *)

(** [parsePassFailFromLogText]: [None] is [null] *)
Definition parsePassFailFromLogText (text : jsstring) : outcome (option bool) :=
  match text with
  | [] => Returns None
  | _ =>
      c ← lastCounts totalTestsRegex text;
      match c with
      | Some c => Returns (Some (verdict c))
      | None =>
          c' ← lastCounts passedLineRegex text;
          match c' with
          | Some c' => Returns (Some (verdict c'))
          | None => Returns None
          end
      end
  end.

Definition isSep (c : N) : bool := ((c =? 45) || (c =? 95))%N.
Definition isSepDot (c : N) : bool := isSep c || (c =? 46)%N.
Definition isAlnum (c : N) : bool := isAlpha c || isDigit c.

Definition logOrTxt : regex := Alt (lit_ci (js "log")) (lit_ci (js "txt")).

(** [/^(.+?)[-_](.+?)\.(log|txt)$/i], [/^(.+?)[-_](.+)$/i] and
    [/^([^-_]+)[-_](.+)$/] *)
Definition modelPatterns : list regex :=
  [ seqs [Bol; Group 1 (plus_lazy dot); Chr isSep; Group 2 (plus_lazy dot);
          chr 46; Group 3 logOrTxt; Eol];
    seqs [Bol; Group 1 (plus_lazy dot); Chr isSep; Group 2 (plus dot); Eol];
    seqs [Bol; Group 1 (plus (Chr (fun c => negb (isSep c)))); Chr isSep;
          Group 2 (plus dot); Eol] ].

(** [/^[a-zA-Z]([a-zA-Z0-9._-]*[a-zA-Z0-9])?$/] *)
Definition modelShape : regex :=
  seqs [Bol; Chr isAlpha;
        opt (Group 1 (Seq (star (Chr (fun c => isAlnum c || isSepDot c)))
                          (Chr isAlnum)));
        Eol].

(** [/^[-_.]+/] and [/\.(log|txt)$/i] *)
Definition leadingSeps : regex := seqs [Bol; plus (Chr isSepDot)].
Definition logExt : regex := seqs [chr 46; Group 1 logOrTxt; Eol].

(** [s.replace(/^[-_.]+/, '').replace(/\.(log|txt)$/i, '')] *)
Definition cleanTask (s : jsstring) : jsstring :=
  replaceRe logExt [] (replaceRe leadingSeps [] s).

Definition SP : jsstring := [32%N].

(** The first loop of [parseTrajectoryFilename]: the display name of the
    first known model found in [fname], trying the models in order, with the
    substring after it; [None] when no known model occurs. *)
Fixpoint knownDisplay (known : list (jsstring * jsstring)) (fname : jsstring)
  : option (jsstring * jsstring) :=
  match known with
  | [] => None
  | (pattern, display) :: rest =>
      match indexOf pattern fname with
      | Some idx => Some (display, substring fname (idx + length pattern))
      | None => knownDisplay rest fname
      end
  end.

(** The first loop of [getTaskIdFromFilename] *)
Fixpoint knownTask (known : list jsstring) (fname : jsstring) : option jsstring :=
  match known with
  | [] => None
  | pattern :: rest =>
      match indexOf pattern fname with
      | Some idx => Some (substring fname (idx + length pattern))
      | None => knownTask rest fname
      end
  end.

Section Resolver.
(** [String.prototype.toUpperCase] and [toLowerCase] over all of Unicode
    are left abstract: the resolvers only build display strings with
    them. *)
Variables upperCase lowerCase : jsstring -> jsstring.

(** [word.charAt(0).toUpperCase() + word.slice(1)] *)
Definition capitalize (w : jsstring) : jsstring :=
  upperCase (take 1 w) ++ drop 1 w.

(** [s.replace(/[_-]+/g, ' ').trim().split(' ').filter(Boolean).map(...).join(' ')] *)
Definition titleCase (s : jsstring) : jsstring :=
  join SP
    (List.map capitalize
       (List.filter (fun w => negb (eqs w []))
          (split SP (trim (replaceAllRe (plus (Chr isSep)) SP s))))).

Definition formatTaskIdToTitle (taskId : jsstring) : jsstring := titleCase taskId.

(** The display form of a model segment found by a generic pattern *)
Definition modelTitle (potentialModel : jsstring) : jsstring :=
  join SP
    (List.map (fun w => upperCase (take 1 w) ++ lowerCase (drop 1 w))
       (split SP (replaceAllRe (chr 45) SP (replaceAllRe (chr 95) SP potentialModel)))).

(** The loop over [modelPatterns] of [parseTrajectoryFilename]: the first
    pattern that matches with a model-shaped first group gives the model
    and [match[2] || filename].  (Group 1 takes part in every match of the
    three patterns.) *)
Fixpoint genericModel (patterns : list regex) (fname : jsstring)
  : option (jsstring * jsstring) :=
  match patterns with
  | [] => None
  | pattern :: rest =>
      match exec pattern fname 0 with
      | Some m =>
          let potentialModel := tmpl (cap m 1) in
          if test modelShape potentialModel
          then Some (modelTitle potentialModel,
                     default fname (truthy (cap m 2)))
          else genericModel rest fname
      | None => genericModel rest fname
      end
  end.

Definition knownModels : list (jsstring * jsstring) :=
  [ (js "claude-sonnet-4-5-20250929", js "Claude Sonnet 4.5");
    (js "gemini_gemini-2.5-pro", js "Gemini 2.5 Pro");
    (js "gpt-5", js "GPT-5") ].

(** [(model, task)] *)
Definition parseTrajectoryFilename (fname : jsstring) : jsstring * jsstring :=
  let '(model, taskRaw) :=
    match knownDisplay knownModels fname with
    | Some found => found
    | None => (js "Unknown", fname)
    end in
  let '(model, taskRaw) :=
    if eqs model (js "Unknown") then
      match genericModel modelPatterns fname with
      | Some found => found
      | None => (model, taskRaw)
      end
    else (model, taskRaw) in
  let taskRaw := cleanTask taskRaw in
  let taskRaw := if eqs taskRaw [] then replaceRe logExt [] fname else taskRaw in
  (model, titleCase taskRaw).

(** The loop over [modelPatterns] of [getTaskIdFromFilename]: the first
    pattern that matches with a truthy second group *)
Fixpoint genericTask (patterns : list regex) (fname : jsstring)
  : option jsstring :=
  match patterns with
  | [] => None
  | pattern :: rest =>
      match exec pattern fname 0 with
      | Some m =>
          match truthy (cap m 2) with
          | Some t => Some t
          | None => genericTask rest fname
          end
      | None => genericTask rest fname
      end
  end.

Definition knownModelIds : list jsstring :=
  [ js "claude-sonnet-4-5-20250929"; js "gemini_gemini-2.5-pro"; js "gpt-5" ].

Definition getTaskIdFromFilename (fname : jsstring) : jsstring :=
  let taskRaw := default fname (knownTask knownModelIds fname) in
  let taskRaw :=
    if eqs taskRaw fname then default taskRaw (genericTask modelPatterns fname)
    else taskRaw in
  let taskRaw := cleanTask taskRaw in
  if eqs taskRaw [] then replaceRe logExt [] fname else taskRaw.
End Resolver.

(** ** The trajectory view of [src/app/page.tsx] *)

(** [/^.?\s*HARNESS:/] *)
Definition harnessPattern : regex :=
  seqs [Bol; opt dot; star ws; lit (js "HARNESS:")].

(** [lines.filter(line => !harnessPattern.test(line.trim()))] *)
Definition filterHarnessMessages (lines : list jsstring) : list jsstring :=
  List.filter (fun line => negb (test harnessPattern (trim line))) lines.

(** The four patterns of [extractGradingMetrics], all with the [i] flag:
    the test-tube glyph U+1F9EA, [\s*Total tests:\s*\d+\/\d+\s*passed];
    the stopwatch U+23F1 U+FE0F, [\s*Total duration:\s*.+];
    [Lab Training Outcome:\s*(FAILURE|SUCCESS)\s*\(binary\)];
    the magnifier U+1F50D, [\s*GRADER:\s*Agent diff length:\s*\d+\s*chars]. *)
Definition gradingPatterns : list regex :=
  [ seqs [lit [0xD83E; 0xDDEA]%N; star ws; lit_ci (js "Total tests:"); star ws;
          plus digit; chr 47; plus digit; star ws; lit_ci (js "passed")];
    seqs [lit [0x23F1; 0xFE0F]%N; star ws; lit_ci (js "Total duration:"); star ws;
          plus dot];
    seqs [lit_ci (js "Lab Training Outcome:"); star ws;
          Group 1 (Alt (lit_ci (js "FAILURE")) (lit_ci (js "SUCCESS"))); star ws;
          lit_ci (js "(binary)")];
    seqs [lit [0xD83D; 0xDD0D]%N; star ws; lit_ci (js "GRADER:"); star ws;
          lit_ci (js "Agent diff length:"); star ws; plus digit; star ws;
          lit_ci (js "chars")] ].

(** [lines.filter(line => gradingPatterns.some(p => p.test(line.trim())))] *)
Definition extractGradingMetrics (lines : list jsstring) : list jsstring :=
  List.filter (fun line => existsb (fun p => test p (trim line)) gradingPatterns) lines.

(** [/⏱️.*Total duration:\s*(.+)/i] *)
Definition lastDurationRe : regex :=
  seqs [lit [0x23F1; 0xFE0F]%N; star dot; lit_ci (js "Total duration:"); star ws;
        Group 1 (plus dot)].

(** [const m = s.match(re); if (m) return m[1].trim()]: [Returns None]
    when there is no match; a capture that is [undefined] would raise on
    [.trim()] *)
Definition durationIn (s : jsstring) : outcome (option jsstring) :=
  match exec lastDurationRe s 0 with
  | Some m => v ← defined (cap m 1); Returns (Some (trim v))
  | None => Returns None
  end.

(** A [for ... of] loop that returns the first hit of [f] from inside *)
Fixpoint firstHit {A} (f : jsstring -> outcome (option A)) (lines : list jsstring)
  : outcome (option A) :=
  match lines with
  | [] => Returns None
  | l :: rest =>
      r ← f l;
      match r with Some a => Returns (Some a) | None => firstHit f rest end
  end.

(** What [extractDurationFromLastStep] and [extractTestsFromLastStep] do
    with a finder [f]: no step, no result; else the lines of the last
    step's [toolResult] in turn, then its [content] when not empty. *)
Definition fromLastStep {A} (f : jsstring -> outcome (option A))
  (steps : list TrajectoryStep) : outcome (option A) :=
  match last steps with
  | None => Returns None
  | Some lastStep =>
      r ← firstHit f (default [] (step_toolResult lastStep));
      match r with
      | Some a => Returns (Some a)
      | None =>
          match step_content lastStep with
          | [] => Returns None
          | content => f content
          end
      end
  end.

Definition extractDurationFromLastStep (steps : list TrajectoryStep)
  : outcome (option jsstring) :=
  fromLastStep durationIn steps.

(** [/Total\s*tests:\s*(\d+)\/(\d+)\s*passed/i] of [parseFromString] *)
Definition lastTestsRe : regex :=
  seqs [lit_ci (js "Total"); star ws; lit_ci (js "tests:"); star ws;
        Group 1 (plus digit); chr 47; Group 2 (plus digit); star ws;
        lit_ci (js "passed")].

(** [{ passed: parseInt(m[1], 10), total: parseInt(m[2], 10) }], or [null] *)
Definition parseFromString (source : jsstring) : outcome (option (jsnum * jsnum)) :=
  match exec lastTestsRe source 0 with
  | Some m => Returns (Some (capInt m 1, capInt m 2))
  | None => Returns None
  end.

Definition extractTestsFromLastStep (steps : list TrajectoryStep)
  : outcome (option (jsnum * jsnum)) :=
  fromLastStep parseFromString steps.

(** The style [formatDiff] gives a line of a diff *)
Inductive diffStyle := PlainLine | FileHeader | HunkHeader | AddedLine | RemovedLine.

Definition diffStyleOf (line : jsstring) : diffStyle :=
  if isPrefix (js "+++") line || isPrefix (js "---") line then FileHeader
  else if isPrefix (js "@@") line then HunkHeader
  else if isPrefix (js "+") line then AddedLine
  else if isPrefix (js "-") line then RemovedLine
  else PlainLine.

(** [diffText.split('\n').map((line, i) => <div key={i} className=...>{line}</div>)]:
    the rows, each with its style and text *)
Definition formatDiff (diffText : jsstring) : list (diffStyle * jsstring) :=
  List.map (fun line => (diffStyleOf line, line)) (split LF diffText).

(** ** The page: pass rates and groups *)

(** A [Map] with string keys: its entries in insertion order.  [set] on a
    key that is present keeps the place of the entry. *)
Definition jsMap (V : Type) : Type := list (jsstring * V).

Fixpoint mapGet {V} (m : jsMap V) (k : jsstring) : option V :=
  match m with
  | [] => None
  | (k', v) :: m' => if eqs k' k then Some v else mapGet m' k
  end.

Definition mapHas {V} (m : jsMap V) (k : jsstring) : bool :=
  match mapGet m k with Some _ => true | None => false end.

Fixpoint mapSet {V} (m : jsMap V) (k : jsstring) (v : V) : jsMap V :=
  match m with
  | [] => [(k, v)]
  | (k', v') :: m' => if eqs k' k then (k', v) :: m' else (k', v') :: mapSet m' k v
  end.

Record LogFile := { lf_filename : jsstring; lf_size : N }.
Record ModelCounts := { mc_pass : nat; mc_fail : nat; mc_total : nat }.
Record GroupedEntry := { ge_log : LogFile; ge_model : jsstring }.

(** [entry.total += 1; if (ok) entry.pass += 1; else entry.fail += 1] *)
Definition bump (ok : bool) (c : ModelCounts) : ModelCounts :=
  {| mc_pass := if ok then S (mc_pass c) else mc_pass c;
     mc_fail := if ok then mc_fail c else S (mc_fail c);
     mc_total := S (mc_total c) |}.

Section Page.
(** Case mappings over all of Unicode, as in [Resolver]; and the raw-log
    request of [computeModelPassRates]: [fetchRaw name] is the text of the
    response, or [None] when the request fails, its status is not ok, or
    the name cannot be URI-encoded (all of which end in [return null]). *)
Variables upperCase lowerCase : jsstring -> jsstring.
Variable fetchRaw : jsstring -> option jsstring.

(** [formatModelName] *)
Definition formatModelName (raw : jsstring) : jsstring :=
  match raw with
  | [] => js "Unknown"
  | _ =>
      let lower := lowerCase raw in
      if includes lower (js "claude") then js "Claude Sonnet 4.5"
      else if includes lower (js "gemini") then js "Gemini 2.5 Pro"
      else if includes lower (js "gpt-5") || includes lower (js "gpt 5") then js "GPT 5"
      else raw
  end.

(** One element of [results]: [None] is [null]; an exception raised by
    [parsePassFailFromLogText] would be caught and give [null] as well. *)
Definition fetchVerdict (log : LogFile) : outcome (option (jsstring * bool)) :=
  match fetchRaw (lf_filename log) with
  | None => Returns None
  | Some text =>
      match parsePassFailFromLogText text with
      | Returns verdict =>
          Returns (Some (lf_filename log, bool_decide (verdict = Some true)))
      | Throws => Returns None
      | Diverges => Diverges
      end
  end.

(** [Promise.all(logsData.map(...))]: the results in the order of the logs *)
Fixpoint fetchVerdicts (logs : list LogFile)
  : outcome (list (option (jsstring * bool))) :=
  match logs with
  | [] => Returns []
  | log :: rest =>
      r ← fetchVerdict log; rs ← fetchVerdicts rest; Returns (r :: rs)
  end.

(** One turn of the loop over [results].  [entry] is the object held by the
    map, so the updates through it are updates of the map; reading a
    property of an entry that is [undefined] would raise. *)
Definition countVerdict (counts : jsMap ModelCounts) (r : option (jsstring * bool))
  : outcome (jsMap ModelCounts) :=
  match r with
  | None => Returns counts
  | Some (fname, finalSuccess) =>
      let model := fst (parseTrajectoryFilename upperCase lowerCase fname) in
      let counts :=
        if mapHas counts model then counts
        else mapSet counts model {| mc_pass := 0; mc_fail := 0; mc_total := 0 |} in
      match mapGet counts model with
      | Some entry => Returns (mapSet counts model (bump finalSuccess entry))
      | None => Throws
      end
  end.

Fixpoint countVerdicts (counts : jsMap ModelCounts)
  (results : list (option (jsstring * bool))) : outcome (jsMap ModelCounts) :=
  match results with
  | [] => Returns counts
  | r :: rest => counts' ← countVerdict counts r; countVerdicts counts' rest
  end.

(** [computeModelPassRates]: the map handed to [setModelPassRates] *)
Definition computeModelPassRates (logsData : list LogFile) : outcome (jsMap ModelCounts) :=
  results ← fetchVerdicts logsData;
  countVerdicts [] results.

(** [buildGroupedMap]: [list] is the array held by the map when the key is
    present, so [push] and [set] together append to the stored list. *)
Definition buildGroupedMap (logsList : list LogFile) : jsMap (list GroupedEntry) :=
  fold_left
    (fun acc log =>
       let id := getTaskIdFromFilename (lf_filename log) in
       let parsed := parseTrajectoryFilename upperCase lowerCase (lf_filename log) in
       let list := default [] (mapGet acc id) in
       mapSet acc id (list ++ [{| ge_log := log; ge_model := fst parsed |}]))
    logsList [].
End Page.

(** ** The page: the model selected for a task by default *)

(** A [Set] of strings: its members in insertion order *)
Definition jsSet : Type := list jsstring.

Definition setHas (s : jsSet) (x : jsstring) : bool := existsb (eqs x) s.

Definition setAdd (s : jsSet) (x : jsstring) : jsSet :=
  if setHas s x then s else s ++ [x].

(** [a < b] on strings: the order of their UTF-16 code units, which
    [Array.prototype.sort] uses when it is given no comparator *)
Fixpoint str_ltb (a b : jsstring) : bool :=
  match a, b with
  | _, [] => false
  | [], _ :: _ => true
  | x :: a', y :: b' => (x <? y)%N || ((x =? y)%N && str_ltb a' b')
  end.

(** [arr.sort()] on strings.  The order is total and equal strings cannot
    be told apart, so the result does not depend on the sorting method;
    insertion sort is used here. *)
Fixpoint insertSorted (x : jsstring) (l : list jsstring) : list jsstring :=
  match l with
  | [] => [x]
  | y :: l' => if str_ltb y x then y :: insertSorted x l' else x :: l
  end.

Definition sortStrings (l : list jsstring) : list jsstring :=
  fold_right insertSorted [] l.

Definition preferredOrder : list jsstring :=
  [ js "GPT-5"; js "Claude Sonnet 4.5"; js "Gemini 2.5 Pro" ].

(** [Array.from(grouped.values()).forEach(entries =>
      entries.forEach(entry => allModels.add(entry.model)))] *)
Definition allModelsOf (grouped : jsMap (list GroupedEntry)) : jsSet :=
  fold_left
    (fun acc kv => fold_left (fun acc e => setAdd acc (ge_model e)) (snd kv) acc)
    grouped [].

(** [[...preferredOrder.filter(model => allModels.has(model)), ...unknownModels]] *)
Definition modelDisplayOrder (grouped : jsMap (list GroupedEntry)) : list jsstring :=
  let allModels := allModelsOf grouped in
  let unknownModels :=
    sortStrings
      (List.filter (fun model => negb (existsb (eqs model) preferredOrder)) allModels) in
  List.filter (fun model => setHas allModels model) preferredOrder ++ unknownModels.

(** [modelDisplayOrder.find(m => entries.some(e => e.model === m))
      || entries[0]?.model]; [None] is [undefined] *)
Definition availableModel (order : list jsstring) (entries : list GroupedEntry)
  : option jsstring :=
  match truthy (List.find (fun m => existsb (fun e => eqs (ge_model e) m) entries) order) with
  | Some m => Some m
  | None => ge_model <$> head entries
  end.

(** One turn of the loop over the groups.  The state is [nextSelected] with
    the file names handed to [ensureTrajectory] so far.
    [entries.find(...)!.log] on [undefined] would raise. *)
Definition selectFor (order : list jsstring)
  (st : jsMap jsstring * list jsstring) (kv : jsstring * list GroupedEntry)
  : outcome (jsMap jsstring * list jsstring) :=
  if mapHas (fst st) (fst kv) then Returns st
  else
    match truthy (availableModel order (snd kv)) with
    | Some available =>
        match List.find (fun e => eqs (ge_model e) available) (snd kv) with
        | Some e =>
            Returns (mapSet (fst st) (fst kv) available,
                     snd st ++ [lf_filename (ge_log e)])
        | None => Throws
        end
    | None => Returns st
    end.

Fixpoint selectAll (order : list jsstring) (st : jsMap jsstring * list jsstring)
  (groups : list (jsstring * list GroupedEntry))
  : outcome (jsMap jsstring * list jsstring) :=
  match groups with
  | [] => Returns st
  | kv :: rest => st' ← selectFor order st kv; selectAll order st' rest
  end.

Section Selection.
Variables upperCase lowerCase : jsstring -> jsstring.

(** The effect that runs when [logs] changes: the selection state after it
    and the file names handed to [ensureTrajectory], in order *)
Definition selectDefaults (logs : list LogFile) (selected : jsMap jsstring)
  : outcome (jsMap jsstring * list jsstring) :=
  match logs with
  | [] => Returns (selected, [])
  | _ =>
      let grouped := buildGroupedMap upperCase lowerCase logs in
      let modelDisplayOrder := modelDisplayOrder grouped in
      r ← selectAll modelDisplayOrder (selected, []) grouped;
      Returns (if length (fst r) =? length selected then selected else fst r, snd r)
  end.
End Selection.

(** * Notions used to state the properties *)

(** ** A declarative reading of patterns

    [Match r st st']: the pattern [r] can take the matcher from state [st]
    to state [st'].  [run] lists exactly these states, in priority order. *)
Definition set_cap (i : nat) (from : mstate) (st' : mstate) : mstate :=
  MState (m_pos st') (m_rest st')
    (<[i := take (m_pos st' - m_pos from) (m_rest from)]> (m_caps st')).

Inductive Match : regex -> mstate -> mstate -> Prop :=
| M_Eps st : Match Eps st st
| M_Chr p c rest pos caps :
    p c = true ->
    Match (Chr p) (MState pos (c :: rest) caps) (MState (S pos) rest caps)
| M_Seq a b st st1 st2 :
    Match a st st1 -> Match b st1 st2 -> Match (Seq a b) st st2
| M_AltL a b st st' : Match a st st' -> Match (Alt a b) st st'
| M_AltR a b st st' : Match b st st' -> Match (Alt a b) st st'
| M_Star0 g a st : Match (Star g a) st st
| M_StarS g a st st1 st2 :
    Match a st st1 ->
    length (m_rest st1) < length (m_rest st) ->
    Match (Star g a) st1 st2 ->
    Match (Star g a) st st2
| M_Group i a st st' : Match a st st' -> Match (Group i a) st (set_cap i st st')
| M_Bol st : m_pos st = 0 -> Match Bol st st
| M_Eol pos caps : Match Eol (MState pos [] caps) (MState pos [] caps).

(** Captures: the groups of a pattern, and those every match sets *)
Fixpoint groups (r : regex) : list nat :=
  match r with
  | Seq a b | Alt a b => groups a ++ groups b
  | Star _ a => groups a
  | Group i a => i :: groups a
  | _ => []
  end.

Fixpoint always_groups (r : regex) : list nat :=
  match r with
  | Seq a b => always_groups a ++ always_groups b
  | Alt a b => List.filter (fun i => bool_decide (i ∈ always_groups b)) (always_groups a)
  | Group i a => i :: always_groups a
  | _ => []
  end.

(** ** [search] and [exec] *)
Definition start_at (s : jsstring) (k : nat) : mstate := MState k (drop k s) ∅.

Definition result_at (s : jsstring) (k : nat) (st' : mstate) : matchres :=
  MatchRes k (m_pos st') (take (m_pos st' - k) (drop k s)) (m_caps st').

(** ** Matches of literals and of runs over a character class *)
(** [reads st v st']: from [st] the matcher reads [v] and reaches [st']
    with the captures unchanged *)
Definition reads (st : mstate) (v : jsstring) (st' : mstate) : Prop :=
  m_rest st = v ++ m_rest st' /\ m_pos st' = m_pos st + length v /\
  m_caps st' = m_caps st.

(** the same, with [v] stored as capture [i] *)
Definition reads_cap (i : nat) (st : mstate) (v : jsstring) (st' : mstate) : Prop :=
  m_rest st = v ++ m_rest st' /\ m_pos st' = m_pos st + length v /\
  m_caps st' = <[i := v]> (m_caps st).

(** The least number of code units a match of a pattern reads *)
Fixpoint min_len (r : regex) : nat :=
  match r with
  | Chr _ => 1
  | Seq a b => min_len a + min_len b
  | Alt a b => Nat.min (min_len a) (min_len b)
  | Group _ a => min_len a
  | _ => 0
  end.

(** The numbers [parseInt] yields on a run of digits *)
Definition natural (x : jsnum) : Prop :=
  match x with
  | Num z => (0 <= z)%Z
  | PosInf => True
  | _ => False
  end.

(** What the writes through [currentStep] leave alone *)
Definition sig (s : TrajectoryStep)
  : jsstring * jsstring * option (option jsstring) * jsnum :=
  (step_type s, step_content s, step_toolCall s, step_iteration s).

Definition core (p : pstate)
  : jsnum * nat * list (jsstring * jsstring * option (option jsstring) * jsnum)
    * option jsnum :=
  (l_totalIterations p, l_toolCalls p, List.map sig (l_steps p), currentIteration p).

(** The largest iteration number over the steps, 0 when there is none *)
Definition maxIteration (l : list TrajectoryStep) : jsnum :=
  fold_right (fun s acc => num_max (step_iteration s) acc) (Num 0) l.

Definition isIterationStep (s : TrajectoryStep) : bool :=
  eqs (step_type s) (js "iteration").

(** A step of one of the two kinds, an iteration step reading
    "Executing" followed by its tool name *)
Definition wellFormedStep (s : TrajectoryStep) : Prop :=
  step_type s = js "start" \/
  (step_type s = js "iteration" /\
   exists name, step_toolCall s = Some (Some name) /\
                step_content s = js "Executing " ++ name).

(** The invariant of the loop of [parseLogFile], on what [core] keeps *)
Definition okSig (total : jsnum)
  (g : jsstring * jsstring * option (option jsstring) * jsnum) : Prop :=
  let '(ty, content, tool, it) := g in
  (ty = js "start" \/
   (ty = js "iteration" /\
    exists name, tool = Some (Some name) /\ content = js "Executing " ++ name)) /\
  natural it /\ num_geb total it = true.

Definition isIterationSig
  (g : jsstring * jsstring * option (option jsstring) * jsnum) : bool :=
  eqs (fst (fst (fst g))) (js "iteration").

Definition Inv (p : pstate) : Prop :=
  let '(total, calls, sigs, cur) := core p in
  natural total /\
  (forall it, cur = Some it -> natural it /\ num_geb total it = true) /\
  Forall (okSig total) sigs /\
  calls = length (List.filter isIterationSig sigs).

(** [x] occurs in [s] as a contiguous piece *)
Definition occurs (x s : jsstring) : Prop := exists a b, s = a ++ x ++ b.

(** Content in which no step marker, no test outcome word and no outcome
    summary occurs *)
Definition quiet (content : jsstring) : Prop :=
  includes content (js "Starting benchmark run") = false /\
  includes content (js "HARNESS: Tool call") = false /\
  includes (toUpperCase content) (js "PASSED") = false /\
  includes content (js "FAILED") = false.

(** The value captured by the pattern of [extractDiffs] for one key, when
    the fragment is found *)
Definition captured (key : string) (content : jsstring) : option jsstring :=
  match exec (diffRe key) content 0 with
  | Some m => cap m 1
  | None => None
  end.

(** Line count of a diff text as [extractDiffs] reports it: the empty text
    (falsy, like an absent one) counts no line *)
Definition reportedLines (d : option jsstring) : nat :=
  match d with
  | Some [] | None => 0
  | Some t => length (split LF t)
  end.

(** The first generic pattern that matches a file name, with its match *)
Fixpoint firstGeneric (patterns : list regex) (fname : jsstring) : option matchres :=
  match patterns with
  | [] => None
  | pattern :: rest =>
      match exec pattern fname 0 with
      | Some m => Some m
      | None => firstGeneric rest fname
      end
  end.

(** One of the known model ids occurs in the file name *)
Definition hasKnownModel (fname : jsstring) : Prop :=
  existsb (includes fname) knownModelIds = true.

(** The model segment of the first generic pattern that matches has the
    shape of a model name (or no generic pattern matches) *)
Definition modelShaped (fname : jsstring) : Prop :=
  match firstGeneric modelPatterns fname with
  | Some m => test modelShape (tmpl (cap m 1)) = true
  | None => True
  end.

(** The line starts with a code unit of the glyph class followed by white
    space *)
Definition hasGlyphPrefix (t : jsstring) : bool :=
  match t with
  | c :: w :: _ => isGlyphUnit c && isWS w
  | _ => false
  end.

(** The first "Tool 0 result success: " of the line is followed by "False" *)
Definition reportsFalse (line : jsstring) : Prop :=
  exists pre post,
    line = pre ++ js "Tool 0 result success: False" ++ post /\
    indexOf (js "Tool 0 result success: ") line = Some (length pre).

(** The state of the loop of [parseLogFile] after the lines of [content] *)
Definition stateAfter (content : jsstring) : pstate :=
  match run_lines (split LF content) (initial []) with
  | Returns p => p
  | _ => initial []
  end.








(** The value of one field of the result, [None] when the result or the
    field is absent *)
Definition metricField (content : jsstring) (key : string) : option metric :=
  parseLabTrainingMetrics content ≫= (.!! key).

(** [n] empty lines, each with its line feed *)
Definition blankLines (n : nat) : jsstring := concat (repeat LF n).

(** An occurrence of "Total tests: X/Y passed" at index [i] of [s], in any
    letter case and with any white space where the pattern allows it, [x]
    and [y] being the two runs of digits *)
Definition totalOcc (s : jsstring) (i : nat) (x y : jsstring) : Prop :=
  i <= length s /\
  exists t ws1 ts ws2 ws3 pw post,
    drop i s = t ++ ws1 ++ ts ++ ws2 ++ x ++ [47%N] ++ y ++ ws3 ++ pw ++ post /\
    toUpperCase t = js "TOTAL" /\
    ws1 <> [] /\ forallb isWS ws1 = true /\
    toUpperCase ts = js "TESTS:" /\
    forallb isWS ws2 = true /\
    x <> [] /\ forallb isDigit x = true /\
    y <> [] /\ forallb isDigit y = true /\
    forallb isWS ws3 = true /\
    toUpperCase pw = js "PASSED".

(** An occurrence of "Passed X/Y tests" at index [i] of [s] *)
Definition passedOcc (s : jsstring) (i : nat) (x y : jsstring) : Prop :=
  i <= length s /\
  exists pw ws1 ws2 ts post,
    drop i s = pw ++ ws1 ++ x ++ [47%N] ++ y ++ ws2 ++ ts ++ post /\
    toUpperCase pw = js "PASSED" /\
    forallb isWS ws1 = true /\
    x <> [] /\ forallb isDigit x = true /\
    y <> [] /\ forallb isDigit y = true /\
    forallb isWS ws2 = true /\
    toUpperCase ts = js "TESTS".

(** [i] is the index of the last occurrence, with digits [x] and [y] *)
Definition lastOcc (occ : jsstring -> nat -> jsstring -> jsstring -> Prop)
  (s : jsstring) (i : nat) (x y : jsstring) : Prop :=
  occ s i x y /\ forall j x' y', occ s j x' y' -> j <= i.

Definition noOcc (occ : jsstring -> nat -> jsstring -> jsstring -> Prop)
  (s : jsstring) : Prop :=
  forall j x y, ~ occ s j x y.

(** A pattern matches at index [j] of [s] *)
Definition matchesAt (r : regex) (s : jsstring) (j : nat) : Prop :=
  j <= length s /\ exists st, Match r (start_at s j) st.

(** No match of the pattern starts strictly inside another *)
Definition nonOverlapping (r : regex) (s : jsstring) : Prop :=
  forall i j st, Match r (start_at s i) st -> i < j -> j < m_pos st ->
                 ~ matchesAt r s j.

(** ** Shapes of a test record *)

Definition noWS (s : jsstring) : Prop := forallb (fun c => negb (isWS c)) s = true.
(** a path: not empty, no white space and no colon *)
Definition plainPath (p : jsstring) : Prop :=
  p <> [] /\ forallb (fun c => negb (isWS c) && negb (c =? 58)%N) p = true.
(** a test name: not empty, no white space; double colons are allowed *)
Definition plainName (t : jsstring) : Prop := t <> [] /\ noWS t.

Definition keyword (st : Status) : jsstring :=
  match st with pass => js "pass" | fail => js "fail" end.
Definition outcomeWord (st : Status) : jsstring :=
  match st with pass => js "PASSED" | fail => js "FAILED" end.

(** the record all shapes stand for *)
Definition recordOf (st : Status) (p t : jsstring) : TestResult :=
  {| tr_name := Some t; tr_status := st; tr_fullName := p ++ js "::" ++ t |}.

(** one line: [pass <path>::<test>: PASSED] *)
Definition singleLine (st : Status) (p t : jsstring) : jsstring :=
  keyword st ++ js " " ++ p ++ js "::" ++ t ++ js ": " ++ outcomeWord st.
(** the outcome word alone on the next line *)
Definition wordBelow (st : Status) (p t : jsstring) : jsstring :=
  keyword st ++ js " " ++ p ++ js "::" ++ t ++ js ":" ++ LF ++ outcomeWord st.
(** the keyword alone on the line above *)
Definition keywordAbove (st : Status) (p t : jsstring) : jsstring :=
  keyword st ++ LF ++ p ++ js "::" ++ t ++ js ": " ++ outcomeWord st.
(** the keyword alone, and the name cut in two *)
Definition nameSplit (st : Status) (p t1 t2 : jsstring) : jsstring :=
  keyword st ++ LF ++ p ++ js "::" ++ t1 ++ LF ++ t2 ++ js ": " ++ outcomeWord st.
(** keyword, fragment and outcome word on a line each *)
Definition threeLines (st : Status) (p t : jsstring) : jsstring :=
  keyword st ++ LF ++ p ++ js "::" ++ t ++ LF ++ outcomeWord st.

(** The two-capture patterns by keyword and outcome word: [passMatchRe] is
    [matchRe "pass" "PASSED"], [failStartRe] is [startRe "fail"], and so on *)
Definition matchRe (kw w : jsstring) : regex :=
  seqs [lit kw; plus ws; lazyGroup 1; lit (js "::"); lazyGroup 2;
        chr 58; plus ws; lit w].
Definition startRe (kw : jsstring) : regex :=
  seqs [lit kw; plus ws; lazyGroup 1; lit (js "::"); lazyGroup 2;
        chr 58; star ws; Eol].
(** the number of white-space code units of a line *)
Definition wsCount (s : jsstring) : nat := length (List.filter isWS s).

(** * Notions used to state further properties *)

(** ** Records written one after the other *)

(** The ways of writing a record over one to three lines; [NameSplit k]
    cuts the name after its first [k] code units. *)
Inductive shape := OneLine | WordBelow | KeywordAbove | NameSplit (k : nat) | ThreeLines.

Record written := Written {
  w_shape : shape;
  w_status : Status;
  w_path : jsstring;
  w_name : jsstring
}.

Definition render (w : written) : list jsstring :=
  let st := w_status w in
  let p := w_path w in
  let t := w_name w in
  match w_shape w with
  | OneLine => [singleLine st p t]
  | WordBelow => [keyword st ++ js " " ++ p ++ js "::" ++ t ++ js ":"; outcomeWord st]
  | KeywordAbove => [keyword st; p ++ js "::" ++ t ++ js ": " ++ outcomeWord st]
  | NameSplit k =>
      [keyword st; p ++ js "::" ++ take k t; drop k t ++ js ": " ++ outcomeWord st]
  | ThreeLines => [keyword st; p ++ js "::" ++ t; outcomeWord st]
  end.

Definition plainRecord (w : written) : Prop := plainPath (w_path w) /\ plainName (w_name w).

Definition recordsOf (ws : list written) : list TestResult :=
  List.map (fun w => recordOf (w_status w) (w_path w) (w_name w)) ws.

Definition contentOf (ws : list written) : jsstring :=
  join LF (concat (List.map render ws)).

(** a record with a name, whose full name is a path, a double colon and
    the name *)
Definition namedRecord (r : TestResult) : Prop :=
  exists path name, tr_name r = Some name /\ tr_fullName r = path ++ js "::" ++ name.

(** ** Glyphs *)

(** The seven glyphs of the class of [normalizeLine] as the source text
    writes them, in UTF-16: six surrogate pairs, and the stopwatch U+23F1
    with the variation selector U+FE0F *)
Definition sourceGlyphs : list jsstring :=
  [ [0xD83D; 0xDD0D]; [0xD83D; 0xDE80]; [0xD83D; 0xDCCA]; [0xD83C; 0xDFAF];
    [0xD83D; 0xDCDD]; [0x23F1; 0xFE0F]; [0xD83E; 0xDDEA] ]%N.

(** ** Time stamps *)

(** [n] decimal digits *)
Definition digits (n : nat) (v : jsstring) : Prop :=
  length v = n /\ forallb isDigit v = true.

(** [dd:dd:dd] *)
Definition timeShape (t : jsstring) : Prop :=
  exists h mi se, t = h ++ [58%N] ++ mi ++ [58%N] ++ se /\
    digits 2 h /\ digits 2 mi /\ digits 2 se.

(** [dddd-dd-dd] *)
Definition dateShape (t : jsstring) : Prop :=
  exists y mo d, t = y ++ [45%N] ++ mo ++ [45%N] ++ d /\
    digits 4 y /\ digits 2 mo /\ digits 2 d.

(** a date, white space, a time *)
Definition dateTimeShape (t : jsstring) : Prop :=
  exists da w ti, t = da ++ w ++ ti /\ dateShape da /\
    w <> [] /\ forallb isWS w = true /\ timeShape ti.

(** the two patterns of [extractTimestamp], by name *)
Definition dateTimePattern : regex :=
  seqs [rep 4 digit; chr 45; rep 2 digit; chr 45; rep 2 digit; plus ws;
        rep 2 digit; chr 58; rep 2 digit; chr 58; rep 2 digit].
Definition timePattern : regex :=
  seqs [rep 2 digit; chr 58; rep 2 digit; chr 58; rep 2 digit].

(** ** Duration *)

(** [v] is what follows "Total duration:" (in any case, with white space
    after "Total") and the white space behind the colon, line breaks
    included, up to the end of the line [v] stands on *)
Definition durationText (s v : jsstring) : Prop :=
  exists pre t w1 ds w2 post,
    s = pre ++ t ++ w1 ++ ds ++ w2 ++ v ++ post /\
    toUpperCase t = js "TOTAL" /\ w1 <> [] /\ forallb isWS w1 = true /\
    toUpperCase ds = js "DURATION:" /\ forallb isWS w2 = true /\
    v <> [] /\ ~ In 10%N v /\
    match post with [] => True | c :: _ => c = 10%N end.

(** ** Tables by key *)

(** the keys of a list in the order of their first appearance *)
Fixpoint firstSeen (seen ks : list jsstring) : list jsstring :=
  match ks with
  | [] => []
  | k :: ks' =>
      if bool_decide (k ∈ seen) then firstSeen seen ks'
      else k :: firstSeen (k :: seen) ks'
  end.

(** Folding a list into a map, each element updating the entry of its key *)
Definition groupFold {X V} (key : X -> jsstring) (upd : option V -> X -> V)
  (m : jsMap V) (xs : list X) : jsMap V :=
  fold_left (fun acc x => mapSet acc (key x) (upd (mapGet acc (key x)) x)) xs m.

(** the elements with key [k] *)
Definition withKey {X} (key : X -> jsstring) (k : jsstring) (xs : list X) : list X :=
  List.filter (fun x => eqs (key x) k) xs.

(** The logs whose raw text could be fetched, each with its text *)
Fixpoint fetchedLogs (fetchRaw : jsstring -> option jsstring) (logs : list LogFile)
  : list (jsstring * jsstring) :=
  match logs with
  | [] => []
  | log :: rest =>
      match fetchRaw (lf_filename log) with
      | Some text => (lf_filename log, text) :: fetchedLogs fetchRaw rest
      | None => fetchedLogs fetchRaw rest
      end
  end.

(** the elements of a list that are not [null] *)
Fixpoint somes {A} (l : list (option A)) : list A :=
  match l with
  | [] => []
  | Some a :: l' => a :: somes l'
  | None :: l' => somes l'
  end.

(** the text counts as a pass: [parsePassFailFromLogText(text) === true] *)
Definition passes (text : jsstring) : bool :=
  match parsePassFailFromLogText text with
  | Returns (Some true) => true
  | _ => false
  end.

(** the row of a model made of the fetched logs of that model *)
Definition rowOf (hits : list (jsstring * jsstring)) : ModelCounts :=
  {| mc_pass := length (List.filter (fun h => passes (snd h)) hits);
     mc_fail := length (List.filter (fun h => negb (passes (snd h))) hits);
     mc_total := length hits |}.

(** no row for a model without fetched logs *)
Definition rowOrNone (hits : list (jsstring * jsstring)) : option ModelCounts :=
  match hits with
  | [] => None
  | _ :: _ => Some (rowOf hits)
  end.

(** no group for a task id without logs *)
Definition groupOrNone {A} (hits : list A) : option (list A) :=
  match hits with
  | [] => None
  | _ :: _ => Some hits
  end.

(** ** Harness lines *)

(** at most one code unit (no line terminator), then white space, then
    "HARNESS:" *)
Definition harnessShape (t : jsstring) : Prop :=
  exists pre w rest, t = pre ++ w ++ js "HARNESS:" ++ rest /\
    length pre <= 1 /\ forallb isDot pre = true /\ forallb isWS w = true.

(** ** What one line does to the state of the loop *)

(** The fields a step is given when it is pushed *)
Definition created (s : TrajectoryStep)
  : jsstring * jsstring * jsnum * option (option jsstring) * option jsstring :=
  (step_type s, step_content s, step_iteration s, step_toolCall s, step_timestamp s).

(** The timestamp of a start step: the date on the line, or else what
    [extractTimestamp] finds *)
Definition startStamp (rawLine : jsstring) : jsstring :=
  match exec datePattern rawLine 0 with
  | Some m => mr_all m
  | None => extractTimestamp rawLine
  end.

(** The effects of one turn of the loop on the trimmed line [rawLine] with
    the normalized form [line]:
    nothing; a start step pushed; the names set; an iteration number
    recorded; an iteration step opened; a detail of the current step
    written; the line collected into the result of the current step; the
    success of the current step set; the error of the current step set. *)
Inductive effect (rawLine line : jsstring) (p : pstate) : pstate -> Prop :=
| ENone : effect rawLine line p p
| EStart :
    includes line (js "Starting benchmark run") = true ->
    effect rawLine line p
      (with_steps (fun l => l ++ [startStep (startStamp rawLine)]) p)
| ENames t m : effect rawLine line p (set_names t m p)
| EIteration v :
    v <> [] -> forallb isDigit v = true ->
    effect rawLine line p (set_iteration (parseInt v) p)
| EToolCall it name :
    includes line (js "HARNESS: Tool call") = true ->
    currentIteration p = Some it ->
    effect rawLine line p
      (start_step (iterationStep it (Some name) (extractTimestamp rawLine)) p)
| EDetail idx f :
    currentStep p = Some idx ->
    effect rawLine line p (on_step idx (upd_details f) p)
| ECollect idx :
    currentStep p = Some idx -> collectingToolResult p = true -> line <> [] ->
    effect rawLine line p
      (on_step idx (set_toolResult (toolResultBuffer p ++ [line]))
         (set_collecting true (toolResultBuffer p ++ [line]) p))
| EResult idx (b : bool) :
    currentStep p = Some idx ->
    effect rawLine line p
      (set_collecting true []
         (if b then on_step idx (set_success b) p
          else add_error (on_step idx (set_success b) p)))
| EError idx s :
    currentStep p = Some idx -> l_steps p !! idx = Some s ->
    truthy (step_error s) = None ->
    includes (toUpperCase line) (js "ERROR") = true ->
    effect rawLine line p (add_error (on_step idx (set_error line) p)).

(** The step shows a failed tool result *)
Definition failedStep (s : TrajectoryStep) : bool :=
  match step_success s with Some false => true | _ => false end.

(** The step carries an error message *)
Definition hasError (s : TrajectoryStep) : bool :=
  match truthy (step_error s) with Some _ => true | None => false end.

(** A non-empty normalized line of the content *)
Definition lineOf (content l : jsstring) : Prop :=
  l <> [] /\ exists raw, In raw (split LF content) /\ l = normalizeLine (trim raw).

(** What a step of the Trajectory of [content] looks like: a start step as
    it was pushed, for a line with "Starting benchmark run"; or an
    iteration step, stamped from a line with "HARNESS: Tool call", with
    tool details, a tool result made of lines of the content, and an error
    that, when set, is a line of the content with "ERROR" in some letter
    case. *)
Definition stepShape (content : jsstring) (s : TrajectoryStep) : Prop :=
  (exists raw, In raw (split LF content) /\
     includes (normalizeLine (trim raw)) (js "Starting benchmark run") = true /\
     s = startStep (startStamp (trim raw))) \/
  (step_type s = js "iteration" /\
   (exists raw, In raw (split LF content) /\
      includes (normalizeLine (trim raw)) (js "HARNESS: Tool call") = true /\
      step_timestamp s = Some (extractTimestamp (trim raw))) /\
   is_Some (step_toolDetails s) /\
   (exists r, step_toolResult s = Some r /\ Forall (lineOf content) r) /\
   (forall e, step_error s = Some e ->
      lineOf content e /\ includes (toUpperCase e) (js "ERROR") = true)).

(** The invariant of the loop behind the shapes: the current step is an
    iteration step of the list, and the buffer holds lines of the content. *)
Definition shaped (content : jsstring) (p : pstate) : Prop :=
  Forall (stepShape content) (l_steps p) /\
  (forall idx, currentStep p = Some idx ->
     exists s, l_steps p !! idx = Some s /\ step_type s = js "iteration") /\
  Forall (lineOf content) (toolResultBuffer p).

(** ** The last step in the trajectory view *)

(** The texts the two last-step extractors look at, in order: the lines of
    the step's tool result, then its content when it is not empty *)
Definition sourcesOf (s : TrajectoryStep) : list jsstring :=
  default [] (step_toolResult s) ++
  match step_content s with [] => [] | c => [c] end.

(** An occurrence of "Total tests: X/Y passed" at index [i] of [s] as the
    view reads it: any letter case, white space optional after "Total",
    after the colon and before "passed"; [x] and [y] are the runs of digits *)
Definition testsOcc (s : jsstring) (i : nat) (x y : jsstring) : Prop :=
  i <= length s /\
  exists t ws1 ts ws2 ws3 pw post,
    drop i s = t ++ ws1 ++ ts ++ ws2 ++ x ++ [47%N] ++ y ++ ws3 ++ pw ++ post /\
    toUpperCase t = js "TOTAL" /\
    forallb isWS ws1 = true /\
    toUpperCase ts = js "TESTS:" /\
    forallb isWS ws2 = true /\
    x <> [] /\ forallb isDigit x = true /\
    y <> [] /\ forallb isDigit y = true /\
    forallb isWS ws3 = true /\
    toUpperCase pw = js "PASSED".

(** [v] is what the view reads as the duration in [s]: after the stopwatch
    glyph U+23F1 U+FE0F and, on the line of the glyph, "Total duration:" in
    any letter case, white space is skipped, line terminators included, and
    [v] runs from there to the end of the line it stands on *)
Definition viewDuration (s v : jsstring) : Prop :=
  exists pre mid td w post,
    s = pre ++ [0x23F1; 0xFE0F]%N ++ mid ++ td ++ w ++ v ++ post /\
    forallb isDot mid = true /\ toUpperCase td = js "TOTAL DURATION:" /\
    forallb isWS w = true /\ v <> [] /\ forallb isDot v = true /\
    match post with [] => True | c :: _ => isLineTerminator c = true end.

(** ** Titles *)

(** A word of a title: not empty, without space, hyphen or underscore *)
Definition titleWord (w : jsstring) : Prop :=
  w <> [] /\ Forall (fun c => c <> 32%N /\ isSep c = false) w.

(** ** Sorted lists of strings *)

(** No element is followed by a smaller one *)
Fixpoint ascending (l : list jsstring) : Prop :=
  match l with
  | [] => True
  | a :: l' => Forall (fun b => str_ltb b a = false) l' /\ ascending l'
  end.

(** The group has an entry with the model [m] *)
Definition groupHas (entries : list GroupedEntry) (m : jsstring) : bool :=
  existsb (fun e => eqs (ge_model e) m) entries.

(** ** Logs made of iteration blocks *)

(** Two neighbouring code units, the first with [p] and the second with [q] *)
Fixpoint adjacent (p q : N -> bool) (s : jsstring) : bool :=
  match s with
  | x :: (y :: _) as s' => (p x && q y) || adjacent p q s'
  | _ => false
  end.

(** A run of decimal digits, not empty *)
Definition numeral (v : jsstring) : Prop := v <> [] /\ forallb isDigit v = true.

(** A tool name: lower-case letters, digits and underscores, not empty *)
Definition isToolChar (c : N) : bool := isLower c || isDigit c || (c =? 95)%N.
Definition toolName (name : jsstring) : Prop :=
  name <> [] /\ forallb isToolChar name = true.

(** An output line: one line, not blank, with none of the markers that
    the loop looks for before it collects a line *)
Definition outputLine (r : jsstring) : Prop :=
  ~ In 10%N r /\ trim r <> [] /\
  includes r (js "Starting benchmark run") = false /\
  includes r (js "HARNESS:") = false /\
  includes r (js "Dataset:") = false.

(** One iteration of the agent as the harness logs it: the iteration
    number, the number and name of the tool call, the success flag of the
    result, and the lines of output after it *)
Record block := {
  b_iteration : jsstring;
  b_call : jsstring;
  b_tool : jsstring;
  b_ok : bool;
  b_output : list jsstring
}.

Definition wellFormedBlock (b : block) : Prop :=
  numeral (b_iteration b) /\ numeral (b_call b) /\ toolName (b_tool b) /\
  Forall outputLine (b_output b).

Definition iterationLine (it : jsstring) : jsstring :=
  js "HARNESS: Iteration " ++ it ++ js " making LLM call".
Definition toolCallLine (k name : jsstring) : jsstring :=
  js "HARNESS: Tool call " ++ k ++ js ": " ++ name.
Definition successLine (ok : bool) : jsstring :=
  js "Tool 0 result success: " ++ (if ok then js "True" else js "False").

Definition blockLines (b : block) : list jsstring :=
  [ iterationLine (b_iteration b); toolCallLine (b_call b) (b_tool b);
    successLine (b_ok b) ] ++ b_output b.

(** The log of a run: the lines of its blocks, one per line *)
Definition logOf (bs : list block) : jsstring :=
  join LF (concat (List.map blockLines bs)).

(** The step of a block once the lines [collected] of its output are read *)
Definition stepWith (b : block) (collected : list jsstring) : TrajectoryStep :=
  {| step_type := js "iteration";
     step_content := js "Executing " ++ b_tool b;
     step_iteration := parseInt (b_iteration b);
     step_success := Some (b_ok b);
     step_timestamp := Some (js "N/A");
     step_toolCall := Some (Some (b_tool b));
     step_error := None;
     step_toolDetails := Some noDetails;
     step_toolResult := Some collected |}.

(** The output lines as the loop stores them *)
Definition storedOutput (b : block) : list jsstring :=
  List.map (fun r => normalizeLine (trim r)) (b_output b).

(** The step a block stands for *)
Definition stepOfBlock (b : block) : TrajectoryStep := stepWith b (storedOutput b).

(** The state of the loop inside a block, [collected] being the output
    read so far, from the state [p] before the block *)
Definition blockState (b : block) (collected : list jsstring) (p : pstate) : pstate :=
  {| l_taskName := l_taskName p; l_modelName := l_modelName p;
     l_totalIterations := num_max (l_totalIterations p) (parseInt (b_iteration b));
     l_toolCalls := l_toolCalls p + 1;
     l_errors := if b_ok b then l_errors p else l_errors p + 1;
     l_steps := l_steps p ++ [stepWith b collected];
     currentIteration := Some (parseInt (b_iteration b));
     currentStep := Some (length (l_steps p));
     collectingToolResult := true;
     toolResultBuffer := collected |}.

(** The state of the loop after a block *)
Definition afterBlock (b : block) (p : pstate) : pstate :=
  blockState b (storedOutput b) p.

(** ** Fragments of the diff extractor *)

(** The fragment ['key': 'v'] stands at index [k] of the content: the key
    in quotes, a colon, white space, and between two quotes the value [v],
    which holds no quote itself *)
Definition fragmentAt (key : string) (content : jsstring) (k : nat) (v : jsstring)
  : Prop :=
  exists w post,
    drop k content
    = [39%N] ++ js key ++ [39%N; 58%N] ++ w ++ [39%N] ++ v ++ [39%N] ++ post /\
    forallb isWS w = true /\ ~ In 39%N v.

(** The first fragment of the content for the key *)
Definition firstFragment (key : string) (content : jsstring) (k : nat) (v : jsstring)
  : Prop :=
  fragmentAt key content k v /\ forall j v', j < k -> ~ fragmentAt key content j v'.

(** The value does not end in a backslash: the quote behind it is not an
    escaped one *)
Definition closedValue (v : jsstring) : Prop := last v <> Some 92%N.

(** Backslash-n replaced by a newline, then backslash-t by a tab *)
Definition unescapeBreaks (v : jsstring) : jsstring :=
  replaceAllRe (lit [92; 116]%N) [9%N] (replaceAllRe (lit [92; 110]%N) [10%N] v).

(** ** The header line *)

(** A field of the header: one line, without comma and without colon *)
Definition plainField (f : jsstring) : Prop :=
  ~ In 10%N f /\ ~ In 44%N f /\ ~ In 58%N f.

(** The header line of a run *)
Definition headerLine (d a m t : jsstring) : jsstring :=
  js "Dataset: " ++ d ++ js ", Agent: " ++ a ++ js ", Model: " ++ m
  ++ js ", Task: " ++ t.

(** The three markers of the header rule, on the normalized line *)
Definition hasHeaderMarkers (l : jsstring) : bool :=
  includes (normalizeLine (trim l)) (js "Dataset:")
  && includes (normalizeLine (trim l)) (js "Agent:")
  && includes (normalizeLine (trim l)) (js "Model:").

(** ** The rules in front of the result rule *)

(** One of the rules that the chain tries before the collecting rule takes
    the normalized line [line] in state [p]: the start rule, the header
    rule, the iteration rule, the tool-call rule (with an iteration at
    hand), or one of the detail rules (with a current step) *)
Definition earlierRule (p : pstate) (line : jsstring) : bool :=
  includes line (js "Starting benchmark run")
  || (includes line (js "Dataset:") && includes line (js "Agent:")
      && includes line (js "Model:"))
  || (includes line (js "HARNESS: Iteration") && includes line (js "making LLM call"))
  || (includes line (js "HARNESS: Tool call")
      && bool_decide (currentIteration p <> None))
  || (hasStep p
      && (includes line (js "HARNESS: Edit target:")
          || includes line (js "HARNESS: Edit instructions:")
          || includes line (js "HARNESS: Line edits count:")
          || test editRe line
          || includes line (js "HARNESS: Python syntax validation passed")
          || includes line (js "HARNESS: Python syntax error")
          || includes line (js "HARNESS: SYNTAX ERROR at line")
          || includes line (js "HARNESS: Changes applied:")
          || includes line (js "HARNESS: Changes that would have been applied:")
          || includes line (js "HARNESS: Attempted changes:")
          || (includes line (js "HARNESS: Writing")
              && includes line (js "characters to")))).

(** ** The standalone shape of a test record *)

(** The outcome word of the other status *)
Definition otherWord (st : Status) : jsstring :=
  match st with pass => js "FAILED" | fail => js "PASSED" end.

(** A fragment line that the look-ahead adds to the text of the record: it
    is not a bare keyword and not the outcome word, and when it holds no
    double colon it does not hold the other outcome word either *)
Definition fragmentLine (st : Status) (g : jsstring) : Prop :=
  g <> js "pass" /\ g <> js "fail" /\ g <> outcomeWord st /\
  (includes g (js "::") = true \/ includes g (otherWord st) = false).

(** How the record ends: the outcome word on a line of its own, or a line
    with the last piece [x] of the text, a colon and the outcome word *)
Inductive ending := WordAlone | WithLast (x : jsstring).

Definition lastLine (st : Status) (e : ending) : jsstring :=
  match e with
  | WordAlone => outcomeWord st
  | WithLast x => x ++ js ": " ++ outcomeWord st
  end.

Definition lastText (e : ending) : jsstring :=
  match e with WordAlone => [] | WithLast x => x end.

(** The keyword on a line of its own, the fragment lines, the closing line *)
Definition standaloneShape (st : Status) (frags : list jsstring) (e : ending)
  : jsstring :=
  join LF (keyword st :: frags ++ [lastLine st e]).


(** * Properties *)
(** ** The matcher against a declarative reading of patterns *)

Lemma star_loop_sound body g a :
  (forall st st', In st' (body st) -> Match a st st') ->
  forall fuel st st', In st' (star_loop body g fuel st) -> Match (Star g a) st st'.
Proof.
  intros Hbody fuel. induction fuel as [|n IH]; intros st st' Hin.
  - simpl in Hin. destruct Hin as [<-|[]]. constructor.
  - simpl in Hin.
    assert (Hmore : forall x,
      In x (flat_map (fun st1 => if length (m_rest st1) <? length (m_rest st)
                                 then star_loop body g n st1 else []) (body st)) ->
      Match (Star g a) st x).
    { intros x Hx. apply in_flat_map in Hx as (st1 & H1 & H2).
      destruct (Nat.ltb_spec (length (m_rest st1)) (length (m_rest st))) as [Hlt|]; [|done].
      eapply M_StarS; eauto. }
    destruct g.
    + apply in_app_iff in Hin as [Hin|[<-|[]]]; [auto | constructor].
    + destruct Hin as [<-|Hin]; [constructor | auto].
Qed.

Lemma run_sound r : forall st st', In st' (run r st) -> Match r st st'.
Proof.
  induction r as [|p|a IHa b IHb|a IHa b IHb|g a IHa|i a IHa| |]; intros st st' Hin; cbn [run] in Hin.
  - destruct Hin as [<-|[]]. constructor.
  - destruct st as [pos [|c rest] caps]; simpl in Hin; [done|].
    destruct (p c) eqn:Hp; [|done]. destruct Hin as [<-|[]]. by constructor.
  - apply in_flat_map in Hin as (st1 & H1 & H2). econstructor; eauto.
  - apply in_app_iff in Hin as [Hin|Hin]; [apply M_AltL | apply M_AltR]; auto.
  - eapply star_loop_sound; eauto.
  - apply in_map_iff in Hin as (st1 & <- & H1). apply (M_Group i a st st1). auto.
  - destruct (Nat.eqb_spec (m_pos st) 0); [|done]. destruct Hin as [<-|[]]. by constructor.
  - destruct st as [pos [|c rest] caps]; simpl in Hin; [|done].
    destruct Hin as [<-|[]]. constructor.
Qed.

(** What a match consumes *)
Lemma Match_consumes r st st' :
  Match r st st' ->
  exists w, m_rest st = w ++ m_rest st' /\ m_pos st' = m_pos st + length w.
Proof.
  induction 1 as [st|p c rest pos caps Hp|a b st st1 st2 _ IH1 _ IH2|a b st st' _ IH
                 |a b st st' _ IH|g a st|g a st st1 st2 _ IH1 _ _ IH2|i a st st' _ IH
                 |st Hp|pos caps].
  - exists []. simpl. split; [done|lia].
  - exists [c]. simpl. split; [done|lia].
  - destruct IH1 as (w1 & E1 & P1), IH2 as (w2 & E2 & P2).
    exists (w1 ++ w2). rewrite E1, E2, P2, P1, length_app, <- app_assoc. split; [done|lia].
  - done.
  - done.
  - exists []. simpl. split; [done|lia].
  - destruct IH1 as (w1 & E1 & P1), IH2 as (w2 & E2 & P2).
    exists (w1 ++ w2). rewrite E1, E2, P2, P1, length_app, <- app_assoc. split; [done|lia].
  - destruct IH as (w & E & P). exists w. done.
  - exists []. simpl. split; [done|lia].
  - exists []. simpl. split; [done|lia].
Qed.

Lemma Match_length r st st' :
  Match r st st' -> length (m_rest st') <= length (m_rest st).
Proof.
  intros H. apply Match_consumes in H as (w & -> & _). rewrite length_app. lia.
Qed.

(** The fuel of [star_loop] is immaterial once it exceeds the input left *)
Lemma star_loop_fuel body g : forall n1 n2 st,
  length (m_rest st) < n1 -> length (m_rest st) < n2 ->
  star_loop body g n1 st = star_loop body g n2 st.
Proof.
  induction n1 as [|n1 IH]; intros n2 st H1 H2; [lia|].
  destruct n2 as [|n2]; [lia|]. simpl.
  assert (E : flat_map (fun st' => if length (m_rest st') <? length (m_rest st)
                                   then star_loop body g n1 st' else []) (body st)
            = flat_map (fun st' => if length (m_rest st') <? length (m_rest st)
                                   then star_loop body g n2 st' else []) (body st)).
  { apply flat_map_ext. intros st1.
    destruct (Nat.ltb_spec (length (m_rest st1)) (length (m_rest st))); [|done].
    apply IH; lia. }
  by rewrite E.
Qed.

Lemma run_complete r st st' : Match r st st' -> In st' (run r st).
Proof.
  induction 1 as [st|p c rest pos caps Hp|a b st st1 st2 _ IH1 _ IH2|a b st st' _ IH
                 |a b st st' _ IH|g a st|g a st st1 st2 _ IH1 Hlt _ IH2|i a st st' _ IH
                 |st Hp|pos caps]; simpl.
  - by left.
  - rewrite Hp. by left.
  - apply in_flat_map. eauto.
  - apply in_app_iff. by left.
  - apply in_app_iff. by right.
  - destruct g; [apply in_app_iff; right|]; by left.
  - assert (In st2 (flat_map (fun st' => if length (m_rest st') <? length (m_rest st)
                 then star_loop (run a) g (length (m_rest st)) st' else []) (run a st))).
    { apply in_flat_map. exists st1. split; [done|].
      destruct (Nat.ltb_spec (length (m_rest st1)) (length (m_rest st))); [|lia].
      simpl in IH2.
      rewrite (star_loop_fuel (run a) g _ (S (length (m_rest st1)))); [done|lia|lia]. }
    destruct g; [apply in_app_iff; left|right]; done.
  - apply in_map_iff. exists st'. done.
  - rewrite Hp. by left.
  - by left.
Qed.

Lemma run_Match r st st' : In st' (run r st) <-> Match r st st'.
Proof. split; [apply run_sound | apply run_complete]. Qed.

Lemma Match_caps_frame r st st' :
  Match r st st' -> forall i, ~ In i (groups r) -> m_caps st' !! i = m_caps st !! i.
Proof.
  induction 1 as [st|p c rest pos caps Hp|a b st st1 st2 _ IH1 _ IH2|a b st st' _ IH
                 |a b st st' _ IH|g a st|g a st st1 st2 _ IH1 _ _ IH2|i a st st' _ IH
                 |st Hp|pos caps]; intros j Hj; simpl in *; try done.
  - rewrite IH2, IH1; [done| |]; rewrite in_app_iff in Hj; tauto.
  - apply IH. rewrite in_app_iff in Hj; tauto.
  - apply IH. rewrite in_app_iff in Hj; tauto.
  - rewrite IH2, IH1; done.
  - rewrite lookup_insert_ne; [apply IH|]; tauto.
Qed.

Lemma Match_caps_mono r st st' :
  Match r st st' -> forall i, is_Some (m_caps st !! i) -> is_Some (m_caps st' !! i).
Proof.
  induction 1 as [st|p c rest pos caps Hp|a b st st1 st2 _ IH1 _ IH2|a b st st' _ IH
                 |a b st st' _ IH|g a st|g a st st1 st2 _ IH1 _ _ IH2|i a st st' _ IH
                 |st Hp|pos caps]; intros j Hj; simpl in *; auto.
  destruct (decide (i = j)) as [->|Hne].
  - rewrite lookup_insert_eq. eauto.
  - rewrite lookup_insert_ne; auto.
Qed.

Lemma Match_caps_always r st st' :
  Match r st st' -> forall i, In i (always_groups r) -> is_Some (m_caps st' !! i).
Proof.
  induction 1 as [st|p c rest pos caps Hp|a b st st1 st2 H1 IH1 H2 IH2|a b st st' _ IH
                 |a b st st' _ IH|g a st|g a st st1 st2 _ IH1 _ _ IH2|i a st st' _ IH
                 |st Hp|pos caps]; intros j Hj; simpl in *; try done.
  - apply in_app_iff in Hj as [Hj|Hj]; [|by auto].
    eapply Match_caps_mono; eauto.
  - apply filter_In in Hj as [Hj _]. auto.
  - apply filter_In in Hj as [_ Hj]. apply bool_decide_eq_true in Hj.
    apply IH. by apply list_elem_of_In.
  - destruct Hj as [->|Hj].
    + rewrite lookup_insert_eq. eauto.
    + destruct (decide (i = j)) as [->|Hne].
      * rewrite lookup_insert_eq. eauto.
      * rewrite lookup_insert_ne; auto.
Qed.

Lemma head_In {A} (l : list A) x : head l = Some x -> In x l.
Proof. destruct l; simpl; [done|]. intros [= ->]. by left. Qed.

Lemma head_None_nil {A} (l : list A) : head l = None -> l = [].
Proof. by destruct l. Qed.

Lemma search_spec r : forall s i,
  match search r i s with
  | Some m =>
      exists k st', k <= length s /\
        head (run r (MState (i + k) (drop k s) ∅)) = Some st' /\
        m = MatchRes (i + k) (m_pos st') (take (m_pos st' - (i + k)) (drop k s)) (m_caps st') /\
        forall k', k' < k -> run r (MState (i + k') (drop k' s) ∅) = []
  | None => forall k, k <= length s -> run r (MState (i + k) (drop k s) ∅) = []
  end.
Proof.
  induction s as [|c s IH]; intros i; simpl.
  - destruct (head (run r (MState i [] ∅))) as [st'|] eqn:E.
    + exists 0, st'. rewrite Nat.add_0_r. simpl. repeat split; [done|done|lia].
    + intros k Hk. assert (k = 0) as -> by lia. rewrite Nat.add_0_r. simpl.
      by apply head_None_nil.
  - destruct (head (run r (MState i (c :: s) ∅))) as [st'|] eqn:E.
    + exists 0, st'. rewrite Nat.add_0_r. simpl. repeat split; [lia|done|lia].
    + specialize (IH (S i)). destruct (search r (S i) s) as [m|].
      * destruct IH as (k & st' & Hk & Hh & -> & Hno).
        exists (S k), st'. simpl. rewrite <- Nat.add_succ_comm.
        repeat split; [lia|done|].
        intros [|k'] Hk'.
        -- rewrite Nat.add_0_r. simpl. by apply head_None_nil.
        -- rewrite <- Nat.add_succ_comm. simpl. apply Hno. lia.
      * intros [|k] Hk.
        -- rewrite Nat.add_0_r. simpl. by apply head_None_nil.
        -- rewrite <- Nat.add_succ_comm. simpl. apply IH. lia.
Qed.

Lemma exec_Some r s from m :
  exec r s from = Some m ->
  exists k st', from <= k <= length s /\
    head (run r (start_at s k)) = Some st' /\
    m = result_at s k st' /\
    forall k', from <= k' < k -> run r (start_at s k') = [].
Proof.
  unfold exec. destruct (Nat.leb_spec from (length s)) as [Hle|]; [|done].
  intros E. pose proof (search_spec r (drop from s) from) as H. rewrite E in H.
  destruct H as (k & st' & Hk & Hh & -> & Hno).
  rewrite length_drop in Hk. rewrite drop_drop in Hh.
  exists (from + k), st'. unfold start_at, result_at. rewrite drop_drop.
  repeat split; [lia|lia|done|].
  intros k' Hk'. specialize (Hno (k' - from)). rewrite drop_drop in Hno.
  replace (from + (k' - from)) with k' in Hno by lia. apply Hno. lia.
Qed.

Lemma exec_None r s from :
  exec r s from = None ->
  forall k, from <= k <= length s -> run r (start_at s k) = [].
Proof.
  unfold exec. destruct (Nat.leb_spec from (length s)) as [Hle|]; [|intros _ k; lia].
  intros E k Hk. pose proof (search_spec r (drop from s) from) as H. rewrite E in H.
  specialize (H (k - from)). rewrite length_drop, drop_drop in H.
  replace (from + (k - from)) with k in H by lia. apply H. lia.
Qed.

(** The converse: the leftmost position with a match is what [exec] finds *)
Lemma exec_found r s from k st' :
  from <= k <= length s ->
  head (run r (start_at s k)) = Some st' ->
  (forall k', from <= k' < k -> run r (start_at s k') = []) ->
  exec r s from = Some (result_at s k st').
Proof.
  intros Hk Hh Hno. destruct (exec r s from) as [m|] eqn:E.
  - apply exec_Some in E as (k1 & st1 & Hk1 & Hh1 & -> & Hno1).
    destruct (Nat.lt_trichotomy k k1) as [Hlt|[->|Hgt]].
    + rewrite Hno1 in Hh by lia. done.
    + rewrite Hh in Hh1. by injection Hh1 as ->.
    + rewrite Hno in Hh1 by lia. done.
  - eapply exec_None in E; [|exact Hk]. rewrite E in Hh. done.
Qed.

Lemma exec_none_intro r s from :
  (forall k, from <= k <= length s -> run r (start_at s k) = []) ->
  exec r s from = None.
Proof.
  intros Hno. destruct (exec r s from) as [m|] eqn:E; [|done].
  apply exec_Some in E as (k & st' & Hk & Hh & _ & _).
  rewrite Hno in Hh by done. done.
Qed.

(** A match found by [exec] is a match in the declarative sense *)
Lemma exec_Match r s from m :
  exec r s from = Some m ->
  exists st', from <= mr_index m <= length s /\
    Match r (start_at s (mr_index m)) st' /\ m = result_at s (mr_index m) st'.
Proof.
  intros E. apply exec_Some in E as (k & st' & Hk & Hh & -> & _).
  exists st'. simpl. repeat split; try lia; try done.
  apply run_sound. by apply head_In.
Qed.

Lemma exec_cap_defined r s from m i :
  exec r s from = Some m -> In i (always_groups r) -> is_Some (cap m i).
Proof.
  intros E Hi. apply exec_Match in E as (st' & _ & HM & ->).
  unfold cap. simpl. eapply Match_caps_always; eauto.
Qed.

Lemma reads_nil st : reads st [] st.
Proof. unfold reads. simpl. repeat split; lia. Qed.

Lemma reads_nil_inv st st' : reads st [] st' -> st' = st.
Proof.
  destruct st, st'. unfold reads. simpl. intros (-> & -> & ->).
  f_equal. lia.
Qed.

Lemma reads_app st v st1 w st2 :
  reads st v st1 -> reads st1 w st2 -> reads st (v ++ w) st2.
Proof.
  unfold reads. intros (E1 & P1 & C1) (E2 & P2 & C2).
  rewrite E1, E2, P2, P1, C2, C1, length_app, <- app_assoc. repeat split; lia.
Qed.

Lemma reads_app_inv st v w st2 :
  reads st (v ++ w) st2 ->
  exists st1, reads st v st1 /\ reads st1 w st2.
Proof.
  unfold reads. intros (E & P & C).
  exists (MState (m_pos st + length v) (w ++ m_rest st2) (m_caps st)). simpl.
  rewrite length_app in P. rewrite <- app_assoc in E. repeat split; try done; lia.
Qed.

Lemma reads_fun st v st1 st2 : reads st v st1 -> reads st v st2 -> st1 = st2.
Proof.
  destruct st1, st2. unfold reads. simpl. intros (E1 & -> & ->) (E2 & -> & ->).
  rewrite E1 in E2. apply app_inv_head in E2 as ->. done.
Qed.

Lemma Match_Seq_inv a b st st2 :
  Match (Seq a b) st st2 <-> exists st1, Match a st st1 /\ Match b st1 st2.
Proof.
  split.
  - inversion 1; subst. eauto.
  - intros (st1 & H1 & H2). econstructor; eauto.
Qed.

Lemma Match_Eps_inv st st' : Match Eps st st' <-> st' = st.
Proof. split; [by inversion 1 | intros ->; constructor]. Qed.

Lemma Match_Chr_inv p st st' :
  Match (Chr p) st st' <-> exists c, p c = true /\ reads st [c] st'.
Proof.
  split.
  - inversion 1; subst. exists c. unfold reads. simpl. repeat split; [done|lia].
  - intros (c & Hp & E & P & C). destruct st as [pos rest caps], st' as [pos' rest' caps'].
    simpl in *. subst. replace (pos + 1) with (S pos) by lia. by constructor.
Qed.

Lemma Match_Bol_inv st st' : Match Bol st st' <-> st' = st /\ m_pos st = 0.
Proof. split; [by inversion 1 | intros [-> ?]; by constructor]. Qed.

Lemma Match_Eol_inv st st' : Match Eol st st' <-> st' = st /\ m_rest st = [].
Proof.
  split; [by inversion 1 |].
  intros [-> E]. destruct st as [pos rest caps]. simpl in E. subst. constructor.
Qed.

Lemma Match_Alt_inv a b st st' :
  Match (Alt a b) st st' <-> Match a st st' \/ Match b st st'.
Proof.
  split; [inversion 1; subst; auto | intros [?|?]; [by apply M_AltL | by apply M_AltR]].
Qed.

Lemma seqs_cons a rs : seqs (a :: rs) = Seq a (seqs rs).
Proof. done. Qed.

Lemma Match_seqs_cons a rs st st2 :
  Match (seqs (a :: rs)) st st2 <-> exists st1, Match a st st1 /\ Match (seqs rs) st1 st2.
Proof. rewrite seqs_cons. apply Match_Seq_inv. Qed.

Lemma Match_seqs_nil st st' : Match (seqs []) st st' <-> st' = st.
Proof. apply Match_Eps_inv. Qed.

Lemma Match_lit w : forall st st', Match (lit w) st st' <-> reads st w st'.
Proof.
  induction w as [|c w IH]; intros st st'.
  - change (lit []) with Eps. rewrite Match_Eps_inv. split.
    + intros ->. apply reads_nil.
    + apply reads_nil_inv.
  - change (lit (c :: w)) with (Seq (chr c) (lit w)). rewrite Match_Seq_inv. split.
    + intros (st1 & H1 & H2). apply Match_Chr_inv in H1 as (c' & Hc & H1).
      apply N.eqb_eq in Hc as <-. apply IH in H2.
      apply (reads_app st [c] st1 w st'); done.
    + intros H. apply (reads_app_inv st [c] w) in H as (st1 & H1 & H2).
      exists st1. split; [|by apply IH].
      apply Match_Chr_inv. exists c. split; [apply N.eqb_refl|done].
Qed.

Lemma Match_lit_ci w : forall st st',
  Match (lit_ci w) st st' <->
  exists v, List.map upperCU v = List.map upperCU w /\ reads st v st'.
Proof.
  induction w as [|c w IH]; intros st st'.
  - change (lit_ci []) with Eps. rewrite Match_Eps_inv. split.
    + intros ->. exists []. split; [done|apply reads_nil].
    + intros (v & Hv & H). destruct v; [|done]. by apply reads_nil_inv.
  - change (lit_ci (c :: w)) with (Seq (chr_ci c) (lit_ci w)). rewrite Match_Seq_inv. split.
    + intros (st1 & H1 & H2). apply Match_Chr_inv in H1 as (c' & Hc & H1).
      apply N.eqb_eq in Hc. apply IH in H2 as (v & Hv & H2).
      exists (c' :: v). split; [simpl; by rewrite Hc, Hv|].
      apply (reads_app st [c'] st1 v st'); done.
    + intros (v & Hv & H). destruct v as [|c' v]; [done|].
      simpl in Hv. injection Hv as Hc Hv.
      apply (reads_app_inv st [c'] v) in H as (st1 & H1 & H2).
      exists st1. split.
      * apply Match_Chr_inv. exists c'. split; [by apply N.eqb_eq|done].
      * apply IH. eauto.
Qed.

Lemma Match_star_class g p st st' :
  Match (Star g (Chr p)) st st' <->
  exists v, forallb p v = true /\ reads st v st'.
Proof.
  split.
  - remember (Star g (Chr p)) as r eqn:Er. intros H. revert Er.
    induction H as [| | | | |g' a st|g' a st st1 st2 H1 _ _ _ IH2| | |]; try done.
    + intros _. exists []. split; [done|apply reads_nil].
    + intros [= -> ->]. destruct (IH2 eq_refl) as (v & Hv & H2).
      apply Match_Chr_inv in H1 as (c & Hc & H1).
      exists (c :: v). split; [simpl; by rewrite Hc, Hv|].
      apply (reads_app st [c] st1 v st2); done.
  - intros (v & Hv & H). revert st H. induction v as [|c v IH]; intros st H.
    + apply reads_nil_inv in H as ->. constructor.
    + simpl in Hv. apply andb_true_iff in Hv as [Hc Hv].
      apply (reads_app_inv st [c] v) in H as (st1 & H1 & H2).
      eapply M_StarS; [apply Match_Chr_inv; eauto| |by apply IH].
      destruct H1 as (E & _ & _). rewrite E. simpl. lia.
Qed.

Lemma Match_plus_class p st st' :
  Match (plus (Chr p)) st st' <->
  exists v, v <> [] /\ forallb p v = true /\ reads st v st'.
Proof.
  unfold plus. rewrite Match_Seq_inv. split.
  - intros (st1 & H1 & H2). apply Match_Chr_inv in H1 as (c & Hc & H1).
    apply Match_star_class in H2 as (v & Hv & H2).
    exists (c :: v). split; [done|]. split; [simpl; by rewrite Hc, Hv|].
    apply (reads_app st [c] st1 v st'); done.
  - intros (v & Hne & Hv & H). destruct v as [|c v]; [done|].
    simpl in Hv. apply andb_true_iff in Hv as [Hc Hv].
    apply (reads_app_inv st [c] v) in H as (st1 & H1 & H2).
    exists st1. split; [apply Match_Chr_inv; eauto|apply Match_star_class; eauto].
Qed.

Lemma Match_plus_lazy_class p st st' :
  Match (plus_lazy (Chr p)) st st' <->
  exists v, v <> [] /\ forallb p v = true /\ reads st v st'.
Proof.
  unfold plus_lazy. rewrite Match_Seq_inv. split.
  - intros (st1 & H1 & H2). apply Match_Chr_inv in H1 as (c & Hc & H1).
    apply Match_star_class in H2 as (v & Hv & H2).
    exists (c :: v). split; [done|]. split; [simpl; by rewrite Hc, Hv|].
    apply (reads_app st [c] st1 v st'); done.
  - intros (v & Hne & Hv & H). destruct v as [|c v]; [done|].
    simpl in Hv. apply andb_true_iff in Hv as [Hc Hv].
    apply (reads_app_inv st [c] v) in H as (st1 & H1 & H2).
    exists st1. split; [apply Match_Chr_inv; eauto|apply Match_star_class; eauto].
Qed.

(** A group around a pattern that only reads *)
Lemma Match_Group_reads i a (P : jsstring -> Prop) st st'' :
  (forall st1 st2, Match a st1 st2 <-> exists v, P v /\ reads st1 v st2) ->
  Match (Group i a) st st'' <-> exists v, P v /\ reads_cap i st v st''.
Proof.
  intros Ha. split.
  - inversion 1 as [| | | | | | |i' a' st0 st' HM| |]; subst.
    apply Ha in HM as (v & Hv & E & P' & C).
    exists v. split; [done|]. unfold reads_cap, set_cap. simpl.
    rewrite P', E, C. replace (m_pos st + length v - m_pos st) with (length v) by lia.
    rewrite take_app_length. done.
  - intros (v & Hv & E & P' & C).
    pose (st' := MState (m_pos st'') (m_rest st'') (m_caps st)).
    assert (HM : Match a st st').
    { apply Ha. exists v. split; [done|]. unfold reads. done. }
    apply (M_Group i) in HM. unfold set_cap in HM. simpl in HM.
    rewrite P', E in HM.
    replace (m_pos st + length v - m_pos st) with (length v) in HM by lia.
    rewrite take_app_length, <- C, <- P' in HM. by destruct st''.
Qed.

Lemma reads_cap_lookup i st v st' : reads_cap i st v st' -> m_caps st' !! i = Some v.
Proof. intros (_ & _ & ->). apply lookup_insert_eq. Qed.

Lemma reads_cap_other i j st v st' :
  reads_cap i st v st' -> i <> j -> m_caps st' !! j = m_caps st !! j.
Proof. intros (_ & _ & ->) Hne. by apply lookup_insert_ne. Qed.

Lemma reads_lookup j st v st' : reads st v st' -> m_caps st' !! j = m_caps st !! j.
Proof. by intros (_ & _ & ->). Qed.


(** ** Strings *)

Lemma split_go_length sep : forall s skip cur, 1 <= length (split_go sep skip cur s).
Proof.
  induction s as [|c s IH]; intros skip cur; simpl; [lia|].
  destruct skip; [|apply IH].
  destruct (isPrefix sep (c :: s)); simpl; [lia|apply IH].
Qed.

Lemma indexOf_cons sub c s :
  indexOf sub (c :: s) =
  if isPrefix sub (c :: s) then Some 0 else option_map S (indexOf sub s).
Proof. done. Qed.

Lemma split_go_cons sep cur c s :
  split_go sep 0 cur (c :: s) =
  if isPrefix sep (c :: s) then rev cur :: split_go sep (length sep - 1) [] s
  else split_go sep 0 (c :: cur) s.
Proof. done. Qed.

Lemma split_includes sep : sep <> [] -> forall s cur,
  includes s sep = true -> 2 <= length (split_go sep 0 cur s).
Proof.
  intros Hsep. unfold includes.
  induction s as [|c s IH]; intros cur.
  - destruct sep; done.
  - rewrite indexOf_cons, split_go_cons.
    destruct (isPrefix sep (c :: s)) eqn:E.
    + intros _. cbn [length]. pose proof (split_go_length sep s (length sep - 1) []). lia.
    + destruct (indexOf sep s) eqn:E2; [|done].
      intros _. apply IH. done.
Qed.

Lemma split_second sep s :
  sep <> [] -> includes s sep = true -> is_Some (split sep s !! 1).
Proof.
  intros Hsep H. apply lookup_lt_is_Some. unfold split.
  pose proof (split_includes sep Hsep s [] H). lia.
Qed.

(** ** Numbers *)

Lemma roundDouble_natural n : natural (roundDouble n).
Proof.
  unfold roundDouble. destruct (n <? 2 ^ 53)%N; simpl; [lia|].
  match goal with |- natural (if ?c then _ else _) => destruct c end; simpl; [done|lia].
Qed.

Lemma digit_not_ws c : isDigit c = true -> isWS c = false.
Proof.
  unfold isDigit, isWS. intros H. apply andb_true_iff in H as [H1 H2].
  apply N.leb_le in H1, H2.
  repeat (apply orb_false_iff; split);
    try (apply N.eqb_neq; lia).
  apply andb_false_iff. left. apply N.leb_gt. lia.
Qed.

Lemma takeWhile_all p s : forallb p s = true -> takeWhile p s = s.
Proof.
  induction s as [|c s IH]; simpl; [done|].
  intros H. apply andb_true_iff in H as [-> H]. by rewrite IH.
Qed.

Lemma parseInt_digits v :
  v <> [] -> forallb isDigit v = true -> parseInt v = roundDouble (decimal v).
Proof.
  intros Hne Hd. destruct v as [|c v]; [done|].
  pose proof Hd as Hd'. simpl in Hd'. apply andb_true_iff in Hd' as [Hc _].
  unfold parseInt, trimStart. simpl dropWhile. rewrite (digit_not_ws c Hc).
  assert ((c =? 45)%N = false) as ->.
  { apply N.eqb_neq. unfold isDigit in Hc. apply andb_true_iff in Hc as [H1 _].
    apply N.leb_le in H1. lia. }
  assert ((c =? 43)%N = false) as ->.
  { apply N.eqb_neq. unfold isDigit in Hc. apply andb_true_iff in Hc as [H1 _].
    apply N.leb_le in H1. lia. }
  rewrite (takeWhile_all _ _ Hd). done.
Qed.

Lemma parseInt_digits_natural v :
  v <> [] -> forallb isDigit v = true -> natural (parseInt v).
Proof. intros. rewrite parseInt_digits by done. apply roundDouble_natural. Qed.

Lemma num_max_natural a b : natural a -> natural b -> natural (num_max a b).
Proof.
  destruct a, b; simpl; try done.
  intros. destruct (_ <? _)%Z; done.
Qed.

Lemma num_geb_refl a : natural a -> num_geb a a = true.
Proof.
  destruct a; simpl; try done. intros _. unfold num_geb. simpl.
  rewrite Z.eqb_refl. apply orb_true_r.
Qed.

Lemma num_geb_max_l a b : natural a -> natural b -> num_geb (num_max a b) a = true.
Proof.
  destruct a as [|x| |], b as [|y| |]; simpl; try done; intros _ _.
  unfold num_geb. destruct (Z.ltb_spec x y); simpl.
  - destruct (Z.ltb_spec x y); [done|lia].
  - rewrite Z.eqb_refl. apply orb_true_r.
Qed.

Lemma num_geb_max_r a b : natural a -> natural b -> num_geb (num_max a b) b = true.
Proof.
  destruct a as [|x| |], b as [|y| |]; simpl; try done; intros _ _.
  unfold num_geb. destruct (Z.ltb_spec x y); simpl.
  - rewrite Z.eqb_refl. apply orb_true_r.
  - destruct (Z.ltb_spec y x); simpl; [done|]. apply Z.eqb_eq. lia.
Qed.

Lemma num_geb_trans a b c :
  num_geb a b = true -> num_geb b c = true -> num_geb a c = true.
Proof.
  unfold num_geb. destruct a as [|x| |], b as [|y| |], c as [|z| |]; simpl; try done.
  rewrite !orb_true_iff, !Z.ltb_lt, !Z.eqb_eq. lia.
Qed.

Lemma num_geb_zero a : natural a -> num_geb a (Num 0) = true.
Proof.
  destruct a as [|x| |]; simpl; try done. unfold num_geb. simpl.
  rewrite orb_true_iff, Z.ltb_lt, Z.eqb_eq. lia.
Qed.

(** ** The matcher: progress *)

Lemma Match_min_len r st st' : Match r st st' -> m_pos st + min_len r <= m_pos st'.
Proof.
  induction 1 as [st|p c rest pos caps Hp|a b st st1 st2 _ IH1 _ IH2|a b st st' _ IH
                 |a b st st' _ IH|g a st|g a st st1 st2 H1 IH1 _ H2 IH2|i a st st' _ IH
                 |st Hp|pos caps]; simpl in *; lia.
Qed.

Lemma exec_bounds r s from m :
  exec r s from = Some m ->
  from <= mr_index m /\ mr_index m + min_len r <= mr_end m /\ mr_end m <= length s.
Proof.
  intros E. apply exec_Match in E as (st' & Hk & HM & ->). simpl in *.
  split; [lia|]. split.
  - apply Match_min_len in HM. simpl in HM. done.
  - apply Match_consumes in HM as (w & E & P). simpl in *.
    assert (length (drop (mr_index m) s) = length w + length (m_rest st')) as Hl
      by (rewrite E, length_app; done).
    rewrite length_drop in Hl. lia.
Qed.

Lemma exec_loop_returns {A} r s (f : A -> matchres -> A) :
  1 <= min_len r ->
  forall fuel lastIndex acc,
    0 < fuel -> length s + 1 < fuel + lastIndex ->
    exists res, exec_loop r s f fuel lastIndex acc = Returns res.
Proof.
  intros Hmin. induction fuel as [|n IH]; intros lastIndex acc H0 Hf; [lia|]. simpl.
  destruct (exec r s lastIndex) as [m|] eqn:E; [|eauto].
  apply exec_bounds in E as (H1 & H2 & H3). apply IH; lia.
Qed.

(** ** The loop of [parseLogFile] *)

Lemma alter_sig (f : TrajectoryStep -> TrajectoryStep) :
  (forall s, sig (f s) = sig s) ->
  forall l idx, List.map sig (alter f idx l) = List.map sig l.
Proof.
  intros Hf. induction l as [|s l IH]; intros [|idx]; simpl; try done.
  - by rewrite Hf.
  - f_equal. apply IH.
Qed.

Lemma on_step_core idx f p :
  (forall s, sig (f s) = sig s) -> core (on_step idx f p) = core p.
Proof.
  intros Hf. unfold core, on_step, with_steps.
  cbn [l_totalIterations l_toolCalls l_steps currentIteration].
  by rewrite alter_sig.
Qed.

Lemma write_detail_core p v f : core (write_detail p v f) = core p.
Proof.
  unfold write_detail. destruct (currentStep p); [|done].
  destruct (truthy v); [|done]. by apply on_step_core.
Qed.

Lemma header_parts_names parts : forall p,
  exists t m, header_parts parts p = Returns (set_names t m p).
Proof.
  induction parts as [|part parts IH]; intros p; simpl.
  - exists (l_taskName p), (l_modelName p). by destruct p.
  - destruct (includes part (js "Model:")) eqn:E1.
    { destruct (split_second (js "Model:") part) as [v ->]; [done|done|]. simpl.
      destruct (IH (set_names (l_taskName p) (trim v) p)) as (t & m & ->). eauto. }
    destruct (includes part (js "Task:")) eqn:E2.
    { destruct (split_second (js "Task:") part) as [v ->]; [done|done|]. simpl.
      destruct (IH (set_names (trim v) (l_modelName p) p)) as (t & m & ->). eauto. }
    apply IH.
Qed.

Lemma successRe_cap line m :
  exec successRe line 0 = Some m -> is_Some (cap m 1).
Proof. intros E. eapply exec_cap_defined; [exact E|]. vm_compute. auto. Qed.

Lemma toolCallRe_cap line m :
  exec toolCallRe line 0 = Some m -> is_Some (cap m 1).
Proof. intros E. eapply exec_cap_defined; [exact E|]. vm_compute. auto. Qed.

Lemma iterationRe_cap line m :
  exec iterationRe line 0 = Some m ->
  exists v, cap m 1 = Some v /\ v <> [] /\ forallb isDigit v = true.
Proof.
  intros E. apply exec_Match in E as (st' & _ & HM & ->).
  unfold iterationRe in HM.
  apply Match_seqs_cons in HM as (st1 & H1 & HM).
  apply Match_seqs_cons in HM as (st2 & H2 & HM).
  apply Match_seqs_nil in HM as ->.
  apply (Match_Group_reads 1 (plus digit)
           (fun v => v <> [] /\ forallb isDigit v = true)) in H2
    as (v & [Hne Hd] & H2).
  - exists v. split; [|done]. unfold cap. simpl. eapply reads_cap_lookup; eauto.
  - intros sa sb. unfold digit. rewrite Match_plus_class.
    split; [intros (v' & ? & ? & ?) | intros (v' & [? ?] & ?)]; eauto.
Qed.

(** Every branch returns, and it either leaves [core] alone, pushes a start
    step, records an iteration number or opens an iteration step. *)
Lemma apply_rule_cases r p rawLine line :
  exists p', apply_rule r p rawLine line = Returns p' /\
    (core p' = core p \/
     (exists ts, r = RStart /\ p' = with_steps (fun l => l ++ [startStep ts]) p) \/
     (exists v, v <> [] /\ forallb isDigit v = true /\
                p' = set_iteration (parseInt v) p) \/
     (exists it name ts, r = RToolCall /\ currentIteration p = Some it /\
                         p' = start_step (iterationStep it (Some name) ts) p)).
Proof.
  destruct r; cbn [apply_rule];
    try (eexists; split; [reflexivity|]; left; first [done | by apply write_detail_core]).
  - (* RStart *) eexists; split; [reflexivity|]. right; left. eauto.
  - (* RHeader *)
    destruct (header_parts_names (split (js ",") line) p) as (t & m & ->).
    eexists; split; [reflexivity|]. by left.
  - (* RIteration *)
    destruct (exec iterationRe line 0) as [m|] eqn:E.
    + destruct (iterationRe_cap _ _ E) as (v & Hc & Hne & Hd).
      eexists; split; [reflexivity|]. right; right; left.
      exists v. unfold capInt. rewrite Hc. done.
    + eexists; split; [reflexivity|]. by left.
  - (* RToolCall *)
    destruct (exec toolCallRe line 0) as [m|] eqn:E.
    + destruct (currentIteration p) as [it|] eqn:Ei.
      * destruct (toolCallRe_cap _ _ E) as [name Hc].
        eexists; split; [reflexivity|]. right; right; right.
        exists it, name, (extractTimestamp rawLine). by rewrite Hc.
      * eexists; split; [reflexivity|]. by left.
    + eexists; split; [reflexivity|]. by left.
  - (* RSyntaxPassed *)
    eexists; split; [reflexivity|]. left.
    destruct (currentStep p); [by apply on_step_core|done].
  - (* RSyntaxError *)
    eexists; split; [reflexivity|]. left.
    destruct (currentStep p); [by apply on_step_core|done].
  - (* RWriting *)
    destruct (exec writingRe line 0) as [m|]; [destruct (currentStep p)|];
      eexists; (split; [reflexivity|]); left; [by apply on_step_core|done|done].
  - (* RCollect *)
    destruct (currentStep p); eexists; (split; [reflexivity|]); left; [|done].
    by rewrite on_step_core.
  - (* RResult *)
    destruct (exec successRe line 0) as [m|] eqn:E; [destruct (currentStep p)|];
      [|eexists; (split; [reflexivity|]); by left..].
    destruct (successRe_cap _ _ E) as [w ->]. simpl.
    eexists; split; [reflexivity|]. left.
    destruct (eqs (toLowerCase w) (js "true")); unfold core; simpl; by rewrite alter_sig.
  - (* RError *)
    destruct (currentStep p) as [idx|]; [|eexists; (split; [reflexivity|]); by left].
    destruct (l_steps p !! idx) as [s|]; [|eexists; (split; [reflexivity|]); by left].
    destruct (truthy (step_error s)); eexists; (split; [reflexivity|]); left; [done|].
    unfold core; simpl; by rewrite alter_sig.
Qed.

Lemma classify_RStart p line :
  classify p line = RStart -> includes line (js "Starting benchmark run") = true.
Proof.
  unfold classify.
  repeat match goal with
         | |- context [if ?c then _ else _] => destruct c eqn:?; try done
         end.
Qed.

Lemma classify_RToolCall p line :
  classify p line = RToolCall -> includes line (js "HARNESS: Tool call") = true.
Proof.
  unfold classify.
  repeat match goal with
         | |- (if ?c then _ else _) = _ -> _ => destruct c eqn:?; try done
         end.
  intros _.
  match goal with H : (_ && _) = true |- _ => apply andb_true_iff in H as [H _]; exact H end.
Qed.

Lemma step_line_cases p l :
  exists p', step_line p l = Returns p' /\
    (core p' = core p \/
     (exists ts, includes (normalizeLine (trim l)) (js "Starting benchmark run") = true /\
                 p' = with_steps (fun l => l ++ [startStep ts]) p) \/
     (exists v, v <> [] /\ forallb isDigit v = true /\
                p' = set_iteration (parseInt v) p) \/
     (exists it name ts,
         includes (normalizeLine (trim l)) (js "HARNESS: Tool call") = true /\
         currentIteration p = Some it /\
         p' = start_step (iterationStep it (Some name) ts) p)).
Proof.
  unfold step_line. destruct (eqs (trim l) []).
  - exists p. split; [done|by left].
  - destruct (apply_rule_cases (classify p (normalizeLine (trim l))) p (trim l)
                (normalizeLine (trim l))) as (p' & E & Hc).
    exists p'. split; [done|].
    destruct Hc as [Hc|[(ts & Hr & ->)|[(v & Hne & Hd & ->)|(it & name & ts & Hr & Hcur & ->)]]].
    + by left.
    + right; left. exists ts. split; [by apply (classify_RStart p)|done].
    + right; right; left. eauto.
    + right; right; right. exists it, name, ts.
      split; [by apply (classify_RToolCall p)|done].
Qed.

Lemma okSig_weaken total total' g :
  num_geb total' total = true -> okSig total g -> okSig total' g.
Proof.
  destruct g as [[[ty content] tool] it]. simpl. intros H (Hw & Hn & Hg).
  repeat split; [done|done|]. eapply num_geb_trans; eauto.
Qed.

Lemma filter_app_length {A} (f : A -> bool) l1 l2 :
  length (List.filter f (l1 ++ l2)) = length (List.filter f l1) + length (List.filter f l2).
Proof. by rewrite List.filter_app, length_app. Qed.

Lemma Inv_step p l p' : Inv p -> step_line p l = Returns p' -> Inv p'.
Proof.
  intros HI E. destruct (step_line_cases p l) as (p1 & E1 & Hc).
  rewrite E in E1. injection E1 as <-.
  unfold Inv in *.
  destruct Hc as [Hc|[(ts & _ & ->)|[(v & Hne & Hd & ->)|(it & name & ts & _ & Hcur & ->)]]].
  - by rewrite Hc.
  - unfold core in *. simpl. destruct HI as (H1 & H2 & H3 & H4).
    rewrite map_app, filter_app_length. simpl.
    split; [done|]. split; [done|]. split; [|lia].
    apply Forall_app. split; [done|]. constructor; [|done].
    simpl. split; [by left|]. split; [lia|by apply num_geb_zero].
  - unfold core in *. simpl. destruct HI as (H1 & H2 & H3 & H4).
    pose proof (parseInt_digits_natural v Hne Hd) as Hn.
    split; [by apply num_max_natural|]. split; [|split; [|done]].
    + intros it [= <-]. split; [done|]. by apply num_geb_max_r.
    + eapply Forall_impl; [exact H3|]. intros g. apply okSig_weaken.
      by apply num_geb_max_l.
  - unfold core in *. simpl. destruct HI as (H1 & H2 & H3 & H4).
    rewrite map_app, filter_app_length. simpl.
    destruct (H2 it Hcur) as [Hn Hg].
    split; [done|]. split; [done|]. split; [|lia].
    apply Forall_app. split; [done|]. constructor; [|done].
    simpl. split; [|done]. right. split; [done|]. exists name. done.
Qed.

Lemma run_lines_returns lines : forall p, exists p', run_lines lines p = Returns p'.
Proof.
  induction lines as [|l lines IH]; intros p; simpl; [eauto|].
  destruct (step_line_cases p l) as (p1 & -> & _). simpl. apply IH.
Qed.

Lemma Inv_run_lines lines : forall p p',
  Inv p -> run_lines lines p = Returns p' -> Inv p'.
Proof.
  induction lines as [|l lines IH]; intros p p' HI; simpl.
  - by intros [= <-].
  - destruct (step_line p l) as [p1| |] eqn:E; simpl; [|done|done].
    apply IH. eapply Inv_step; eauto.
Qed.

Lemma Inv_initial fname : Inv (initial fname).
Proof.
  unfold Inv, core, initial. simpl. split; [lia|]. split; [done|]. split; [constructor|done].
Qed.

(** ** Termination of the extractors *)

Lemma lookahead_ge word other lines : forall budget j path,
  j <= snd (fst (lookahead word other lines budget j path)).
Proof.
  induction budget as [|b IH]; intros j path; simpl; [done|].
  destruct (lines !! j); simpl; [|done].
  repeat match goal with
         | |- context [if ?c then _ else _] => destruct c; simpl; try done
         end;
    (etrans; [|apply IH]); lia.
Qed.

Lemma standalone_ge word other st lines i :
  i <= snd (standalone word other st lines i).
Proof.
  unfold standalone.
  pose proof (lookahead_ge word other lines 3 (i + 1) []) as H.
  destruct (lookahead word other lines 3 (i + 1) []) as [[path j] found]. simpl in H.
  repeat match goal with
         | |- context [if ?c then _ else _] => destruct c; simpl; try done
         end; lia.
Qed.

Lemma test_body_ge lines i line : i <= snd (test_body lines i line).
Proof.
  unfold test_body.
  repeat match goal with
         | |- context [match ?c with Some _ => _ | None => _ end] =>
             destruct c; simpl; try done
         | |- context [if ?c then _ else _] => destruct c; simpl; try done
         end; try lia; apply standalone_ge.
Qed.

Lemma test_loop_returns lines : forall fuel i acc,
  0 < fuel -> length lines < fuel + i ->
  exists res, test_loop fuel lines i acc = Returns res.
Proof.
  induction fuel as [|n IH]; intros i acc H0 Hf; [lia|]. simpl.
  destruct (lines !! i) as [l|] eqn:E; [|eauto].
  apply lookup_lt_Some in E.
  pose proof (test_body_ge lines i (trim l)) as Hge.
  destruct (test_body lines i (trim l)) as [new i']. simpl in Hge.
  apply IH; lia.
Qed.

Lemma parseTestResults_returns content :
  exists res, parseTestResults content = Returns res.
Proof. apply test_loop_returns; lia. Qed.

Lemma lastCounts_returns r s :
  1 <= min_len r -> exists c, lastCounts r s = Returns c.
Proof. intros H. apply exec_loop_returns; [done|lia|lia]. Qed.

Lemma determineFinalSuccess_returns content :
  exists b, determineFinalSuccess content = Returns b.
Proof.
  unfold determineFinalSuccess.
  destruct (lastCounts_returns totalTestsRegex content) as [c ->]; [vm_compute; lia|].
  simpl. destruct c as [c|]; [eauto|].
  destruct (lastCounts_returns passedLineRegex content) as [c' ->]; [vm_compute; lia|].
  simpl. destruct c'; eauto.
Qed.

Lemma diffText_not_Diverges key content : diffText key content <> Diverges.
Proof.
  unfold diffText. destruct (exec _ _ _) as [m|]; [|done].
  destruct (cap m 1); done.
Qed.

Lemma extractDiffs_returns content :
  exists d, extractDiffs content = Returns d.
Proof.
  unfold extractDiffs, extractDiffs_body.
  pose proof (diffText_not_Diverges "agent_diff" content) as H1.
  pose proof (diffText_not_Diverges "golden_diff" content) as H2.
  destruct (diffText "agent_diff" content); simpl; [|eauto|done].
  destruct (diffText "golden_diff" content); simpl; [|eauto|done].
  eauto.
Qed.

(** ** [parseLogFile] returns *)

Lemma parseLogFile_returns fname content :
  exists p results success diffs,
    run_lines (split LF content) (initial fname) = Returns p /\
    parseTestResults content = Returns results /\
    determineFinalSuccess content = Returns success /\
    extractDiffs content = Returns diffs /\
    parseLogFile fname content = Returns
      {| filename := fname;
         taskName := l_taskName p;
         modelName := l_modelName p;
         totalIterations := l_totalIterations p;
         toolCalls := l_toolCalls p;
         errors := l_errors p;
         testsPassed :=
           length (List.filter (fun t => bool_decide (tr_status t = pass)) results);
         totalTests := length results;
         finalSuccess := success;
         duration := extractDuration content;
         steps := l_steps p;
         finalDiffs := diffs;
         testResults := results;
         labTrainingMetrics := parseLabTrainingMetrics content |}.
Proof.
  destruct (run_lines_returns (split LF content) (initial fname)) as [p Hp].
  destruct (parseTestResults_returns content) as [results Hr].
  destruct (determineFinalSuccess_returns content) as [success Hs].
  destruct (extractDiffs_returns content) as [diffs Hd].
  exists p, results, success, diffs. unfold parseLogFile.
  rewrite Hp, Hr, Hs, Hd. done.
Qed.

Lemma num_max_cases a b : natural a -> natural b -> num_max a b = a \/ num_max a b = b.
Proof.
  destruct a, b; simpl; try done; intros _ _;
    try destruct (_ <? _)%Z; auto.
Qed.

Lemma maxIteration_bound total l :
  natural total ->
  Forall (fun s => natural (step_iteration s) /\ num_geb total (step_iteration s) = true) l ->
  natural (maxIteration l) /\ num_geb total (maxIteration l) = true.
Proof.
  intros Ht. induction 1 as [|s l [Hn Hg] _ [IHn IHg]]; simpl.
  - split; [lia|by apply num_geb_zero].
  - split; [by apply num_max_natural|].
    destruct (num_max_cases (step_iteration s) (maxIteration l)) as [->| ->]; done.
Qed.

(** ** Occurrences *)

Lemma isPrefix_spec p : forall s, isPrefix p s = true <-> exists b, s = p ++ b.
Proof.
  induction p as [|a p IH]; intros s; simpl.
  - split; [intros _; by exists s | done].
  - destruct s as [|b s]; [split; [done|intros [? ?]; done]|].
    rewrite andb_true_iff, N.eqb_eq, IH. split.
    + intros [-> [t ->]]. by exists t.
    + intros [t [= -> ->]]. eauto.
Qed.

Lemma isPrefix_app p b : isPrefix p (p ++ b) = true.
Proof. apply isPrefix_spec. eauto. Qed.

Lemma includes_occurs s sub : includes s sub = true <-> occurs sub s.
Proof.
  unfold includes, occurs. induction s as [|c s IH].
  - simpl. destruct sub as [|x sub]; simpl.
    + split; [intros _; by exists [], [] | done].
    + split; [done|]. intros (a & b & E). by destruct a.
  - rewrite indexOf_cons. destruct (isPrefix sub (c :: s)) eqn:E.
    + split; [|done]. intros _. apply isPrefix_spec in E as [b E].
      exists [], b. by rewrite E.
    + destruct (indexOf sub s) as [i|]; simpl.
      * split; [|done]. intros _. destruct IH as [IH _].
        destruct (IH eq_refl) as (a & b & ->). by exists (c :: a), b.
      * split; [done|]. intros (a & b & E').
        destruct a as [|c' a].
        -- simpl in E'. rewrite E', isPrefix_app in E. done.
        -- injection E' as -> E'. destruct IH as [_ IH].
           specialize (IH (ex_intro _ a (ex_intro _ b E'))). done.
Qed.

Lemma includes_false s sub : includes s sub = false <-> ~ occurs sub s.
Proof. rewrite <- includes_occurs. by destruct (includes s sub). Qed.

Lemma occurs_refl s : occurs s s.
Proof. exists [], []. by rewrite app_nil_r. Qed.

Lemma occurs_trans x y z : occurs x y -> occurs y z -> occurs x z.
Proof.
  intros (a & b & ->) (c & d & ->). exists (c ++ a), (b ++ d).
  by rewrite <- !app_assoc.
Qed.

Lemma occurs_app_l x a s : occurs x s -> occurs x (a ++ s).
Proof. intros (c & d & ->). exists (a ++ c), d. by rewrite <- app_assoc. Qed.

Lemma occurs_app_r x s b : occurs x s -> occurs x (s ++ b).
Proof. intros (c & d & ->). exists c, (d ++ b). by rewrite <- !app_assoc. Qed.

Lemma occurs_drop x k s : occurs x (drop k s) -> occurs x s.
Proof. intros H. rewrite <- (take_drop k s). by apply occurs_app_l. Qed.

Lemma occurs_take x k s : occurs x (take k s) -> occurs x s.
Proof. intros H. rewrite <- (take_drop k s). by apply occurs_app_r. Qed.

Lemma occurs_map (f : N -> N) x s :
  occurs x s -> occurs (List.map f x) (List.map f s).
Proof. intros (a & b & ->). exists (List.map f a), (List.map f b). by rewrite !map_app. Qed.

Lemma dropWhile_suffix p s : exists a, s = a ++ dropWhile p s.
Proof.
  induction s as [|c s [a IH]]; simpl; [by exists []|].
  destruct (p c); [|by exists []]. exists (c :: a). simpl. by rewrite <- IH.
Qed.

Lemma occurs_trim s : occurs (trim s) s.
Proof.
  unfold trim, trimEnd, trimStart.
  destruct (dropWhile_suffix isWS s) as [a Ha].
  destruct (dropWhile_suffix isWS (rev (dropWhile isWS s))) as [b Hb].
  exists a, (rev b).
  rewrite <- rev_app_distr, <- Hb, rev_involutive. done.
Qed.

Lemma split_go_occurs sep l : forall s skip cur,
  skip = 0 \/ cur = [] ->
  In l (split_go sep skip cur s) -> occurs l (rev cur ++ s).
Proof.
  induction s as [|c s IH]; intros skip cur Hs; simpl.
  - intros [<-|[]]. rewrite app_nil_r. apply occurs_refl.
  - destruct skip as [|k].
    + destruct (isPrefix sep (c :: s)).
      * intros [<-|Hin].
        -- exists [], (c :: s). done.
        -- apply IH in Hin; [|by right]. simpl in Hin.
           apply occurs_app_l. apply (occurs_app_l l [c] s). done.
      * intros Hin. apply IH in Hin; [|by left].
        simpl in Hin. by rewrite <- app_assoc in Hin.
    + destruct Hs as [ | -> ]; [done|]. intros Hin. apply IH in Hin; [|by right].
      simpl in *. apply (occurs_app_l l [c] s). done.
Qed.

Lemma split_occurs sep s l : In l (split sep s) -> occurs l s.
Proof. intros H. apply (split_go_occurs sep l s 0 []) in H; [done|by left]. Qed.

Lemma emojiPrefix_index s m : exec emojiPrefix s 0 = Some m -> mr_index m = 0.
Proof.
  intros E. apply exec_Match in E as (st' & _ & HM & _).
  unfold emojiPrefix in HM. apply Match_seqs_cons in HM as (st1 & H1 & _).
  apply Match_Bol_inv in H1 as [_ H1]. done.
Qed.

Lemma occurs_normalizeLine s : occurs (normalizeLine s) s.
Proof.
  unfold normalizeLine, replaceRe.
  destruct (exec emojiPrefix s 0) as [m|] eqn:E.
  - rewrite (emojiPrefix_index _ _ E). simpl.
    eapply occurs_trans; [apply occurs_trim|]. apply occurs_drop with (mr_end m).
    apply occurs_refl.
  - apply occurs_trim.
Qed.

(** What a line of the loop contains, the content contains *)
Lemma line_occurs content l x :
  In l (split LF content) ->
  includes (normalizeLine (trim l)) x = true -> includes content x = true.
Proof.
  intros Hl H. apply includes_occurs in H. apply includes_occurs.
  eapply occurs_trans; [exact H|].
  eapply occurs_trans; [apply occurs_normalizeLine|].
  eapply occurs_trans; [apply occurs_trim|]. by apply split_occurs in Hl.
Qed.

Lemma trimmed_occurs content l x :
  In l (split LF content) ->
  includes (trim l) x = true -> includes content x = true.
Proof.
  intros Hl H. apply includes_occurs in H. apply includes_occurs.
  eapply occurs_trans; [exact H|].
  eapply occurs_trans; [apply occurs_trim|]. by apply split_occurs in Hl.
Qed.

(** What a match reads occurs in the input *)
Lemma Match_occurs_rest r st st' x :
  Match r st st' -> occurs x (m_rest st') -> occurs x (m_rest st).
Proof.
  intros HM H. apply Match_consumes in HM as (w & -> & _). by apply occurs_app_l.
Qed.

Lemma reads_occurs st v st' : reads st v st' -> occurs v (m_rest st).
Proof. intros (-> & _). exists [], (m_rest st'). done. Qed.

Lemma reads_cap_occurs i st v st' : reads_cap i st v st' -> occurs v (m_rest st).
Proof. intros (-> & _). exists [], (m_rest st'). done. Qed.

Lemma start_at_occurs s k x : occurs x (m_rest (start_at s k)) -> occurs x s.
Proof. simpl. apply occurs_drop. Qed.

(** ** Content without markers *)

Lemma Match_seqs_occurs (P : jsstring -> Prop) a rs :
  In a rs ->
  (forall s1 s2, Match a s1 s2 -> exists v, P v /\ occurs v (m_rest s1)) ->
  forall st st', Match (seqs rs) st st' -> exists v, P v /\ occurs v (m_rest st).
Proof.
  intros Hin Ha. induction rs as [|b rs IH]; [done|]. intros st st' HM.
  apply Match_seqs_cons in HM as (st1 & H1 & HM).
  destruct Hin as [->|Hin].
  - eauto.
  - destruct (IH Hin _ _ HM) as (v & Hv & Ho). exists v. split; [done|].
    eapply Match_occurs_rest; eauto.
Qed.

Lemma exec_seqs_occurs (P : jsstring -> Prop) a rs s from m :
  In a rs ->
  (forall s1 s2, Match a s1 s2 -> exists v, P v /\ occurs v (m_rest s1)) ->
  exec (seqs rs) s from = Some m -> exists v, P v /\ occurs v s.
Proof.
  intros Hin Ha E. apply exec_Match in E as (st' & _ & HM & _).
  destruct (Match_seqs_occurs P a rs Hin Ha _ _ HM) as (v & Hv & Ho).
  exists v. split; [done|]. by apply start_at_occurs in Ho.
Qed.

Lemma exec_lit_occurs w rs s from m :
  In (lit w) rs -> exec (seqs rs) s from = Some m -> occurs w s.
Proof.
  intros Hin E.
  destruct (exec_seqs_occurs (fun v => v = w) (lit w) rs s from m Hin) as (v & -> & Ho);
    [|done|done].
  intros s1 s2 HM. apply Match_lit in HM. exists w. split; [done|].
  eapply reads_occurs; eauto.
Qed.

Lemma exec_lit_ci_occurs w rs s from m :
  In (lit_ci w) rs -> exec (seqs rs) s from = Some m ->
  occurs (toUpperCase w) (toUpperCase s).
Proof.
  intros Hin E.
  destruct (exec_seqs_occurs (fun v => List.map upperCU v = List.map upperCU w)
              (lit_ci w) rs s from m Hin) as (v & Hv & Ho); [|done|].
  - intros s1 s2 HM. apply Match_lit_ci in HM as (v & Hv & HM). exists v.
    split; [done|]. eapply reads_occurs; eauto.
  - unfold toUpperCase. rewrite <- Hv. by apply occurs_map.
Qed.

Lemma quiet_step content p l p' :
  includes content (js "Starting benchmark run") = false ->
  includes content (js "HARNESS: Tool call") = false ->
  In l (split LF content) ->
  l_steps p = [] -> step_line p l = Returns p' -> l_steps p' = [].
Proof.
  intros H1 H2 Hl Hs E. destruct (step_line_cases p l) as (p1 & E1 & Hc).
  rewrite E in E1. injection E1 as <-.
  destruct Hc as [Hc|[(ts & Hi & ->)|[(v & Hne & Hd & ->)|(it & name & ts & Hi & Hcur & ->)]]].
  - unfold core in Hc. injection Hc as _ _ Hc _. rewrite Hs in Hc.
    by apply map_eq_nil in Hc.
  - rewrite (line_occurs content l _ Hl Hi) in H1. done.
  - done.
  - rewrite (line_occurs content l _ Hl Hi) in H2. done.
Qed.

Lemma quiet_run_lines content :
  includes content (js "Starting benchmark run") = false ->
  includes content (js "HARNESS: Tool call") = false ->
  forall lines p p',
    (forall l, In l lines -> In l (split LF content)) ->
    l_steps p = [] -> run_lines lines p = Returns p' -> l_steps p' = [].
Proof.
  intros H1 H2. induction lines as [|l lines IH]; intros p p' Hl Hs; simpl.
  - by intros [= <-].
  - destruct (step_line p l) as [p1| |] eqn:E; simpl; [|done|done].
    apply IH.
    + intros l' Hl'. apply Hl. by right.
    + eapply quiet_step; eauto. apply Hl. by left.
Qed.

Lemma lookahead_quiet word other lines :
  (forall j l, lines !! j = Some l ->
     includes (trim l) (js ": " ++ word) = false /\ eqs (trim l) word = false) ->
  forall budget j path, snd (lookahead word other lines budget j path) = false.
Proof.
  intros H. induction budget as [|b IH]; intros j path; cbn [lookahead]; [done|].
  destruct (lines !! j) as [l|] eqn:E; [|done].
  destruct (H j l E) as [-> ->].
  repeat match goal with
         | |- context [if ?c then _ else _] => destruct c; try done
         end.
Qed.

Lemma standalone_quiet word other st lines i :
  (forall j l, lines !! j = Some l ->
     includes (trim l) (js ": " ++ word) = false /\ eqs (trim l) word = false) ->
  standalone word other st lines i = ([], i).
Proof.
  intros H. unfold standalone.
  pose proof (lookahead_quiet word other lines H 3 (i + 1) []) as Hf.
  destruct (lookahead word other lines 3 (i + 1) []) as [[path j] found].
  simpl in Hf. subst. done.
Qed.

Lemma occurs_word_colon word s :
  includes s (js ": " ++ word) = true -> includes s word = true.
Proof.
  rewrite !includes_occurs. intros H. eapply occurs_trans; [|exact H].
  exists (js ": "), []. by rewrite app_nil_r.
Qed.

Lemma eqs_true a b : eqs a b = true <-> a = b.
Proof. apply bool_decide_eq_true. Qed.

Lemma eqs_false a b : eqs a b = false <-> a <> b.
Proof. apply bool_decide_eq_false. Qed.

Lemma test_body_quiet lines i line :
  includes line (js "PASSED") = false ->
  includes line (js "FAILED") = false ->
  (forall j l, lines !! j = Some l ->
     includes (trim l) (js "PASSED") = false /\
     includes (trim l) (js "FAILED") = false) ->
  fst (test_body lines i line) = [].
Proof.
  intros HP HF Hall. unfold test_body.
  destruct (exec passMatchRe line 0) as [m|] eqn:E1.
  { apply (exec_lit_occurs (js "PASSED")) in E1; [|vm_compute; tauto].
    apply includes_occurs in E1. congruence. }
  destruct (exec failMatchRe line 0) as [m|] eqn:E2.
  { apply (exec_lit_occurs (js "FAILED")) in E2; [|vm_compute; tauto].
    apply includes_occurs in E2. congruence. }
  assert (HnP : nextTrimmed lines i <> Some (js "PASSED")).
  { unfold nextTrimmed. destruct (lines !! (i + 1)) as [l|] eqn:El; [|done].
    simpl. intros [= Heq]. destruct (Hall _ _ El) as [Hc _].
    rewrite Heq in Hc. vm_compute in Hc. done. }
  assert (HnF : nextTrimmed lines i <> Some (js "FAILED")).
  { unfold nextTrimmed. destruct (lines !! (i + 1)) as [l|] eqn:El; [|done].
    simpl. intros [= Heq]. destruct (Hall _ _ El) as [_ Hc].
    rewrite Heq in Hc. vm_compute in Hc. done. }
  destruct (if bool_decide (is_Some (lines !! (i + 1))) then exec passStartRe line 0 else None).
  { rewrite bool_decide_eq_false_2 by done. done. }
  destruct (if bool_decide (is_Some (lines !! (i + 1))) then exec failStartRe line 0 else None).
  { rewrite bool_decide_eq_false_2 by done. done. }
  rewrite !standalone_quiet.
  - by repeat match goal with
         | |- context [if ?c then _ else _] => destruct c; simpl
         end.
  - intros j l El. destruct (Hall _ _ El) as [_ Hc]. split.
    + destruct (includes (trim l) (js ": " ++ js "FAILED")) eqn:E; [|done].
      apply occurs_word_colon in E. congruence.
    + apply eqs_false. intros Heq. rewrite Heq in Hc. vm_compute in Hc. done.
  - intros j l El. destruct (Hall _ _ El) as [Hc _]. split.
    + destruct (includes (trim l) (js ": " ++ js "PASSED")) eqn:E; [|done].
      apply occurs_word_colon in E. congruence.
    + apply eqs_false. intros Heq. rewrite Heq in Hc. vm_compute in Hc. done.
Qed.

Lemma test_loop_quiet lines :
  (forall j l, lines !! j = Some l ->
     includes (trim l) (js "PASSED") = false /\
     includes (trim l) (js "FAILED") = false) ->
  forall fuel i acc res, test_loop fuel lines i acc = Returns res -> res = acc.
Proof.
  intros Hall. induction fuel as [|n IH]; intros i acc res; simpl; [done|].
  destruct (lines !! i) as [l|] eqn:E; [|by intros [= <-]].
  destruct (Hall _ _ E) as [HP HF].
  pose proof (test_body_quiet lines i (trim l) HP HF Hall) as Hq.
  destruct (test_body lines i (trim l)) as [new i']. simpl in Hq. subst.
  rewrite app_nil_r. apply IH.
Qed.

Lemma includes_upper_PASSED s :
  includes (toUpperCase s) (js "PASSED") = false -> includes s (js "PASSED") = false.
Proof.
  intros H. destruct (includes s (js "PASSED")) eqn:E; [|done].
  apply includes_occurs in E. apply (occurs_map upperCU) in E.
  apply includes_occurs in E. change (List.map upperCU s) with (toUpperCase s) in E.
  change (List.map upperCU (js "PASSED")) with (js "PASSED") in E. congruence.
Qed.

Lemma quiet_results content res :
  includes (toUpperCase content) (js "PASSED") = false ->
  includes content (js "FAILED") = false ->
  parseTestResults content = Returns res -> res = [].
Proof.
  intros HP HF. apply includes_upper_PASSED in HP. unfold parseTestResults.
  apply test_loop_quiet. intros j l El.
  apply list_elem_of_lookup_2, list_elem_of_In in El. split.
  - destruct (includes (trim l) (js "PASSED")) eqn:E; [|done].
    rewrite (trimmed_occurs content l _ El E) in HP. done.
  - destruct (includes (trim l) (js "FAILED")) eqn:E; [|done].
    rewrite (trimmed_occurs content l _ El E) in HF. done.
Qed.

Lemma lastCounts_none r s : exec r s 0 = None -> lastCounts r s = Returns None.
Proof. intros E. unfold lastCounts. simpl. by rewrite E. Qed.

Lemma quiet_success content :
  includes (toUpperCase content) (js "PASSED") = false ->
  determineFinalSuccess content = Returns false.
Proof.
  intros HP. unfold determineFinalSuccess.
  rewrite (lastCounts_none totalTestsRegex).
  2:{ destruct (exec totalTestsRegex content 0) as [m|] eqn:E; [|done].
      apply (exec_lit_ci_occurs (js "passed")) in E; [|vm_compute; tauto].
      apply includes_occurs in E. change (toUpperCase (js "passed")) with (js "PASSED") in E.
      congruence. }
  simpl. rewrite (lastCounts_none passedLineRegex); [done|].
  destruct (exec passedLineRegex content 0) as [m|] eqn:E; [|done].
  apply (exec_lit_ci_occurs (js "Passed")) in E; [|vm_compute; tauto].
  apply includes_occurs in E. change (toUpperCase (js "Passed")) with (js "PASSED") in E.
  congruence.
Qed.

(** ** The parse entry point *)

(** C2. For every file name and content [parseLogFile] returns a
    Trajectory: it neither throws nor fails to terminate.  When the content
    holds none of the markers ("Starting benchmark run", "HARNESS: Tool
    call", "passed" in any letter case, "FAILED"), the record has
    [finalSuccess = false], no steps and no test results. *)
Theorem parseLogFile_total fname content :
  (exists t, parseLogFile fname content = Returns t) /\
  (quiet content ->
   exists t, parseLogFile fname content = Returns t /\
             finalSuccess t = false /\ steps t = [] /\ testResults t = []).
Proof.
  destruct (parseLogFile_returns fname content)
    as (p & results & success & diffs & Hp & Hr & Hs & Hd & E).
  split; [eauto|]. intros (H1 & H2 & H3 & H4).
  eexists. split; [exact E|]. simpl.
  rewrite (quiet_success content H3) in Hs. injection Hs as <-.
  split; [done|]. split.
  - apply (quiet_run_lines content H1 H2 (split LF content) (initial fname) p); auto.
  - eapply quiet_results; eauto.
Qed.

Lemma parseLogFile_total_witness :
  quiet (js "hello" ++ LF ++ js "world") /\
  exists t, parseLogFile (js "run.log") (js "hello" ++ LF ++ js "world") = Returns t /\
            finalSuccess t = false /\ steps t = [] /\ testResults t = [].
Proof.
  assert (H : quiet (js "hello" ++ LF ++ js "world")) by (vm_compute; tauto).
  split; [exact H|].
  exact (proj2 (parseLogFile_total (js "run.log") (js "hello" ++ LF ++ js "world")) H).
Defined.

(** C3. The Trajectory returned for any file name and content has
    [totalIterations >= max(step.iteration)] (0 for no steps),
    [testsPassed] equal to the number of test results with status pass, and
    [totalTests] equal to the number of test results. *)
Theorem trajectory_invariant fname content :
  exists t, parseLogFile fname content = Returns t /\
    num_geb (totalIterations t) (maxIteration (steps t)) = true /\
    testsPassed t =
      length (List.filter (fun r => bool_decide (tr_status r = pass)) (testResults t)) /\
    totalTests t = length (testResults t).
Proof.
  destruct (parseLogFile_returns fname content)
    as (p & results & success & diffs & Hp & Hr & Hs & Hd & E).
  eexists. split; [exact E|]. simpl. split; [|done].
  pose proof (Inv_run_lines _ _ _ (Inv_initial fname) Hp) as (Ht & _ & Hsig & _).
  apply maxIteration_bound; [done|].
  rewrite List.Forall_map in Hsig. eapply Forall_impl; [exact Hsig|].
  intros s. unfold sig. simpl. tauto.
Qed.

(** C10. In the Trajectory returned for any file name and content every
    step has type "start" or "iteration", an iteration step has content
    "Executing " followed by its tool name, and [toolCalls] is the number of
    iteration steps. *)
Theorem step_accounting fname content :
  exists t, parseLogFile fname content = Returns t /\
    Forall wellFormedStep (steps t) /\
    toolCalls t = length (List.filter isIterationStep (steps t)).
Proof.
  destruct (parseLogFile_returns fname content)
    as (p & results & success & diffs & Hp & Hr & Hs & Hd & E).
  eexists. split; [exact E|]. simpl.
  pose proof (Inv_run_lines _ _ _ (Inv_initial fname) Hp) as (_ & _ & Hsig & Hc).
  split.
  - rewrite List.Forall_map in Hsig. eapply Forall_impl; [exact Hsig|].
    intros s. unfold sig, wellFormedStep. simpl. tauto.
  - rewrite Hc. clear. induction (l_steps p) as [|s l IH]; simpl; [done|].
    unfold isIterationSig at 1, isIterationStep at 1. simpl.
    destruct (eqs (step_type s) (js "iteration")); simpl; by rewrite IH.
Qed.

(** ** Outcome Extractor *)

(** The [while] loop over the matches of a pattern whose matches do not
    overlap ends on the last position at which the pattern matches. *)
Lemma exec_loop_last {A} r s (f : matchres -> A) :
  1 <= min_len r -> nonOverlapping r s ->
  forall fuel lastIndex acc res,
    exec_loop r s (fun _ m => f m) fuel lastIndex acc = Returns res ->
    (res = acc /\ forall j, lastIndex <= j -> ~ matchesAt r s j) \/
    (exists k st', lastIndex <= k <= length s /\
       head (run r (start_at s k)) = Some st' /\ res = f (result_at s k st') /\
       forall j, lastIndex <= j -> matchesAt r s j -> j <= k).
Proof.
  intros Hmin Hno. induction fuel as [|n IH]; intros lastIndex acc res; simpl; [done|].
  destruct (exec r s lastIndex) as [m|] eqn:E.
  - pose proof (exec_bounds _ _ _ _ E) as (Hb1 & Hb2 & Hb3).
    apply exec_Some in E as (k & st' & Hk & Hh & -> & Hnone). simpl in *.
    intros Hres. apply IH in Hres as [[-> Hafter]|(k2 & st2 & Hk2 & Hh2 & -> & Hmax)].
    + right. exists k, st'. split; [done|]. split; [done|]. split; [done|].
      intros j Hj [Hjl [st HM]].
      destruct (Nat.le_gt_cases j k) as [|Hgt]; [done|]. exfalso.
      destruct (Nat.lt_ge_cases j (m_pos st')) as [Hin|Hout].
      * apply (Hno k j st'); [by apply run_sound, head_In|done|done|].
        split; eauto.
      * apply (Hafter j Hout). split; eauto.
    + right. exists k2, st2. split; [lia|]. split; [done|]. split; [done|].
      intros j Hj [Hjl [st HM]].
      destruct (Nat.lt_ge_cases j (m_pos st')) as [Hin|Hout]; [lia|].
      apply Hmax; [done|]. split; eauto.
  - intros [= <-]. left. split; [done|]. intros j Hj [Hjl [st HM]].
    apply run_complete in HM. rewrite (exec_None _ _ _ E j) in HM; [done|lia].
Qed.

Lemma lastCounts_last r s c :
  1 <= min_len r -> nonOverlapping r s ->
  In 1 (always_groups r) -> In 2 (always_groups r) ->
  lastCounts r s = Returns c ->
  (c = None /\ forall j, ~ matchesAt r s j) \/
  (exists k st' x y, k <= length s /\ Match r (start_at s k) st' /\
     m_caps st' !! 1 = Some x /\ m_caps st' !! 2 = Some y /\
     c = Some (parseInt x, parseInt y) /\
     forall j, matchesAt r s j -> j <= k).
Proof.
  intros Hmin Hno Hg1 Hg2 E. unfold lastCounts in E.
  apply (exec_loop_last r s (fun m => Some (capInt m 1, capInt m 2)) Hmin Hno) in E
    as [[-> Hnone]|(k & st' & Hk & Hh & -> & Hmax)].
  - left. split; [done|]. intros j. apply Hnone. lia.
  - apply head_In, run_sound in Hh.
    destruct (Match_caps_always _ _ _ Hh 1 Hg1) as [x E1].
    destruct (Match_caps_always _ _ _ Hh 2 Hg2) as [y E2].
    right. exists k, st', x, y. split; [lia|]. split; [done|].
    split; [done|]. split; [done|]. split.
    + unfold capInt, cap. simpl. by rewrite E1, E2.
    + intros j. apply Hmax. lia.
Qed.

Lemma Match_digits_group i st st' :
  Match (Group i (plus digit)) st st' <->
  exists v, (v <> [] /\ forallb isDigit v = true) /\ reads_cap i st v st'.
Proof.
  apply Match_Group_reads. intros sa sb. unfold digit. rewrite Match_plus_class.
  split; [intros (v' & ? & ? & ?) | intros (v' & [? ?] & ?)]; eauto.
Qed.

Lemma Match_ws_star st st' :
  Match (star ws) st st' <-> exists v, forallb isWS v = true /\ reads st v st'.
Proof. apply Match_star_class. Qed.

Lemma Match_ws_plus st st' :
  Match (plus ws) st st' <-> exists v, v <> [] /\ forallb isWS v = true /\ reads st v st'.
Proof. apply Match_plus_class. Qed.

Lemma Match_chr c st st' : Match (chr c) st st' <-> reads st [c] st'.
Proof.
  unfold chr. rewrite Match_Chr_inv. split.
  - intros (c' & Hc & H). apply N.eqb_eq in Hc as <-. done.
  - intros H. exists c. split; [apply N.eqb_refl|done].
Qed.

Lemma Match_lit_ci_upper w st st' :
  Match (lit_ci w) st st' <->
  exists v, toUpperCase v = toUpperCase w /\ reads st v st'.
Proof. apply Match_lit_ci. Qed.

Lemma reads_cap_reads i st v st' :
  reads_cap i st v st' ->
  m_rest st = v ++ m_rest st' /\ m_pos st' = m_pos st + length v.
Proof. intros (? & ? & ?). done. Qed.

Lemma totalTestsRegex_Match s i st' :
  Match totalTestsRegex (start_at s i) st' ->
  exists t ws1 ts ws2 x y ws3 pw,
    drop i s = t ++ ws1 ++ ts ++ ws2 ++ x ++ [47%N] ++ y ++ ws3 ++ pw ++ m_rest st' /\
    m_pos st' = i + length (t ++ ws1 ++ ts ++ ws2 ++ x ++ [47%N] ++ y ++ ws3 ++ pw) /\
    m_caps st' !! 1 = Some x /\ m_caps st' !! 2 = Some y /\
    toUpperCase t = js "TOTAL" /\
    ws1 <> [] /\ forallb isWS ws1 = true /\
    toUpperCase ts = js "TESTS:" /\
    forallb isWS ws2 = true /\
    x <> [] /\ forallb isDigit x = true /\
    y <> [] /\ forallb isDigit y = true /\
    forallb isWS ws3 = true /\
    toUpperCase pw = js "PASSED".
Proof.
  unfold totalTestsRegex. intros HM.
  apply Match_seqs_cons in HM as (s1 & H1 & HM).
  apply Match_lit_ci_upper in H1 as (t & Ht & (E1 & P1 & C1)).
  apply Match_seqs_cons in HM as (s2 & H2 & HM).
  apply Match_ws_plus in H2 as (ws1 & Hn1 & Hw1 & (E2 & P2 & C2)).
  apply Match_seqs_cons in HM as (s3 & H3 & HM).
  apply Match_lit_ci_upper in H3 as (ts & Hts & (E3 & P3 & C3)).
  apply Match_seqs_cons in HM as (s4 & H4 & HM).
  apply Match_ws_star in H4 as (ws2 & Hw2 & (E4 & P4 & C4)).
  apply Match_seqs_cons in HM as (s5 & H5 & HM).
  apply Match_digits_group in H5 as (x & [Hnx Hdx] & (E5 & P5 & C5)).
  apply Match_seqs_cons in HM as (s6 & H6 & HM).
  apply Match_chr in H6 as (E6 & P6 & C6).
  apply Match_seqs_cons in HM as (s7 & H7 & HM).
  apply Match_digits_group in H7 as (y & [Hny Hdy] & (E7 & P7 & C7)).
  apply Match_seqs_cons in HM as (s8 & H8 & HM).
  apply Match_ws_star in H8 as (ws3 & Hw3 & (E8 & P8 & C8)).
  apply Match_seqs_cons in HM as (s9 & H9 & HM).
  apply Match_lit_ci_upper in H9 as (pw & Hpw & (E9 & P9 & C9)).
  apply Match_seqs_nil in HM as ->.
  exists t, ws1, ts, ws2, x, y, ws3, pw. simpl in E1, P1.
  split. { rewrite E1, E2, E3, E4, E5, E6, E7, E8, E9. reflexivity. }
  split. { rewrite P9, P8, P7, P6, P5, P4, P3, P2, P1, !length_app. simpl. lia. }
  split. { rewrite C9, C8, C7, lookup_insert_ne, C6, C5 by done. apply lookup_insert_eq. }
  split. { rewrite C9, C8, C7. apply lookup_insert_eq. }
  done.
Qed.

Lemma reads_intro pos v rest caps :
  reads (MState pos (v ++ rest) caps) v (MState (pos + length v) rest caps).
Proof. done. Qed.

Lemma reads_cap_intro i pos v rest caps :
  reads_cap i (MState pos (v ++ rest) caps) v
    (MState (pos + length v) rest (<[i := v]> caps)).
Proof. done. Qed.

Lemma totalOcc_Match s i x y :
  totalOcc s i x y -> exists st, Match totalTestsRegex (start_at s i) st.
Proof.
  intros (Hi & t & ws1 & ts & ws2 & ws3 & pw & post & E & Ht & Hn1 & Hw1 & Hts & Hw2
          & Hnx & Hdx & Hny & Hdy & Hw3 & Hpw).
  unfold start_at. rewrite E. eexists. unfold totalTestsRegex.
  apply Match_seqs_cons. eexists. split.
  { apply Match_lit_ci_upper. exists t. split; [exact Ht|]. apply reads_intro. }
  apply Match_seqs_cons. eexists. split.
  { apply Match_ws_plus. exists ws1. split; [done|]. split; [done|]. apply reads_intro. }
  apply Match_seqs_cons. eexists. split.
  { apply Match_lit_ci_upper. exists ts. split; [exact Hts|]. apply reads_intro. }
  apply Match_seqs_cons. eexists. split.
  { apply Match_ws_star. exists ws2. split; [done|]. apply reads_intro. }
  apply Match_seqs_cons. eexists. split.
  { apply Match_digits_group. exists x. split; [done|]. apply reads_cap_intro. }
  apply Match_seqs_cons. eexists. split.
  { apply Match_chr. apply (reads_intro _ [47%N]). }
  apply Match_seqs_cons. eexists. split.
  { apply Match_digits_group. exists y. split; [done|]. apply reads_cap_intro. }
  apply Match_seqs_cons. eexists. split.
  { apply Match_ws_star. exists ws3. split; [done|]. apply reads_intro. }
  apply Match_seqs_cons. eexists. split.
  { apply Match_lit_ci_upper. exists pw. split; [exact Hpw|]. apply reads_intro. }
  by apply Match_seqs_nil.
Qed.

Lemma totalTestsRegex_occ s i st' :
  i <= length s -> Match totalTestsRegex (start_at s i) st' ->
  exists x y, totalOcc s i x y /\
              m_caps st' !! 1 = Some x /\ m_caps st' !! 2 = Some y.
Proof.
  intros Hi HM. apply totalTestsRegex_Match in HM
    as (t & ws1 & ts & ws2 & x & y & ws3 & pw & E & _ & C1 & C2 & H).
  exists x, y. split; [|done]. split; [done|].
  exists t, ws1, ts, ws2, ws3, pw, (m_rest st'). done.
Qed.

(** Letters a piece of an occurrence cannot hold *)
Lemma upper_excludes (q : N) v w :
  toUpperCase v = w -> forallb (fun c => negb (c =? q)%N) w = true ->
  Forall (fun c => upperCU c <> q) v.
Proof.
  intros <-. unfold toUpperCase. induction v as [|c v IH]; simpl; [constructor|].
  intros H. apply andb_true_iff in H as [Hc Hv]. constructor; [|auto].
  apply negb_true_iff, N.eqb_neq in Hc. done.
Qed.

Lemma ws_not_letter (q : N) v :
  (65 <= q <= 90)%N -> forallb isWS v = true -> Forall (fun c => upperCU c <> q) v.
Proof.
  intros Hq H. apply Forall_forall. intros c Hc.
  rewrite forallb_forall in H. specialize (H c (proj1 (list_elem_of_In _ _) Hc)).
  unfold upperCU, isLower.
  destruct ((97 <=? c)%N && (c <=? 122)%N) eqn:E.
  - apply andb_true_iff in E as [E1 E2]. apply N.leb_le in E1, E2.
    unfold isWS in H. exfalso.
    repeat (apply orb_true_iff in H as [H|H]);
      try (apply N.eqb_eq in H; lia).
    apply andb_true_iff in H as [H _]. apply N.leb_le in H. lia.
  - intros ->. unfold isWS in H.
    repeat (apply orb_true_iff in H as [H|H]);
      try (apply N.eqb_eq in H; lia).
    apply andb_true_iff in H as [H _]. apply N.leb_le in H. lia.
Qed.

Lemma digit_not_letter (q : N) v :
  (65 <= q <= 90)%N -> forallb isDigit v = true -> Forall (fun c => upperCU c <> q) v.
Proof.
  intros Hq H. apply Forall_forall. intros c Hc.
  rewrite forallb_forall in H. specialize (H c (proj1 (list_elem_of_In _ _) Hc)).
  unfold isDigit in H. apply andb_true_iff in H as [H1 H2]. apply N.leb_le in H1, H2.
  unfold upperCU, isLower.
  destruct ((97 <=? c)%N && (c <=? 122)%N) eqn:E.
  - apply andb_true_iff in E as [E1 E2]. apply N.leb_le in E1. lia.
  - lia.
Qed.

Lemma start_upper v w :
  toUpperCase v = w ->
  match w with
  | [] => v = []
  | q :: w' => exists c v', v = c :: v' /\ upperCU c = q /\ toUpperCase v' = w'
  end.
Proof.
  intros <-. destruct v as [|c v]; simpl; [done|]. eauto.
Qed.

Lemma total_nonOverlapping s : nonOverlapping totalTestsRegex s.
Proof.
  intros i j st HM Hij Hj [Hjl [st2 HM2]].
  apply totalTestsRegex_Match in HM
    as (t & ws1 & ts & ws2 & x & y & ws3 & pw & E & P & _ & _ & Ht & _ & Hw1 & Hts & Hw2
        & _ & Hdx & _ & Hdy & Hw3 & Hpw).
  apply totalTestsRegex_Match in HM2
    as (t' & ws1' & ts' & ws2' & x' & y' & ws3' & pw' & E' & _ & _ & _ & Ht' & _).
  (* the later occurrence starts with a T and an O *)
  apply start_upper in Ht' as (a & t1' & -> & Ha & Ht').
  apply start_upper in Ht' as (b & t2' & -> & Hb & _).
  assert (Hsa : s !! j = Some a).
  { rewrite <- (Nat.add_0_r j), <- lookup_drop, E'. done. }
  assert (Hsb : s !! (j + 1) = Some b).
  { rewrite <- lookup_drop, E'. done. }
  (* the earlier one, letter by letter *)
  apply start_upper in Ht as (c0 & t1 & -> & Hc0 & Ht).
  apply start_upper in Ht as (c1 & t2 & -> & Hc1 & Ht).
  set (X := t2 ++ ws1 ++ ts ++ ws2 ++ x ++ [47%N] ++ y ++ ws3).
  assert (EM : drop i s = [c0; c1] ++ (X ++ pw) ++ m_rest st).
  { rewrite E. unfold X. repeat (progress (simpl; rewrite <- ?app_assoc)). done. }
  assert (PM : m_pos st = i + (2 + length X + length pw)).
  { rewrite P. unfold X. repeat (progress (simpl; rewrite ?length_app)). lia. }
  assert (HX : Forall (fun c => upperCU c <> 79%N) (X ++ pw)).
  { unfold X. repeat (apply Forall_app; split).
    - by apply (upper_excludes 79 t2 (js "TAL")).
    - apply ws_not_letter; [lia|done].
    - by apply (upper_excludes 79 ts (js "TESTS:")).
    - apply ws_not_letter; [lia|done].
    - apply digit_not_letter; [lia|done].
    - by repeat constructor.
    - apply digit_not_letter; [lia|done].
    - apply ws_not_letter; [lia|done].
    - by apply (upper_excludes 79 pw (js "PASSED")). }
  assert (Hpw' : Forall (fun c => upperCU c <> 84%N) pw)
    by by apply (upper_excludes 84 pw (js "PASSED")).
  assert (Hlpw : length pw = 6).
  { apply (f_equal length) in Hpw. unfold toUpperCase in Hpw.
    by rewrite length_map in Hpw. }
  clearbody X.
  assert (Hlook : forall k, s !! (i + k) = ([c0; c1] ++ (X ++ pw) ++ m_rest st) !! k).
  { intros k. by rewrite <- lookup_drop, EM. }
  destruct (Nat.eq_dec j (i + 1)) as [->|Hne].
  - rewrite Hlook in Hsa. injection Hsa as <-. rewrite Hc1 in Ha.
    vm_compute in Ha. discriminate.
  - destruct (Nat.lt_ge_cases (j + 1) (m_pos st)) as [Hin|Hlast].
    + replace (j + 1) with (i + (2 + (j + 1 - i - 2))) in Hsb by lia.
      rewrite Hlook in Hsb. simpl in Hsb.
      rewrite lookup_app_l in Hsb by (rewrite length_app; lia).
      eapply Forall_lookup_1 in HX; [|exact Hsb]. apply HX. by rewrite Hb.
    + replace j with (i + (2 + (length X + 5))) in Hsa by lia.
      rewrite Hlook in Hsa. simpl in Hsa.
      rewrite lookup_app_l in Hsa by (rewrite length_app; lia).
      rewrite lookup_app_r, Nat.add_comm, Nat.add_sub in Hsa by lia.
      eapply Forall_lookup_1 in Hpw'; [|exact Hsa]. apply Hpw'. by rewrite Ha.
Qed.

Lemma passedLineRegex_Match s i st' :
  Match passedLineRegex (start_at s i) st' ->
  exists pw ws1 x y ws2 ts,
    drop i s = pw ++ ws1 ++ x ++ [47%N] ++ y ++ ws2 ++ ts ++ m_rest st' /\
    m_pos st' = i + length (pw ++ ws1 ++ x ++ [47%N] ++ y ++ ws2 ++ ts) /\
    m_caps st' !! 1 = Some x /\ m_caps st' !! 2 = Some y /\
    toUpperCase pw = js "PASSED" /\
    forallb isWS ws1 = true /\
    x <> [] /\ forallb isDigit x = true /\
    y <> [] /\ forallb isDigit y = true /\
    forallb isWS ws2 = true /\
    toUpperCase ts = js "TESTS".
Proof.
  unfold passedLineRegex. intros HM.
  apply Match_seqs_cons in HM as (s1 & H1 & HM).
  apply Match_lit_ci_upper in H1 as (pw & Hpw & (E1 & P1 & C1)).
  apply Match_seqs_cons in HM as (s2 & H2 & HM).
  apply Match_ws_star in H2 as (ws1 & Hw1 & (E2 & P2 & C2)).
  apply Match_seqs_cons in HM as (s3 & H3 & HM).
  apply Match_digits_group in H3 as (x & [Hnx Hdx] & (E3 & P3 & C3)).
  apply Match_seqs_cons in HM as (s4 & H4 & HM).
  apply Match_chr in H4 as (E4 & P4 & C4).
  apply Match_seqs_cons in HM as (s5 & H5 & HM).
  apply Match_digits_group in H5 as (y & [Hny Hdy] & (E5 & P5 & C5)).
  apply Match_seqs_cons in HM as (s6 & H6 & HM).
  apply Match_ws_star in H6 as (ws2 & Hw2 & (E6 & P6 & C6)).
  apply Match_seqs_cons in HM as (s7 & H7 & HM).
  apply Match_lit_ci_upper in H7 as (ts & Hts & (E7 & P7 & C7)).
  apply Match_seqs_nil in HM as ->.
  exists pw, ws1, x, y, ws2, ts. simpl in E1, P1.
  split. { rewrite E1, E2, E3, E4, E5, E6, E7. reflexivity. }
  split. { rewrite P7, P6, P5, P4, P3, P2, P1, !length_app. simpl. lia. }
  split. { rewrite C7, C6, C5, lookup_insert_ne, C4, C3 by done. apply lookup_insert_eq. }
  split. { rewrite C7, C6, C5. apply lookup_insert_eq. }
  done.
Qed.

Lemma passedOcc_Match s i x y :
  passedOcc s i x y -> exists st, Match passedLineRegex (start_at s i) st.
Proof.
  intros (Hi & pw & ws1 & ws2 & ts & post & E & Hpw & Hw1 & Hnx & Hdx & Hny & Hdy
          & Hw2 & Hts).
  unfold start_at. rewrite E. eexists. unfold passedLineRegex.
  apply Match_seqs_cons. eexists. split.
  { apply Match_lit_ci_upper. exists pw. split; [exact Hpw|]. apply reads_intro. }
  apply Match_seqs_cons. eexists. split.
  { apply Match_ws_star. exists ws1. split; [done|]. apply reads_intro. }
  apply Match_seqs_cons. eexists. split.
  { apply Match_digits_group. exists x. split; [done|]. apply reads_cap_intro. }
  apply Match_seqs_cons. eexists. split.
  { apply Match_chr. apply (reads_intro _ [47%N]). }
  apply Match_seqs_cons. eexists. split.
  { apply Match_digits_group. exists y. split; [done|]. apply reads_cap_intro. }
  apply Match_seqs_cons. eexists. split.
  { apply Match_ws_star. exists ws2. split; [done|]. apply reads_intro. }
  apply Match_seqs_cons. eexists. split.
  { apply Match_lit_ci_upper. exists ts. split; [exact Hts|]. apply reads_intro. }
  by apply Match_seqs_nil.
Qed.

Lemma passedLineRegex_occ s i st' :
  i <= length s -> Match passedLineRegex (start_at s i) st' ->
  exists x y, passedOcc s i x y /\
              m_caps st' !! 1 = Some x /\ m_caps st' !! 2 = Some y.
Proof.
  intros Hi HM. apply passedLineRegex_Match in HM
    as (pw & ws1 & x & y & ws2 & ts & E & _ & C1 & C2 & H).
  exists x, y. split; [|done]. split; [done|].
  exists pw, ws1, ws2, ts, (m_rest st'). done.
Qed.

Lemma passed_nonOverlapping s : nonOverlapping passedLineRegex s.
Proof.
  intros i j st HM Hij Hj [Hjl [st2 HM2]].
  apply passedLineRegex_Match in HM
    as (pw & ws1 & x & y & ws2 & ts & E & P & _ & _ & Hpw & Hw1 & _ & Hdx & _ & Hdy
        & Hw2 & Hts).
  apply passedLineRegex_Match in HM2
    as (pw' & ws1' & x' & y' & ws2' & ts' & E' & _ & _ & _ & Hpw' & _).
  apply start_upper in Hpw' as (a & p1' & -> & Ha & _).
  assert (Hsa : s !! j = Some a).
  { rewrite <- (Nat.add_0_r j), <- lookup_drop, E'. done. }
  apply start_upper in Hpw as (c0 & p1 & -> & Hc0 & Hpw).
  set (X := p1 ++ ws1 ++ x ++ [47%N] ++ y ++ ws2 ++ ts).
  assert (EM : drop i s = [c0] ++ X ++ m_rest st).
  { rewrite E. unfold X. repeat (progress (simpl; rewrite <- ?app_assoc)). done. }
  assert (PM : m_pos st = i + (1 + length X)).
  { rewrite P. unfold X. repeat (progress (simpl; rewrite ?length_app)). lia. }
  assert (HX : Forall (fun c => upperCU c <> 80%N) X).
  { unfold X. repeat (apply Forall_app; split).
    - by apply (upper_excludes 80 p1 (js "ASSED")).
    - apply ws_not_letter; [lia|done].
    - apply digit_not_letter; [lia|done].
    - by repeat constructor.
    - apply digit_not_letter; [lia|done].
    - apply ws_not_letter; [lia|done].
    - by apply (upper_excludes 80 ts (js "TESTS")). }
  clearbody X.
  replace j with (i + (1 + (j - i - 1))) in Hsa by lia.
  rewrite <- lookup_drop, EM in Hsa. simpl in Hsa.
  rewrite lookup_app_l in Hsa by lia.
  eapply Forall_lookup_1 in HX; [|exact Hsa]. apply HX. by rewrite Ha.
Qed.

(** The digits of an occurrence are determined by its index. *)
Lemma span_unique (p : N -> bool) : forall a a' b b',
  a ++ b = a' ++ b' ->
  forallb p a = true -> forallb p a' = true ->
  match b with [] => True | c :: _ => p c = false end ->
  match b' with [] => True | c :: _ => p c = false end ->
  a = a' /\ b = b'.
Proof.
  induction a as [|c a IH]; intros [|c' a'] b b' E Ha Ha' Hb Hb'; simpl in *.
  - done.
  - subst b. apply andb_true_iff in Ha' as [Hc _]. congruence.
  - subst b'. apply andb_true_iff in Ha as [Hc _]. congruence.
  - injection E as -> E. apply andb_true_iff in Ha as [_ Ha], Ha' as [_ Ha'].
    destruct (IH a' b b' E Ha Ha' Hb Hb') as [-> ->]. done.
Qed.

Lemma upper_length v w : toUpperCase v = w -> length v = length w.
Proof. intros <-. unfold toUpperCase. by rewrite length_map. Qed.

Lemma letter_not_ws c q : upperCU c = q -> (65 <= q <= 90)%N -> isWS c = false.
Proof.
  intros Hc Hq. destruct (isWS c) eqn:E; [|done]. exfalso.
  pose proof (ws_not_letter q [c] Hq) as H. simpl in H. rewrite E in H.
  specialize (H eq_refl). apply Forall_inv in H. done.
Qed.

Lemma letter_not_digit c q : upperCU c = q -> (65 <= q <= 90)%N -> isDigit c = false.
Proof.
  intros Hc Hq. destruct (isDigit c) eqn:E; [|done]. exfalso.
  pose proof (digit_not_letter q [c] Hq) as H. simpl in H. rewrite E in H.
  specialize (H eq_refl). apply Forall_inv in H. done.
Qed.

Lemma ws_not_digit c : isWS c = true -> isDigit c = false.
Proof.
  intros H. destruct (isDigit c) eqn:E; [|done].
  apply digit_not_ws in E. congruence.
Qed.

Lemma head_ws_then v rest (p : N -> bool) :
  forallb isWS v = true ->
  (forall c, isWS c = true -> p c = false) ->
  match rest with [] => True | c :: _ => p c = false end ->
  match v ++ rest with [] => True | c :: _ => p c = false end.
Proof.
  intros Hv Hp Hr. destruct v as [|c v]; [done|]. simpl in *.
  apply andb_true_iff in Hv as [Hc _]. auto.
Qed.

Lemma totalOcc_unique s i x y x' y' :
  totalOcc s i x y -> totalOcc s i x' y' -> x = x' /\ y = y'.
Proof.
  intros (_ & t & ws1 & ts & ws2 & ws3 & pw & post & E & Ht & Hn1 & Hw1 & Hts & Hw2
          & Hnx & Hdx & Hny & Hdy & Hw3 & Hpw)
         (_ & t' & ws1' & ts' & ws2' & ws3' & pw' & post' & E' & Ht' & Hn1' & Hw1' & Hts'
          & Hw2' & Hnx' & Hdx' & Hny' & Hdy' & Hw3' & Hpw').
  rewrite E in E'. clear E.
  apply app_inj_1 in E' as [_ E];
    [|by rewrite (upper_length _ _ Ht), (upper_length _ _ Ht')].
  apply start_upper in Hts as (c & ts1 & -> & Hc & Hts).
  apply start_upper in Hts' as (c' & ts1' & -> & Hc' & Hts').
  apply (span_unique isWS) in E as [_ E]; [|done|done| |];
    [|simpl; by apply (letter_not_ws _ _ Hc)|simpl; by apply (letter_not_ws _ _ Hc')].
  simpl in E. injection E as _ E.
  apply app_inj_1 in E as [_ E];
    [|by rewrite (upper_length _ _ Hts), (upper_length _ _ Hts')].
  destruct x as [|d x]; [done|]. destruct x' as [|d' x']; [done|].
  apply (span_unique isWS) in E as [_ E]; [|done|done| |]; simpl in *;
    [|apply andb_true_iff in Hdx as [Hd _]; by apply digit_not_ws
     |apply andb_true_iff in Hdx' as [Hd _]; by apply digit_not_ws].
  change (d :: x ++ 47%N :: y ++ ws3 ++ pw ++ post)
    with ((d :: x) ++ 47%N :: y ++ ws3 ++ pw ++ post) in E.
  change (d' :: x' ++ 47%N :: y' ++ ws3' ++ pw' ++ post')
    with ((d' :: x') ++ 47%N :: y' ++ ws3' ++ pw' ++ post') in E.
  apply (span_unique isDigit) in E as [Ex E]; [|done|done|done|done].
  split; [done|]. injection E as E.
  apply start_upper in Hpw as (q & pw1 & -> & Hq & _).
  apply start_upper in Hpw' as (q' & pw1' & -> & Hq' & _).
  apply (span_unique isDigit) in E as [Ey _]; [done|done|done| |].
  - apply head_ws_then; [done|apply ws_not_digit|]. simpl.
    by apply (letter_not_digit _ _ Hq).
  - apply head_ws_then; [done|apply ws_not_digit|]. simpl.
    by apply (letter_not_digit _ _ Hq').
Qed.

Lemma passedOcc_unique s i x y x' y' :
  passedOcc s i x y -> passedOcc s i x' y' -> x = x' /\ y = y'.
Proof.
  intros (_ & pw & ws1 & ws2 & ts & post & E & Hpw & Hw1 & Hnx & Hdx & Hny & Hdy
          & Hw2 & Hts)
         (_ & pw' & ws1' & ws2' & ts' & post' & E' & Hpw' & Hw1' & Hnx' & Hdx' & Hny'
          & Hdy' & Hw2' & Hts').
  rewrite E in E'. clear E.
  apply app_inj_1 in E' as [_ E];
    [|by rewrite (upper_length _ _ Hpw), (upper_length _ _ Hpw')].
  destruct x as [|d x]; [done|]. destruct x' as [|d' x']; [done|].
  apply (span_unique isWS) in E as [_ E]; [|done|done| |]; simpl in *;
    [|apply andb_true_iff in Hdx as [Hd _]; by apply digit_not_ws
     |apply andb_true_iff in Hdx' as [Hd _]; by apply digit_not_ws].
  change (d :: x ++ 47%N :: y ++ ws2 ++ ts ++ post)
    with ((d :: x) ++ 47%N :: y ++ ws2 ++ ts ++ post) in E.
  change (d' :: x' ++ 47%N :: y' ++ ws2' ++ ts' ++ post')
    with ((d' :: x') ++ 47%N :: y' ++ ws2' ++ ts' ++ post') in E.
  apply (span_unique isDigit) in E as [Ex E]; [|done|done|done|done].
  split; [done|]. injection E as E.
  apply start_upper in Hts as (q & ts1 & -> & Hq & _).
  apply start_upper in Hts' as (q' & ts1' & -> & Hq' & _).
  apply (span_unique isDigit) in E as [Ey _]; [done|done|done| |].
  - apply head_ws_then; [done|apply ws_not_digit|]. simpl.
    by apply (letter_not_digit _ _ Hq).
  - apply head_ws_then; [done|apply ws_not_digit|]. simpl.
    by apply (letter_not_digit _ _ Hq').
Qed.

Lemma total_counts content c :
  lastCounts totalTestsRegex content = Returns c ->
  (c = None /\ noOcc totalOcc content) \/
  (exists i x y, lastOcc totalOcc content i x y /\ c = Some (parseInt x, parseInt y)).
Proof.
  intros E. apply lastCounts_last in E
    as [[-> Hnone]|(k & st' & x & y & Hk & HM & C1 & C2 & -> & Hmax)];
    [| |vm_compute; lia|apply total_nonOverlapping|vm_compute; tauto|vm_compute; tauto].
  - left. split; [done|]. intros j x y Ho. apply (Hnone j).
    split; [apply Ho|]. eapply totalOcc_Match; eauto.
  - right. destruct (totalTestsRegex_occ _ _ _ Hk HM) as (x' & y' & Ho & C1' & C2').
    rewrite C1 in C1'. rewrite C2 in C2'. injection C1' as <-. injection C2' as <-.
    exists k, x, y. split; [|done]. split; [done|].
    intros j x' y' Ho'. apply Hmax. split; [apply Ho'|]. eapply totalOcc_Match; eauto.
Qed.

Lemma passed_counts content c :
  lastCounts passedLineRegex content = Returns c ->
  (c = None /\ noOcc passedOcc content) \/
  (exists i x y, lastOcc passedOcc content i x y /\ c = Some (parseInt x, parseInt y)).
Proof.
  intros E. apply lastCounts_last in E
    as [[-> Hnone]|(k & st' & x & y & Hk & HM & C1 & C2 & -> & Hmax)];
    [| |vm_compute; lia|apply passed_nonOverlapping|vm_compute; tauto|vm_compute; tauto].
  - left. split; [done|]. intros j x y Ho. apply (Hnone j).
    split; [apply Ho|]. eapply passedOcc_Match; eauto.
  - right. destruct (passedLineRegex_occ _ _ _ Hk HM) as (x' & y' & Ho & C1' & C2').
    rewrite C1 in C1'. rewrite C2 in C2'. injection C1' as <-. injection C2' as <-.
    exists k, x, y. split; [|done]. split; [done|].
    intros j x' y' Ho'. apply Hmax. split; [apply Ho'|]. eapply passedOcc_Match; eauto.
Qed.

(** The verdict on two runs of digits below 2^53 compares the integers
    written. *)
Lemma verdict_exact x y :
  x <> [] -> forallb isDigit x = true -> y <> [] -> forallb isDigit y = true ->
  (decimal x < 2 ^ 53)%N -> (decimal y < 2 ^ 53)%N ->
  verdict (parseInt x, parseInt y) = true <->
  decimal x = decimal y /\ (0 < decimal y)%N.
Proof.
  intros Hx Hdx Hy Hdy Bx By. rewrite !parseInt_digits by done.
  unfold verdict, roundDouble. simpl.
  apply N.ltb_lt in Bx, By. rewrite Bx, By. simpl.
  destruct (Z.ltb_spec 0 (Z.of_N (decimal y))).
  - rewrite Z.eqb_eq. lia.
  - split; [done|lia].
Qed.

(** C1.  [determineFinalSuccess] returns for every content.  When
    "Total tests: X/Y passed" occurs, the verdict is that of its last
    occurrence: true exactly when the number read for Y is positive and the
    numbers read for X and Y are equal.  When it does not occur and
    "Passed X/Y tests" does, the verdict is that of the last occurrence of
    the latter.  When neither occurs the result is false.  Two occurrences
    3/5 then 5/5 give true; a single 0/0 gives false. *)
Theorem outcome_last_wins content :
  (exists b, determineFinalSuccess content = Returns b /\
     ((exists i x y, lastOcc totalOcc content i x y /\
                     b = verdict (parseInt x, parseInt y)) \/
      (noOcc totalOcc content /\
       exists i x y, lastOcc passedOcc content i x y /\
                     b = verdict (parseInt x, parseInt y)) \/
      (noOcc totalOcc content /\ noOcc passedOcc content /\ b = false))) /\
  (forall X Y, verdict (X, Y) = true <->
               num_gtb Y (Num 0) = true /\ num_eqb X Y = true) /\
  determineFinalSuccess
    (js "Total tests: 3/5 passed" ++ LF ++ js "Total tests: 5/5 passed") = Returns true /\
  determineFinalSuccess (js "Total tests: 0/0 passed") = Returns false.
Proof.
  split; [|split; [|split; vm_compute; reflexivity]].
  - unfold determineFinalSuccess.
    destruct (lastCounts_returns totalTestsRegex content) as [c Hc]; [vm_compute; lia|].
    rewrite Hc. simpl.
    destruct (total_counts _ _ Hc) as [[-> Hno]|(i & x & y & Hl & ->)].
    + destruct (lastCounts_returns passedLineRegex content) as [c' Hc']; [vm_compute; lia|].
      rewrite Hc'. simpl.
      destruct (passed_counts _ _ Hc') as [[-> Hno']|(i & x & y & Hl & ->)].
      * exists false. split; [done|]. right; right. done.
      * eexists. split; [done|]. right; left. split; [done|]. eauto.
    + eexists. split; [done|]. left. eauto.
  - intros X Y. unfold verdict. simpl. destruct (num_gtb Y (Num 0)); [|split; [done|tauto]..].
    tauto.
Qed.

(** ** Test Result Extractor *)

(** *** Strings without white space *)

Lemma noWS_app a b : noWS (a ++ b) <-> noWS a /\ noWS b.
Proof. unfold noWS. rewrite forallb_app, andb_true_iff. done. Qed.

Lemma plainPath_noWS p : plainPath p -> noWS p.
Proof.
  intros [_ H]. unfold noWS. rewrite forallb_forall in *. intros c Hc.
  specialize (H c Hc). by apply andb_true_iff in H as [H _].
Qed.

Lemma plainPath_no_colon p : plainPath p -> ~ In 58%N p.
Proof.
  intros [_ H] Hin. rewrite forallb_forall in H. specialize (H _ Hin).
  apply andb_true_iff in H as [_ H]. by vm_compute in H.
Qed.

Lemma noWS_no_LF s : noWS s -> ~ In 10%N s.
Proof.
  unfold noWS. intros H Hin. rewrite forallb_forall in H. specialize (H _ Hin).
  by vm_compute in H.
Qed.

Lemma noWS_head s : noWS s -> match s with [] => True | c :: _ => isWS c = false end.
Proof.
  unfold noWS. destruct s as [|c s]; [done|]. simpl.
  intros H. apply andb_true_iff in H as [H _]. by apply negb_true_iff.
Qed.

Lemma dropWhile_id p s :
  match s with [] => True | c :: _ => p c = false end -> dropWhile p s = s.
Proof. destruct s as [|c s]; [done|]. simpl. by intros ->. Qed.

Lemma trim_id s :
  match s with [] => True | c :: _ => isWS c = false end ->
  match rev s with [] => True | c :: _ => isWS c = false end ->
  trim s = s.
Proof.
  intros H1 H2. unfold trim, trimStart, trimEnd.
  rewrite (dropWhile_id isWS s H1), (dropWhile_id isWS (rev s) H2).
  apply rev_involutive.
Qed.

Lemma noWS_rev s : noWS s -> noWS (rev s).
Proof.
  unfold noWS. rewrite !forallb_forall. intros H c Hc. apply H. by apply in_rev.
Qed.

Lemma trim_noWS s : noWS s -> trim s = s.
Proof.
  intros H. apply trim_id; [by apply noWS_head|]. by apply noWS_head, noWS_rev.
Qed.

(** a line that starts with a code unit outside white space and ends with
    a given closed text *)
Lemma trim_between c s e d :
  isWS c = false -> isWS d = false -> trim (c :: s ++ e ++ [d]) = c :: s ++ e ++ [d].
Proof.
  intros Hc Hd. apply trim_id; [done|].
  change (c :: s ++ e ++ [d]) with ((c :: s) ++ e ++ [d]).
  rewrite !rev_app_distr. simpl. done.
Qed.

(** *** Lines *)

Lemma isPrefix_LF c s : isPrefix LF (c :: s) = (10 =? c)%N.
Proof. unfold LF. cbn [isPrefix]. apply andb_true_r. Qed.

Lemma split_go_LF a : forall cur rest,
  ~ In 10%N a ->
  split_go LF 0 cur (a ++ 10%N :: rest) = (rev cur ++ a) :: split_go LF 0 [] rest.
Proof.
  induction a as [|c a IH]; intros cur rest Hn.
  - simpl. by rewrite app_nil_r.
  - simpl app. rewrite split_go_cons.
    assert (isPrefix LF (c :: a ++ 10%N :: rest) = false) as ->.
    { rewrite isPrefix_LF. apply N.eqb_neq. intros <-. apply Hn. by left. }
    rewrite IH by (intros H; apply Hn; by right). simpl. by rewrite <- app_assoc.
Qed.

Lemma split_go_last a : forall cur,
  ~ In 10%N a -> split_go LF 0 cur a = [rev cur ++ a].
Proof.
  induction a as [|c a IH]; intros cur Hn.
  - simpl. by rewrite app_nil_r.
  - rewrite split_go_cons.
    assert (isPrefix LF (c :: a) = false) as ->.
    { rewrite isPrefix_LF. apply N.eqb_neq. intros <-. apply Hn. by left. }
    rewrite IH by (intros H; apply Hn; by right). simpl. by rewrite <- app_assoc.
Qed.

Lemma split_LF_cons a rest :
  ~ In 10%N a -> split LF (a ++ LF ++ rest) = a :: split LF rest.
Proof.
  intros H. unfold split. change (LF ++ rest) with (10%N :: rest).
  by rewrite (split_go_LF a [] rest H).
Qed.

Lemma split_LF_last a : ~ In 10%N a -> split LF a = [a].
Proof. intros H. unfold split. by rewrite (split_go_last a [] H). Qed.

(** *** Pieces between double colons *)

Lemma join_cons sep p ps : ps <> [] -> join sep (p :: ps) = p ++ sep ++ join sep ps.
Proof. by destruct ps. Qed.

Lemma split_go_nonempty sep s skip cur : split_go sep skip cur s <> [].
Proof.
  pose proof (split_go_length sep s skip cur). destruct (split_go sep skip cur s);
    [simpl in *; lia|done].
Qed.

(** [join] undoes [split] *)
Lemma join_split_go sep : sep <> [] -> forall s k cur,
  k <= length s -> join sep (split_go sep k cur s) = rev cur ++ drop k s.
Proof.
  intros Hsep. induction s as [|c s IH]; intros k cur Hk.
  - simpl in *. assert (k = 0) as -> by lia. simpl. by rewrite app_nil_r.
  - destruct k as [|k].
    + rewrite split_go_cons. destruct (isPrefix sep (c :: s)) eqn:E.
      * rewrite join_cons by apply split_go_nonempty.
        apply isPrefix_spec in E as [b E].
        destruct sep as [|c' sep']; [done|]. injection E as <- E.
        assert (Hl : length (c :: sep') - 1 <= length s).
        { rewrite E, length_app. simpl. lia. }
        rewrite IH by done.
        replace (length (c :: sep') - 1) with (length sep') by (simpl; lia).
        rewrite E, drop_app_length. simpl. done.
      * rewrite IH by (simpl; lia). simpl. by rewrite <- app_assoc.
    + simpl. apply IH. simpl in Hk. lia.
Qed.

Lemma join_split sep s : sep <> [] -> join sep (split sep s) = s.
Proof. intros H. unfold split. by rewrite (join_split_go sep H s 0 []) by lia. Qed.

Lemma split_go_colons p : forall cur rest,
  ~ In 58%N p ->
  split_go [58; 58]%N 0 cur (p ++ 58%N :: 58%N :: rest) =
  (rev cur ++ p) :: split_go [58; 58]%N 0 [] rest.
Proof.
  induction p as [|c p IH]; intros cur rest Hn.
  - simpl. by rewrite app_nil_r.
  - simpl app. rewrite split_go_cons.
    assert (isPrefix [58; 58]%N (c :: p ++ 58%N :: 58%N :: rest) = false) as ->.
    { cbn [isPrefix].
      assert ((58 =? c)%N = false) as ->; [|done].
      apply N.eqb_neq. intros <-. apply Hn. by left. }
    rewrite IH by (intros H; apply Hn; by right). simpl. by rewrite <- app_assoc.
Qed.

Lemma split_colons p rest :
  ~ In 58%N p -> split (js "::") (p ++ js "::" ++ rest) = p :: split (js "::") rest.
Proof.
  intros H. unfold split. change (js "::") with [58; 58]%N.
  change ([58; 58]%N ++ rest) with (58%N :: 58%N :: rest).
  by rewrite (split_go_colons p [] rest H).
Qed.

(** *** First occurrence *)

Lemma indexOf_app_first sub a b :
  (forall j, j < length a -> isPrefix sub (drop j (a ++ sub ++ b)) = false) ->
  indexOf sub (a ++ sub ++ b) = Some (length a).
Proof.
  induction a as [|c a IH]; intros H.
  - simpl app. destruct (sub ++ b) eqn:E.
    + simpl. destruct sub; [done|done].
    + rewrite indexOf_cons, <- E, isPrefix_app. done.
  - simpl app. rewrite indexOf_cons.
    assert (isPrefix sub (c :: a ++ sub ++ b) = false) as ->
      by (apply (H 0); simpl; lia).
    rewrite IH; [done|].
    intros j Hj. apply (H (S j)). simpl. lia.
Qed.

Lemma replaceStr_suffix sub a b :
  (forall j, j < length a -> isPrefix sub (drop j (a ++ sub ++ b)) = false) ->
  replaceStr sub [] (a ++ sub ++ b) = a ++ b.
Proof.
  intros H. unfold replaceStr. rewrite (indexOf_app_first sub a b H).
  rewrite take_app_length. simpl.
  rewrite drop_app_ge by lia. rewrite Nat.add_comm, Nat.add_sub.
  by rewrite drop_app_length.
Qed.

(** a text whose second code unit is a space does not start inside a run
    free of white space *)
Lemma no_early_colon_space w a rest j :
  noWS a -> j < length a ->
  isPrefix (58%N :: 32%N :: w) (drop j (a ++ 58%N :: rest)) = false.
Proof.
  intros Ha. revert j. induction a as [|c a IH]; intros j Hj; [simpl in Hj; lia|].
  apply (noWS_app [c] a) in Ha as [Hc Ha].
  destruct j as [|j].
  - rewrite drop_0. simpl app. cbn [isPrefix].
    destruct (58 =? c)%N; [|done]. cbn [andb].
    destruct a as [|c2 a]; cbn [app isPrefix]; [done|].
    apply noWS_head in Ha. cbn beta iota in Ha.
    destruct (N.eqb_spec 32 c2) as [<-|]; [|done]. by vm_compute in Ha.
  - simpl. apply IH; [done|]. simpl in Hj. lia.
Qed.

(** *** The order in which the matcher tries *)

Lemma run_nil r st : (forall st', ~ Match r st st') -> run r st = [].
Proof.
  intros H. destruct (run r st) as [|st' l] eqn:E; [done|].
  exfalso. apply (H st'). apply run_sound. rewrite E. by left.
Qed.

Lemma head_flat_map_nil {A B} (f : A -> list B) l1 l2 :
  (forall x, In x l1 -> f x = []) ->
  head (flat_map f (l1 ++ l2)) = head (flat_map f l2).
Proof.
  intros H. induction l1 as [|x l1 IH]; [done|]. simpl.
  rewrite (H x) by by left. simpl. apply IH. intros y Hy. apply H. by right.
Qed.

Lemma head_app_Some {A} (l1 l2 : list A) x : head l1 = Some x -> head (l1 ++ l2) = Some x.
Proof. by destruct l1. Qed.

(** A pattern that can only go one way hands its state to the rest *)
Lemma head_seq_unique a k st st1 :
  Match a st st1 -> (forall st', Match a st st' -> st' = st1) ->
  head (run (Seq a k) st) = head (run k st1).
Proof.
  intros HM Hu. cbn [run].
  assert (Hall : forall x, In x (run a st) -> x = st1)
    by (intros x Hx; by apply Hu, run_sound).
  apply run_complete in HM.
  destruct (run a st) as [|x l]; [done|]. simpl.
  rewrite (Hall x) by by left.
  destruct (run k st1) as [|y l'] eqn:E; [|done]. simpl.
  clear HM. induction l as [|z l IH]; [done|]. simpl.
  assert (Hz : z = st1) by (apply Hall; right; by left).
  rewrite Hz, E. simpl. apply IH.
  intros w [Hw|Hw]; apply Hall; [by left|right; by right].
Qed.

Lemma head_of_unique k st st' :
  Match k st st' -> (forall st1, Match k st st1 -> st1 = st') ->
  head (run k st) = Some st'.
Proof.
  intros HM Hu. apply run_complete in HM.
  destruct (run k st) as [|x l] eqn:E; [done|]. simpl. f_equal.
  apply Hu, run_sound. rewrite E. by left.
Qed.

(** The states of a lazy run over a class, shortest first *)
Lemma star_lazy_class p : forall rest fuel pos caps,
  length rest < fuel ->
  star_loop (run (Chr p)) false fuel (MState pos rest caps) =
  List.map (fun k => MState (pos + k) (drop k rest) caps)
    (seq 0 (S (length (takeWhile p rest)))).
Proof.
  induction rest as [|c rest IH]; intros fuel pos caps Hf;
    (destruct fuel as [|n]; [lia|]); cbn [star_loop run m_rest].
  - simpl. by rewrite Nat.add_0_r.
  - cbn [takeWhile]. destruct (p c).
    + cbn [flat_map m_rest m_pos m_caps]. rewrite app_nil_r.
      assert ((length rest <? length (c :: rest)) = true) as ->
        by (apply Nat.ltb_lt; simpl; lia).
      rewrite IH by (simpl in Hf; lia).
      set (L := length (takeWhile p rest)).
      change (seq 0 (S (length (c :: takeWhile p rest)))) with (0 :: seq 1 (S L)).
      rewrite <- (seq_shift (S L) 0). cbn [List.map].
      rewrite Nat.add_0_r, drop_0. f_equal.
      rewrite List.map_map. apply List.map_ext. intros k. simpl. f_equal. lia.
    + simpl. by rewrite Nat.add_0_r.
Qed.

Lemma run_star_lazy_class p pos rest caps :
  run (Star false (Chr p)) (MState pos rest caps) =
  List.map (fun k => MState (pos + k) (drop k rest) caps)
    (seq 0 (S (length (takeWhile p rest)))).
Proof. cbn [run m_rest]. apply star_lazy_class. lia. Qed.

Lemma takeWhile_app_all p v rest :
  forallb p v = true -> length v <= length (takeWhile p (v ++ rest)).
Proof.
  induction v as [|c v IH]; simpl; [lia|].
  intros H. apply andb_true_iff in H as [-> H]. simpl. specialize (IH H). lia.
Qed.

(** A lazy group stops at the shortest capture after which the rest of the
    pattern matches. *)
Lemma head_lazy_group i p k pos v rest caps st' :
  v <> [] -> forallb p v = true ->
  (forall n, 1 <= n < length v ->
     forall st'', ~ Match k (MState (pos + n) (drop n (v ++ rest))
                              (<[i := take n v]> caps)) st'') ->
  head (run k (MState (pos + length v) rest (<[i := v]> caps))) = Some st' ->
  head (run (Seq (Group i (plus_lazy (Chr p))) k) (MState pos (v ++ rest) caps)) = Some st'.
Proof.
  intros Hne Hv Hno Hh. destruct v as [|c v]; [done|].
  simpl in Hv. apply andb_true_iff in Hv as [Hc Hv].
  change (run (Seq (Group i (plus_lazy (Chr p))) k) (MState pos ((c :: v) ++ rest) caps))
    with (flat_map (run k)
            (List.map (fun st' => MState (m_pos st') (m_rest st')
                         (<[i := take (m_pos st' - pos) (c :: v ++ rest)]> (m_caps st')))
               (flat_map (run (Star false (Chr p)))
                  (if p c then [MState (S pos) (v ++ rest) caps] else [])))).
  rewrite Hc. cbn [flat_map]. rewrite app_nil_r.
  rewrite run_star_lazy_class, List.map_map.
  pose proof (takeWhile_app_all p v rest Hv) as Hlen.
  set (m := length (takeWhile p (v ++ rest))) in *.
  replace (S m) with (length v + S (m - length v)) by lia.
  rewrite seq_app, map_app, head_flat_map_nil.
  - cbn [seq List.map flat_map m_pos m_rest m_caps]. apply head_app_Some.
    rewrite <- Hh.
    replace (S pos + (0 + length v) - pos) with (S (length v)) by lia.
    replace (S pos + (0 + length v)) with (pos + length (c :: v)) by (simpl; lia).
    change (0 + length v) with (length v).
    rewrite drop_app_length.
    change (take (S (length v)) (c :: v ++ rest)) with (c :: take (length v) (v ++ rest)).
    by rewrite take_app_length.
  - intros x Hx. apply in_map_iff in Hx as (n & <- & Hn). apply in_seq in Hn.
    apply run_nil. intros st'' HM. apply (Hno (S n) ltac:(simpl; lia) st'').
    cbn [m_pos m_rest m_caps] in HM.
    replace (pos + S n) with (S pos + n) by lia.
    replace (S pos + n - pos) with (S n) in HM by lia.
    change (take (S n) (c :: v ++ rest)) with (c :: take n (v ++ rest)) in HM.
    rewrite take_app_le in HM by lia. exact HM.
Qed.

(** *** Running the pieces of the two-capture patterns *)

Lemma run_lit_app w k : forall pos rest caps,
  run (Seq (lit w) k) (MState pos (w ++ rest) caps) =
  run k (MState (pos + length w) rest caps).
Proof.
  assert (H : forall pos rest caps,
    run (lit w) (MState pos (w ++ rest) caps) = [MState (pos + length w) rest caps]).
  { induction w as [|c w IH]; intros pos rest caps.
    - simpl. by rewrite Nat.add_0_r.
    - change (lit (c :: w)) with (Seq (chr c) (lit w)).
      change (run (Seq (chr c) (lit w)) (MState pos ((c :: w) ++ rest) caps))
        with (flat_map (run (lit w))
                (if (c =? c)%N then [MState (S pos) (w ++ rest) caps] else [])).
      rewrite N.eqb_refl. cbn [flat_map]. rewrite IH, app_nil_r.
      simpl. do 2 f_equal. lia. }
  intros pos rest caps.
  change (run (Seq (lit w) k) (MState pos (w ++ rest) caps))
    with (flat_map (run k) (run (lit w) (MState pos (w ++ rest) caps))).
  rewrite H. cbn [flat_map]. by rewrite app_nil_r.
Qed.

Lemma star_greedy_stop p fuel pos rest caps :
  match rest with [] => True | c :: _ => p c = false end ->
  star_loop (run (Chr p)) true (S fuel) (MState pos rest caps) = [MState pos rest caps].
Proof.
  intros H. cbn [star_loop]. destruct rest as [|c rest]; cbn [run m_rest]; [done|].
  by rewrite H.
Qed.

(** one white space and then something else *)
Lemma run_plus_ws_one k c pos rest caps :
  isWS c = true ->
  match rest with [] => True | d :: _ => isWS d = false end ->
  run (Seq (plus ws) k) (MState pos (c :: rest) caps) = run k (MState (S pos) rest caps).
Proof.
  intros Hc Hr.
  change (run (Seq (plus ws) k) (MState pos (c :: rest) caps))
    with (flat_map (run k)
            (flat_map (fun st => star_loop (run (Chr isWS)) true (S (length (m_rest st))) st)
               (if isWS c then [MState (S pos) rest caps] else []))).
  rewrite Hc. cbn [flat_map m_rest]. rewrite star_greedy_stop by done.
  cbn [app flat_map]. by rewrite app_nil_r.
Qed.

Lemma run_star_ws_none k pos rest caps :
  match rest with [] => True | d :: _ => isWS d = false end ->
  run (Seq (star ws) k) (MState pos rest caps) = run k (MState pos rest caps).
Proof.
  intros Hr.
  change (run (Seq (star ws) k) (MState pos rest caps))
    with (flat_map (run k)
            (star_loop (run (Chr isWS)) true (S (length rest)) (MState pos rest caps))).
  rewrite star_greedy_stop by done. cbn [flat_map]. by rewrite app_nil_r.
Qed.

Lemma run_chr_cons k c pos rest caps :
  run (Seq (chr c) k) (MState pos (c :: rest) caps) = run k (MState (S pos) rest caps).
Proof.
  change (run (Seq (chr c) k) (MState pos (c :: rest) caps))
    with (flat_map (run k) (if (c =? c)%N then [MState (S pos) rest caps] else [])).
  rewrite N.eqb_refl. cbn [flat_map]. by rewrite app_nil_r.
Qed.

(** *** Counting white space *)

Lemma wsCount_app a b : wsCount (a ++ b) = wsCount a + wsCount b.
Proof. unfold wsCount. by rewrite List.filter_app, length_app. Qed.

Lemma wsCount_noWS s : noWS s -> wsCount s = 0.
Proof.
  unfold noWS, wsCount. induction s as [|c s IH]; [done|]. simpl.
  intros H. apply andb_true_iff in H as [Hc H]. destruct (isWS c); [done|]. by apply IH.
Qed.

Lemma wsCount_cons c s : isWS c = true -> wsCount (c :: s) = S (wsCount s).
Proof. unfold wsCount. simpl. by intros ->. Qed.

Lemma wsCount_ws v : v <> [] -> forallb isWS v = true -> 1 <= wsCount v.
Proof.
  destruct v as [|c v]; [done|]. simpl. intros _ H. apply andb_true_iff in H as [Hc _].
  rewrite wsCount_cons by done. lia.
Qed.

Lemma wsCount_drop k s : wsCount (drop k s) <= wsCount s.
Proof. rewrite <- (take_drop k s) at 2. rewrite wsCount_app. lia. Qed.

(** A keyword in front of white space can only sit at the start of a line
    that opens with another keyword of the same length. *)
Lemma late_start kw kw' c rest k c1 x :
  noWS kw -> noWS kw' -> isWS c = true -> isWS c1 = true ->
  length kw = length kw' -> kw <> kw' ->
  drop k (kw' ++ c :: rest) = kw ++ c1 :: x ->
  wsCount (drop k (kw' ++ c :: rest)) <= wsCount rest.
Proof.
  intros Hkw Hkw' Hc Hc1 Hlen Hne E.
  destruct (Nat.le_gt_cases k (length kw')) as [Hle|Hgt].
  - exfalso. rewrite drop_app_le in E by done.
    assert (E' : (take k kw' ++ kw) ++ c1 :: x = kw' ++ c :: rest).
    { rewrite <- app_assoc, <- E, app_assoc, take_drop. done. }
    apply (span_unique (fun c => negb (isWS c))) in E' as [E' _];
      [| |done|simpl; by rewrite Hc1|simpl; by rewrite Hc].
    + assert (k = 0).
      { apply (f_equal length) in E'. rewrite length_app, length_take in E'. lia. }
      subst k. by apply Hne.
    + rewrite forallb_app. apply andb_true_iff. split; [|done].
      apply forallb_forall. intros y Hy.
      unfold noWS in Hkw'. rewrite forallb_forall in Hkw'. apply Hkw'.
      rewrite <- (take_drop k kw'). apply in_or_app. by left.
  - replace k with (length kw' + S (k - length kw' - 1)) by lia.
    rewrite <- drop_drop, drop_app_length. simpl. apply wsCount_drop.
Qed.

(** *** What the two-capture patterns read *)

Lemma Match_lazyGroup i st st' :
  Match (lazyGroup i) st st' <->
  exists v, (v <> [] /\ forallb isDot v = true) /\ reads_cap i st v st'.
Proof.
  apply Match_Group_reads. intros sa sb. unfold dot. rewrite Match_plus_lazy_class.
  split; [intros (v' & ? & ? & ?) | intros (v' & [? ?] & ?)]; eauto.
Qed.

Lemma matchRe_Match kw w st st' :
  Match (matchRe kw w) st st' ->
  exists c1 x, m_rest st = kw ++ c1 :: x /\ isWS c1 = true /\ 2 <= wsCount (m_rest st).
Proof.
  unfold matchRe. intros HM.
  apply Match_seqs_cons in HM as (s1 & H1 & HM).
  apply Match_lit in H1 as (E1 & _ & _).
  apply Match_seqs_cons in HM as (s2 & H2 & HM).
  apply Match_ws_plus in H2 as (v1 & Hn1 & Hw1 & (E2 & _ & _)).
  apply Match_seqs_cons in HM as (s3 & H3 & HM).
  apply Match_lazyGroup in H3 as (g1 & _ & (E3 & _ & _)).
  apply Match_seqs_cons in HM as (s4 & H4 & HM).
  apply Match_lit in H4 as (E4 & _ & _).
  apply Match_seqs_cons in HM as (s5 & H5 & HM).
  apply Match_lazyGroup in H5 as (g2 & _ & (E5 & _ & _)).
  apply Match_seqs_cons in HM as (s6 & H6 & HM).
  apply Match_chr in H6 as (E6 & _ & _).
  apply Match_seqs_cons in HM as (s7 & H7 & HM).
  apply Match_ws_plus in H7 as (v2 & Hn2 & Hw2 & (E7 & _ & _)).
  destruct v1 as [|c1 v1]; [done|].
  exists c1, (v1 ++ m_rest s2). split; [by rewrite E1, E2|].
  split; [simpl in Hw1; by apply andb_true_iff in Hw1 as [? _]|].
  rewrite E1, E2, E3, E4, E5, E6, E7, !wsCount_app.
  pose proof (wsCount_ws (c1 :: v1) Hn1 Hw1). pose proof (wsCount_ws v2 Hn2 Hw2). lia.
Qed.

Lemma startRe_Match kw st st' :
  Match (startRe kw) st st' ->
  exists c1 x, m_rest st = kw ++ c1 :: x /\ isWS c1 = true /\ 1 <= wsCount (m_rest st).
Proof.
  unfold startRe. intros HM.
  apply Match_seqs_cons in HM as (s1 & H1 & HM).
  apply Match_lit in H1 as (E1 & _ & _).
  apply Match_seqs_cons in HM as (s2 & H2 & HM).
  apply Match_ws_plus in H2 as (v1 & Hn1 & Hw1 & (E2 & _ & _)).
  destruct v1 as [|c1 v1]; [done|].
  exists c1, (v1 ++ m_rest s2). split; [by rewrite E1, E2|].
  split; [simpl in Hw1; by apply andb_true_iff in Hw1 as [? _]|].
  rewrite E1, E2, !wsCount_app.
  pose proof (wsCount_ws (c1 :: v1) Hn1 Hw1). lia.
Qed.

(** *** Lines on which a two-capture pattern finds nothing *)

Lemma matchRe_few_ws kw w line :
  wsCount line < 2 -> exec (matchRe kw w) line 0 = None.
Proof.
  intros H. apply exec_none_intro. intros k _. apply run_nil. intros st' HM.
  apply matchRe_Match in HM as (_ & _ & _ & _ & HM). unfold start_at in HM. simpl in HM.
  pose proof (wsCount_drop k line). lia.
Qed.

Lemma startRe_no_ws kw line :
  wsCount line < 1 -> exec (startRe kw) line 0 = None.
Proof.
  intros H. apply exec_none_intro. intros k _. apply run_nil. intros st' HM.
  apply startRe_Match in HM as (_ & _ & _ & _ & HM). unfold start_at in HM. simpl in HM.
  pose proof (wsCount_drop k line). lia.
Qed.

Lemma matchRe_other_keyword kw w kw' c rest :
  noWS kw -> noWS kw' -> isWS c = true -> length kw = length kw' -> kw <> kw' ->
  wsCount rest < 2 ->
  exec (matchRe kw w) (kw' ++ c :: rest) 0 = None.
Proof.
  intros Hkw Hkw' Hc Hlen Hne H. apply exec_none_intro. intros k _. apply run_nil.
  intros st' HM. apply matchRe_Match in HM as (c1 & x & E & Hc1 & HM).
  unfold start_at in E, HM. simpl in E, HM.
  pose proof (late_start kw kw' c rest k c1 x Hkw Hkw' Hc Hc1 Hlen Hne E). lia.
Qed.

Lemma startRe_other_keyword kw kw' c rest :
  noWS kw -> noWS kw' -> isWS c = true -> length kw = length kw' -> kw <> kw' ->
  wsCount rest < 1 ->
  exec (startRe kw) (kw' ++ c :: rest) 0 = None.
Proof.
  intros Hkw Hkw' Hc Hlen Hne H. apply exec_none_intro. intros k _. apply run_nil.
  intros st' HM. apply startRe_Match in HM as (c1 & x & E & Hc1 & HM).
  unfold start_at in E, HM. simpl in E, HM.
  pose proof (late_start kw kw' c rest k c1 x Hkw Hkw' Hc Hc1 Hlen Hne E). lia.
Qed.

(** *** Lines on which a two-capture pattern finds the path and the name *)

Lemma noWS_In s c : noWS s -> In c s -> isWS c = false.
Proof.
  unfold noWS. rewrite forallb_forall. intros H Hc. apply H in Hc.
  by apply negb_true_iff in Hc.
Qed.

Lemma noWS_isDot s : noWS s -> forallb isDot s = true.
Proof.
  intros H. apply forallb_forall. intros c Hc. pose proof (noWS_In s c H Hc) as Hw.
  unfold isDot, isLineTerminator. unfold isWS in Hw.
  repeat (apply orb_false_iff in Hw as [Hw ?]).
  apply negb_true_iff. repeat (apply orb_false_iff; split); done.
Qed.

Lemma noWS_head_app s rest :
  noWS s -> match rest with [] => True | d :: _ => isWS d = false end ->
  match s ++ rest with [] => True | d :: _ => isWS d = false end.
Proof.
  intros H Hr. destruct s as [|c s]; [done|]. simpl. apply (noWS_In (c :: s)); [done|by left].
Qed.

Lemma run_lit_end w k pos caps :
  run (Seq (lit w) k) (MState pos w caps) = run k (MState (pos + length w) [] caps).
Proof. rewrite <- (run_lit_app w k pos [] caps). by rewrite app_nil_r. Qed.

Lemma Match_colons_head k st st' :
  Match (Seq (lit (js "::")) k) st st' -> exists x, m_rest st = 58%N :: 58%N :: x.
Proof.
  intros H. apply Match_Seq_inv in H as (st1 & H & _).
  apply Match_lit in H as (E & _ & _). rewrite E. by eexists.
Qed.

(** the path ends at the first double colon *)
Lemma path_not_early p rest n k st st' :
  ~ In 58%N p -> 1 <= n < length p ->
  m_rest st = drop n (p ++ rest) ->
  ~ Match (Seq (lit (js "::")) k) st st'.
Proof.
  intros Hp Hn E HM. apply Match_colons_head in HM as (x & Hx).
  rewrite E, drop_app_le in Hx by lia.
  destruct (drop n p) as [|c r] eqn:Ed.
  - apply (f_equal length) in Ed. rewrite length_drop in Ed. simpl in Ed. lia.
  - injection Hx as -> _. apply Hp. rewrite <- (take_drop n p), Ed.
    apply in_or_app. right. by left.
Qed.

(** the name ends at the first colon that white space follows *)
Lemma name_not_early t rest n k st st' :
  noWS t -> 1 <= n < length t ->
  m_rest st = drop n (t ++ 58%N :: rest) ->
  ~ Match (Seq (chr 58) (Seq (plus ws) k)) st st'.
Proof.
  intros Ht Hn E HM. apply Match_Seq_inv in HM as (s1 & H1 & HM).
  apply Match_chr in H1 as (E1 & _ & _).
  apply Match_Seq_inv in HM as (s2 & H2 & _).
  apply Match_ws_plus in H2 as (v & Hv & Hw & (E2 & _ & _)).
  destruct v as [|c v]; [done|]. simpl in Hw. apply andb_true_iff in Hw as [Hc _].
  rewrite E, drop_app_le, E2 in E1 by lia.
  destruct (drop n t) as [|a r] eqn:Ed.
  - apply (f_equal length) in Ed. rewrite length_drop in Ed. simpl in Ed. lia.
  - assert (Hr : noWS (a :: r)).
    { rewrite <- Ed. rewrite <- (take_drop n t) in Ht. by apply noWS_app in Ht as [_ ?]. }
    simpl in E1. injection E1 as _ E1.
    destruct r as [|b r]; simpl in E1; injection E1 as E1 _.
    + subst c. by vm_compute in Hc.
    + subst c. rewrite (noWS_In (a :: b :: r) b Hr) in Hc; [done|right; by left].
Qed.

(** ... or, for a line that ends there, the colon that closes the line *)
Lemma name_not_early_end t n k st st' :
  noWS t -> 1 <= n < length t ->
  m_rest st = drop n (t ++ [58%N]) ->
  ~ Match (Seq (chr 58) (Seq (star ws) (Seq Eol k))) st st'.
Proof.
  intros Ht Hn E HM. apply Match_Seq_inv in HM as (s1 & H1 & HM).
  apply Match_chr in H1 as (E1 & _ & _).
  apply Match_Seq_inv in HM as (s2 & H2 & HM).
  apply Match_ws_star in H2 as (v & Hw & (E2 & _ & _)).
  apply Match_Seq_inv in HM as (s3 & H3 & _).
  apply Match_Eol_inv in H3 as [-> E3].
  rewrite E3, app_nil_r in E2. rewrite E, drop_app_le, E2 in E1 by lia.
  destruct (drop n t) as [|a r] eqn:Ed.
  - apply (f_equal length) in Ed. rewrite length_drop in Ed. simpl in Ed. lia.
  - simpl in E1. injection E1 as _ E1. rewrite <- E1 in Hw.
    rewrite forallb_app in Hw. apply andb_true_iff in Hw as [_ Hw]. by vm_compute in Hw.
Qed.

Lemma matchRe_single kw w p t :
  plainPath p -> plainName t -> noWS w ->
  exists m, exec (matchRe kw w) (kw ++ 32%N :: p ++ js "::" ++ t ++ 58%N :: 32%N :: w) 0 = Some m /\
    cap m 1 = Some p /\ cap m 2 = Some t.
Proof.
  intros Hp [Ht Hwt] Hw.
  pose proof (plainPath_noWS p Hp) as Hwp. pose proof (plainPath_no_colon p Hp) as Hcp.
  destruct Hp as [Hp _].
  set (line := kw ++ 32%N :: p ++ js "::" ++ t ++ 58%N :: 32%N :: w).
  assert (H : exists pos', head (run (matchRe kw w) (start_at line 0)) =
            Some (MState pos' [] (<[2 := t]> (<[1 := p]> ∅)))).
  { eexists. unfold matchRe, start_at, line. rewrite !seqs_cons, drop_0.
    rewrite run_lit_app, run_plus_ws_one;
      [|done|apply noWS_head_app; [done|by vm_compute]].
    apply head_lazy_group; [done|by apply noWS_isDot| |].
    { intros n Hn st'' HM. eapply path_not_early in HM; [done|exact Hcp|exact Hn|reflexivity]. }
    rewrite run_lit_app.
    apply head_lazy_group; [done|by apply noWS_isDot| |].
    { intros n Hn st'' HM. eapply name_not_early in HM; [done|exact Hwt|exact Hn|reflexivity]. }
    rewrite run_chr_cons, run_plus_ws_one;
      [|done|rewrite <- (app_nil_r w); by apply noWS_head_app].
    rewrite run_lit_end. simpl. reflexivity. }
  destruct H as [pos' H]. eexists. split.
  - apply (exec_found _ line 0 0); [lia|exact H|intros; lia].
  - unfold cap, result_at. simpl. split; [|apply lookup_insert_eq].
    rewrite lookup_insert_ne by done. apply lookup_insert_eq.
Qed.

Lemma startRe_line kw p t :
  plainPath p -> plainName t ->
  exists m, exec (startRe kw) (kw ++ 32%N :: p ++ js "::" ++ t ++ [58%N]) 0 = Some m /\
    cap m 1 = Some p /\ cap m 2 = Some t.
Proof.
  intros Hp [Ht Hwt].
  pose proof (plainPath_noWS p Hp) as Hwp. pose proof (plainPath_no_colon p Hp) as Hcp.
  destruct Hp as [Hp _].
  set (line := kw ++ 32%N :: p ++ js "::" ++ t ++ [58%N]).
  assert (H : exists pos', head (run (startRe kw) (start_at line 0)) =
            Some (MState pos' [] (<[2 := t]> (<[1 := p]> ∅)))).
  { eexists. unfold startRe, start_at, line. rewrite !seqs_cons, drop_0.
    rewrite run_lit_app, run_plus_ws_one;
      [|done|apply noWS_head_app; [done|by vm_compute]].
    apply head_lazy_group; [done|by apply noWS_isDot| |].
    { intros n Hn st'' HM. eapply path_not_early in HM; [done|exact Hcp|exact Hn|reflexivity]. }
    rewrite run_lit_app.
    apply head_lazy_group; [done|by apply noWS_isDot| |].
    { intros n Hn st'' HM. eapply name_not_early_end in HM; [done|exact Hwt|exact Hn|reflexivity]. }
    rewrite run_chr_cons, run_star_ws_none by done. simpl. reflexivity. }
  destruct H as [pos' H]. eexists. split.
  - apply (exec_found _ line 0 0); [lia|exact H|intros; lia].
  - unfold cap, result_at. simpl. split; [|apply lookup_insert_eq].
    rewrite lookup_insert_ne by done. apply lookup_insert_eq.
Qed.

(** *** Lines as they come out of [split] and [trim] *)

Lemma ends_app a b :
  b <> [] -> match rev b with [] => True | c :: _ => isWS c = false end ->
  match rev (a ++ b) with [] => True | c :: _ => isWS c = false end.
Proof.
  intros Hb H. rewrite rev_app_distr. destruct (rev b) as [|c r] eqn:E; [|done].
  apply (f_equal (@rev N)) in E. rewrite rev_involutive in E. done.
Qed.

Lemma ends_cons x b :
  b <> [] -> match rev b with [] => True | c :: _ => isWS c = false end ->
  match rev (x :: b) with [] => True | c :: _ => isWS c = false end.
Proof. apply (ends_app [x]). Qed.

Lemma ends_noWS b :
  noWS b -> match rev b with [] => True | c :: _ => isWS c = false end.
Proof. intros H. apply noWS_head. by apply noWS_rev. Qed.

Lemma no_LF_app a b : ~ In 10%N a -> ~ In 10%N b -> ~ In 10%N (a ++ b).
Proof. intros Ha Hb H. apply in_app_or in H as [H|H]; auto. Qed.

Lemma no_LF_cons c b : c <> 10%N -> ~ In 10%N b -> ~ In 10%N (c :: b).
Proof. intros Hc Hb [H|H]; auto. Qed.

Lemma noWS_keyword st : noWS (keyword st).
Proof. by destruct st. Qed.

Lemma noWS_outcomeWord st : noWS (outcomeWord st).
Proof. by destruct st. Qed.

Lemma noWS_fragment p t : noWS p -> noWS t -> noWS (p ++ js "::" ++ t).
Proof. intros Hp Ht. apply noWS_app. split; [done|]. by apply noWS_app. Qed.

(** *** The loop, one turn at a time *)

Lemma test_loop_step n lines i acc l new i' :
  lines !! i = Some l -> test_body lines i (trim l) = (new, i') ->
  test_loop (S n) lines i acc = test_loop n lines (S i') (acc ++ new).
Proof. intros Hl Hb. cbn [test_loop]. by rewrite Hl, Hb. Qed.

Lemma test_loop_end n lines i acc :
  lines !! i = None -> test_loop (S n) lines i acc = Returns acc.
Proof. intros Hl. cbn [test_loop]. by rewrite Hl. Qed.

Lemma resultOf_caps m st p t :
  cap m 1 = Some p -> cap m 2 = Some t -> resultOf m st = recordOf st p t.
Proof. unfold resultOf, recordOf. by intros -> ->. Qed.

(** *** A record on one line *)

Lemma two_capture_patterns :
  passMatchRe = matchRe (js "pass") (js "PASSED") /\
  failMatchRe = matchRe (js "fail") (js "FAILED") /\
  passStartRe = startRe (js "pass") /\ failStartRe = startRe (js "fail").
Proof. done. Qed.

Lemma wsCount_tail p t w :
  noWS p -> noWS t -> noWS w ->
  wsCount (p ++ js "::" ++ t ++ 58%N :: 32%N :: w) = 1.
Proof.
  intros Hp Ht Hw. rewrite !wsCount_app. rewrite (wsCount_noWS p Hp), (wsCount_noWS t Ht).
  change (wsCount (js "::")) with 0.
  change (58%N :: 32%N :: w) with ([58%N] ++ 32%N :: w).
  rewrite wsCount_app, (wsCount_cons 32) by done. rewrite (wsCount_noWS w Hw). done.
Qed.

Lemma wsCount_start p t :
  noWS p -> noWS t -> wsCount (p ++ js "::" ++ t ++ [58%N]) = 0.
Proof.
  intros Hp Ht. apply wsCount_noWS. apply noWS_app. split; [done|].
  apply noWS_app. split; [done|]. by apply noWS_app.
Qed.

Lemma test_body_single lines i st p t :
  plainPath p -> plainName t ->
  test_body lines i (singleLine st p t) = ([recordOf st p t], i).
Proof.
  intros Hp Ht. unfold test_body.
  change passMatchRe with (matchRe (js "pass") (js "PASSED")).
  change failMatchRe with (matchRe (js "fail") (js "FAILED")).
  destruct st.
  - destruct (matchRe_single (js "pass") (js "PASSED") p t Hp Ht) as (m & E & H1 & H2); [done|].
    change (singleLine pass p t)
      with (js "pass" ++ 32%N :: p ++ js "::" ++ t ++ 58%N :: 32%N :: js "PASSED").
    rewrite E. by rewrite (resultOf_caps m pass p t).
  - destruct (matchRe_single (js "fail") (js "FAILED") p t Hp Ht) as (m & E & H1 & H2); [done|].
    change (singleLine fail p t)
      with (js "fail" ++ 32%N :: p ++ js "::" ++ t ++ 58%N :: 32%N :: js "FAILED").
    rewrite (matchRe_other_keyword (js "pass") (js "PASSED") (js "fail")); try done.
    + rewrite E. by rewrite (resultOf_caps m fail p t).
    + rewrite wsCount_tail; [lia|by apply plainPath_noWS|by destruct Ht|done].
Qed.

(** *** The outcome word on the next line *)

Lemma test_body_start lines i st p t l :
  plainPath p -> plainName t ->
  lines !! (i + 1) = Some l -> trim l = outcomeWord st ->
  test_body lines i (keyword st ++ 32%N :: p ++ js "::" ++ t ++ [58%N]) =
  ([recordOf st p t], i + 1).
Proof.
  intros Hp Ht Hl Hw. unfold test_body, nextTrimmed. rewrite Hl.
  rewrite bool_decide_eq_true_2 by by eexists.
  change passMatchRe with (matchRe (js "pass") (js "PASSED")).
  change failMatchRe with (matchRe (js "fail") (js "FAILED")).
  change passStartRe with (startRe (js "pass")).
  change failStartRe with (startRe (js "fail")).
  assert (Hc : forall kw, noWS kw ->
    wsCount (kw ++ 32%N :: p ++ js "::" ++ t ++ [58%N]) < 2).
  { intros kw Hkw. rewrite wsCount_app, wsCount_cons, wsCount_start, wsCount_noWS;
      [lia|done|by apply plainPath_noWS|by destruct Ht|done]. }
  rewrite !matchRe_few_ws by (apply Hc, noWS_keyword).
  simpl fmap. rewrite Hw.
  destruct st.
  - destruct (startRe_line (js "pass") p t Hp Ht) as (m & E & H1 & H2).
    cbn [keyword]. rewrite E.
    rewrite bool_decide_eq_true_2 by done. by rewrite (resultOf_caps m pass p t).
  - destruct (startRe_line (js "fail") p t Hp Ht) as (m & E & H1 & H2).
    cbn [keyword].
    rewrite (startRe_other_keyword (js "pass") (js "fail")); try done.
    + rewrite E. rewrite bool_decide_eq_true_2 by done.
      by rewrite (resultOf_caps m fail p t).
    + rewrite wsCount_start; [lia|by apply plainPath_noWS|by destruct Ht].
Qed.

(** *** The keyword on a line of its own *)

Lemma In_colon_fragment p t : In 58%N (p ++ js "::" ++ t).
Proof. apply in_or_app. right. by left. Qed.

Lemma noWS_no_colon_space f w : noWS f -> includes f (58%N :: 32%N :: w) = false.
Proof.
  intros Hf. apply includes_false. intros (a & b & ->).
  apply noWS_app in Hf as [_ Hf]. by vm_compute in Hf.
Qed.

(** a terminator line: the text in front of the outcome word is kept *)
Lemma lookahead_terminator word other lines b j acc l a :
  lines !! j = Some l -> trim l = a ++ js ": " ++ word -> noWS a ->
  lookahead word other lines (S b) j acc = (acc ++ a, j, true).
Proof.
  intros Hl Ht Ha. cbn [lookahead]. rewrite Hl, Ht.
  assert (eqs (a ++ js ": " ++ word) (js "pass") = false) as ->.
  { apply eqs_false. intros E. assert (H : In 32%N (js "pass")).
    { rewrite <- E. apply in_or_app. right. right. by left. }
    simpl in H. intuition discriminate. }
  assert (eqs (a ++ js ": " ++ word) (js "fail") = false) as ->.
  { apply eqs_false. intros E. assert (H : In 32%N (js "fail")).
    { rewrite <- E. apply in_or_app. right. right. by left. }
    simpl in H. intuition discriminate. }
  cbn [orb].
  assert (includes (a ++ js ": " ++ word) (js ": " ++ word) = true) as ->.
  { apply includes_occurs. exists a, []. by rewrite app_nil_r. }
  rewrite <- (app_nil_r (js ": " ++ word)) at 2.
  rewrite replaceStr_suffix; [by rewrite app_nil_r|].
  intros k Hk. rewrite app_nil_r. by apply no_early_colon_space.
Qed.

(** a fragment line: it is added and the look-ahead goes on *)
Lemma lookahead_fragment word other lines b j acc l f :
  lines !! j = Some l -> trim l = f -> noWS f -> In 58%N f -> occurs (js "::") f ->
  ~ In 58%N word ->
  lookahead word other lines (S b) j acc = lookahead word other lines b (S j) (acc ++ f).
Proof.
  intros Hl Ht Hf Hc Ho Hw. cbn [lookahead]. rewrite Hl, Ht.
  assert (eqs f (js "pass") = false) as ->.
  { apply eqs_false. intros ->. simpl in Hc. intuition discriminate. }
  assert (eqs f (js "fail") = false) as ->.
  { apply eqs_false. intros ->. simpl in Hc. intuition discriminate. }
  cbn [orb].
  change (js ": " ++ word) with (58%N :: 32%N :: word).
  rewrite noWS_no_colon_space by done.
  assert (eqs f word = false) as -> by (apply eqs_false; by intros ->).
  by apply includes_occurs in Ho as ->.
Qed.

(** the outcome word alone: what has been gathered is the record *)
Lemma lookahead_word word other lines b j acc l :
  lines !! j = Some l -> trim l = word -> noWS word ->
  word <> js "pass" -> word <> js "fail" ->
  lookahead word other lines (S b) j acc = (acc, j, true).
Proof.
  intros Hl Ht Hw H1 H2. cbn [lookahead]. rewrite Hl, Ht.
  apply eqs_false in H1 as ->. apply eqs_false in H2 as ->. cbn [orb].
  change (js ": " ++ word) with (58%N :: 32%N :: word).
  rewrite noWS_no_colon_space by done.
  by assert (eqs word word = true) as -> by by apply eqs_true.
Qed.

Lemma standalone_record word other st lines i p t j :
  lookahead word other lines 3 (i + 1) [] = (p ++ js "::" ++ t, j, true) ->
  ~ In 58%N p ->
  standalone word other st lines i = ([recordOf st p t], j).
Proof.
  intros Hl Hp. unfold standalone. rewrite Hl. cbn [andb].
  assert (includes (p ++ js "::" ++ t) (js "::") = true) as ->
    by (apply includes_occurs; by exists p, t).
  rewrite split_colons by done.
  destruct (split (js "::") t) as [|x xs] eqn:E.
  { by apply split_go_nonempty in E. }
  cbn [length Nat.leb head tail default from_option]. rewrite <- E, join_split by done.
  done.
Qed.

Lemma test_body_keyword lines i st l :
  lines !! (i + 1) = Some l ->
  test_body lines i (keyword st) =
  standalone (outcomeWord st) (outcomeWord (match st with pass => fail | fail => pass end))
    st lines i.
Proof.
  intros Hl. unfold test_body. rewrite Hl.
  rewrite bool_decide_eq_true_2 by by eexists.
  change passMatchRe with (matchRe (js "pass") (js "PASSED")).
  change failMatchRe with (matchRe (js "fail") (js "FAILED")).
  change passStartRe with (startRe (js "pass")).
  change failStartRe with (startRe (js "fail")).
  rewrite !matchRe_few_ws by (rewrite wsCount_noWS; [lia|apply noWS_keyword]).
  rewrite !startRe_no_ws by (rewrite wsCount_noWS; [lia|apply noWS_keyword]).
  destruct st; cbn [keyword outcomeWord andb].
  - by assert (test passOnlyRe (js "pass") = true) as -> by by vm_compute.
  - assert (test passOnlyRe (js "fail") = false) as -> by by vm_compute.
    by assert (test failOnlyRe (js "fail") = true) as -> by by vm_compute.
Qed.

(** *** The five shapes, from the content to the record *)

Lemma trim_ending a w :
  match a ++ w with [] => True | c :: _ => isWS c = false end ->
  w <> [] -> noWS w -> trim (a ++ w) = a ++ w.
Proof.
  intros Hh Hw Hn. apply trim_id; [done|]. apply ends_app; [done|by apply ends_noWS].
Qed.

Lemma trim_colon_word x w :
  noWS x -> w <> [] -> noWS w -> trim (x ++ js ": " ++ w) = x ++ js ": " ++ w.
Proof.
  intros Hx Hw Hn.
  replace (x ++ js ": " ++ w) with ((x ++ js ": ") ++ w) by by rewrite <- app_assoc.
  apply trim_ending; [|done|done].
  rewrite <- app_assoc. by apply noWS_head_app.
Qed.

Lemma outcomeWord_nonempty st : outcomeWord st <> [].
Proof. by destruct st. Qed.

Lemma outcomeWord_no_colon st : ~ In 58%N (outcomeWord st).
Proof. destruct st; simpl; intuition discriminate. Qed.

Lemma outcomeWord_not_keyword st :
  outcomeWord st <> js "pass" /\ outcomeWord st <> js "fail".
Proof. by destruct st. Qed.

Lemma no_LF_keyword st : ~ In 10%N (keyword st).
Proof. apply noWS_no_LF, noWS_keyword. Qed.

Lemma no_LF_outcomeWord st : ~ In 10%N (outcomeWord st).
Proof. apply noWS_no_LF, noWS_outcomeWord. Qed.

Lemma no_LF_fragment p t : noWS p -> noWS t -> ~ In 10%N (p ++ js "::" ++ t).
Proof. intros. by apply noWS_no_LF, noWS_fragment. Qed.

Lemma no_LF_terminated x w : noWS x -> noWS w -> ~ In 10%N (x ++ js ": " ++ w).
Proof.
  intros Hx Hw. apply no_LF_app; [by apply noWS_no_LF|].
  apply no_LF_cons; [done|]. apply no_LF_cons; [done|]. by apply noWS_no_LF.
Qed.

Lemma parse_singleLine st p t :
  plainPath p -> plainName t ->
  parseTestResults (singleLine st p t) = Returns [recordOf st p t].
Proof.
  intros Hp Ht. pose proof (plainPath_noWS p Hp) as Hwp. pose proof Ht as [Hnt Hwt].
  assert (E : singleLine st p t =
              keyword st ++ js " " ++ (p ++ js "::" ++ t) ++ js ": " ++ outcomeWord st).
  { unfold singleLine. by rewrite <- !app_assoc. }
  assert (Htrim : trim (singleLine st p t) = singleLine st p t).
  { rewrite E. apply trim_id; [by destruct st|].
    do 3 (apply ends_app; [by destruct p|]).
    apply ends_app; [apply outcomeWord_nonempty|]. apply ends_noWS, noWS_outcomeWord. }
  unfold parseTestResults. rewrite split_LF_last.
  - cbn [length]. erewrite test_loop_step; [|reflexivity|rewrite Htrim; by apply test_body_single].
    by rewrite test_loop_end.
  - rewrite E. apply no_LF_app; [apply no_LF_keyword|].
    apply no_LF_cons; [done|].
    apply no_LF_terminated; [by apply noWS_fragment|apply noWS_outcomeWord].
Qed.

Lemma parse_wordBelow st p t :
  plainPath p -> plainName t ->
  parseTestResults (wordBelow st p t) = Returns [recordOf st p t].
Proof.
  intros Hp Ht. pose proof (plainPath_noWS p Hp) as Hwp. pose proof Ht as [Hnt Hwt].
  set (l0 := keyword st ++ 32%N :: p ++ js "::" ++ t ++ [58%N]).
  assert (E : wordBelow st p t = l0 ++ LF ++ outcomeWord st).
  { unfold wordBelow, l0. change (32%N :: p ++ js "::" ++ t ++ [58%N])
      with (js " " ++ p ++ js "::" ++ t ++ js ":"). by rewrite <- !app_assoc. }
  assert (E0 : l0 = keyword st ++ js " " ++ (p ++ js "::" ++ t) ++ js ":").
  { unfold l0. change (32%N :: p ++ js "::" ++ t ++ [58%N])
      with (js " " ++ p ++ js "::" ++ t ++ js ":"). by rewrite <- !app_assoc. }
  assert (Htrim : trim l0 = l0).
  { rewrite E0. apply trim_id; [by destruct st|].
    do 3 (apply ends_app; [by destruct p|]). done. }
  unfold parseTestResults. rewrite E, split_LF_cons, split_LF_last.
  - cbn [length].
    erewrite test_loop_step;
      [|reflexivity
       |rewrite Htrim; apply (test_body_start _ 0 st p t (outcomeWord st));
          [done|done|reflexivity|apply trim_noWS, noWS_outcomeWord]].
    by rewrite test_loop_end.
  - apply no_LF_outcomeWord.
  - rewrite E0. apply no_LF_app; [apply no_LF_keyword|].
    apply no_LF_cons; [done|]. apply no_LF_app; [by apply no_LF_fragment|].
    apply no_LF_cons; [done|]. by intros [].
Qed.

Lemma parse_keywordAbove st p t :
  plainPath p -> plainName t ->
  parseTestResults (keywordAbove st p t) = Returns [recordOf st p t].
Proof.
  intros Hp Ht. pose proof (plainPath_noWS p Hp) as Hwp. pose proof Ht as [Hnt Hwt].
  pose proof (plainPath_no_colon p Hp) as Hcp.
  set (l1 := (p ++ js "::" ++ t) ++ js ": " ++ outcomeWord st).
  assert (E : keywordAbove st p t = keyword st ++ LF ++ l1).
  { unfold keywordAbove, l1. by rewrite <- !app_assoc. }
  unfold parseTestResults. rewrite E, split_LF_cons, split_LF_last.
  - cbn [length].
    erewrite test_loop_step; [|reflexivity|].
    2:{ rewrite trim_noWS by apply noWS_keyword.
        rewrite (test_body_keyword _ 0 st l1) by reflexivity.
        apply standalone_record; [|done].
        erewrite lookahead_terminator; [reflexivity|reflexivity| |by apply noWS_fragment].
        apply trim_colon_word;
          [by apply noWS_fragment|apply outcomeWord_nonempty|apply noWS_outcomeWord]. }
    by rewrite test_loop_end.
  - apply no_LF_terminated; [by apply noWS_fragment|apply noWS_outcomeWord].
  - apply no_LF_keyword.
Qed.

Lemma parse_nameSplit st p t1 t2 :
  plainPath p -> plainName (t1 ++ t2) ->
  parseTestResults (nameSplit st p t1 t2) = Returns [recordOf st p (t1 ++ t2)].
Proof.
  intros Hp Ht. pose proof (plainPath_noWS p Hp) as Hwp. pose proof Ht as [Hnt Hwt].
  apply noWS_app in Hwt as [Hw1 Hw2].
  pose proof (plainPath_no_colon p Hp) as Hcp.
  set (f := p ++ js "::" ++ t1).
  set (l2 := t2 ++ js ": " ++ outcomeWord st).
  assert (E : nameSplit st p t1 t2 = keyword st ++ LF ++ f ++ LF ++ l2).
  { unfold nameSplit, f, l2. by rewrite <- !app_assoc. }
  unfold parseTestResults. rewrite E, !split_LF_cons, split_LF_last.
  - cbn [length].
    erewrite test_loop_step; [|reflexivity|].
    2:{ rewrite trim_noWS by apply noWS_keyword.
        rewrite (test_body_keyword _ 0 st f) by reflexivity.
        apply standalone_record; [|done].
        erewrite (lookahead_fragment _ _ _ _ _ _ f f);
          [|reflexivity|by apply trim_noWS, noWS_fragment|by apply noWS_fragment
           |apply In_colon_fragment|by exists p, t1|apply outcomeWord_no_colon].
        erewrite lookahead_terminator; [|reflexivity| |exact Hw2].
        2:{ apply trim_colon_word;
              [done|apply outcomeWord_nonempty|apply noWS_outcomeWord]. }
        unfold f. cbn [app]. by rewrite <- !app_assoc. }
    by rewrite test_loop_end.
  - apply no_LF_terminated; [done|apply noWS_outcomeWord].
  - by apply no_LF_fragment.
  - apply no_LF_keyword.
Qed.

Lemma parse_threeLines st p t :
  plainPath p -> plainName t ->
  parseTestResults (threeLines st p t) = Returns [recordOf st p t].
Proof.
  intros Hp Ht. pose proof (plainPath_noWS p Hp) as Hwp. pose proof Ht as [Hnt Hwt].
  pose proof (plainPath_no_colon p Hp) as Hcp.
  set (f := p ++ js "::" ++ t).
  assert (E : threeLines st p t = keyword st ++ LF ++ f ++ LF ++ outcomeWord st).
  { unfold threeLines, f. by rewrite <- !app_assoc. }
  unfold parseTestResults. rewrite E, !split_LF_cons, split_LF_last.
  - cbn [length].
    erewrite test_loop_step; [|reflexivity|].
    2:{ rewrite trim_noWS by apply noWS_keyword.
        rewrite (test_body_keyword _ 0 st f) by reflexivity.
        apply standalone_record; [|done].
        erewrite (lookahead_fragment _ _ _ _ _ _ f f);
          [|reflexivity|by apply trim_noWS, noWS_fragment|by apply noWS_fragment
           |apply In_colon_fragment|by exists p, t|apply outcomeWord_no_colon].
        erewrite lookahead_word;
          [reflexivity|reflexivity|apply trim_noWS, noWS_outcomeWord|apply noWS_outcomeWord
           |apply outcomeWord_not_keyword|apply outcomeWord_not_keyword]. }
    by rewrite test_loop_end.
  - apply no_LF_outcomeWord.
  - by apply no_LF_fragment.
  - apply no_LF_keyword.
Qed.

(** the name of the record is what follows the first double colon of its
    full name *)
Lemma recordOf_name st p t :
  ~ In 58%N p ->
  indexOf (js "::") (tr_fullName (recordOf st p t)) = Some (length p) /\
  tr_name (recordOf st p t) =
    Some (drop (length p + 2) (tr_fullName (recordOf st p t))).
Proof.
  intros Hp. unfold recordOf. cbn [tr_fullName tr_name]. split.
  - apply indexOf_app_first. intros j Hj. rewrite drop_app_le by lia.
    destruct (drop j p) as [|c r] eqn:E.
    + apply (f_equal length) in E. rewrite length_drop in E. simpl in E. lia.
    + assert (Hc : c <> 58%N).
      { intros ->. apply Hp. rewrite <- (take_drop j p), E. apply in_or_app. right. by left. }
      change (js "::") with [58%N; 58%N]. cbn [app isPrefix].
      apply N.eqb_neq in Hc. rewrite N.eqb_sym in Hc. by rewrite Hc.
  - f_equal. rewrite drop_app_add. done.
Qed.

(** ** Error counting *)

Lemma indexOf_first sub : forall s i,
  indexOf sub s = Some i ->
  isPrefix sub (drop i s) = true /\
  forall j, j < i -> isPrefix sub (drop j s) = false.
Proof.
  induction s as [|c s IH]; intros i.
  - simpl. destruct (isPrefix sub []) eqn:E; [|done]. intros [= <-].
    split; [done|]. intros j Hj. lia.
  - rewrite indexOf_cons. destruct (isPrefix sub (c :: s)) eqn:E.
    + intros [= <-]. split; [done|]. intros j Hj. lia.
    + destruct (indexOf sub s) as [k|] eqn:Ek; [|done]. simpl. intros [= <-].
      destruct (IH k eq_refl) as [H1 H2]. split; [done|].
      intros [|j] Hj; [done|]. simpl. apply H2. lia.
Qed.

Lemma successRe_Match s k st' :
  Match successRe (start_at s k) st' ->
  exists w rest, drop k s = js "Tool 0 result success: " ++ w ++ rest /\
                 w <> [] /\ m_caps st' !! 1 = Some w.
Proof.
  unfold successRe. intros HM.
  apply Match_seqs_cons in HM as (st1 & H1 & HM). apply Match_lit in H1.
  apply Match_seqs_cons in HM as (st2 & H2 & HM). apply Match_seqs_nil in HM as ->.
  apply (Match_Group_reads 1 (plus word)
           (fun v => v <> [] /\ forallb isWord v = true)) in H2 as (w & [Hne _] & H2).
  - exists w, (m_rest st2). destruct H1 as (E1 & _), H2 as (E2 & _ & C2).
    simpl in E1. rewrite E1, E2, C2. split; [done|]. split; [done|].
    apply lookup_insert_eq.
  - intros sa sb. unfold word. rewrite Match_plus_class.
    split; [intros (v' & ? & ? & ?) | intros (v' & [? ?] & ?)]; eauto.
Qed.

Lemma successRe_at pre post :
  exists st', Match successRe
                (start_at (pre ++ js "Tool 0 result success: False" ++ post) (length pre)) st'.
Proof.
  unfold start_at. rewrite drop_app_length.
  exists (set_cap 1 (MState (length pre + 23) (js "False" ++ post) ∅)
            (MState (length pre + 23 + 1) (js "alse" ++ post) ∅)).
  unfold successRe. apply Match_seqs_cons.
  exists (MState (length pre + 23) (js "False" ++ post) ∅). split.
  { apply Match_lit. split; [reflexivity|]. split; reflexivity. }
  apply Match_seqs_cons. eexists. split; [|by apply Match_seqs_nil].
  apply (M_Group 1). apply Match_plus_class. exists [70%N].
  split; [done|]. split; [done|]. split; [reflexivity|]. split; reflexivity.
Qed.

Lemma successRe_false line :
  reportsFalse line ->
  exists m w, exec successRe line 0 = Some m /\ cap m 1 = Some w /\
              eqs (toLowerCase w) (js "true") = false.
Proof.
  intros (pre & post & -> & Hi).
  set (line := pre ++ js "Tool 0 result success: False" ++ post) in *.
  destruct (successRe_at pre post) as [st0 H0]. fold line in H0.
  apply run_complete in H0.
  assert (Hlen : length pre <= length line).
  { unfold line. rewrite length_app. lia. }
  destruct (exec successRe line 0) as [m|] eqn:E.
  2:{ rewrite (exec_None _ _ _ E (length pre)) in H0; [done|lia]. }
  apply exec_Some in E as (k & st' & Hk & Hh & -> & Hno).
  assert (k <= length pre) as Hle.
  { destruct (Nat.le_gt_cases k (length pre)); [done|].
    rewrite (Hno (length pre)) in H0; [done|lia]. }
  apply head_In, run_sound, successRe_Match in Hh as (w & rest & Ed & Hne & Hc).
  destruct (indexOf_first _ _ _ Hi) as [_ Hmin].
  assert (k = length pre) as ->.
  { destruct (Nat.eq_dec k (length pre)); [done|].
    pose proof (Hmin k ltac:(lia)) as Hf.
    rewrite Ed, isPrefix_app in Hf. done. }
  eexists _, w. split; [reflexivity|]. split; [exact Hc|].
  unfold line in Ed. rewrite drop_app_length in Ed.
  change (js "Tool 0 result success: False")
    with (js "Tool 0 result success: " ++ js "False") in Ed.
  rewrite <- app_assoc in Ed. apply app_inv_head in Ed.
  destruct w as [|c w]; [done|]. injection Ed as <- _.
  apply eqs_false. done.
Qed.

Lemma apply_rule_errors r p rawLine line p' :
  apply_rule r p rawLine line = Returns p' ->
  l_errors p <= l_errors p' <= l_errors p + 1.
Proof.
  destruct r; cbn [apply_rule]; unfold write_detail, defined; intros E;
    try (destruct (header_parts_names (split (js ",") line) p) as (t & m & Hh);
         rewrite Hh in E);
    repeat match type of E with
           | context [match ?c with _ => _ end] => destruct c eqn:?; simpl in E
           end;
    try discriminate; injection E as <-; simpl; lia.
Qed.

Lemma step_line_errors p l p' :
  step_line p l = Returns p' -> l_errors p <= l_errors p' <= l_errors p + 1.
Proof.
  unfold step_line. destruct (eqs (trim l) []).
  - intros [= <-]. lia.
  - apply apply_rule_errors.
Qed.

Lemma classify_collecting p line idx :
  currentStep p = Some idx -> collectingToolResult p = true -> line <> [] ->
  classify p line <> RResult /\ classify p line <> RError.
Proof.
  intros Hs Hc Hl. unfold classify, hasStep. rewrite Hs, Hc.
  apply eqs_false in Hl. rewrite Hl. simpl.
  repeat match goal with
         | |- context [if ?c then _ else _] => destruct c; try done
         end.
Qed.

(** When no earlier rule takes the line, the chain arrives at the
    collecting rule and, outside the collecting state, at the result rule *)
Lemma classify_later p line :
  earlierRule p line = false ->
  classify p line =
    if collectingToolResult p && hasStep p && negb (eqs line []) then RCollect
    else if includes line (js "Tool 0 result success:") && hasStep p then RResult
    else if includes (toUpperCase line) (js "ERROR") && hasStep p then RError
    else RNone.
Proof.
  unfold earlierRule, classify. intros H.
  repeat (apply orb_false_iff in H as [H ?]).
  destruct (hasStep p).
  - cbn [andb] in *.
    repeat match goal with
           | H : orb _ _ = false |- _ => apply orb_false_iff in H as [H ?]
           end.
    repeat match goal with
           | H : ?c = false |- context [if ?c then _ else _] => rewrite H
           end.
    done.
  - cbn [andb] in *.
    repeat match goal with
           | H : ?c = false |- context [if ?c then _ else _] => rewrite H
           end.
    by rewrite !andb_false_r.
Qed.

Lemma reportsFalse_marker line :
  reportsFalse line -> includes line (js "Tool 0 result success:") = true.
Proof.
  intros (pre & post & -> & _). apply includes_occurs.
  exists pre, (js " False" ++ post). reflexivity.
Qed.

(** C5, as the code has it.  Take a line whose first "Tool 0 result
    success: " is followed by "False", read while a current step exists,
    outside the collecting state, and that none of the earlier rules takes.
    Then the result rule takes it, whatever else the line holds, "ERROR"
    included: the error counter grows by exactly one, the collecting state
    is entered with an empty buffer, and the steps change only in that the
    success of the current step becomes false; the ERROR rule does not
    fire, so no error message is stored.  No line makes the counter grow by
    more than one.  While a result is being collected the collecting rule
    comes first: neither the result rule nor the ERROR rule takes a line
    that is not empty, and a line that no earlier rule takes is added to
    the buffer and leaves the counter alone. *)
Theorem error_counting p l :
  (forall idx,
     currentStep p = Some idx -> collectingToolResult p = false ->
     earlierRule p (normalizeLine (trim l)) = false ->
     reportsFalse (normalizeLine (trim l)) ->
     exists p', step_line p l = Returns p' /\
       l_errors p' = l_errors p + 1 /\
       collectingToolResult p' = true /\ toolResultBuffer p' = [] /\
       l_steps p' = alter (set_success false) idx (l_steps p) /\
       List.map step_error (l_steps p') = List.map step_error (l_steps p)) /\
  (forall p', step_line p l = Returns p' ->
     l_errors p <= l_errors p' <= l_errors p + 1) /\
  (forall idx,
     currentStep p = Some idx -> collectingToolResult p = true ->
     normalizeLine (trim l) <> [] ->
     classify p (normalizeLine (trim l)) <> RResult /\
     classify p (normalizeLine (trim l)) <> RError /\
     (earlierRule p (normalizeLine (trim l)) = false ->
      exists p', step_line p l = Returns p' /\ l_errors p' = l_errors p /\
        collectingToolResult p' = true /\
        toolResultBuffer p' = toolResultBuffer p ++ [normalizeLine (trim l)])).
Proof.
  split; [|split].
  - intros idx Hs Hc He Hf. unfold step_line.
    assert (Hne : eqs (trim l) [] = false).
    { apply eqs_false. intros E. rewrite E in Hf.
      destruct Hf as (pre & post & Hf & _). vm_compute in Hf.
      by destruct pre. }
    rewrite Hne, (classify_later _ _ He), Hc, (reportsFalse_marker _ Hf).
    unfold hasStep. rewrite Hs. cbn [andb apply_rule].
    destruct (successRe_false _ Hf) as (m & w & -> & -> & Hw). rewrite Hs.
    simpl. rewrite Hw. eexists. split; [reflexivity|]. simpl.
    repeat (split; [done|]).
    generalize (l_steps p) as steps. clear. intros steps. revert idx.
    induction steps as [|s steps IH]; intros [|idx]; simpl; try done.
    f_equal. exact (IH idx).
  - apply step_line_errors.
  - intros idx Hs Hc Hl.
    assert (Hne : eqs (trim l) [] = false).
    { apply eqs_false. intros E. rewrite E in Hl. by vm_compute in Hl. }
    destruct (classify_collecting p _ idx Hs Hc Hl) as [H1 H2].
    split; [done|]. split; [done|]. intros He.
    unfold step_line. rewrite Hne, (classify_later _ _ He), Hc.
    unfold hasStep. rewrite Hs. apply eqs_false in Hl. rewrite Hl.
    cbn [andb negb apply_rule]. rewrite Hs, Hc.
    eexists. split; [reflexivity|]. simpl. done.
Qed.

Lemma error_counting_witness :
  exists p',
    step_line
      (stateAfter (js "HARNESS: Iteration 1 making LLM call" ++ LF ++
                   js "HARNESS: Tool call 0: edit_file"))
      (js "Tool 0 result success: False (ERROR: no such file)") = Returns p' /\
    includes (toUpperCase (js "Tool 0 result success: False (ERROR: no such file)"))
      (js "ERROR") = true /\
    l_errors p' = 1 /\ collectingToolResult p' = true /\ toolResultBuffer p' = [] /\
    (step_success <$> l_steps p' !! 0) = Some (Some false) /\
    (step_error <$> l_steps p' !! 0) = Some None.
Proof.
  destruct (proj1 (error_counting
                     (stateAfter (js "HARNESS: Iteration 1 making LLM call" ++ LF ++
                                  js "HARNESS: Tool call 0: edit_file"))
                     (js "Tool 0 result success: False (ERROR: no such file)")) 0)
    as (p' & E & He & Hc & Hb & Hs & _).
  - vm_compute. reflexivity.
  - vm_compute. reflexivity.
  - vm_compute. reflexivity.
  - exists [], (js " (ERROR: no such file)"). split; vm_compute; reflexivity.
  - exists p'. split; [exact E|]. split; [vm_compute; reflexivity|].
    split; [exact He|]. split; [exact Hc|].
    split; [exact Hb|]. rewrite Hs. vm_compute. split; reflexivity.
Defined.

(** C5 as stated fails when the result line arrives while a result is
    already being collected: after an iteration line, a tool-call line and
    "Tool 0 result success: True", the line "Tool 0 result success: False"
    is taken by the collecting rule and the error counter stays put. *)
Lemma result_line_not_counted_while_collecting :
  hasStep (stateAfter (js "HARNESS: Iteration 1 making LLM call" ++ LF ++
                       js "HARNESS: Tool call 0: edit_file" ++ LF ++
                       js "Tool 0 result success: True")) = true /\
  reportsFalse (normalizeLine (trim (js "Tool 0 result success: False"))) /\
  classify (stateAfter (js "HARNESS: Iteration 1 making LLM call" ++ LF ++
                        js "HARNESS: Tool call 0: edit_file" ++ LF ++
                        js "Tool 0 result success: True"))
    (normalizeLine (trim (js "Tool 0 result success: False"))) = RCollect /\
  ~ (exists p',
       step_line (stateAfter (js "HARNESS: Iteration 1 making LLM call" ++ LF ++
                              js "HARNESS: Tool call 0: edit_file" ++ LF ++
                              js "Tool 0 result success: True"))
         (js "Tool 0 result success: False") = Returns p' /\
       l_errors p' =
       l_errors (stateAfter (js "HARNESS: Iteration 1 making LLM call" ++ LF ++
                             js "HARNESS: Tool call 0: edit_file" ++ LF ++
                             js "Tool 0 result success: True")) + 1) /\
  exists t, parseLogFile (js "run.log")
              (js "HARNESS: Iteration 1 making LLM call" ++ LF ++
               js "HARNESS: Tool call 0: edit_file" ++ LF ++
               js "Tool 0 result success: True" ++ LF ++
               js "Tool 0 result success: False") = Returns t /\
            errors t = 0.
Proof.
  split; [vm_compute; reflexivity|].
  split; [exists [], []; split; vm_compute; reflexivity|].
  split; [vm_compute; reflexivity|].
  split.
  - intros (p' & E & He). vm_compute in E. injection E as <-. vm_compute in He.
    discriminate.
  - eexists. split; [vm_compute; reflexivity|]. reflexivity.
Qed.

(** ** Line Normalizer *)

Lemma dropWhile_idem p s : dropWhile p (dropWhile p s) = dropWhile p s.
Proof.
  induction s as [|c s IH]; simpl; [done|].
  destruct (p c) eqn:E; [done|]. simpl. by rewrite E.
Qed.

Lemma dropWhile_snoc p l c :
  p c = false -> exists l', dropWhile p (l ++ [c]) = l' ++ [c].
Proof.
  intros Hc. induction l as [|x l [l' IH]]; simpl.
  - rewrite Hc. by exists [].
  - destruct (p x); [eauto|]. by exists (x :: l).
Qed.

Lemma dropWhile_head p s :
  match dropWhile p s with
  | [] => True
  | c :: _ => p c = false
  end.
Proof.
  induction s as [|c s IH]; simpl; [done|].
  destruct (p c) eqn:E; [done|]. done.
Qed.

Lemma trimStart_trimEnd s : trimStart (trimEnd (trimStart s)) = trimEnd (trimStart s).
Proof.
  unfold trimStart. pose proof (dropWhile_head isWS s) as H.
  destruct (dropWhile isWS s) as [|c t]; [done|].
  unfold trimEnd. simpl rev.
  destruct (dropWhile_snoc isWS (rev t) c H) as [l' ->].
  rewrite rev_app_distr. simpl. by rewrite H.
Qed.

Lemma trimEnd_idem s : trimEnd (trimEnd s) = trimEnd s.
Proof. unfold trimEnd. by rewrite rev_involutive, dropWhile_idem. Qed.

Lemma trim_idem s : trim (trim s) = trim s.
Proof. unfold trim. by rewrite trimStart_trimEnd, trimEnd_idem. Qed.

Lemma trim_length s : length (trim s) <= length s.
Proof.
  destruct (occurs_trim s) as (a & b & E). rewrite E at 2. rewrite !length_app. lia.
Qed.

Lemma emojiPrefix_Some t m :
  exec emojiPrefix t 0 = Some m ->
  hasGlyphPrefix t = true /\ mr_index m = 0 /\ 2 <= mr_end m <= length t.
Proof.
  intros E. pose proof (exec_bounds _ _ _ _ E) as (_ & Hlen & Hend).
  pose proof (emojiPrefix_index _ _ E) as Hi. rewrite Hi in Hlen.
  change (min_len emojiPrefix) with 2 in Hlen.
  split; [|split; [done|lia]].
  apply exec_Match in E as (st' & _ & HM & _). rewrite Hi in HM.
  unfold emojiPrefix in HM.
  apply Match_seqs_cons in HM as (st1 & H1 & HM). apply Match_Bol_inv in H1 as [-> _].
  apply Match_seqs_cons in HM as (st2 & H2 & HM).
  apply Match_Chr_inv in H2 as (c & Hc & H2).
  apply Match_seqs_cons in HM as (st3 & H3 & _).
  unfold ws in H3. apply Match_plus_class in H3 as (v & Hne & Hv & H3).
  destruct H2 as (E2 & _), H3 as (E3 & _). simpl in E2. rewrite drop_0 in E2.
  rewrite E2, E3. destruct v as [|w v]; [done|]. simpl in *.
  apply andb_true_iff in Hv as [-> _]. by rewrite Hc.
Qed.

Lemma emojiPrefix_None t : exec emojiPrefix t 0 = None -> hasGlyphPrefix t = false.
Proof.
  intros E. destruct t as [|c [|w t]]; [done|done|]. simpl.
  destruct (isGlyphUnit c) eqn:Hc; [|done]. destruct (isWS w) eqn:Hw; [|done].
  exfalso. pose proof (exec_None _ _ _ E 0) as Hno.
  assert (HM : Match emojiPrefix (start_at (c :: w :: t) 0)
                 (MState 2 t ∅)).
  { unfold emojiPrefix. apply Match_seqs_cons. eexists. split; [by apply Match_Bol_inv|].
    apply Match_seqs_cons. exists (MState 1 (w :: t) ∅). split.
    { apply Match_Chr_inv. exists c. split; [done|]. done. }
    apply Match_seqs_cons. exists (MState 2 t ∅). split; [|by apply Match_seqs_nil].
    apply Match_plus_class. exists [w]. split; [done|]. split; [simpl; by rewrite Hw|].
    done. }
  apply run_complete in HM. rewrite Hno in HM; [done|simpl; lia].
Qed.

(** C6, as the code has it.  Applying the normalizer a second time changes
    nothing exactly when the once-normalized line does not itself start with
    a glyph code unit followed by white space. *)
Theorem normalizeLine_twice s :
  normalizeLine (normalizeLine s) = normalizeLine s <->
  hasGlyphPrefix (normalizeLine s) = false.
Proof.
  assert (Ht : trim (normalizeLine s) = normalizeLine s)
    by (unfold normalizeLine; apply trim_idem).
  set (t := normalizeLine s) in *.
  unfold normalizeLine at 1, replaceRe.
  destruct (exec emojiPrefix t 0) as [m|] eqn:E.
  - apply emojiPrefix_Some in E as (Hg & Hi & He). rewrite Hg, Hi. simpl.
    split; [|done]. intros Heq. apply (f_equal length) in Heq.
    pose proof (trim_length (drop (mr_end m) t)) as Hl.
    rewrite length_drop in Hl. lia.
  - apply emojiPrefix_None in E. by rewrite E, Ht.
Qed.

(** C6 as stated fails on the line made of the stopwatch glyph U+23F1, a
    space, the same glyph, a space and "x": the first pass removes one
    prefix, the second pass the next one. *)
Lemma normalizeLine_not_idempotent :
  normalizeLine (normalizeLine ([0x23F1; 32; 0x23F1; 32; 120]%N)) = [120%N] /\
  normalizeLine ([0x23F1; 32; 0x23F1; 32; 120]%N) = [0x23F1; 32; 120]%N /\
  normalizeLine (normalizeLine ([0x23F1; 32; 0x23F1; 32; 120]%N)) <>
  normalizeLine ([0x23F1; 32; 0x23F1; 32; 120]%N).
Proof. vm_compute. repeat split; discriminate. Qed.

(** ** Diff Extractor *)

Lemma diffText_captured key content :
  In 1 (always_groups (diffRe key)) ->
  diffText key content = Returns (unescape <$> captured key content).
Proof.
  intros Hg. unfold diffText, captured.
  destruct (exec (diffRe key) content 0) as [m|] eqn:E; [|done].
  destruct (exec_cap_defined _ _ _ _ 1 E Hg) as [c ->]. done.
Qed.

Lemma lineCount_reported d : lineCount d = reportedLines d.
Proof. by destruct d as [[|c t]|]. Qed.

(** ** Filename resolvers *)

Lemma indexOf_bound sub : forall s i, indexOf sub s = Some i -> i + length sub <= length s.
Proof.
  induction s as [|c s IH]; intros i.
  - simpl. destruct sub; [|done]. intros [= <-]. simpl. lia.
  - rewrite indexOf_cons. destruct (isPrefix sub (c :: s)) eqn:E.
    + intros [= <-]. apply isPrefix_spec in E as [b E]. rewrite E, length_app. lia.
    + destruct (indexOf sub s) as [j|]; [|done]. simpl. intros [= <-].
      specialize (IH j eq_refl). simpl. lia.
Qed.

(** A group around a reading pattern, inside a sequence whose later
    elements do not write the same capture *)
Lemma Match_seqs_group i a (P : jsstring -> Prop) post :
  (forall s1 s2, Match a s1 s2 <-> exists v, P v /\ reads s1 v s2) ->
  ~ In i (groups (seqs post)) ->
  forall pre st st', Match (seqs (pre ++ Group i a :: post)) st st' ->
    exists v, P v /\ m_caps st' !! i = Some v.
Proof.
  intros Ha Hpost. induction pre as [|b pre IH]; intros st st' HM.
  - simpl app in HM. apply Match_seqs_cons in HM as (st1 & H1 & HM).
    apply (Match_Group_reads i a P) in H1 as (v & Hv & H1); [|done].
    exists v. split; [done|].
    rewrite (Match_caps_frame _ _ _ HM) by done. eapply reads_cap_lookup; eauto.
  - change ((b :: pre) ++ Group i a :: post) with (b :: (pre ++ Group i a :: post)) in HM.
    apply Match_seqs_cons in HM as (st1 & _ & HM). eauto.
Qed.

Lemma exec_seqs_group i a (P : jsstring -> Prop) pre post s from m :
  (forall s1 s2, Match a s1 s2 <-> exists v, P v /\ reads s1 v s2) ->
  ~ In i (groups (seqs post)) ->
  exec (seqs (pre ++ Group i a :: post)) s from = Some m ->
  exists v, P v /\ cap m i = Some v.
Proof.
  intros Ha Hpost E. apply exec_Match in E as (st' & _ & HM & ->).
  unfold cap. simpl. eapply Match_seqs_group; eauto.
Qed.

Lemma modelPatterns_task pattern fname m :
  In pattern modelPatterns -> exec pattern fname 0 = Some m ->
  exists v, cap m 2 = Some v /\ v <> [].
Proof.
  unfold modelPatterns. intros [<-|[<-|[<-|[]]]] E.
  - apply (exec_seqs_group 2 (plus_lazy dot) (fun v => v <> [] /\ forallb isDot v = true)
             [Bol; Group 1 (plus_lazy dot); Chr isSep]
             [chr 46; Group 3 logOrTxt; Eol]) in E as (v & [Hv _] & Hc); [eauto| |].
    + intros s1 s2. unfold dot. rewrite Match_plus_lazy_class.
      split; [intros (v & ? & ? & ?) | intros (v & [? ?] & ?)]; eauto.
    + vm_compute. intuition lia.
  - apply (exec_seqs_group 2 (plus dot) (fun v => v <> [] /\ forallb isDot v = true)
             [Bol; Group 1 (plus_lazy dot); Chr isSep] [Eol]) in E as (v & [Hv _] & Hc);
      [eauto| |].
    + intros s1 s2. unfold dot. rewrite Match_plus_class.
      split; [intros (v & ? & ? & ?) | intros (v & [? ?] & ?)]; eauto.
    + vm_compute. tauto.
  - apply (exec_seqs_group 2 (plus dot) (fun v => v <> [] /\ forallb isDot v = true)
             [Bol; Group 1 (plus (Chr (fun c => negb (isSep c)))); Chr isSep] [Eol])
      in E as (v & [Hv _] & Hc); [eauto| |].
    + intros s1 s2. unfold dot. rewrite Match_plus_class.
      split; [intros (v & ? & ? & ?) | intros (v & [? ?] & ?)]; eauto.
    + vm_compute. tauto.
Qed.

Lemma genericTask_first fname : forall patterns,
  (forall p m, In p patterns -> exec p fname 0 = Some m ->
               exists v, cap m 2 = Some v /\ v <> []) ->
  genericTask patterns fname =
  match firstGeneric patterns fname with
  | Some m => truthy (cap m 2)
  | None => None
  end.
Proof.
  induction patterns as [|p ps IH]; intros H; simpl; [done|].
  destruct (exec p fname 0) as [m|] eqn:E.
  - destruct (H p m (or_introl eq_refl) E) as (v & -> & Hv).
    destruct v; done.
  - apply IH. intros p' m' Hp'. apply H. by right.
Qed.

Lemma genericModel_first up low fname : forall patterns,
  match firstGeneric patterns fname with
  | Some m => test modelShape (tmpl (cap m 1)) = true
  | None => True
  end ->
  genericModel up low patterns fname =
  match firstGeneric patterns fname with
  | Some m => Some (modelTitle up low (tmpl (cap m 1)), default fname (truthy (cap m 2)))
  | None => None
  end.
Proof.
  induction patterns as [|p ps IH]; simpl; [done|].
  destruct (exec p fname 0) as [m|] eqn:E.
  - by intros ->.
  - apply IH.
Qed.

Lemma knownTask_none ids fname :
  knownTask ids fname = None -> existsb (includes fname) ids = false.
Proof.
  induction ids as [|p ids IH]; simpl; [done|]. unfold includes at 1.
  destruct (indexOf p fname); [done|]. auto.
Qed.

Lemma drop_shorter (s : jsstring) n : 0 < n -> n <= length s -> drop n s <> s.
Proof.
  intros H0 Hn E. apply (f_equal length) in E. rewrite length_drop in E. lia.
Qed.

(** The two tables of known models name the same patterns in the same
    order, and no display name is "Unknown". *)
Lemma known_tables fname :
  match knownTask knownModelIds fname with
  | Some t => exists d, knownDisplay knownModels fname = Some (d, t) /\
                        eqs d (js "Unknown") = false /\ eqs t fname = false
  | None => knownDisplay knownModels fname = None
  end.
Proof.
  unfold knownTask, knownDisplay, knownModelIds, knownModels, substring.
  repeat match goal with
         | |- context [indexOf ?p fname] =>
             let E := fresh "E" in
             destruct (indexOf p fname) as [idx|] eqn:E;
             [ eexists; split; [reflexivity|]; split; [by vm_compute|];
               apply indexOf_bound in E; apply eqs_false, drop_shorter;
               [ vm_compute length; lia | exact E ] | ]
         end.
  done.
Qed.

(** C8, as the code has it.  Whatever the case mappings, the title-cased
    task id equals the task of the display resolver for every file name in
    which a known model id occurs, and for every file name whose first
    matching generic pattern has a model-shaped first group (or that no
    generic pattern matches). *)
Theorem resolvers_agree upperCase lowerCase fname :
  hasKnownModel fname \/ modelShaped fname ->
  formatTaskIdToTitle upperCase (getTaskIdFromFilename fname) =
  snd (parseTrajectoryFilename upperCase lowerCase fname).
Proof.
  intros H. unfold formatTaskIdToTitle, getTaskIdFromFilename, parseTrajectoryFilename.
  pose proof (known_tables fname) as Hk.
  destruct (knownTask knownModelIds fname) as [t|] eqn:Et.
  - destruct Hk as (d & -> & Hd & Ht). simpl. rewrite Hd, Ht. done.
  - rewrite Hk. cbn [default from_option].
    assert (Hs : modelShaped fname).
    { destruct H as [H|H]; [|done]. unfold hasKnownModel in H.
      rewrite (knownTask_none _ _ Et) in H. done. }
    unfold modelShaped in Hs.
    assert (eqs fname fname = true) as -> by by apply eqs_true.
    assert (eqs (js "Unknown") (js "Unknown") = true) as -> by done.
    rewrite genericModel_first by done.
    rewrite genericTask_first by (intros p m; apply modelPatterns_task).
    destruct (firstGeneric modelPatterns fname) as [m|]; [|done].
    by destruct (truthy (cap m 2)).
Qed.

Lemma resolvers_agree_witness :
  hasKnownModel (js "gpt-5_anomaly-detection-spike.log") /\
  formatTaskIdToTitle toUpperCase
    (getTaskIdFromFilename (js "gpt-5_anomaly-detection-spike.log")) =
  snd (parseTrajectoryFilename toUpperCase toLowerCase
         (js "gpt-5_anomaly-detection-spike.log")).
Proof.
  assert (H : hasKnownModel (js "gpt-5_anomaly-detection-spike.log"))
    by (vm_compute; reflexivity).
  split; [exact H|].
  exact (resolvers_agree toUpperCase toLowerCase _ (or_introl H)).
Defined.

(** C8 as stated fails on the file name [20251103_foo.log]: the task-id
    resolver takes "foo" from the first generic pattern, while the display
    resolver rejects the segment "20251103" as a model name under every
    pattern and derives the task from the whole file name. *)
Lemma resolvers_disagree :
  getTaskIdFromFilename (js "20251103_foo.log") = js "foo" /\
  formatTaskIdToTitle toUpperCase (getTaskIdFromFilename (js "20251103_foo.log"))
    = js "Foo" /\
  snd (parseTrajectoryFilename toUpperCase toLowerCase (js "20251103_foo.log"))
    = js "20251103 Foo" /\
  formatTaskIdToTitle toUpperCase (getTaskIdFromFilename (js "20251103_foo.log")) <>
  snd (parseTrajectoryFilename toUpperCase toLowerCase (js "20251103_foo.log")).
Proof. vm_compute. repeat split; discriminate. Qed.

(** ** Lab Training Metrics Extractor *)











(** The bound of the inner loop: a label 19 lines after the marker is read,
    a label 20 lines after it is not. *)
Example metrics_offset_19 :
  metricField (js "-- Lab Training Metrics --" ++ LF ++ blankLines 18 ++
               js "Tests Passed: True") "testsPassed" = Some (MBool true).
Proof. vm_compute. reflexivity. Qed.

Example metrics_offset_20 :
  metricField (js "-- Lab Training Metrics --" ++ LF ++ blankLines 19 ++
               js "Tests Passed: True") "testsPassed" = None.
Proof. vm_compute. reflexivity. Qed.
(** * Further properties of the code *)

(** ** The verdict on the client side: [parsePassFailFromLogText] *)

Lemma parsePassFail_cases text :
  exists c c', lastCounts totalTestsRegex text = Returns c /\
    lastCounts passedLineRegex text = Returns c' /\
    determineFinalSuccess text =
      Returns (match c, c' with
               | Some c, _ => verdict c | None, Some c' => verdict c' | None, None => false
               end) /\
    (text <> [] ->
     parsePassFailFromLogText text =
       Returns (match c, c' with
                | Some c, _ => Some (verdict c)
                | None, Some c' => Some (verdict c')
                | None, None => None
                end)).
Proof.
  destruct (lastCounts_returns totalTestsRegex text) as [c Hc]; [vm_compute; lia|].
  destruct (lastCounts_returns passedLineRegex text) as [c' Hc']; [vm_compute; lia|].
  exists c, c'. split; [done|]. split; [done|]. split.
  - unfold determineFinalSuccess. rewrite Hc. simpl. destruct c; [done|].
    rewrite Hc'. simpl. by destruct c'.
  - intros Hne. destruct text as [|a text]; [done|].
    unfold parsePassFailFromLogText. rewrite Hc. simpl. destruct c; [done|].
    rewrite Hc'. simpl. by destruct c'.
Qed.

(** X1.  The flag [verdict === true] that the pass-rate table counts is the
    [finalSuccess] the server computes for the same text. *)
Theorem client_verdict_agrees text :
  exists v, parsePassFailFromLogText text = Returns v /\
    determineFinalSuccess text = Returns (bool_decide (v = Some true)).
Proof.
  destruct text as [|a text].
  - exists None. split; [done|]. unfold determineFinalSuccess.
    by rewrite !lastCounts_none by by vm_compute.
  - destruct (parsePassFail_cases (a :: text)) as (c & c' & _ & _ & Hd & Hp).
    rewrite Hp, Hd by done. eexists. split; [done|]. f_equal.
    destruct c as [c|]; [by destruct (verdict c)|].
    destruct c' as [c'|]; [by destruct (verdict c')|done].
Qed.

(** X2.  The client reports no verdict ([null]) exactly for a text in which
    neither summary line occurs. *)
Theorem client_verdict_null text :
  parsePassFailFromLogText text = Returns None <->
  noOcc totalOcc text /\ noOcc passedOcc text.
Proof.
  destruct (parsePassFail_cases text) as (c & c' & Hc & Hc' & _ & Hp).
  pose proof (total_counts _ _ Hc) as Ht. pose proof (passed_counts _ _ Hc') as Hq.
  split.
  - intros E. destruct text as [|a text].
    + rewrite lastCounts_none in Hc, Hc' by by vm_compute.
      injection Hc as <-. injection Hc' as <-.
      destruct Ht as [[_ Ht]|(i & x & y & _ & ?)]; [|done].
      destruct Hq as [[_ Hq]|(i & x & y & _ & ?)]; [done|done].
    + rewrite Hp in E by done.
      destruct Ht as [[-> Ht]|(i & x & y & _ & ->)]; [|done].
      destruct Hq as [[-> Hq]|(i & x & y & _ & ->)]; [done|done].
  - intros [Hn1 Hn2]. destruct text as [|a text]; [done|]. rewrite Hp by done.
    destruct Ht as [[-> _]|(i & x & y & [Ho _] & _)]; [|by apply Hn1 in Ho].
    destruct Hq as [[-> _]|(i & x & y & [Ho _] & _)]; [done|by apply Hn2 in Ho].
Qed.

(** ** Records written one after the other *)

Lemma test_step_single n lines i acc st p t :
  plainPath p -> plainName t ->
  lines !! i = Some (singleLine st p t) ->
  test_loop (S n) lines i acc = test_loop n lines (S i) (acc ++ [recordOf st p t]).
Proof.
  intros Hp Ht Hl. pose proof (plainPath_noWS p Hp) as Hwp. pose proof Ht as [Hnt Hwt].
  assert (E : singleLine st p t =
              keyword st ++ js " " ++ (p ++ js "::" ++ t) ++ js ": " ++ outcomeWord st).
  { unfold singleLine. by rewrite <- !app_assoc. }
  assert (Htrim : trim (singleLine st p t) = singleLine st p t).
  { rewrite E. apply trim_id; [by destruct st|].
    do 3 (apply ends_app; [by destruct p|]).
    apply ends_app; [apply outcomeWord_nonempty|]. apply ends_noWS, noWS_outcomeWord. }
  apply (test_loop_step _ _ _ _ _ _ _ Hl). rewrite Htrim. by apply test_body_single.
Qed.

Lemma test_step_wordBelow n lines i acc st p t :
  plainPath p -> plainName t ->
  lines !! i = Some (keyword st ++ js " " ++ p ++ js "::" ++ t ++ js ":") ->
  lines !! (i + 1) = Some (outcomeWord st) ->
  test_loop (S n) lines i acc = test_loop n lines (S (i + 1)) (acc ++ [recordOf st p t]).
Proof.
  intros Hp Ht Hl Hl1. pose proof (plainPath_noWS p Hp) as Hwp. pose proof Ht as [Hnt Hwt].
  set (l0 := keyword st ++ js " " ++ p ++ js "::" ++ t ++ js ":") in *.
  assert (E0 : l0 = keyword st ++ js " " ++ (p ++ js "::" ++ t) ++ js ":").
  { unfold l0. by rewrite <- !app_assoc. }
  assert (Htrim : trim l0 = l0).
  { rewrite E0. apply trim_id; [by destruct st|].
    do 3 (apply ends_app; [by destruct p|]). done. }
  apply (test_loop_step _ _ _ _ _ _ _ Hl). rewrite Htrim.
  apply (test_body_start _ i st p t (outcomeWord st)); [done|done|done|].
  apply trim_noWS, noWS_outcomeWord.
Qed.

Lemma test_step_keyword n lines i acc st p t j l :
  ~ In 58%N p -> lines !! i = Some (keyword st) -> lines !! (i + 1) = Some l ->
  lookahead (outcomeWord st) (outcomeWord (match st with pass => fail | fail => pass end))
    lines 3 (i + 1) [] = (p ++ js "::" ++ t, j, true) ->
  test_loop (S n) lines i acc = test_loop n lines (S j) (acc ++ [recordOf st p t]).
Proof.
  intros Hp Hl Hl1 Hla. apply (test_loop_step _ _ _ _ _ _ _ Hl).
  rewrite trim_noWS by apply noWS_keyword.
  rewrite (test_body_keyword _ i st l) by done. by apply standalone_record.
Qed.

Lemma test_step_keywordAbove n lines i acc st p t :
  plainPath p -> plainName t ->
  lines !! i = Some (keyword st) ->
  lines !! (i + 1) = Some (p ++ js "::" ++ t ++ js ": " ++ outcomeWord st) ->
  test_loop (S n) lines i acc = test_loop n lines (S (i + 1)) (acc ++ [recordOf st p t]).
Proof.
  intros Hp Ht Hl Hl1. pose proof (plainPath_noWS p Hp) as Hwp. pose proof Ht as [Hnt Hwt].
  pose proof (plainPath_no_colon p Hp) as Hcp.
  apply (test_step_keyword _ _ _ _ _ _ _ _ _ Hcp Hl Hl1).
  erewrite lookahead_terminator; [reflexivity|exact Hl1| |by apply noWS_fragment].
  rewrite <- (trim_colon_word (p ++ js "::" ++ t) (outcomeWord st));
    [|by apply noWS_fragment|apply outcomeWord_nonempty|apply noWS_outcomeWord].
  by rewrite <- !app_assoc.
Qed.

Lemma test_step_nameSplit n lines i acc st p t1 t2 :
  plainPath p -> plainName (t1 ++ t2) ->
  lines !! i = Some (keyword st) ->
  lines !! (i + 1) = Some (p ++ js "::" ++ t1) ->
  lines !! (i + 2) = Some (t2 ++ js ": " ++ outcomeWord st) ->
  test_loop (S n) lines i acc =
  test_loop n lines (S (i + 2)) (acc ++ [recordOf st p (t1 ++ t2)]).
Proof.
  intros Hp Ht Hl Hl1 Hl2. pose proof (plainPath_noWS p Hp) as Hwp. pose proof Ht as [Hnt Hwt].
  apply noWS_app in Hwt as [Hw1 Hw2].
  pose proof (plainPath_no_colon p Hp) as Hcp.
  replace (i + 2) with (S (i + 1)) in * by lia.
  apply (test_step_keyword _ _ _ _ _ _ _ _ _ Hcp Hl Hl1).
  erewrite (lookahead_fragment _ _ _ _ _ _ _ (p ++ js "::" ++ t1));
    [|exact Hl1|by apply trim_noWS, noWS_fragment|by apply noWS_fragment
     |apply In_colon_fragment|by exists p, t1|apply outcomeWord_no_colon].
  erewrite lookahead_terminator; [|exact Hl2| |exact Hw2].
  2:{ apply trim_colon_word; [done|apply outcomeWord_nonempty|apply noWS_outcomeWord]. }
  cbn [app]. by rewrite <- !app_assoc.
Qed.

Lemma test_step_threeLines n lines i acc st p t :
  plainPath p -> plainName t ->
  lines !! i = Some (keyword st) ->
  lines !! (i + 1) = Some (p ++ js "::" ++ t) ->
  lines !! (i + 2) = Some (outcomeWord st) ->
  test_loop (S n) lines i acc = test_loop n lines (S (i + 2)) (acc ++ [recordOf st p t]).
Proof.
  intros Hp Ht Hl Hl1 Hl2. pose proof (plainPath_noWS p Hp) as Hwp. pose proof Ht as [Hnt Hwt].
  pose proof (plainPath_no_colon p Hp) as Hcp.
  replace (i + 2) with (S (i + 1)) in * by lia.
  apply (test_step_keyword _ _ _ _ _ _ _ _ _ Hcp Hl Hl1).
  erewrite (lookahead_fragment _ _ _ _ _ _ _ (p ++ js "::" ++ t));
    [|exact Hl1|by apply trim_noWS, noWS_fragment|by apply noWS_fragment
     |apply In_colon_fragment|by exists p, t|apply outcomeWord_no_colon].
  erewrite lookahead_word;
    [reflexivity|exact Hl2|apply trim_noWS, noWS_outcomeWord|apply noWS_outcomeWord
     |apply outcomeWord_not_keyword|apply outcomeWord_not_keyword].
Qed.

Lemma lookup_block {A} (pre b rest : list A) k x :
  b !! k = Some x -> (pre ++ b ++ rest) !! (length pre + k) = Some x.
Proof.
  intros H. rewrite lookup_app_r by lia.
  replace (length pre + k - length pre) with k by lia.
  by apply lookup_app_l_Some.
Qed.

Lemma test_step_block n pre w rest acc :
  plainRecord w ->
  test_loop (S n) (pre ++ render w ++ rest) (length pre) acc =
  test_loop n (pre ++ render w ++ rest) (length pre + length (render w))
    (acc ++ [recordOf (w_status w) (w_path w) (w_name w)]).
Proof.
  intros [Hp Ht]. destruct w as [sh st p t]. simpl in Hp, Ht.
  unfold render. cbn [w_shape w_status w_path w_name].
  assert (H0 : forall b x, b !! 0 = Some x -> (pre ++ b ++ rest) !! length pre = Some x).
  { intros b x H. rewrite <- (Nat.add_0_r (length pre)). by apply lookup_block. }
  destruct sh as [| | |k|].
  - rewrite (test_step_single _ _ _ _ st p t); [|done|done|by apply H0].
    f_equal. simpl. lia.
  - rewrite (test_step_wordBelow _ _ _ _ st p t);
      [|done|done|by apply H0|by apply lookup_block].
    f_equal. simpl. lia.
  - rewrite (test_step_keywordAbove _ _ _ _ st p t);
      [|done|done|by apply H0|by apply lookup_block].
    f_equal. simpl. lia.
  - rewrite (test_step_nameSplit _ _ _ _ st p (take k t) (drop k t));
      [|done|by rewrite take_drop|by apply H0|by apply lookup_block|by apply lookup_block].
    rewrite take_drop. f_equal. simpl. lia.
  - rewrite (test_step_threeLines _ _ _ _ st p t);
      [|done|done|by apply H0|by apply lookup_block|by apply lookup_block].
    f_equal. simpl. lia.
Qed.

Lemma test_loop_records ws : forall pre acc n,
  Forall plainRecord ws -> length ws < n ->
  test_loop n (pre ++ concat (List.map render ws)) (length pre) acc =
  Returns (acc ++ recordsOf ws).
Proof.
  induction ws as [|w ws IH]; intros pre acc n Hall Hn.
  - destruct n as [|n]; [simpl in Hn; lia|]. cbn [List.map concat recordsOf].
    rewrite !app_nil_r. rewrite test_loop_end; [done|]. apply lookup_ge_None. lia.
  - destruct n as [|n]; [simpl in Hn; lia|].
    apply Forall_cons in Hall as [Hw Hall].
    cbn [List.map concat]. rewrite test_step_block by done.
    rewrite <- length_app, (app_assoc pre).
    rewrite IH by (try done; simpl in Hn; lia).
    unfold recordsOf. cbn [List.map]. by rewrite <- app_assoc.
Qed.

Lemma split_join_LF lines :
  lines <> [] -> Forall (fun l => ~ In 10%N l) lines -> split LF (join LF lines) = lines.
Proof.
  induction lines as [|l lines IH]; [done|]. intros _ Hall.
  apply Forall_cons in Hall as [Hl Hall]. destruct lines as [|l' lines].
  - simpl. by apply split_LF_last.
  - rewrite join_cons by done. rewrite split_LF_cons by done. by rewrite IH.
Qed.

Lemma render_no_LF w : plainRecord w -> Forall (fun l => ~ In 10%N l) (render w).
Proof.
  intros [Hp Ht]. destruct w as [sh st p t]. simpl in Hp, Ht.
  pose proof (plainPath_noWS p Hp) as Hwp. destruct Ht as [_ Hwt].
  unfold render. cbn [w_shape w_status w_path w_name].
  assert (Hpt : forall x w', noWS x -> noWS w' -> ~ In 10%N (p ++ js "::" ++ x ++ js ": " ++ w')).
  { intros x w' Hx Hw'. replace (p ++ js "::" ++ x ++ js ": " ++ w')
      with ((p ++ js "::" ++ x) ++ js ": " ++ w') by by rewrite <- !app_assoc.
    apply no_LF_terminated; [by apply noWS_fragment|done]. }
  destruct sh as [| | |k|]; repeat apply Forall_cons_2; try apply Forall_nil_2;
    try apply no_LF_keyword; try apply no_LF_outcomeWord.
  - apply no_LF_app; [apply no_LF_keyword|]. apply no_LF_cons; [done|].
    apply Hpt; [done|apply noWS_outcomeWord].
  - apply no_LF_app; [apply no_LF_keyword|]. apply no_LF_cons; [done|].
    apply noWS_no_LF. apply noWS_app. split; [done|]. apply noWS_app. split; [done|].
    by apply noWS_app.
  - apply Hpt; [done|apply noWS_outcomeWord].
  - apply no_LF_fragment; [done|]. rewrite <- (take_drop k t) in Hwt.
    by apply noWS_app in Hwt as [? _].
  - apply no_LF_terminated; [|apply noWS_outcomeWord]. rewrite <- (take_drop k t) in Hwt.
    by apply noWS_app in Hwt as [_ ?].
  - by apply no_LF_fragment.
Qed.

Lemma render_length w : 1 <= length (render w).
Proof. destruct w as [[| | |k|] st p t]; simpl; lia. Qed.

(** X3.  Any sequence of records, each written in any of the shapes, is parsed
    to the list of these records: in the order of the content, a record per
    element, repetitions kept, and no line of a record counted twice. *)
Theorem records_in_order ws :
  Forall plainRecord ws ->
  parseTestResults (contentOf ws) = Returns (recordsOf ws).
Proof.
  intros Hall. destruct ws as [|w ws]; [by vm_compute|].
  unfold parseTestResults, contentOf.
  rewrite split_join_LF.
  - apply (test_loop_records (w :: ws) [] []); [done|].
    clear Hall. induction (w :: ws) as [|x xs IH]; [simpl; lia|].
    cbn [List.map concat length]. rewrite length_app.
    pose proof (render_length x). cbn [length] in IH. lia.
  - cbn [List.map concat]. pose proof (render_length w).
    destruct (render w); [simpl in *; lia|done].
  - apply Forall_concat. apply List.Forall_map. eapply Forall_impl; [exact Hall|].
    intros x Hx. by apply render_no_LF.
Qed.

Lemma records_in_order_witness :
  Forall plainRecord
    [Written OneLine pass (js "tasks/a.py") (js "test_x");
     Written (NameSplit 5) fail (js "tasks/a.py") (js "K::test_y");
     Written WordBelow pass (js "tasks/a.py") (js "test_x")] /\
  parseTestResults
    (js "pass tasks/a.py::test_x: PASSED" ++ LF ++
     js "fail" ++ LF ++ js "tasks/a.py::K::te" ++ LF ++ js "st_y: FAILED" ++ LF ++
     js "pass tasks/a.py::test_x:" ++ LF ++ js "PASSED") =
  Returns [recordOf pass (js "tasks/a.py") (js "test_x");
           recordOf fail (js "tasks/a.py") (js "K::test_y");
           recordOf pass (js "tasks/a.py") (js "test_x")].
Proof.
  assert (H : Forall plainRecord
    [Written OneLine pass (js "tasks/a.py") (js "test_x");
     Written (NameSplit 5) fail (js "tasks/a.py") (js "K::test_y");
     Written WordBelow pass (js "tasks/a.py") (js "test_x")]).
  { repeat apply Forall_cons_2; try apply Forall_nil_2;
      (split; (split; [discriminate|reflexivity])). }
  split; [exact H|]. exact (records_in_order _ H).
Defined.

(** ** What every extracted record looks like *)

Lemma resultOf_named r line st m :
  exec r line 0 = Some m -> In 1 (always_groups r) -> In 2 (always_groups r) ->
  namedRecord (resultOf m st).
Proof.
  intros E H1 H2. destruct (exec_cap_defined _ _ _ _ 1 E H1) as [p Hp].
  destruct (exec_cap_defined _ _ _ _ 2 E H2) as [t Ht].
  exists p, t. unfold resultOf. rewrite Hp, Ht. done.
Qed.

Lemma standalone_named word other st lines i :
  Forall namedRecord (fst (standalone word other st lines i)) /\
  length (fst (standalone word other st lines i)) <= 1.
Proof.
  unfold standalone. destruct (lookahead _ _ _ _ _ _) as [[path j] found].
  destruct (found && includes path (js "::")); [|by split; [constructor|simpl; lia]].
  destruct (2 <=? _); [|by split; [constructor|simpl; lia]].
  simpl. split; [|lia]. constructor; [|constructor]. by eexists _, _.
Qed.

Lemma test_body_named lines i line :
  Forall namedRecord (fst (test_body lines i line)) /\
  length (fst (test_body lines i line)) <= 1.
Proof.
  unfold test_body.
  destruct (exec passMatchRe line 0) as [m|] eqn:E1.
  { simpl. split; [|lia]. constructor; [|constructor].
    eapply resultOf_named; [exact E1|vm_compute; tauto|vm_compute; tauto]. }
  destruct (exec failMatchRe line 0) as [m|] eqn:E2.
  { simpl. split; [|lia]. constructor; [|constructor].
    eapply resultOf_named; [exact E2|vm_compute; tauto|vm_compute; tauto]. }
  destruct (bool_decide (is_Some (lines !! (i + 1)))); cbn [andb].
  - destruct (exec passStartRe line 0) as [m|] eqn:E3.
    { destruct (bool_decide _); simpl; (split; [|lia]); [|constructor].
      constructor; [|constructor].
      eapply resultOf_named; [exact E3|vm_compute; tauto|vm_compute; tauto]. }
    destruct (exec failStartRe line 0) as [m|] eqn:E4.
    { destruct (bool_decide _); simpl; (split; [|lia]); [|constructor].
      constructor; [|constructor].
      eapply resultOf_named; [exact E4|vm_compute; tauto|vm_compute; tauto]. }
    destruct (test passOnlyRe line); [apply standalone_named|].
    destruct (test failOnlyRe line); [apply standalone_named|].
    simpl. split; [constructor|lia].
  - simpl. split; [constructor|lia].
Qed.

Lemma test_loop_named lines : forall fuel i acc res,
  test_loop fuel lines i acc = Returns res -> Forall namedRecord acc ->
  Forall namedRecord res /\ length res + i <= length acc + Nat.max i (length lines).
Proof.
  induction fuel as [|n IH]; intros i acc res E Hacc; [done|]. simpl in E.
  destruct (lines !! i) as [l|] eqn:El.
  - pose proof (test_body_ge lines i (trim l)) as Hge.
    pose proof (test_body_named lines i (trim l)) as [Hn Hlen].
    destruct (test_body lines i (trim l)) as [new i']. simpl in Hge, Hn, Hlen.
    apply IH in E as [Hres Hc]; [|apply Forall_app; by split].
    split; [done|]. rewrite length_app in Hc. apply lookup_lt_Some in El. lia.
  - injection E as <-. split; [done|lia].
Qed.

(** X4.  Whatever the content, [parseTestResults] returns at most one record per
    line, and every record has a name and a full name made of some path,
    a double colon and that name. *)
Theorem results_well_formed content :
  exists results, parseTestResults content = Returns results /\
    length results <= length (split LF content) /\
    Forall namedRecord results.
Proof.
  destruct (parseTestResults_returns content) as [res E]. exists res. split; [done|].
  unfold parseTestResults in E. apply test_loop_named in E as [Hn Hc]; [|constructor].
  split; [|done]. simpl in Hc. lia.
Qed.

(** ** Blank lines and the Step Reconstructor *)

Lemma split_go_LF_app a : forall cur b,
  split_go LF 0 cur (a ++ 10%N :: b) = split_go LF 0 cur a ++ split_go LF 0 [] b.
Proof.
  induction a as [|c a IH]; intros cur b.
  - change ([] ++ 10%N :: b) with (10%N :: b). rewrite split_go_cons, isPrefix_LF. done.
  - change ((c :: a) ++ 10%N :: b) with (c :: (a ++ 10%N :: b)).
    rewrite (split_go_cons LF cur c (a ++ 10%N :: b)), (split_go_cons LF cur c a).
    rewrite (isPrefix_LF c (a ++ 10%N :: b)), (isPrefix_LF c a).
    destruct (10 =? c)%N.
    + change (length LF - 1) with 0. by rewrite IH.
    + apply IH.
Qed.

Lemma split_LF_app a b : split LF (a ++ LF ++ b) = split LF a ++ split LF b.
Proof. apply split_go_LF_app. Qed.

Lemma run_lines_app xs : forall ys p,
  run_lines (xs ++ ys) p = (p' ← run_lines xs p; run_lines ys p').
Proof.
  induction xs as [|x xs IH]; intros ys p; [done|]. simpl.
  destruct (step_line p x); simpl; [apply IH|done|done].
Qed.

Lemma trim_blank l : forallb isWS l = true -> trim l = [].
Proof.
  intros H. unfold trim, trimStart, trimEnd.
  assert (E : dropWhile isWS l = []).
  { induction l as [|c l IH]; [done|]. simpl in *.
    apply andb_true_iff in H as [-> H]. by apply IH. }
  by rewrite E.
Qed.

Lemma run_lines_blank ls p :
  Forall (fun l => trim l = []) ls -> run_lines ls p = Returns p.
Proof.
  induction 1 as [|l ls Hl _ IH]; [done|]. simpl. unfold step_line. by rewrite Hl.
Qed.

Lemma blank_split w : forallb isWS w = true -> Forall (fun l => trim l = []) (split LF w).
Proof.
  intros H. apply List.Forall_forall. intros l Hl. apply split_occurs in Hl as (x & y & ->).
  apply trim_blank. rewrite !forallb_app in H.
  apply andb_true_iff in H as [_ H]. by apply andb_true_iff in H as [H _].
Qed.

Lemma run_lines_blank_between fname a w b :
  forallb isWS w = true ->
  run_lines (split LF (a ++ LF ++ w ++ LF ++ b)) (initial fname) =
  run_lines (split LF (a ++ LF ++ b)) (initial fname).
Proof.
  intros H. rewrite !split_LF_app, !run_lines_app.
  destruct (run_lines (split LF a) (initial fname)) as [p| |]; simpl; [|done|done].
  rewrite run_lines_app. by rewrite (run_lines_blank _ p (blank_split w H)).
Qed.

(** X5.  Lines of white space put between two lines of a log change nothing in
    what the Step Reconstructor delivers: the steps, the counters of tool
    calls and errors, the iteration maximum and the two names. *)
Theorem blank_lines_ignored fname a w b :
  forallb isWS w = true ->
  exists t t', parseLogFile fname (a ++ LF ++ b) = Returns t /\
    parseLogFile fname (a ++ LF ++ w ++ LF ++ b) = Returns t' /\
    steps t' = steps t /\ toolCalls t' = toolCalls t /\ errors t' = errors t /\
    totalIterations t' = totalIterations t /\
    taskName t' = taskName t /\ modelName t' = modelName t.
Proof.
  intros H.
  destruct (parseLogFile_returns fname (a ++ LF ++ b)) as (p & ? & ? & ? & Hp & _ & _ & _ & E).
  destruct (parseLogFile_returns fname (a ++ LF ++ w ++ LF ++ b))
    as (p' & ? & ? & ? & Hp' & _ & _ & _ & E').
  rewrite run_lines_blank_between, Hp in Hp' by done. injection Hp' as <-.
  eexists _, _. split; [exact E|]. split; [exact E'|]. done.
Qed.

Lemma blank_lines_ignored_witness :
  forallb isWS (js "  ") = true /\
  exists t t',
    parseLogFile (js "gpt-5_t.log") (js "HARNESS: Iteration 1 making LLM call" ++ LF ++
                                     js "HARNESS: Tool call 0: edit") = Returns t /\
    parseLogFile (js "gpt-5_t.log") (js "HARNESS: Iteration 1 making LLM call" ++ LF ++
                                     js "  " ++ LF ++ js "HARNESS: Tool call 0: edit") = Returns t' /\
    steps t' = steps t /\ toolCalls t' = toolCalls t /\ errors t' = errors t /\
    totalIterations t' = totalIterations t /\
    taskName t' = taskName t /\ modelName t' = modelName t.
Proof.
  split; [reflexivity|].
  exact (blank_lines_ignored (js "gpt-5_t.log") (js "HARNESS: Iteration 1 making LLM call")
           (js "  ") (js "HARNESS: Tool call 0: edit") eq_refl).
Defined.

(** ** The changed files of [extractDiffs] *)

Lemma dedupe_spec xs : forall seen,
  NoDup (dedupe seen xs) /\
  forall x, In x (dedupe seen xs) <-> In x xs /\ ~ In x seen.
Proof.
  induction xs as [|a xs IH]; intros seen; simpl.
  - split; [constructor|]. intros x. tauto.
  - destruct (bool_decide (a ∈ seen)) eqn:E.
    + apply bool_decide_eq_true in E. apply list_elem_of_In in E.
      destruct (IH seen) as [Hn Hi]. split; [done|]. intros x. rewrite Hi.
      split; [tauto|]. intros [[->|H] Hs]; [done|tauto].
    + apply bool_decide_eq_false in E. rewrite list_elem_of_In in E.
      destruct (IH (a :: seen)) as [Hn Hi]. split.
      * apply NoDup_cons. split; [|done]. rewrite list_elem_of_In, Hi. simpl. tauto.
      * intros x. simpl. rewrite Hi. simpl. split.
        -- intros [<-|[H Hs]]; [split; [by left|done]|]. split; [by right|tauto].
        -- intros [[<-|H] Hs]; [by left|].
           destruct (decide (a = x)) as [->|Hne]; [by left|].
           right. split; [done|]. by intros [?|?].
Qed.

Lemma matches_go_exec r s : forall fuel i m,
  In m (matches_go r s fuel i) -> exists j, exec r s j = Some m.
Proof.
  induction fuel as [|n IH]; intros i m; simpl; [done|].
  destruct (exec r s i) as [m0|] eqn:E; [|done].
  intros [<-|H]; [eauto|]. by apply IH in H.
Qed.

Lemma fileRe_match d j m :
  exec fileRe d j = Some m ->
  exists name, cap m 1 = Some name /\ forallb isDot name = true /\
    occurs (js "--- a/" ++ name ++ LF ++ js "+++ b/") d.
Proof.
  intros E. apply exec_Match in E as (st' & Hk & HM & ->).
  destruct Hk as [_ Hk]. set (k := mr_index _) in *. clearbody k.
  unfold fileRe in HM.
  apply Match_seqs_cons in HM as (s1 & H1 & HM). apply Match_lit in H1 as (E1 & _ & C1).
  apply Match_seqs_cons in HM as (s2 & H2 & HM).
  apply (Match_Group_reads 1 _ (fun v => forallb isDot v = true)) in H2
    as (name & Hd & (E2 & _ & C2)); [|intros; apply Match_star_class].
  apply Match_seqs_cons in HM as (s3 & H3 & HM). apply Match_chr in H3 as (E3 & _ & C3).
  apply Match_seqs_cons in HM as (s4 & H4 & HM). apply Match_lit in H4 as (E4 & _ & C4).
  apply Match_seqs_nil in HM as ->.
  exists name. split; [|split; [done|]].
  - unfold cap, result_at. simpl. rewrite C4, C3, C2. apply lookup_insert_eq.
  - apply (occurs_drop _ k). unfold start_at in E1. simpl in E1.
    rewrite E1, E2, E3, E4. exists [], (m_rest s4). simpl. by rewrite <- !app_assoc.
Qed.

(** X6.  The list of changed files holds no file twice, its length is the
    reported [agentFilesChanged], and each entry is the path of a header
    pair [--- a/path], [+++ b/] of the agent diff.  Without an agent diff,
    or with an empty one, the list is empty.  [goldenFilesChanged] is 1 for
    a golden diff that is not empty and 0 otherwise. *)
Theorem changed_files content :
  exists b, extractDiffs content = Returns (Some b) /\
    NoDup (filesChanged b) /\
    agentFilesChanged (diffStats b) = length (filesChanged b) /\
    (forall f, In f (filesChanged b) ->
       exists d name, agentDiff b = Some d /\ f = Some name /\
         forallb isDot name = true /\
         occurs (js "--- a/" ++ name ++ LF ++ js "+++ b/") d) /\
    (agentDiff b = None \/ agentDiff b = Some [] -> filesChanged b = []) /\
    goldenFilesChanged (diffStats b) =
      match goldenDiff b with Some (_ :: _) => 1 | _ => 0 end.
Proof.
  unfold extractDiffs, extractDiffs_body.
  rewrite !diffText_captured by (vm_compute; auto). simpl.
  eexists. split; [reflexivity|]. simpl.
  destruct (unescape <$> captured "agent_diff" content) as [[|c d]|] eqn:Ea; simpl.
  - split; [constructor|]. split; [done|]. split; [done|]. split; [done|].
    by destruct (unescape <$> captured "golden_diff" content) as [[|? ?]|].
  - destruct (dedupe_spec (List.map (fun m => cap m 1) (matchAll fileRe (c :: d))) [])
      as [Hn Hi].
    split; [done|]. split; [done|]. split.
    + intros f Hf. apply Hi in Hf as [Hf _]. apply in_map_iff in Hf as (m & <- & Hm).
      apply matches_go_exec in Hm as [j Hm].
      apply fileRe_match in Hm as (name & Hc & Hd & Ho). by exists (c :: d), name.
    + split; [by intros [?|?]|].
      by destruct (unescape <$> captured "golden_diff" content) as [[|? ?]|].
  - split; [constructor|]. split; [done|]. split; [done|]. split; [done|].
    by destruct (unescape <$> captured "golden_diff" content) as [[|? ?]|].
Qed.

(** ** What the Line Normalizer removes *)

Lemma dropWhile_ws_app v x : forallb isWS v = true -> dropWhile isWS (v ++ x) = dropWhile isWS x.
Proof.
  induction v as [|c v IH]; [done|]. simpl. intros H.
  apply andb_true_iff in H as [-> H]. by apply IH.
Qed.

Lemma trim_ws_prefix v x : forallb isWS v = true -> trim (v ++ x) = trim x.
Proof. intros H. unfold trim, trimStart. by rewrite dropWhile_ws_app. Qed.

Lemma emojiPrefix_removed g rest m :
  exec emojiPrefix (g :: rest) 0 = Some m ->
  mr_index m = 0 /\ exists v, forallb isWS v = true /\ rest = v ++ drop (mr_end m) (g :: rest).
Proof.
  intros E. pose proof (emojiPrefix_index _ _ E) as Hi. split; [done|].
  apply exec_Match in E as (st' & _ & HM & ->). rewrite Hi in HM. simpl.
  unfold emojiPrefix in HM.
  apply Match_seqs_cons in HM as (st1 & H1 & HM). apply Match_Bol_inv in H1 as [-> _].
  apply Match_seqs_cons in HM as (st2 & H2 & HM).
  apply Match_Chr_inv in H2 as (c & Hc & (E2 & P2 & _)).
  apply Match_seqs_cons in HM as (st3 & H3 & HM).
  unfold ws in H3. apply Match_plus_class in H3 as (v & Hne & Hv & (E3 & P3 & _)).
  apply Match_seqs_nil in HM as ->.
  simpl in E2, P2. injection E2 as _ E2. exists v. split; [done|].
  rewrite P3, P2. simpl. rewrite E2, E3. by rewrite drop_app_length.
Qed.

(** X7.  The normalizer returns the trimmed line, unless the line starts with a
    code unit of the glyph class that white space follows: then that one
    code unit is removed before trimming.  The result is a piece of the
    line.  A line that starts with one of the seven glyphs as the pattern
    writes them is in the first case whatever follows the glyph: its second
    code unit is half of the glyph, not white space. *)
Theorem normalizeLine_removes s :
  (hasGlyphPrefix s = false -> normalizeLine s = trim s) /\
  (forall g rest, s = g :: rest -> hasGlyphPrefix s = true ->
     normalizeLine s = trim rest) /\
  occurs (normalizeLine s) s /\
  (forall glyph x, In glyph sourceGlyphs -> s = glyph ++ x -> normalizeLine s = trim s).
Proof.
  assert (H1 : hasGlyphPrefix s = false -> normalizeLine s = trim s).
  { intros H. unfold normalizeLine, replaceRe.
    destruct (exec emojiPrefix s 0) as [m|] eqn:E; [|done].
    apply emojiPrefix_Some in E as [E _]. congruence. }
  split; [done|]. split; [|split; [apply occurs_normalizeLine|]].
  - intros g rest -> H. unfold normalizeLine, replaceRe.
    destruct (exec emojiPrefix (g :: rest) 0) as [m|] eqn:E.
    + apply emojiPrefix_removed in E as (-> & v & Hv & E). simpl.
      rewrite E at 2. by rewrite trim_ws_prefix.
    + apply emojiPrefix_None in E. congruence.
  - intros glyph x Hg ->. apply H1. simpl in Hg.
    repeat (destruct Hg as [<-|Hg]; [done|]). done.
Qed.

(** ** Timestamp Extractor *)

Lemma Match_rep_class n p : forall st st',
  Match (rep n (Chr p)) st st' <->
  exists v, length v = n /\ forallb p v = true /\ reads st v st'.
Proof.
  unfold rep. induction n as [|n IH]; intros st st'; simpl repeat.
  - rewrite Match_seqs_nil. split.
    + intros ->. exists []. repeat split; done.
    + intros (v & Hl & _ & H). destruct v; [|done]. by apply reads_nil_inv in H.
  - rewrite Match_seqs_cons. split.
    + intros (s1 & H1 & H2). apply Match_Chr_inv in H1 as (c & Hc & H1).
      apply IH in H2 as (v & Hl & Hv & H2). exists (c :: v).
      split; [simpl; lia|]. split; [simpl; by rewrite Hc|].
      by apply (reads_app _ [c] s1).
    + intros (v & Hl & Hv & H). destruct v as [|c v]; [done|]. simpl in Hl, Hv.
      apply andb_true_iff in Hv as [Hc Hv].
      apply (reads_app_inv _ [c] v) in H as (s1 & H1 & H2). exists s1. split.
      * apply Match_Chr_inv. by exists c.
      * apply IH. exists v. split; [lia|done].
Qed.

Lemma Match_digits n st st' :
  Match (rep n digit) st st' <-> exists v, digits n v /\ reads st v st'.
Proof.
  unfold digit, digits. rewrite Match_rep_class.
  split; [intros (v & ? & ? & ?)|intros (v & [? ?] & ?)]; eauto.
Qed.

Lemma timePattern_Match st st' :
  Match timePattern st st' <-> exists t, timeShape t /\ reads st t st'.
Proof.
  unfold timePattern. split.
  - intros HM.
    apply Match_seqs_cons in HM as (s1 & H1 & HM). apply Match_digits in H1 as (h & Hh & R1).
    apply Match_seqs_cons in HM as (s2 & H2 & HM). apply Match_chr in H2.
    apply Match_seqs_cons in HM as (s3 & H3 & HM). apply Match_digits in H3 as (mi & Hmi & R3).
    apply Match_seqs_cons in HM as (s4 & H4 & HM). apply Match_chr in H4.
    apply Match_seqs_cons in HM as (s5 & H5 & HM). apply Match_digits in H5 as (se & Hse & R5).
    apply Match_seqs_nil in HM as ->.
    exists (h ++ [58%N] ++ mi ++ [58%N] ++ se). split; [by exists h, mi, se|].
    repeat (eapply reads_app; [eassumption|]). done.
  - intros (t & (h & mi & se & -> & Hh & Hmi & Hse) & R).
    apply reads_app_inv in R as (s1 & R1 & R). apply reads_app_inv in R as (s2 & R2 & R).
    apply reads_app_inv in R as (s3 & R3 & R). apply reads_app_inv in R as (s4 & R4 & R5).
    apply Match_seqs_cons. exists s1. split; [apply Match_digits; eauto|].
    apply Match_seqs_cons. exists s2. split; [by apply Match_chr|].
    apply Match_seqs_cons. exists s3. split; [apply Match_digits; eauto|].
    apply Match_seqs_cons. exists s4. split; [by apply Match_chr|].
    apply Match_seqs_cons. exists st'. split; [apply Match_digits; eauto|].
    by apply Match_seqs_nil.
Qed.

Lemma dateTimePattern_Match st st' :
  Match dateTimePattern st st' <-> exists t, dateTimeShape t /\ reads st t st'.
Proof.
  unfold dateTimePattern. split.
  - intros HM.
    apply Match_seqs_cons in HM as (s1 & H1 & HM). apply Match_digits in H1 as (y & Hy & R1).
    apply Match_seqs_cons in HM as (s2 & H2 & HM). apply Match_chr in H2.
    apply Match_seqs_cons in HM as (s3 & H3 & HM). apply Match_digits in H3 as (mo & Hmo & R3).
    apply Match_seqs_cons in HM as (s4 & H4 & HM). apply Match_chr in H4.
    apply Match_seqs_cons in HM as (s5 & H5 & HM). apply Match_digits in H5 as (d & Hd & R5).
    apply Match_seqs_cons in HM as (s6 & H6 & HM).
    apply Match_ws_plus in H6 as (w & Hn & Hw & R6).
    change (seqs [rep 2 digit; chr 58; rep 2 digit; chr 58; rep 2 digit])
      with timePattern in HM.
    apply timePattern_Match in HM as (ti & Hti & R7).
    exists ((y ++ [45%N] ++ mo ++ [45%N] ++ d) ++ w ++ ti). split.
    + exists (y ++ [45%N] ++ mo ++ [45%N] ++ d), w, ti.
      split; [done|]. split; [by exists y, mo, d|done].
    + eapply reads_app; [|eapply reads_app; eassumption].
      repeat (eapply reads_app; [eassumption|]). done.
  - intros (t & (da & w & ti & -> & (y & mo & d & -> & Hy & Hmo & Hd) & Hn & Hw & Hti) & R).
    apply reads_app_inv in R as (s5 & R & R'). apply reads_app_inv in R' as (s6 & R6 & R7).
    apply reads_app_inv in R as (s1 & R1 & R). apply reads_app_inv in R as (s2 & R2 & R).
    apply reads_app_inv in R as (s3 & R3 & R). apply reads_app_inv in R as (s4 & R4 & R5).
    apply Match_seqs_cons. exists s1. split; [apply Match_digits; eauto|].
    apply Match_seqs_cons. exists s2. split; [by apply Match_chr|].
    apply Match_seqs_cons. exists s3. split; [apply Match_digits; eauto|].
    apply Match_seqs_cons. exists s4. split; [by apply Match_chr|].
    apply Match_seqs_cons. exists s5. split; [apply Match_digits; eauto|].
    apply Match_seqs_cons. exists s6. split; [apply Match_ws_plus; eauto|].
    change (seqs [rep 2 digit; chr 58; rep 2 digit; chr 58; rep 2 digit])
      with timePattern.
    apply timePattern_Match. eauto.
Qed.

(** The text of a match found by [exec], and matches that [exec] misses *)
Lemma exec_text r s m :
  exec r s 0 = Some m ->
  exists k st', k <= length s /\ Match r (start_at s k) st' /\
    drop k s = mr_all m ++ m_rest st'.
Proof.
  intros E. apply exec_Match in E as (st' & [_ Hk] & HM & ->).
  set (k := mr_index _) in *. clearbody k. exists k, st'. split; [done|]. split; [done|].
  apply Match_consumes in HM as (w & E & P). unfold start_at in E, P. simpl in E, P.
  unfold result_at. simpl. rewrite E, P.
  replace (k + length w - k) with (length w) by lia. by rewrite take_app_length.
Qed.

Lemma exec_misses r s k st' :
  exec r s 0 = None -> k <= length s -> ~ Match r (start_at s k) st'.
Proof.
  intros E Hk HM. apply run_complete in HM.
  rewrite (exec_None _ _ _ E k) in HM; [done|lia].
Qed.

Lemma occurs_start_at t s :
  occurs t s -> exists k st', k <= length s /\ reads (start_at s k) t st'.
Proof.
  intros (a & b & ->). exists (length a), (MState (length a + length t) b ∅).
  split; [rewrite length_app; lia|]. unfold start_at. rewrite drop_app_length.
  apply reads_intro.
Qed.

Lemma reads_text s k t st' :
  reads (start_at s k) t st' -> drop k s = t ++ m_rest st'.
Proof. by intros (E & _). Qed.

(** X8.  [extractTimestamp] returns the first date-and-time of the line if there
    is one, else its first time of day, else "N/A": the result is a
    date-and-time found in the line; or the line holds no date-and-time and
    the result is a time of day found in it; or the line holds no time of
    day at all and the result is "N/A". *)
Theorem extractTimestamp_shape line :
  (dateTimeShape (extractTimestamp line) /\ occurs (extractTimestamp line) line) \/
  ((forall u, dateTimeShape u -> ~ occurs u line) /\
   timeShape (extractTimestamp line) /\ occurs (extractTimestamp line) line) \/
  ((forall u, timeShape u -> ~ occurs u line) /\ extractTimestamp line = js "N/A").
Proof.
  unfold extractTimestamp.
  change timestampPatterns with [dateTimePattern; timePattern]. cbn [firstMatch].
  destruct (exec dateTimePattern line 0) as [m|] eqn:E1.
  { left. apply exec_text in E1 as (k & st' & Hk & HM & E).
    apply dateTimePattern_Match in HM as (t & Ht & R). apply reads_text in R.
    rewrite R in E. apply app_inv_tail in E as <-. split; [done|].
    apply (occurs_drop _ k). rewrite R. exists [], (m_rest st'). done. }
  right.
  assert (Hno : forall u, dateTimeShape u -> ~ occurs u line).
  { intros u Hu Ho. apply occurs_start_at in Ho as (k & st' & Hk & R).
    apply (exec_misses _ _ k st' E1 Hk). apply dateTimePattern_Match. eauto. }
  destruct (exec timePattern line 0) as [m|] eqn:E2.
  - left. split; [done|]. apply exec_text in E2 as (k & st' & Hk & HM & E).
    apply timePattern_Match in HM as (t & Ht & R). apply reads_text in R.
    rewrite R in E. apply app_inv_tail in E as <-. split; [done|].
    apply (occurs_drop _ k). rewrite R. exists [], (m_rest st'). done.
  - right. split; [|done]. intros u Hu Ho.
    apply occurs_start_at in Ho as (k & st' & Hk & R).
    apply (exec_misses _ _ k st' E2 Hk). apply timePattern_Match. eauto.
Qed.

(** ** [extractDuration] *)

Lemma head_flat_map {A B} (f : A -> list B) l x :
  head (flat_map f l) = Some x -> exists y, In y l /\ head (f y) = Some x.
Proof.
  induction l as [|a l IH]; [done|]. simpl.
  destruct (f a) as [|b bs] eqn:E; simpl.
  - intros H. apply IH in H as (y & Hy & H). exists y. split; [by right|done].
  - intros [= <-]. exists a. split; [by left|]. by rewrite E.
Qed.

Lemma star_loop_nonempty body g fuel st : star_loop body g fuel st <> [].
Proof.
  destruct fuel; simpl; [done|]. destruct g; [|done].
  by destruct (flat_map _ _).
Qed.

(** A greedy run over a class stops where the class stops *)
Lemma head_star_greedy p : forall fuel pos rest caps st',
  length rest < fuel ->
  head (star_loop (run (Chr p)) true fuel (MState pos rest caps)) = Some st' ->
  match m_rest st' with [] => True | c :: _ => p c = false end.
Proof.
  induction fuel as [|n IH]; intros pos rest caps st' Hf; [lia|].
  cbn [star_loop]. destruct rest as [|c rest].
  { change (run (Chr p) (MState pos [] caps)) with (@nil mstate). simpl.
    intros H. by simplify_eq. }
  change (run (Chr p) (MState pos (c :: rest) caps))
    with (if p c then [MState (S pos) rest caps] else []).
  destruct (p c) eqn:Hc; cbn [flat_map m_rest].
  2:{ simpl. intros H. simplify_eq. simpl. by rewrite Hc. }
  assert ((length rest <? length (c :: rest)) = true) as ->
    by (apply Nat.ltb_lt; simpl; lia).
  rewrite app_nil_r.
  pose proof (star_loop_nonempty (run (Chr p)) true n (MState (S pos) rest caps)) as Hne.
  destruct (star_loop (run (Chr p)) true n (MState (S pos) rest caps)) as [|x xs] eqn:E;
    [done|].
  simpl. intros H. assert (x = st') as -> by congruence.
  apply (IH (S pos) rest caps); [simpl in Hf; lia|]. by rewrite E.
Qed.

Lemma flat_map_unit {A} (l : list A) : flat_map (fun x => [x]) l = l.
Proof. induction l as [|a l IH]; [done|]. simpl. by rewrite IH. Qed.

Lemma head_map {A B} (f : A -> B) l : head (List.map f l) = f <$> head l.
Proof. by destruct l. Qed.

Lemma head_group_plus_greedy i p st st' :
  head (run (Seq (Group i (plus (Chr p))) Eps) st) = Some st' ->
  match m_rest st' with [] => True | c :: _ => p c = false end.
Proof.
  change (run (Seq (Group i (plus (Chr p))) Eps) st)
    with (flat_map (fun x => [x])
            (List.map (fun st' => MState (m_pos st') (m_rest st')
                         (<[i := take (m_pos st' - m_pos st) (m_rest st)]> (m_caps st')))
               (flat_map (run (Star true (Chr p))) (run (Chr p) st)))).
  rewrite flat_map_unit, head_map. destruct st as [pos rest caps].
  destruct rest as [|c rest].
  { change (run (Chr p) (MState pos [] caps)) with (@nil mstate). done. }
  change (run (Chr p) (MState pos (c :: rest) caps))
    with (if p c then [MState (S pos) rest caps] else []).
  destruct (p c); [|done]. cbn [flat_map]. rewrite app_nil_r.
  change (run (Star true (Chr p)) (MState (S pos) rest caps))
    with (star_loop (run (Chr p)) true (S (length rest)) (MState (S pos) rest caps)).
  destruct (head (star_loop _ _ _ _)) as [x|] eqn:E; [|done].
  apply head_star_greedy in E; [|lia]. simpl. intros H. by simplify_eq.
Qed.

(** The last item of a sequence decides where the preferred match ends *)
Lemma head_seqs_last (Q : mstate -> Prop) k rs :
  (forall st st', head (run k st) = Some st' -> Q st') ->
  forall st st', head (run (fold_right Seq k rs) st) = Some st' -> Q st'.
Proof.
  intros Hk. induction rs as [|a rs IH]; intros st st' H; [by apply (Hk st)|].
  simpl in H. apply head_flat_map in H as (y & _ & H). by apply (IH y).
Qed.

Lemma durationRegex_ends s m :
  exec durationRegex s 0 = Some m ->
  match drop (mr_end m) s with [] => True | c :: _ => c = 10%N end.
Proof.
  intros E. apply exec_Some in E as (k & st' & Hk & Hh & -> & _).
  assert (HQ : match m_rest st' with [] => True | c :: _ => negb (c =? 10)%N = false end).
  { revert Hh. unfold durationRegex.
    apply (head_seqs_last
             (fun x => match m_rest x with [] => True | c :: _ => negb (c =? 10)%N = false end)
             (Seq (Group 1 (plus (Chr (fun c => negb (c =? 10)%N)))) Eps)
             [lit_ci (js "Total"); plus ws; lit_ci (js "duration:"); star ws]).
    intros st st1. apply head_group_plus_greedy. }
  apply head_In, run_sound, Match_consumes in Hh as (w & Ew & Pw).
  unfold start_at in Ew, Pw. simpl in Ew, Pw. unfold result_at. simpl.
  assert (Ed : drop (m_pos st') s = m_rest st').
  { rewrite Pw, <- drop_drop, Ew. by rewrite drop_app_length. }
  rewrite Ed. destruct (m_rest st') as [|c r]; [done|].
  apply negb_false_iff in HQ. by apply N.eqb_eq in HQ.
Qed.

Lemma durationRegex_Match st st' :
  Match durationRegex st st' <->
  exists t w1 ds w2 v,
    toUpperCase t = js "TOTAL" /\ w1 <> [] /\ forallb isWS w1 = true /\
    toUpperCase ds = js "DURATION:" /\ forallb isWS w2 = true /\
    v <> [] /\ forallb (fun c => negb (c =? 10)%N) v = true /\
    reads st (t ++ w1 ++ ds ++ w2) (MState (m_pos st' - length v) (v ++ m_rest st') (m_caps st)) /\
    reads_cap 1 (MState (m_pos st' - length v) (v ++ m_rest st') (m_caps st)) v st'.
Proof.
  unfold durationRegex. split.
  - intros HM.
    apply Match_seqs_cons in HM as (s1 & H1 & HM).
    apply Match_lit_ci_upper in H1 as (t & Ht & R1).
    apply Match_seqs_cons in HM as (s2 & H2 & HM).
    apply Match_ws_plus in H2 as (w1 & Hn1 & Hw1 & R2).
    apply Match_seqs_cons in HM as (s3 & H3 & HM).
    apply Match_lit_ci_upper in H3 as (ds & Hds & R3).
    apply Match_seqs_cons in HM as (s4 & H4 & HM).
    apply Match_ws_star in H4 as (w2 & Hw2 & R4).
    apply Match_seqs_cons in HM as (s5 & H5 & HM).
    apply (Match_Group_reads 1 _ (fun v => v <> [] /\ forallb (fun c => negb (c =? 10)%N) v = true))
      in H5 as (v & [Hnv Hv] & R5).
    2:{ intros sa sb. rewrite Match_plus_class.
        split; [intros (v' & ? & ? & ?)|intros (v' & [? ?] & ?)]; eauto. }
    apply Match_seqs_nil in HM. subst s5.
    exists t, w1, ds, w2, v. repeat (split; [done|]).
    assert (R : reads st (t ++ w1 ++ ds ++ w2) s4)
      by (repeat (eapply reads_app; [eassumption|]); done).
    assert (E4 : s4 = MState (m_pos st' - length v) (v ++ m_rest st') (m_caps st)).
    { destruct R as (_ & _ & C), R5 as (E5 & P5 & _). destruct s4 as [pos4 rest4 caps4].
      simpl in *. subst. f_equal. lia. }
    by rewrite <- E4.
  - intros (t & w1 & ds & w2 & v & Ht & Hn1 & Hw1 & Hds & Hw2 & Hnv & Hv & R & R5).
    apply reads_app_inv in R as (s1 & R1 & R). apply reads_app_inv in R as (s2 & R2 & R).
    apply reads_app_inv in R as (s3 & R3 & R4).
    apply Match_seqs_cons. exists s1. split; [apply Match_lit_ci_upper; eauto|].
    apply Match_seqs_cons. exists s2. split; [apply Match_ws_plus; eauto|].
    apply Match_seqs_cons. exists s3. split; [apply Match_lit_ci_upper; eauto|].
    apply Match_seqs_cons. eexists. split; [apply Match_ws_star; eauto|].
    apply Match_seqs_cons. exists st'. split; [|by apply Match_seqs_nil].
    apply (Match_Group_reads 1 _ (fun v => v <> [] /\ forallb (fun c => negb (c =? 10)%N) v = true)).
    { intros sa sb. rewrite Match_plus_class.
      split; [intros (v' & ? & ? & ?)|intros (v' & [? ?] & ?)]; eauto. }
    eauto.
Qed.

Lemma notLF_In v : forallb (fun c => negb (c =? 10)%N) v = true <-> ~ In 10%N v.
Proof.
  rewrite forallb_forall. split.
  - intros H Hi. apply H in Hi. by vm_compute in Hi.
  - intros H c Hc. apply negb_true_iff, N.eqb_neq. by intros ->.
Qed.

(** X9.  [extractDuration] is defined exactly when the content holds
    "Total duration:" (any case, white space after "Total") followed, after
    white space that may run over line breaks, by a character other than a
    newline; the result is then a text that starts behind such a marker and
    its white space and runs to the end of the line it stands on, trimmed: a
    text without newline and without white space at either end. *)
Theorem extractDuration_spec content :
  match extractDuration content with
  | Some d =>
      trim d = d /\ ~ In 10%N d /\ exists v, durationText content v /\ d = trim v
  | None => forall v, ~ durationText content v
  end.
Proof.
  unfold extractDuration. destruct (exec durationRegex content 0) as [m|] eqn:E.
  - pose proof (durationRegex_ends _ _ E) as Hend.
    apply exec_Match in E as (st' & [_ Hk] & HM & Em).
    set (k := mr_index m) in *. clearbody k.
    apply durationRegex_Match in HM
      as (t & w1 & ds & w2 & v & Ht & Hn1 & Hw1 & Hds & Hw2 & Hnv & Hv & R & R5).
    assert (Hc : cap m 1 = Some v).
    { rewrite Em. unfold cap, result_at. simpl. by apply reads_cap_lookup in R5. }
    assert (He : drop (mr_end m) content = m_rest st').
    { rewrite Em. unfold result_at. simpl.
      destruct R as (E1 & P1 & _), R5 as (E5 & P5 & _). unfold start_at in E1, P1.
      simpl in E1, P1, E5, P5.
      assert (m_pos st' = k + length ((t ++ w1 ++ ds ++ w2) ++ v)) as ->
        by (rewrite length_app; lia).
      rewrite <- drop_drop, E1, (app_assoc (t ++ w1 ++ ds ++ w2) v (m_rest st')).
      by rewrite drop_app_length. }
    rewrite Hc. destruct v as [|c v]; [done|]. simpl.
    split; [apply trim_idem|]. apply notLF_In in Hv. split.
    + intros Hi. apply Hv. destruct (occurs_trim (c :: v)) as (a & b & Eo).
      rewrite Eo. apply in_or_app. right. apply in_or_app. by left.
    + exists (c :: v). split; [|done].
      exists (take k content), t, w1, ds, w2, (m_rest st').
      split.
      { destruct R as (E1 & _). unfold start_at in E1. simpl in E1.
        rewrite <- (take_drop k content) at 1. rewrite E1. by rewrite <- !app_assoc. }
      repeat (split; [done|]). by rewrite <- He.
  - intros v (pre & t & w1 & ds & w2 & post & -> & Ht & Hn1 & Hw1 & Hds & Hw2 & Hnv & Hv & _).
    apply (exec_misses _ _ (length pre)
             (MState (length pre + length (t ++ w1 ++ ds ++ w2) + length v) post (<[1 := v]> ∅)) E).
    { rewrite length_app. lia. }
    apply durationRegex_Match. exists t, w1, ds, w2, v.
    repeat (split; [done|]). split; [by apply notLF_In|].
    unfold start_at. rewrite drop_app_length. simpl.
    replace (length pre + length (t ++ w1 ++ ds ++ w2) + length v - length v)
      with (length pre + length (t ++ w1 ++ ds ++ w2)) by lia.
    split.
    + replace (t ++ w1 ++ ds ++ w2 ++ v ++ post) with ((t ++ w1 ++ ds ++ w2) ++ v ++ post)
        by (by rewrite <- !app_assoc).
      apply reads_intro.
    + apply reads_cap_intro.
Qed.

(** The white space behind the colon runs over line breaks: the duration
    may stand on the line below the marker. *)
Lemma duration_below_the_marker :
  extractDuration (js "Total duration:" ++ LF ++ js "5m 3s" ++ LF ++ js "x")
  = Some (js "5m 3s").
Proof. vm_compute. reflexivity. Qed.

(** ** Maps in insertion order *)

Lemma mapGet_mapSet {V} (m : jsMap V) k v k' :
  mapGet (mapSet m k v) k' = if eqs k k' then Some v else mapGet m k'.
Proof.
  induction m as [|[k0 v0] m IH]; simpl.
  - done.
  - destruct (eqs k0 k) eqn:E; simpl.
    + apply eqs_true in E as ->. by destruct (eqs k k').
    + rewrite IH. destruct (eqs k0 k') eqn:E'; [|done].
      apply eqs_true in E' as ->. apply eqs_false in E.
      assert (eqs k k' = false) as -> by (apply eqs_false; congruence). done.
Qed.

Lemma mapGet_keys {V} (m : jsMap V) k : is_Some (mapGet m k) <-> k ∈ List.map fst m.
Proof.
  induction m as [|[k0 v0] m IH]; simpl.
  - split; [by intros [? ?]|by intros ?%elem_of_nil].
  - destruct (eqs k0 k) eqn:E.
    + apply eqs_true in E as ->. split; [intros _; by left|by eauto].
    + apply eqs_false in E. rewrite IH. split; [by right|].
      intros [?|?]%elem_of_cons; [by subst|done].
Qed.

Lemma mapSet_keys {V} (m : jsMap V) k v :
  List.map fst (mapSet m k v) =
  if bool_decide (k ∈ List.map fst m) then List.map fst m else List.map fst m ++ [k].
Proof.
  induction m as [|[k0 v0] m IH].
  - by simpl.
  - cbn [mapSet]. destruct (eqs k0 k) eqn:E.
    + apply eqs_true in E as ->. simpl.
      rewrite bool_decide_eq_true_2; [done|by left].
    + apply eqs_false in E. simpl. rewrite IH.
      destruct (bool_decide (k ∈ List.map fst m)) eqn:B.
      * apply bool_decide_eq_true in B. rewrite bool_decide_eq_true_2; [done|by right].
      * apply bool_decide_eq_false in B. rewrite bool_decide_eq_false_2; [done|].
        intros [?|?]%elem_of_cons; [by subst|done].
Qed.

Section GroupFold.
Context {X V : Type} (key : X -> jsstring) (upd : option V -> X -> V).

Lemma groupFold_get xs : forall m k,
  mapGet (groupFold key upd m xs) k =
  fold_left (fun o x => Some (upd o x)) (withKey key k xs) (mapGet m k).
Proof.
  unfold groupFold, withKey. induction xs as [|x xs IH]; intros m k; simpl; [done|].
  rewrite IH, mapGet_mapSet. destruct (eqs (key x) k) eqn:E; simpl; [|done].
  apply eqs_true in E. by rewrite E.
Qed.

Lemma firstSeen_snoc_seen ks : forall seen k,
  k ∈ seen -> firstSeen (seen ++ [k]) ks = firstSeen seen ks.
Proof.
  induction ks as [|a ks IH]; intros seen k Hk; simpl; [done|].
  destruct (bool_decide (a ∈ seen)) eqn:B.
  - apply bool_decide_eq_true in B.
    rewrite bool_decide_eq_true_2 by (apply elem_of_app; by left).
    by apply IH.
  - apply bool_decide_eq_false in B. rewrite bool_decide_eq_false_2.
    + f_equal. apply (IH (a :: seen) k). by right.
    + intros [?|?%list_elem_of_singleton]%elem_of_app; [done|by subst].
Qed.

Lemma firstSeen_perm ks : forall seen seen',
  (forall k, k ∈ seen <-> k ∈ seen') -> firstSeen seen ks = firstSeen seen' ks.
Proof.
  induction ks as [|a ks IH]; intros seen seen' H; simpl; [done|].
  destruct (bool_decide (a ∈ seen)) eqn:B.
  - apply bool_decide_eq_true in B. rewrite bool_decide_eq_true_2 by by apply H.
    by apply IH.
  - apply bool_decide_eq_false in B. rewrite bool_decide_eq_false_2 by by rewrite <- H.
    f_equal. apply IH. intros k. rewrite !elem_of_cons, H. done.
Qed.

Lemma groupFold_keys xs : forall m,
  List.map fst (groupFold key upd m xs) =
  List.map fst m ++ firstSeen (List.map fst m) (List.map key xs).
Proof.
  unfold groupFold. induction xs as [|x xs IH]; intros m; simpl.
  - by rewrite app_nil_r.
  - rewrite IH, mapSet_keys. destruct (bool_decide (key x ∈ List.map fst m)); [done|].
    rewrite <- app_assoc. simpl. f_equal. f_equal.
    apply firstSeen_perm. intros k.
    rewrite elem_of_app, !elem_of_cons, elem_of_nil. tauto.
Qed.
End GroupFold.

(** ** Pass rates by model: [computeModelPassRates] *)

Lemma mapSet_mapSet {V} (m : jsMap V) k v v' : mapSet (mapSet m k v) k v' = mapSet m k v'.
Proof.
  induction m as [|[k0 v0] m IH]; simpl.
  - by assert (eqs k k = true) as -> by by apply eqs_true.
  - destruct (eqs k0 k) eqn:E; simpl; rewrite E; [done|]. by rewrite IH.
Qed.

Lemma parsePassFail_returns text : exists v, parsePassFailFromLogText text = Returns v.
Proof.
  destruct text as [|a text]; [by exists None|].
  destruct (parsePassFail_cases (a :: text)) as (c & c' & _ & _ & _ & H).
  rewrite H by done. eauto.
Qed.

Section PassRates.
Variables upperCase lowerCase : jsstring -> jsstring.
Variable fetchRaw : jsstring -> option jsstring.

Let modelOf (fname : jsstring) : jsstring :=
  fst (parseTrajectoryFilename upperCase lowerCase fname).
Let zero : ModelCounts := {| mc_pass := 0; mc_fail := 0; mc_total := 0 |}.
Let tick (o : option ModelCounts) (r : jsstring * bool) : ModelCounts :=
  bump (snd r) (default zero o).

Lemma countVerdict_set counts fname ok :
  countVerdict upperCase lowerCase counts (Some (fname, ok)) =
  Returns (mapSet counts (modelOf fname) (tick (mapGet counts (modelOf fname)) (fname, ok))).
Proof.
  unfold countVerdict, mapHas, tick. fold (modelOf fname).
  destruct (mapGet counts (modelOf fname)) as [e|] eqn:E.
  - by rewrite E.
  - rewrite mapGet_mapSet.
    assert (eqs (modelOf fname) (modelOf fname) = true) as -> by by apply eqs_true.
    by rewrite mapSet_mapSet.
Qed.

Lemma countVerdicts_fold rs : forall counts,
  countVerdicts upperCase lowerCase counts rs =
  Returns (groupFold (fun r => modelOf (fst r)) tick counts (somes rs)).
Proof.
  induction rs as [|[[fname ok]|] rs IH]; intros counts; cbn [countVerdicts].
  - done.
  - rewrite countVerdict_set. simpl. by rewrite IH.
  - simpl. by rewrite IH.
Qed.

Lemma fetchVerdicts_returns logs :
  exists rs, fetchVerdicts fetchRaw logs = Returns rs /\
    somes rs = List.map (fun h => (fst h, passes (snd h))) (fetchedLogs fetchRaw logs).
Proof.
  induction logs as [|log logs (rs & E & Hrs)]; [by exists []|].
  cbn [fetchVerdicts fetchedLogs]. unfold fetchVerdict.
  destruct (fetchRaw (lf_filename log)) as [text|]; simpl.
  - destruct (parsePassFail_returns text) as [v Hv]. rewrite Hv, E. simpl.
    eexists. split; [done|]. cbn [somes List.map fst snd]. rewrite Hrs. f_equal. f_equal.
    unfold passes. rewrite Hv. by destruct v as [[|]|].
  - rewrite E. simpl. eexists. split; [done|]. done.
Qed.

Lemma tally_some hits : forall c,
  fold_left (fun o r => Some (tick o r)) hits (Some c) =
  Some {| mc_pass := mc_pass c + length (List.filter (fun r : jsstring * bool => snd r) hits);
          mc_fail := mc_fail c + length (List.filter (fun r : jsstring * bool => negb (snd r)) hits);
          mc_total := mc_total c + length hits |}.
Proof.
  induction hits as [|[f ok] hits IH]; intros [p q t]; simpl.
  - f_equal. f_equal; lia.
  - rewrite IH. unfold tick, bump. simpl. destruct ok; simpl; f_equal; f_equal; lia.
Qed.

Lemma tally_none hits :
  fold_left (fun o r => Some (tick o r)) hits None =
  match hits with
  | [] => None
  | _ => Some {| mc_pass := length (List.filter (fun r : jsstring * bool => snd r) hits);
                 mc_fail := length (List.filter (fun r : jsstring * bool => negb (snd r)) hits);
                 mc_total := length hits |}
  end.
Proof.
  destruct hits as [|[f ok] hits]; [done|]. simpl. rewrite tally_some.
  unfold tick, bump. simpl. by destruct ok.
Qed.

Lemma filter_map_length {A B} (g : A -> B) (p : B -> bool) l :
  length (List.filter p (List.map g l)) = length (List.filter (fun a => p (g a)) l).
Proof.
  induction l as [|a l IH]; [done|]. simpl. destruct (p (g a)); simpl; by rewrite IH.
Qed.

Lemma withKey_map {A B} (g : A -> B) (key : B -> jsstring) k l :
  withKey key k (List.map g l) = List.map g (withKey (fun a => key (g a)) k l).
Proof.
  unfold withKey. induction l as [|a l IH]; [done|]. simpl.
  destruct (eqs (key (g a)) k); simpl; by rewrite IH.
Qed.

Lemma row_of_map (l : list (jsstring * jsstring)) :
  match List.map (fun h => (fst h, passes (snd h))) l with
  | [] => None
  | _ :: _ =>
      Some {| mc_pass := length (List.filter (fun r : jsstring * bool => snd r)
                                   (List.map (fun h => (fst h, passes (snd h))) l));
              mc_fail := length (List.filter (fun r : jsstring * bool => negb (snd r))
                                   (List.map (fun h => (fst h, passes (snd h))) l));
              mc_total := length (List.map (fun h => (fst h, passes (snd h))) l) |}
  end =
  rowOrNone l.
Proof.
  rewrite !filter_map_length, length_map. by destruct l.
Qed.

(** X10.  The table of [computeModelPassRates] has one row per model of a
    fetched log, in the order in which the models first appear; the row of
    a model counts the fetched logs of that model: [total] all of them,
    [pass] those whose text gives the verdict [true], [fail] the others.
    So [total = pass + fail] and no row is empty.  A log that could not be
    fetched is in no row. *)
Theorem pass_rates logs :
  exists counts,
    computeModelPassRates upperCase lowerCase fetchRaw logs = Returns counts /\
    List.map fst counts =
      firstSeen [] (List.map (fun h => modelOf (fst h)) (fetchedLogs fetchRaw logs)) /\
    (forall model,
       mapGet counts model =
       rowOrNone (withKey (fun h => modelOf (fst h)) model (fetchedLogs fetchRaw logs))) /\
    (forall model c, mapGet counts model = Some c ->
       mc_total c = mc_pass c + mc_fail c /\ 1 <= mc_total c).
Proof.
  unfold computeModelPassRates.
  destruct (fetchVerdicts_returns logs) as (rs & -> & Hrs). simpl.
  rewrite countVerdicts_fold, Hrs. eexists. split; [done|].
  assert (Hget : forall model,
    mapGet (groupFold (fun r => modelOf (fst r)) tick []
              (List.map (fun h => (fst h, passes (snd h))) (fetchedLogs fetchRaw logs))) model =
    rowOrNone (withKey (fun h => modelOf (fst h)) model (fetchedLogs fetchRaw logs))).
  { intros model. rewrite groupFold_get. simpl.
    rewrite (withKey_map (fun h => (fst h, passes (snd h)))). simpl.
    rewrite tally_none. apply row_of_map. }
  split; [|split; [exact Hget|]].
  - rewrite groupFold_keys. simpl. f_equal. rewrite List.map_map. done.
  - intros model c. rewrite Hget.
    destruct (withKey _ model (fetchedLogs fetchRaw logs)) as [|h hits]; [done|].
    unfold rowOrNone. intros H. assert (c = rowOf (h :: hits)) as -> by congruence.
    unfold rowOf. cbn [mc_total mc_pass mc_fail]. split; [|simpl; lia].
    generalize (h :: hits). intros l. induction l as [|a l IH]; [done|]. simpl.
    destruct (passes (snd a)); simpl; lia.
Qed.
End PassRates.

(** ** Groups by task: [buildGroupedMap] *)

Section Groups.
Variables upperCase lowerCase : jsstring -> jsstring.

Let taskOf (log : LogFile) : jsstring := getTaskIdFromFilename (lf_filename log).
Let entryOf (log : LogFile) : GroupedEntry :=
  {| ge_log := log;
     ge_model := fst (parseTrajectoryFilename upperCase lowerCase (lf_filename log)) |}.
Let push (o : option (list GroupedEntry)) (log : LogFile) : list GroupedEntry :=
  default [] o ++ [entryOf log].

Lemma pushes_some hits : forall l,
  fold_left (fun o x => Some (push o x)) hits (Some l) = Some (l ++ List.map entryOf hits).
Proof.
  induction hits as [|h hits IH]; intros l; simpl; [by rewrite app_nil_r|].
  rewrite IH. unfold push. simpl. by rewrite <- app_assoc.
Qed.

Lemma pushes_none hits :
  fold_left (fun o x => Some (push o x)) hits None = groupOrNone (List.map entryOf hits).
Proof. destruct hits as [|h hits]; [done|]. simpl. by rewrite pushes_some. Qed.

(** X11.  [buildGroupedMap] has one group per task id of the logs, in the order
    in which the task ids first appear; the group of a task id holds the
    logs with that id, each once, in the order of the list, each with the
    model its file name resolves to.  So every log is in the group of its
    own task id, no group is empty, and a group holds only logs of its
    task id. *)
Theorem groups_by_task logs :
  List.map fst (buildGroupedMap upperCase lowerCase logs) =
    firstSeen [] (List.map taskOf logs) /\
  (forall id,
     mapGet (buildGroupedMap upperCase lowerCase logs) id =
     groupOrNone (List.map entryOf (withKey taskOf id logs))) /\
  (forall log, In log logs ->
     exists entries,
       mapGet (buildGroupedMap upperCase lowerCase logs) (taskOf log) = Some entries /\
       In (entryOf log) entries) /\
  (forall id entries,
     mapGet (buildGroupedMap upperCase lowerCase logs) id = Some entries ->
     entries <> [] /\
     Forall (fun e => getTaskIdFromFilename (lf_filename (ge_log e)) = id) entries).
Proof.
  assert (E : buildGroupedMap upperCase lowerCase logs = groupFold taskOf push [] logs) by done.
  assert (Hget : forall id,
     mapGet (buildGroupedMap upperCase lowerCase logs) id =
     groupOrNone (List.map entryOf (withKey taskOf id logs))).
  { intros id. by rewrite E, groupFold_get, pushes_none. }
  split; [by rewrite E, groupFold_keys|]. split; [exact Hget|]. split.
  - intros log Hlog. rewrite Hget.
    assert (Hin : In log (withKey taskOf (taskOf log) logs)).
    { apply filter_In. split; [done|]. by apply eqs_true. }
    destruct (withKey taskOf (taskOf log) logs) as [|h hits] eqn:Eh; [done|].
    eexists. split; [done|]. by apply in_map.
  - intros id entries. rewrite Hget.
    destruct (withKey taskOf id logs) as [|h hits] eqn:Eh; [done|].
    unfold groupOrNone. cbn [List.map]. intros H.
    assert (entries = List.map entryOf (h :: hits)) as -> by (simpl; congruence).
    split; [done|]. rewrite <- Eh. apply List.Forall_forall. intros e He.
    apply in_map_iff in He as (x & <- & Hx). apply filter_In in Hx as [_ Hx].
    by apply eqs_true in Hx.
Qed.
End Groups.

(** ** Display name of a model: [formatModelName] *)

(** X12.  [formatModelName] maps its own results to themselves: the three display
    names and "Unknown" are left as they are, and so is every name it
    passes through unchanged.  (The case mapping is assumed to lower ASCII
    text as ASCII.) *)
Theorem formatModelName_idempotent (lowerCase : jsstring -> jsstring) :
  (forall s, forallb (fun c => c <? 128)%N s = true -> lowerCase s = toLowerCase s) ->
  forall raw,
    formatModelName lowerCase (formatModelName lowerCase raw) = formatModelName lowerCase raw.
Proof.
  intros H.
  assert (Hfix : forall d, In d [js "Unknown"; js "Claude Sonnet 4.5"; js "Gemini 2.5 Pro"; js "GPT 5"] ->
            formatModelName lowerCase d = d).
  { intros d Hd. simpl in Hd.
    repeat (destruct Hd as [<-|Hd];
            [unfold formatModelName; cbv zeta; rewrite H by reflexivity; by vm_compute|]).
    done. }
  intros raw. destruct raw as [|a r]; [by apply Hfix; left|].
  assert (Hc : In (formatModelName lowerCase (a :: r))
                 [js "Unknown"; js "Claude Sonnet 4.5"; js "Gemini 2.5 Pro"; js "GPT 5"] \/
               formatModelName lowerCase (a :: r) = a :: r).
  { unfold formatModelName. cbv zeta.
    destruct (includes (lowerCase (a :: r)) (js "claude")); [left; right; by left|].
    destruct (includes (lowerCase (a :: r)) (js "gemini")); [left; right; right; by left|].
    destruct (includes (lowerCase (a :: r)) (js "gpt-5") || includes (lowerCase (a :: r)) (js "gpt 5"));
      [left; right; right; right; by left|by right]. }
  destruct Hc as [Hc|Hc]; [by apply Hfix|]. by rewrite !Hc.
Qed.

Lemma formatModelName_idempotent_witness :
  (forall s, forallb (fun c => c <? 128)%N s = true -> toLowerCase s = toLowerCase s) /\
  formatModelName toLowerCase (formatModelName toLowerCase (js "x-Claude-y")) =
  formatModelName toLowerCase (js "x-Claude-y").
Proof.
  split; [done|].
  exact (formatModelName_idempotent toLowerCase (fun s _ => eq_refl) (js "x-Claude-y")).
Defined.

(** ** Rows of a diff: [formatDiff] *)

Lemma split_go_no_LF s : forall cur l,
  ~ In 10%N cur -> In l (split_go LF 0 cur s) -> ~ In 10%N l.
Proof.
  induction s as [|c s IH]; intros cur l Hcur.
  - simpl. intros [<-|[]]. by rewrite <- in_rev.
  - rewrite split_go_cons, isPrefix_LF. destruct (10 =? c)%N eqn:E.
    + change (length LF - 1) with 0. intros [<-|H]; [by rewrite <- in_rev|].
      apply (IH [] l); [by intros []|done].
    + apply N.eqb_neq in E. apply IH. intros [?|?]; [by subst|done].
Qed.

Lemma split_no_sep d l : In l (split LF d) -> ~ In 10%N l.
Proof. intros H. apply (split_go_no_LF d [] l); [by intros []|exact H]. Qed.

(** X13.  The rows [formatDiff] renders are the lines of the diff text: joined by
    newlines their texts give the diff text back, there is at least one
    row, and for a diff text that is not empty their number is the line
    count [extractDiffs] reports for it. *)
Theorem formatDiff_rows d :
  join LF (List.map snd (formatDiff d)) = d /\
  1 <= length (formatDiff d) /\
  (d <> [] -> length (formatDiff d) = lineCount (Some d)) /\
  Forall (fun row => ~ In 10%N (snd row) /\ fst row = diffStyleOf (snd row)) (formatDiff d).
Proof.
  unfold formatDiff. rewrite List.map_map. simpl. rewrite List.map_id.
  split; [by apply join_split|]. rewrite length_map.
  split; [apply split_go_length|]. split.
  - intros Hd. by destruct d.
  - apply List.Forall_map. apply List.Forall_forall. intros l Hl. simpl. split; [|done].
    revert Hl. apply split_no_sep.
Qed.

(** ** Harness lines in a tool result: [filterHarnessMessages] *)

Lemma harnessPattern_Match st st' :
  Match harnessPattern st st' <->
  m_pos st = 0 /\
  exists pre w, length pre <= 1 /\ forallb isDot pre = true /\ forallb isWS w = true /\
    reads st (pre ++ w ++ js "HARNESS:") st'.
Proof.
  unfold harnessPattern. split.
  - intros HM.
    apply Match_seqs_cons in HM as (s1 & H1 & HM). apply Match_Bol_inv in H1 as [-> Hp].
    split; [done|].
    apply Match_seqs_cons in HM as (s2 & H2 & HM).
    apply Match_seqs_cons in HM as (s3 & H3 & HM). apply Match_ws_star in H3 as (w & Hw & R3).
    apply Match_seqs_cons in HM as (s4 & H4 & HM). apply Match_lit in H4.
    apply Match_seqs_nil in HM. subst s4.
    apply Match_Alt_inv in H2 as [H2|H2].
    + apply Match_Chr_inv in H2 as (c & Hc & R2). exists [c], w.
      split; [simpl; lia|]. split; [simpl; by rewrite Hc|]. split; [done|].
      eapply reads_app; [exact R2|]. eapply reads_app; eassumption.
    + apply Match_Eps_inv in H2 as ->. exists [], w.
      split; [simpl; lia|]. split; [done|]. split; [done|].
      simpl. eapply reads_app; eassumption.
  - intros (Hp & pre & w & Hl & Hd & Hw & R).
    apply reads_app_inv in R as (s2 & R2 & R). apply reads_app_inv in R as (s3 & R3 & R4).
    apply Match_seqs_cons. exists st. split; [by apply Match_Bol_inv|].
    apply Match_seqs_cons. exists s2. split.
    { apply Match_Alt_inv. destruct pre as [|c [|c' pre]]; [right|left|simpl in Hl; lia].
      - apply Match_Eps_inv. by apply reads_nil_inv in R2.
      - apply Match_Chr_inv. exists c. split; [|done]. simpl in Hd.
        by apply andb_true_iff in Hd as [? _]. }
    apply Match_seqs_cons. exists s3. split; [apply Match_ws_star; eauto|].
    apply Match_seqs_cons. exists st'. split; [by apply Match_lit|by apply Match_seqs_nil].
Qed.

Lemma test_harness t : test harnessPattern t = true <-> harnessShape t.
Proof.
  unfold test. split.
  - destruct (exec harnessPattern t 0) as [m|] eqn:E; [intros _|done].
    apply exec_Match in E as (st' & _ & HM & _).
    apply harnessPattern_Match in HM as (Hp & pre & w & Hl & Hd & Hw & (E & _)).
    unfold start_at in Hp, E. simpl in Hp, E. rewrite Hp, drop_0 in E.
    exists pre, w, (m_rest st'). split; [by rewrite E, <- !app_assoc|done].
  - intros (pre & w & rest & -> & Hl & Hd & Hw).
    destruct (exec harnessPattern _ 0) as [m|] eqn:E; [done|]. exfalso.
    apply (exec_misses _ _ 0 (MState (0 + length (pre ++ w ++ js "HARNESS:")) rest ∅) E);
      [lia|].
    apply harnessPattern_Match. split; [done|]. exists pre, w.
    split; [done|]. split; [done|]. split; [done|].
    unfold start_at. rewrite drop_0.
    replace (pre ++ w ++ js "HARNESS:" ++ rest) with ((pre ++ w ++ js "HARNESS:") ++ rest)
      by (by rewrite <- !app_assoc).
    apply reads_intro.
Qed.

Lemma dropWhile_keeps p c tail : forall l,
  p c = false -> exists l', dropWhile p (l ++ c :: tail) = l' ++ c :: tail.
Proof.
  intros l Hc. induction l as [|x l [l' IH]]; simpl.
  - rewrite Hc. by exists [].
  - destruct (p x); [eauto|]. by exists (x :: l).
Qed.

Lemma trim_two_kept c1 c2 x :
  isWS c1 = false -> isWS c2 = false -> exists x', trim (c1 :: c2 :: x) = c1 :: c2 :: x'.
Proof.
  intros H1 H2. unfold trim, trimStart, trimEnd. simpl dropWhile. rewrite H1.
  change (rev (c1 :: c2 :: x)) with ((rev x ++ [c2]) ++ [c1]). rewrite <- app_assoc.
  change ([c2] ++ [c1]) with [c2; c1].
  destruct (dropWhile_keeps isWS c2 [c1] (rev x) H2) as [l' ->].
  exists (rev l'). rewrite rev_app_distr. done.
Qed.

(** X14.  [filterHarnessMessages] keeps the lines in their order and removes
    exactly those whose trimmed text is "HARNESS:" after white space and at
    most one code unit.  A harness line behind one of the seven glyphs is
    therefore kept: a glyph is two code units. *)
Theorem harness_lines_removed lines :
  (forall l, In l (filterHarnessMessages lines) <-> In l lines /\ ~ harnessShape (trim l)) /\
  sublist (filterHarnessMessages lines) lines /\
  (forall glyph x, In glyph sourceGlyphs -> In (glyph ++ x) lines ->
     In (glyph ++ x) (filterHarnessMessages lines)).
Proof.
  assert (H : forall l, In l (filterHarnessMessages lines) <->
                        In l lines /\ ~ harnessShape (trim l)).
  { intros l. unfold filterHarnessMessages. rewrite filter_In, negb_true_iff.
    rewrite <- test_harness. destruct (test harnessPattern (trim l)); intuition congruence. }
  split; [exact H|]. split.
  - unfold filterHarnessMessages. clear H.
    induction lines as [|l lines IH]; [constructor|]. cbn [List.filter].
    destruct (negb (test harnessPattern (trim l)));
      [apply sublist_skip, IH|apply sublist_cons, IH].
  - intros glyph x Hg Hin. apply H. split; [done|].
    assert (Hs : exists c1 c2, glyph = [c1; c2] /\ isWS c1 = false /\ isWS c2 = false /\
                   c1 <> 72%N /\ c2 <> 72%N).
    { simpl in Hg. repeat (destruct Hg as [<-|Hg]; [by eexists _, _|]). done. }
    destruct Hs as (c1 & c2 & -> & H1 & H2 & N1 & N2).
    destruct (trim_two_kept c1 c2 x H1 H2) as [x' E]. simpl app. rewrite E.
    intros (pre & w & rest & Et & Hl & _ & Hw).
    destruct pre as [|p [|p' pre]]; [| |simpl in Hl; lia].
    + destruct w as [|v w]; simpl in Et; injection Et as Et _.
      * by apply N1.
      * simpl in Hw. apply andb_true_iff in Hw as [Hv _]. congruence.
    + simpl in Et. injection Et as _ Et.
      destruct w as [|v w]; simpl in Et; injection Et as Et _.
      * by apply N2.
      * simpl in Hw. apply andb_true_iff in Hw as [Hv _]. congruence.
Qed.

(** ** The task id of a file name: [getTaskIdFromFilename] *)

Lemma Match_seqs_group_occurs i a (P : jsstring -> Prop) post :
  (forall s1 s2, Match a s1 s2 <-> exists v, P v /\ reads s1 v s2) ->
  ~ In i (groups (seqs post)) ->
  forall pre st st', Match (seqs (pre ++ Group i a :: post)) st st' ->
    exists v, m_caps st' !! i = Some v /\ occurs v (m_rest st).
Proof.
  intros Ha Hpost. induction pre as [|b pre IH]; intros st st' HM.
  - simpl app in HM. apply Match_seqs_cons in HM as (st1 & H1 & HM).
    apply (Match_Group_reads i a P) in H1 as (v & Hv & H1); [|done].
    exists v. split.
    + rewrite (Match_caps_frame _ _ _ HM) by done. eapply reads_cap_lookup; eauto.
    + destruct H1 as (E & _). rewrite E. by exists [], (m_rest st1).
  - change ((b :: pre) ++ Group i a :: post) with (b :: (pre ++ Group i a :: post)) in HM.
    apply Match_seqs_cons in HM as (st1 & H1 & HM).
    apply IH in HM as (v & Hc & Ho). exists v. split; [done|].
    apply Match_consumes in H1 as (w & -> & _). by apply occurs_app_l.
Qed.

Lemma modelPatterns_task_occurs pattern fname m :
  In pattern modelPatterns -> exec pattern fname 0 = Some m ->
  exists v, cap m 2 = Some v /\ occurs v fname.
Proof.
  intros Hin E. apply exec_Match in E as (st' & _ & HM & ->).
  set (k := mr_index _) in *. clearbody k.
  assert (H : exists v, m_caps st' !! 2 = Some v /\ occurs v (m_rest (start_at fname k))).
  { revert Hin HM. unfold modelPatterns. intros [<-|[<-|[<-|[]]]] HM.
    - apply (Match_seqs_group_occurs 2 (plus_lazy dot) (fun v => v <> [] /\ forallb isDot v = true)
               [chr 46; Group 3 logOrTxt; Eol]
               ltac:(intros s1 s2; unfold dot; rewrite Match_plus_lazy_class;
                     split; [intros (v & ? & ? & ?) | intros (v & [? ?] & ?)]; eauto)
               ltac:(vm_compute; intuition lia)
               [Bol; Group 1 (plus_lazy dot); Chr isSep] _ _ HM).
    - apply (Match_seqs_group_occurs 2 (plus dot) (fun v => v <> [] /\ forallb isDot v = true)
               [Eol]
               ltac:(intros s1 s2; unfold dot; rewrite Match_plus_class;
                     split; [intros (v & ? & ? & ?) | intros (v & [? ?] & ?)]; eauto)
               ltac:(vm_compute; tauto)
               [Bol; Group 1 (plus_lazy dot); Chr isSep] _ _ HM).
    - apply (Match_seqs_group_occurs 2 (plus dot) (fun v => v <> [] /\ forallb isDot v = true)
               [Eol]
               ltac:(intros s1 s2; unfold dot; rewrite Match_plus_class;
                     split; [intros (v & ? & ? & ?) | intros (v & [? ?] & ?)]; eauto)
               ltac:(vm_compute; tauto)
               [Bol; Group 1 (plus (Chr (fun c => negb (isSep c)))); Chr isSep] _ _ HM). }
  destruct H as (v & Hc & Ho). exists v. split; [done|].
  unfold start_at in Ho. simpl in Ho. by apply occurs_drop in Ho.
Qed.

Lemma genericTask_occurs fname : forall patterns t,
  (forall p, In p patterns -> In p modelPatterns) ->
  genericTask patterns fname = Some t -> occurs t fname.
Proof.
  induction patterns as [|p ps IH]; intros t Hsub; simpl; [done|].
  assert (Hps : forall q, In q ps -> In q modelPatterns) by (intros q Hq; apply Hsub; by right).
  destruct (exec p fname 0) as [m|] eqn:E; [|by apply IH].
  destruct (modelPatterns_task_occurs p fname m (Hsub p (or_introl eq_refl)) E)
    as (v & Hc & Ho).
  rewrite Hc. destruct v as [|c v]; simpl; [by apply IH|]. by intros [= <-].
Qed.

Lemma knownTask_occurs fname : forall ids t, knownTask ids fname = Some t -> occurs t fname.
Proof.
  induction ids as [|p ids IH]; intros t; simpl; [done|].
  destruct (indexOf p fname) as [idx|]; [|apply IH].
  intros [= <-]. unfold substring. apply (occurs_drop _ (idx + length p)). apply occurs_refl.
Qed.

(** What the two clean-up replacements remove *)
Lemma leadingSeps_removes s : exists k, replaceRe leadingSeps [] s = drop k s.
Proof.
  unfold replaceRe. destruct (exec leadingSeps s 0) as [m|] eqn:E; [|by exists 0].
  apply exec_Match in E as (st' & _ & HM & ->). simpl.
  unfold leadingSeps in HM. apply Match_seqs_cons in HM as (s1 & H1 & _).
  apply Match_Bol_inv in H1 as [_ Hp]. unfold start_at in Hp. simpl in Hp.
  rewrite Hp. simpl. eauto.
Qed.

Lemma logExt_removes s :
  replaceRe logExt [] s = s \/
  exists ext, s = replaceRe logExt [] s ++ 46%N :: ext /\
    (toUpperCase ext = js "LOG" \/ toUpperCase ext = js "TXT").
Proof.
  unfold replaceRe. destruct (exec logExt s 0) as [m|] eqn:E; [right|by left].
  apply exec_Match in E as (st' & [_ Hk] & HM & ->). simpl.
  set (k := mr_index _) in *. clearbody k.
  unfold logExt in HM.
  apply Match_seqs_cons in HM as (s1 & H1 & HM). apply Match_chr in H1 as (E1 & P1 & _).
  apply Match_seqs_cons in HM as (s2 & H2 & HM).
  apply (Match_Group_reads 1 _ (fun v => toUpperCase v = js "LOG" \/ toUpperCase v = js "TXT"))
    in H2 as (ext & Hext & (E2 & P2 & _)).
  2:{ intros sa sb. unfold logOrTxt. rewrite Match_Alt_inv, !Match_lit_ci_upper.
      split.
      - intros [(v & Hv & R)|(v & Hv & R)]; exists v; (split; [|done]); [by left|by right].
      - intros (v & [Hv|Hv] & R); [left|right]; eauto. }
  apply Match_seqs_cons in HM as (s3 & H3 & HM). apply Match_Eol_inv in H3 as [-> E3].
  apply Match_seqs_nil in HM. subst st'.
  unfold start_at in E1, P1. simpl in E1, P1.
  assert (Ed : drop k s = 46%N :: ext) by (rewrite E1, E2, E3; simpl; by rewrite app_nil_r).
  assert (Hend : drop (m_pos s2) s = []).
  { rewrite P2, P1, <- Nat.add_assoc, <- drop_drop, Ed.
    change (1 + length ext) with (length (46%N :: ext)). apply drop_all. }
  exists ext. rewrite Hend, app_nil_r. split; [|done].
  rewrite <- Ed. by rewrite take_drop.
Qed.

Lemma cleanTask_occurs s : occurs (cleanTask s) s.
Proof.
  unfold cleanTask. destruct (leadingSeps_removes s) as [k ->].
  apply (occurs_drop _ k).
  destruct (logExt_removes (drop k s)) as [->|(ext & E & _)]; [apply occurs_refl|].
  rewrite E at 2. exists [], (46%N :: ext). done.
Qed.

Lemma upperCU_cases a x : upperCU a = x -> a = x \/ a = (x + 32)%N.
Proof.
  unfold upperCU. destruct (isLower a) eqn:E; [|by left].
  intros <-. right. unfold isLower in E. apply andb_true_iff in E as [E _].
  apply N.leb_le in E. lia.
Qed.

Lemma extension_only ext :
  toUpperCase ext = js "LOG" \/ toUpperCase ext = js "TXT" ->
  getTaskIdFromFilename (46%N :: ext) <> [].
Proof.
  intros H.
  assert (Hc : exists a b c x y z, ext = [a; b; c] /\ upperCU a = x /\ upperCU b = y /\
                 upperCU c = z /\ In (x, y, z) [(76, 79, 71); (84, 88, 84)]%N).
  { destruct H as [H|H]; destruct ext as [|a [|b [|c [|d ext]]]]; try done;
      injection H as Ha Hb Hc; exists a, b, c; eexists _, _, _;
      (split; [done|]); (split; [exact Ha|]); (split; [exact Hb|]); (split; [exact Hc|]);
      [by left|right; by left]. }
  destruct Hc as (a & b & c & x & y & z & -> & Ha & Hb & Hc & Hin).
  apply upperCU_cases in Ha, Hb, Hc.
  destruct Hin as [[= <- <- <-]|[[= <- <- <-]|[]]];
    destruct Ha as [->| ->], Hb as [->| ->], Hc as [->| ->]; by vm_compute.
Qed.

(** X15.  The task id of a file name is a piece of the file name, and it is
    empty for the empty name only: every log falls in a group with a key
    that is not empty. *)
Theorem task_id_of_filename fname :
  occurs (getTaskIdFromFilename fname) fname /\
  (getTaskIdFromFilename fname = [] <-> fname = []).
Proof.
  assert (H0 : occurs (default fname (knownTask knownModelIds fname)) fname).
  { destruct (knownTask knownModelIds fname) as [t|] eqn:E; [|apply occurs_refl].
    by apply knownTask_occurs in E. }
  set (t0 := default fname (knownTask knownModelIds fname)) in *.
  assert (H1 : occurs (if eqs t0 fname then default t0 (genericTask modelPatterns fname) else t0)
                 fname).
  { destruct (eqs t0 fname); [|done].
    destruct (genericTask modelPatterns fname) as [t|] eqn:E; [|done].
    by apply genericTask_occurs in E. }
  assert (E : getTaskIdFromFilename fname =
              let t1 := if eqs t0 fname then default t0 (genericTask modelPatterns fname) else t0 in
              if eqs (cleanTask t1) [] then replaceRe logExt [] fname else cleanTask t1) by done.
  set (t1 := if eqs t0 fname then _ else _) in *. cbv zeta in E.
  pose proof (logExt_removes fname) as Hext.
  split.
  - rewrite E. destruct (eqs (cleanTask t1) []).
    + destruct Hext as [->|(ext & Ee & _)]; [apply occurs_refl|].
      rewrite Ee at 2. by exists [], (46%N :: ext).
    + eapply occurs_trans; [apply cleanTask_occurs|done].
  - split; [|by intros ->].
    intros Hnil. pose proof Hnil as Hnil'. rewrite E in Hnil.
    destruct (eqs (cleanTask t1) []) eqn:Ec; [|by apply eqs_false in Ec].
    destruct Hext as [Hs|(ext & Ee & Hu)]; [congruence|].
    rewrite Hnil in Ee. simpl in Ee. subst fname. by apply extension_only in Hu.
Qed.

(** ** Names read off the file name *)

Lemma split_go_chr_app c a : forall cur b,
  split_go [c] 0 cur (a ++ c :: b) = split_go [c] 0 cur a ++ split_go [c] 0 [] b.
Proof.
  induction a as [|x a IH]; intros cur b.
  - change ([] ++ c :: b) with (c :: b). rewrite split_go_cons.
    cbn [isPrefix]. by rewrite N.eqb_refl.
  - change ((x :: a) ++ c :: b) with (x :: (a ++ c :: b)).
    rewrite (split_go_cons [c] cur x (a ++ c :: b)), (split_go_cons [c] cur x a).
    cbn [isPrefix]. rewrite !andb_true_r.
    destruct (c =? x)%N.
    + change (length [c] - 1) with 0. by rewrite IH.
    + apply IH.
Qed.

Lemma split_go_chr_last c a : forall cur,
  ~ In c a -> split_go [c] 0 cur a = [rev cur ++ a].
Proof.
  induction a as [|x a IH]; intros cur Hn.
  - simpl. by rewrite app_nil_r.
  - rewrite split_go_cons. cbn [isPrefix]. rewrite andb_true_r.
    destruct (c =? x)%N eqn:E.
    + apply N.eqb_eq in E. destruct Hn. by left.
    + rewrite IH by (intros H; apply Hn; by right).
      simpl. by rewrite <- app_assoc.
Qed.

Lemma split_chr_app c a b : split [c] (a ++ c :: b) = split [c] a ++ split [c] b.
Proof. apply split_go_chr_app. Qed.

Lemma split_chr_last c a : ~ In c a -> split [c] a = [a].
Proof. intros H. unfold split. by rewrite split_go_chr_last. Qed.

Lemma split_chr_In c s : In c s -> 2 <= length (split [c] s).
Proof.
  intros H. apply in_split in H as (a & b & ->).
  rewrite split_chr_app, length_app.
  pose proof (split_go_length [c] a 0 []). pose proof (split_go_length [c] b 0 []).
  unfold split. lia.
Qed.

Lemma replaceStr_log task : ~ In 46%N task -> replaceStr (js ".log") [] (task ++ js ".log") = task.
Proof.
  intros Hn. rewrite <- (app_nil_r (task ++ js ".log")), <- app_assoc.
  rewrite replaceStr_suffix; [apply app_nil_r|].
  intros j Hj. rewrite drop_app_le by lia.
  destruct (drop j task) as [|x t] eqn:E.
  { apply (f_equal length) in E. rewrite length_drop in E. simpl in E. lia. }
  assert (In x task) as Hx.
  { rewrite <- (take_drop j task), E. apply in_or_app. right. by left. }
  change (js ".log") with (46 :: js "log")%N. cbn [app isPrefix].
  destruct (46 =? x)%N eqn:E1; [|done].
  apply N.eqb_eq in E1. by subst x.
Qed.

Lemma header_marker p line :
  classify p line = RHeader ->
  includes line (js "Dataset:") = true /\ includes line (js "Agent:") = true /\
  includes line (js "Model:") = true.
Proof.
  unfold classify.
  destruct (includes line (js "Starting benchmark run")); [done|].
  destruct (includes line (js "Dataset:")), (includes line (js "Agent:")),
    (includes line (js "Model:")); cbn [andb]; try done;
  repeat match goal with
         | |- (if ?c then _ else _) = _ -> _ => destruct c; try done
         end.
Qed.

(** Every rule but the header rule leaves the two names alone. *)
Lemma apply_rule_names r p rawLine line p' :
  r <> RHeader -> apply_rule r p rawLine line = Returns p' ->
  l_taskName p' = l_taskName p /\ l_modelName p' = l_modelName p.
Proof.
  intros Hr. destruct r; cbn [apply_rule]; try done;
    unfold write_detail;
    repeat match goal with
           | |- context [match ?x with _ => _ end] => destruct x; cbn [mbind outcome_bind]
           end;
    try (intros [= <-]; done); try done.
  destruct (cap m 1) as [w|]; [|done]. simpl.
  intros [= <-]. by destruct (eqs (toLowerCase w) (js "true")).
Qed.

Lemma step_line_names p l p' :
  step_line p l = Returns p' ->
  (includes (normalizeLine (trim l)) (js "Dataset:")
   && includes (normalizeLine (trim l)) (js "Agent:")
   && includes (normalizeLine (trim l)) (js "Model:")) = false ->
  l_taskName p' = l_taskName p /\ l_modelName p' = l_modelName p.
Proof.
  unfold step_line. destruct (eqs (trim l) []); [by intros [= <-]|].
  intros E H. eapply apply_rule_names; [|exact E].
  intros Hc. apply header_marker in Hc as (H1 & H2 & H3).
  by rewrite H1, H2, H3 in H.
Qed.

Lemma run_lines_names content :
  (includes content (js "Dataset:") && includes content (js "Agent:")
   && includes content (js "Model:")) = false ->
  forall lines p p',
    (forall l, In l lines -> In l (split LF content)) ->
    run_lines lines p = Returns p' ->
    l_taskName p' = l_taskName p /\ l_modelName p' = l_modelName p.
Proof.
  intros H. induction lines as [|l lines IH]; intros p p' Hin; simpl.
  - by intros [= <-].
  - destruct (step_line p l) as [p1| |] eqn:E; simpl; [|done|done].
    intros E'. apply IH in E' as [-> ->]; [|intros; apply Hin; by right].
    eapply step_line_names; [exact E|].
    pose proof (line_occurs content l (js "Dataset:") (Hin l (or_introl eq_refl))) as Hd.
    pose proof (line_occurs content l (js "Agent:") (Hin l (or_introl eq_refl))) as Ha.
    pose proof (line_occurs content l (js "Model:") (Hin l (or_introl eq_refl))) as Hm.
    destruct (includes (normalizeLine (trim l)) (js "Dataset:"));
      destruct (includes (normalizeLine (trim l)) (js "Agent:"));
      destruct (includes (normalizeLine (trim l)) (js "Model:")); try done.
    rewrite Hd, Ha, Hm in H by done. done.
Qed.

(** X16.  When the content has no header line (one of "Dataset:", "Agent:",
    "Model:" does not occur in it), the names of the Trajectory are those of
    the file name.  A name without underscore gives "unknown" twice; a name
    [model_rest] with one underscore gives the model [model] and the task
    [rest] without its first ".log", so [model_task.log] gives [task] when
    the task holds no dot; a name with more underscores gives the task from
    its last piece and the model from the table of known tokens. *)
Theorem names_from_filename fname content :
  (includes content (js "Dataset:") && includes content (js "Agent:")
   && includes content (js "Model:")) = false ->
  exists t, parseLogFile fname content = Returns t /\
    (~ In 95%N fname -> taskName t = js "unknown" /\ modelName t = js "unknown") /\
    (forall model rest,
       fname = model ++ js "_" ++ rest -> ~ In 95%N model -> ~ In 95%N rest ->
       modelName t = model /\ taskName t = replaceStr (js ".log") [] rest /\
       (forall task, rest = task ++ js ".log" -> ~ In 46%N task -> taskName t = task)) /\
    (forall pre rest,
       fname = pre ++ js "_" ++ rest -> In 95%N pre -> ~ In 95%N rest ->
       taskName t = replaceStr (js ".log") [] rest /\
       modelName t = modelOfFilename fname).
Proof.
  intros H.
  destruct (parseLogFile_returns fname content)
    as (p & results & success & diffs & Hp & _ & _ & _ & E).
  eexists. split; [exact E|]. cbn [taskName modelName].
  apply (run_lines_names content H) in Hp as [-> ->]; [|done].
  cbn [initial l_taskName l_modelName]. unfold namesOfFilename.
  change (js "_") with [95%N].
  split; [|split].
  - intros Hn. by rewrite (split_chr_last _ _ Hn).
  - intros model rest -> Hm Hr. change ([95%N] ++ rest) with (95%N :: rest).
    rewrite split_chr_app, (split_chr_last _ _ Hm), (split_chr_last _ _ Hr).
    cbn. split; [done|]. split; [done|].
    intros task -> Ht. by apply replaceStr_log.
  - intros pre rest -> Hp Hr. change ([95%N] ++ rest) with (95%N :: rest).
    rewrite split_chr_app, (split_chr_last _ _ Hr), length_app.
    pose proof (split_chr_In _ _ Hp) as Hl. rewrite last_snoc.
    cbn [length default from_option].
    destruct (2 <=? length (split [95%N] pre) + 1) eqn:E1;
      [|apply Nat.leb_gt in E1; lia].
    destruct (length (split [95%N] pre) + 1 =? 2) eqn:E2;
      [apply Nat.eqb_eq in E2; lia|]. done.
Qed.

Lemma names_from_filename_witness :
  (includes (js "hello") (js "Dataset:") && includes (js "hello") (js "Agent:")
   && includes (js "hello") (js "Model:")) = false /\
  exists t, parseLogFile (js "gpt-5_anomaly.log") (js "hello") = Returns t /\
            modelName t = js "gpt-5" /\ taskName t = js "anomaly".
Proof.
  assert (H : (includes (js "hello") (js "Dataset:")
               && includes (js "hello") (js "Agent:")
               && includes (js "hello") (js "Model:")) = false) by reflexivity.
  split; [exact H|].
  destruct (names_from_filename (js "gpt-5_anomaly.log") (js "hello") H)
    as (t & E & _ & H2 & _).
  exists t. split; [exact E|].
  destruct (H2 (js "gpt-5") (js "anomaly.log") eq_refl) as (Hm & _ & Ht).
  - vm_compute. intuition discriminate.
  - vm_compute. intuition discriminate.
  - split; [exact Hm|]. apply (Ht (js "anomaly") eq_refl).
    vm_compute. intuition discriminate.
Defined.

(** ** The effect of one line *)

Lemma classify_RCollect p line :
  classify p line = RCollect ->
  collectingToolResult p = true /\ line <> [].
Proof.
  unfold classify.
  repeat match goal with
         | |- (if ?c then _ else _) = _ -> _ => destruct c eqn:?; try done
         end.
  intros _.
  match goal with
  | H : (_ && _ && negb (eqs line [])) = true |- _ =>
      apply andb_true_iff in H as [H Hl]; apply andb_true_iff in H as [H _]
  end.
  split; [done|]. intros ->. done.
Qed.

Lemma classify_RError p line :
  classify p line = RError -> includes (toUpperCase line) (js "ERROR") = true.
Proof.
  unfold classify.
  repeat match goal with
         | |- (if ?c then _ else _) = _ -> _ => destruct c eqn:?; try done
         end.
  intros _.
  match goal with H : (_ && _) = true |- _ => apply andb_true_iff in H as [H _]; exact H end.
Qed.

Lemma apply_rule_effect r p rawLine line :
  classify p line = r ->
  exists p', apply_rule r p rawLine line = Returns p' /\ effect rawLine line p p'.
Proof.
  intros Hc. destruct r; cbn [apply_rule]; unfold write_detail.
  - (* RStart *)
    eexists; split; [reflexivity|]. constructor. by eapply classify_RStart.
  - (* RHeader *)
    destruct (header_parts_names (split (js ",") line) p) as (t & m & ->).
    eexists; split; [reflexivity|]. constructor.
  - (* RIteration *)
    destruct (exec iterationRe line 0) as [m|] eqn:E.
    + destruct (iterationRe_cap _ _ E) as (v & Hv & Hne & Hd).
      eexists; split; [reflexivity|]. unfold capInt. rewrite Hv. by constructor.
    + eexists; split; [reflexivity|]. constructor.
  - (* RToolCall *)
    destruct (exec toolCallRe line 0) as [m|] eqn:E.
    + destruct (currentIteration p) as [it|] eqn:Ei.
      * destruct (toolCallRe_cap _ _ E) as [name Hn].
        eexists; split; [reflexivity|]. rewrite Hn.
        constructor; [by eapply classify_RToolCall|done].
      * eexists; split; [reflexivity|]. constructor.
    + eexists; split; [reflexivity|]. constructor.
  - destruct (currentStep p) eqn:Es; [destruct (truthy _)|];
      eexists; (split; [reflexivity|]); by constructor.
  - destruct (currentStep p) eqn:Es; [destruct (truthy _)|];
      eexists; (split; [reflexivity|]); by constructor.
  - destruct (currentStep p) eqn:Es; [destruct (truthy _)|];
      eexists; (split; [reflexivity|]); by constructor.
  - destruct (currentStep p) eqn:Es; [destruct (truthy _)|];
      eexists; (split; [reflexivity|]); by constructor.
  - destruct (currentStep p) eqn:Es;
      eexists; (split; [reflexivity|]); by constructor.
  - destruct (currentStep p) eqn:Es;
      eexists; (split; [reflexivity|]); by constructor.
  - destruct (currentStep p) eqn:Es; [destruct (truthy _)|];
      eexists; (split; [reflexivity|]); by constructor.
  - destruct (currentStep p) eqn:Es; [destruct (truthy _)|];
      eexists; (split; [reflexivity|]); by constructor.
  - destruct (currentStep p) eqn:Es; [destruct (truthy _)|];
      eexists; (split; [reflexivity|]); by constructor.
  - destruct (currentStep p) eqn:Es; [destruct (truthy _)|];
      eexists; (split; [reflexivity|]); by constructor.
  - (* RWriting *)
    destruct (exec writingRe line 0) as [m|]; [destruct (currentStep p) eqn:Es|];
      eexists; (split; [reflexivity|]); by constructor.
  - (* RCollect *)
    apply classify_RCollect in Hc as [Hcol Hl].
    destruct (currentStep p) as [idx|] eqn:Es;
      (eexists; split; [reflexivity|]); [|constructor].
    rewrite Hcol. by constructor.
  - (* RResult *)
    destruct (exec successRe line 0) as [m|] eqn:E;
      [destruct (currentStep p) as [idx|] eqn:Es|];
      [|eexists; (split; [reflexivity|]); constructor..].
    destruct (successRe_cap _ _ E) as [w ->]. simpl.
    eexists; split; [reflexivity|]. by constructor.
  - (* RError *)
    apply classify_RError in Hc.
    destruct (currentStep p) as [idx|] eqn:Es;
      [|eexists; (split; [reflexivity|]); constructor].
    destruct (l_steps p !! idx) as [s|] eqn:El;
      [|eexists; (split; [reflexivity|]); constructor].
    destruct (truthy (step_error s)) eqn:Et;
      eexists; (split; [reflexivity|]); [constructor|].
    by econstructor.
  - eexists; split; [reflexivity|]. constructor.
Qed.

Lemma step_line_effect p l :
  exists p', step_line p l = Returns p' /\
    effect (trim l) (normalizeLine (trim l)) p p'.
Proof.
  unfold step_line. destruct (eqs (trim l) []).
  - eexists; split; [reflexivity|]. constructor.
  - by apply apply_rule_effect.
Qed.

(** ** A log that grows *)

Lemma alter_created (f : TrajectoryStep -> TrajectoryStep) :
  (forall s, created (f s) = created s) ->
  forall l idx, List.map created (alter f idx l) = List.map created l.
Proof.
  intros Hf. induction l as [|s l IH]; intros [|idx]; simpl; try done.
  - by rewrite Hf.
  - f_equal. apply IH.
Qed.

Lemma effect_grows rawLine line p p' :
  natural (l_totalIterations p) -> effect rawLine line p p' ->
  (exists more, List.map created (l_steps p') = List.map created (l_steps p) ++ more) /\
  l_toolCalls p <= l_toolCalls p' /\ l_errors p <= l_errors p' /\
  num_geb (l_totalIterations p') (l_totalIterations p) = true.
Proof.
  intros Hn He.
  assert (Hr : num_geb (l_totalIterations p) (l_totalIterations p) = true)
    by by apply num_geb_refl.
  destruct He; cbn [on_step with_steps set_names set_iteration start_step add_error
                    set_collecting l_steps l_toolCalls l_errors l_totalIterations].
  - split; [exists []; by rewrite app_nil_r|]. done.
  - split; [eexists; by rewrite List.map_app|]. done.
  - split; [exists []; by rewrite app_nil_r|]. done.
  - split; [exists []; by rewrite app_nil_r|]. split; [done|]. split; [done|].
    apply num_geb_max_l; [done|]. by apply parseInt_digits_natural.
  - split; [eexists; by rewrite List.map_app|]. split; [lia|]. done.
  - split; [exists []; by rewrite app_nil_r, alter_created|]. done.
  - split; [exists []; by rewrite app_nil_r, alter_created|]. done.
  - destruct b; cbn [on_step with_steps add_error l_steps l_toolCalls l_errors
                     l_totalIterations];
      (split; [exists []; by rewrite app_nil_r, alter_created|]);
      (split; [done|]); (split; [lia|done]).
  - split; [exists []; by rewrite app_nil_r, alter_created|].
    split; [done|]. split; [lia|done].
Qed.

Lemma run_lines_grows lines : forall p p',
  Inv p -> run_lines lines p = Returns p' ->
  (exists more, List.map created (l_steps p') = List.map created (l_steps p) ++ more) /\
  l_toolCalls p <= l_toolCalls p' /\ l_errors p <= l_errors p' /\
  num_geb (l_totalIterations p') (l_totalIterations p) = true.
Proof.
  induction lines as [|l lines IH]; intros p p' HI; simpl.
  - intros [= <-]. split; [exists []; by rewrite app_nil_r|].
    split; [done|]. split; [done|]. apply num_geb_refl. by destruct HI.
  - destruct (step_line_effect p l) as (p1 & E & He). rewrite E. simpl. intros E'.
    apply effect_grows in He as ([m1 H1] & H2 & H3 & H4); [|by destruct HI].
    apply IH in E' as ([m2 G1] & G2 & G3 & G4); [|by eapply Inv_step].
    split; [exists (m1 ++ m2); by rewrite G1, H1, app_assoc|].
    split; [lia|]. split; [lia|]. by eapply num_geb_trans.
Qed.

(** X17.  Text appended to a log after a line break only adds to what was read:
    the steps of the shorter log are still there, in place, with the type,
    content, iteration, tool and timestamp they had; the counts of tool
    calls and of errors and the iteration total do not go down. *)
Theorem log_growth fname a b :
  exists t1 t2,
    parseLogFile fname a = Returns t1 /\
    parseLogFile fname (a ++ LF ++ b) = Returns t2 /\
    (exists more,
       List.map created (steps t2) = List.map created (steps t1) ++ more) /\
    toolCalls t1 <= toolCalls t2 /\ errors t1 <= errors t2 /\
    num_geb (totalIterations t2) (totalIterations t1) = true.
Proof.
  destruct (parseLogFile_returns fname a)
    as (p1 & r1 & s1 & d1 & Hp1 & _ & _ & _ & E1).
  destruct (parseLogFile_returns fname (a ++ LF ++ b))
    as (p2 & r2 & s2 & d2 & Hp2 & _ & _ & _ & E2).
  eexists; eexists. split; [exact E1|]. split; [exact E2|].
  cbn [steps toolCalls errors totalIterations].
  rewrite split_LF_app, run_lines_app, Hp1 in Hp2. simpl in Hp2.
  apply (run_lines_grows (split LF b) p1 p2); [|exact Hp2].
  eapply Inv_run_lines; [apply Inv_initial|exact Hp1].
Qed.

(** ** Failed steps and the error counter *)

Lemma alter_count (g : TrajectoryStep -> bool) (f : TrajectoryStep -> TrajectoryStep) :
  (forall s, g (f s) = g s) ->
  forall l idx, length (List.filter g (alter f idx l)) = length (List.filter g l).
Proof.
  intros Hf. induction l as [|s l IH]; intros [|idx]; simpl; try done.
  - rewrite Hf. by destruct (g s).
  - destruct (g s); simpl; [f_equal|]; apply IH.
Qed.

Lemma alter_count_one (g : TrajectoryStep -> bool) (f : TrajectoryStep -> TrajectoryStep) :
  forall l idx, length (List.filter g (alter f idx l)) <= length (List.filter g l) + 1.
Proof.
  induction l as [|s l IH]; intros [|idx]; simpl; try lia.
  - destruct (g (f s)), (g s); simpl; lia.
  - specialize (IH idx). unfold alter in IH. destruct (g s); simpl; lia.
Qed.

Lemma alter_count_down (g : TrajectoryStep -> bool) (f : TrajectoryStep -> TrajectoryStep) :
  (forall s, g (f s) = false) ->
  forall l idx, length (List.filter g (alter f idx l)) <= length (List.filter g l).
Proof.
  intros Hf. induction l as [|s l IH]; intros [|idx]; simpl; try lia.
  - rewrite Hf. destruct (g s); simpl; lia.
  - specialize (IH idx). unfold alter in IH. destruct (g s); simpl; lia.
Qed.

Lemma filter_snoc_false (g : TrajectoryStep -> bool) l s :
  g s = false -> List.filter g (l ++ [s]) = List.filter g l.
Proof. intros H. rewrite List.filter_app. simpl. rewrite H. apply app_nil_r. Qed.

Lemma effect_errors rawLine line p p' :
  effect rawLine line p p' ->
  length (List.filter failedStep (l_steps p))
    + length (List.filter hasError (l_steps p)) <= l_errors p ->
  length (List.filter failedStep (l_steps p'))
    + length (List.filter hasError (l_steps p')) <= l_errors p'.
Proof.
  intros He HI.
  destruct He; cbn [on_step with_steps set_names set_iteration start_step add_error
                    set_collecting l_steps l_errors].
  - done.
  - by rewrite !filter_snoc_false.
  - done.
  - done.
  - by rewrite !filter_snoc_false.
  - by rewrite !alter_count.
  - by rewrite !alter_count.
  - destruct b; cbn [on_step with_steps add_error l_steps l_errors].
    + rewrite (alter_count hasError) by done.
      pose proof (alter_count_down failedStep (set_success true)
                    (fun _ => eq_refl) (l_steps p) idx). lia.
    + rewrite (alter_count hasError) by done.
      pose proof (alter_count_one failedStep (set_success false) (l_steps p) idx). lia.
  - rewrite (alter_count failedStep) by done.
    pose proof (alter_count_one hasError (set_error line) (l_steps p) idx). lia.
Qed.

Lemma run_lines_errors lines : forall p p',
  run_lines lines p = Returns p' ->
  length (List.filter failedStep (l_steps p))
    + length (List.filter hasError (l_steps p)) <= l_errors p ->
  length (List.filter failedStep (l_steps p'))
    + length (List.filter hasError (l_steps p')) <= l_errors p'.
Proof.
  induction lines as [|l lines IH]; intros p p'; simpl.
  - by intros [= <-].
  - destruct (step_line_effect p l) as (p1 & -> & He). simpl. intros E HI.
    apply (IH p1 p' E). by eapply effect_errors.
Qed.

Lemma filter_none {A} (g : A -> bool) l :
  length (List.filter g l) = 0 -> Forall (fun x => g x = false) l.
Proof.
  induction l as [|x l IH]; simpl; [constructor|].
  destruct (g x) eqn:E; [done|]. intros H. constructor; auto.
Qed.

(** X18.  The error counter of a Trajectory is at least the number of its steps
    whose success is false plus the number of its steps that carry an error
    message.  So a Trajectory with [errors = 0] has no such step. *)
Theorem errors_lower_bound fname content :
  exists t, parseLogFile fname content = Returns t /\
    length (List.filter failedStep (steps t))
      + length (List.filter hasError (steps t)) <= errors t /\
    (errors t = 0 ->
     Forall (fun s => step_success s <> Some false /\ truthy (step_error s) = None)
            (steps t)).
Proof.
  destruct (parseLogFile_returns fname content)
    as (p & r & s & d & Hp & _ & _ & _ & E).
  eexists. split; [exact E|]. cbn [steps errors].
  assert (H : length (List.filter failedStep (l_steps p))
              + length (List.filter hasError (l_steps p)) <= l_errors p).
  { apply (run_lines_errors _ _ _ Hp). simpl. lia. }
  split; [exact H|]. intros H0.
  assert (H1 : Forall (fun x => failedStep x = false) (l_steps p))
    by (apply filter_none; lia).
  assert (H2 : Forall (fun x => hasError x = false) (l_steps p))
    by (apply filter_none; lia).
  rewrite Forall_forall in H1, H2. apply Forall_forall. intros x Hx.
  specialize (H1 x Hx). specialize (H2 x Hx). unfold failedStep, hasError in *.
  split.
  - intros Hs. by rewrite Hs in H1.
  - by destruct (truthy (step_error x)).
Qed.

(** ** The shape of the steps *)

Lemma error_line_nonempty line :
  includes (toUpperCase line) (js "ERROR") = true -> line <> [].
Proof. intros H ->. done. Qed.

Lemma startStep_not_iteration ts : step_type (startStep ts) <> js "iteration".
Proof. done. Qed.

(** A write through the current step keeps the shapes when it keeps the
    shape of an iteration step. *)
Lemma on_step_shapes content idx f (l : list TrajectoryStep) :
  Forall (stepShape content) l ->
  (exists s, l !! idx = Some s /\ step_type s = js "iteration") ->
  (forall s, step_type s = js "iteration" -> stepShape content s ->
             stepShape content (f s)) ->
  Forall (stepShape content) (alter f idx l).
Proof.
  intros Hl (s & Hs & Ht) Hf. apply Forall_alter; [done|].
  intros x Hx. rewrite Hs in Hx. injection Hx as <-. by apply Hf.
Qed.

Lemma on_step_current idx (f : TrajectoryStep -> TrajectoryStep)
  (l : list TrajectoryStep) :
  (forall s, step_type (f s) = step_type s) ->
  (exists s, l !! idx = Some s /\ step_type s = js "iteration") ->
  exists s, alter f idx l !! idx = Some s /\ step_type s = js "iteration".
Proof.
  intros Hf (s & Hs & Ht). exists (f s). split; [|by rewrite Hf].
  rewrite list_lookup_alter, decide_True by done. by rewrite Hs.
Qed.

Lemma iteration_shape content s :
  step_type s = js "iteration" -> stepShape content s ->
  (exists raw, In raw (split LF content) /\
      includes (normalizeLine (trim raw)) (js "HARNESS: Tool call") = true /\
      step_timestamp s = Some (extractTimestamp (trim raw))) /\
  is_Some (step_toolDetails s) /\
  (exists r, step_toolResult s = Some r /\ Forall (lineOf content) r) /\
  (forall e, step_error s = Some e ->
     lineOf content e /\ includes (toUpperCase e) (js "ERROR") = true).
Proof.
  intros Ht [(raw & _ & _ & ->)|(_ & H)]; [done|exact H].
Qed.

Lemma effect_shaped content raw p p' :
  In raw (split LF content) ->
  effect (trim raw) (normalizeLine (trim raw)) p p' ->
  shaped content p -> shaped content p'.
Proof.
  intros Hraw He (Hs & Hc & Hb).
  destruct He; unfold shaped;
    cbn [on_step with_steps set_names set_iteration start_step add_error
         set_collecting l_steps currentStep toolResultBuffer].
  - done.
  - (* a start step is pushed *)
    split; [|split; [|done]].
    + apply Forall_app. split; [done|]. constructor; [|constructor].
      left. eauto.
    + intros idx Hi. destruct (Hc idx Hi) as (s & Hl & Ht). exists s.
      split; [|done]. by apply lookup_app_l_Some.
  - done.
  - done.
  - (* an iteration step is opened *)
    split; [|split; [|constructor]].
    + apply Forall_app. split; [done|]. constructor; [|constructor].
      right. split; [done|]. split; [eauto|]. split; [by eexists|].
      split; [exists []; split; [done|constructor]|]. done.
    + intros idx [= <-].
      exists (iterationStep it (Some name) (extractTimestamp (trim raw))).
      split; [|done]. by rewrite lookup_app_r, Nat.sub_diag by lia.
  - (* a detail is written *)
    split; [|split; [|done]].
    + apply on_step_shapes; [done|by apply Hc|].
      intros s Ht Hsh. apply iteration_shape in Hsh as (H1 & H2 & H3 & H4); [|done].
      right. split; [done|]. split; [done|]. split; [by eexists|]. done.
    + intros i Hi. assert (i = idx) as -> by congruence.
      apply on_step_current; [done|by apply Hc].
  - (* the line is collected *)
    assert (Hl : lineOf content (normalizeLine (trim raw))) by (split; eauto).
    assert (Hbuf : Forall (lineOf content)
                     (toolResultBuffer p ++ [normalizeLine (trim raw)])).
    { apply Forall_app. split; [done|]. by constructor. }
    split; [|split; [|done]].
    + apply on_step_shapes; [done|by apply Hc|].
      intros s Ht Hsh. apply iteration_shape in Hsh as (H1' & H2' & H3' & H4'); [|done].
      right. split; [done|]. split; [done|]. split; [done|].
      split; [by eexists|done].
    + intros i Hi. assert (i = idx) as -> by congruence.
      apply on_step_current; [done|by apply Hc].
  - (* the success is set *)
    assert (Hsh : Forall (stepShape content) (alter (set_success b) idx (l_steps p))).
    { apply on_step_shapes; [done|by apply Hc|].
      intros s Ht Hsh. apply iteration_shape in Hsh as (H1 & H2 & H3 & H4); [|done].
      right. done. }
    assert (Hcur : forall i, currentStep p = Some i ->
              exists s, alter (set_success b) idx (l_steps p) !! i = Some s /\
                        step_type s = js "iteration").
    { intros i Hi. assert (i = idx) as -> by congruence.
      apply on_step_current; [done|by apply Hc]. }
    destruct b; cbn [on_step with_steps add_error l_steps currentStep toolResultBuffer];
      (split; [done|split; [done|constructor]]).
  - (* the error is set *)
    assert (Hl : lineOf content (normalizeLine (trim raw))).
    { split; [by eapply error_line_nonempty|eauto]. }
    split; [|split; [|done]].
    + apply on_step_shapes; [done|by apply Hc|].
      intros s' Ht Hsh. apply iteration_shape in Hsh as (H1' & H2' & H3' & H4'); [|done].
      right. split; [done|]. split; [done|]. split; [done|]. split; [done|].
      cbn [set_error step_error]. by intros e [= <-].
    + intros i Hi. assert (i = idx) as -> by congruence.
      apply on_step_current; [done|by apply Hc].
Qed.

Lemma run_lines_shaped content : forall lines p p',
  (forall l, In l lines -> In l (split LF content)) ->
  run_lines lines p = Returns p' -> shaped content p -> shaped content p'.
Proof.
  induction lines as [|l lines IH]; intros p p' Hin; simpl.
  - by intros [= <-].
  - destruct (step_line_effect p l) as (p1 & -> & He). simpl. intros E HI.
    apply (IH p1 p'); [intros; apply Hin; by right|done|].
    eapply effect_shaped; [|exact He|exact HI]. apply Hin. by left.
Qed.

(** X19.  Every step of a Trajectory is either a start step exactly as it was
    pushed for a line with "Starting benchmark run" (success true, no tool,
    error, details or result, stamped from that line), or an iteration step
    stamped by [extractTimestamp] from a line with "HARNESS: Tool call",
    with tool details present, a tool result whose entries are non-empty
    normalized lines of the content, and an error that, when set, is such a
    line with "ERROR" in it in some letter case. *)
Theorem step_shapes fname content :
  exists t, parseLogFile fname content = Returns t /\
            Forall (stepShape content) (steps t).
Proof.
  destruct (parseLogFile_returns fname content)
    as (p & r & s & d & Hp & _ & _ & _ & E).
  eexists. split; [exact E|]. cbn [steps].
  apply (run_lines_shaped content _ _ _ (fun _ H => H) Hp).
  split; [constructor|]. split; [done|constructor].
Qed.

(** ** Test counts of the last step *)

Lemma firstHit_spec {A} (f : jsstring -> outcome (option A)) :
  (forall s, exists r, f s = Returns r) ->
  forall lines, exists r, firstHit f lines = Returns r /\
    match r with
    | Some a => exists pre src post, lines = pre ++ src :: post /\
                  Forall (fun x => f x = Returns None) pre /\ f src = Returns (Some a)
    | None => Forall (fun x => f x = Returns None) lines
    end.
Proof.
  intros Hf. induction lines as [|l lines IH]; simpl.
  - exists None. split; [done|constructor].
  - destruct (Hf l) as [[a|] E]; rewrite E; simpl.
    + exists (Some a). split; [done|]. exists [], l, lines. split; [done|].
      split; [constructor|done].
    + destruct IH as ([a|] & -> & H).
      * exists (Some a). split; [done|].
        destruct H as (pre & src & post & -> & Hpre & Hsrc).
        exists (l :: pre), src, post. split; [done|]. split; [by constructor|done].
      * exists None. split; [done|]. by constructor.
Qed.

Lemma firstHit_app {A} (f : jsstring -> outcome (option A)) xs : forall ys,
  firstHit f (xs ++ ys) =
  (r ← firstHit f xs;
   match r with Some a => Returns (Some a) | None => firstHit f ys end).
Proof.
  induction xs as [|x xs IH]; intros ys; simpl.
  - done.
  - destruct (f x) as [[a|]| |]; simpl; auto.
Qed.

(** The extractors scan the sources of the last step in order. *)
Lemma fromLastStep_sources {A} (f : jsstring -> outcome (option A)) steps :
  fromLastStep f steps =
  match last steps with
  | None => Returns None
  | Some s => firstHit f (sourcesOf s)
  end.
Proof.
  unfold fromLastStep, sourcesOf. destruct (last steps) as [s|]; [|done].
  rewrite firstHit_app.
  destruct (firstHit f (default [] (step_toolResult s))) as [[a|]| |]; simpl; try done.
  destruct (step_content s) as [|c cs]; [done|]. simpl.
  by destruct (f (c :: cs)) as [[?|]| |].
Qed.

Lemma lastTestsRe_Match s i st' :
  Match lastTestsRe (start_at s i) st' ->
  exists t ws1 ts ws2 x y ws3 pw,
    drop i s = t ++ ws1 ++ ts ++ ws2 ++ x ++ [47%N] ++ y ++ ws3 ++ pw ++ m_rest st' /\
    m_caps st' !! 1 = Some x /\ m_caps st' !! 2 = Some y /\
    toUpperCase t = js "TOTAL" /\
    forallb isWS ws1 = true /\
    toUpperCase ts = js "TESTS:" /\
    forallb isWS ws2 = true /\
    x <> [] /\ forallb isDigit x = true /\
    y <> [] /\ forallb isDigit y = true /\
    forallb isWS ws3 = true /\
    toUpperCase pw = js "PASSED".
Proof.
  unfold lastTestsRe. intros HM.
  apply Match_seqs_cons in HM as (s1 & H1 & HM).
  apply Match_lit_ci_upper in H1 as (t & Ht & (E1 & P1 & C1)).
  apply Match_seqs_cons in HM as (s2 & H2 & HM).
  apply Match_ws_star in H2 as (ws1 & Hw1 & (E2 & P2 & C2)).
  apply Match_seqs_cons in HM as (s3 & H3 & HM).
  apply Match_lit_ci_upper in H3 as (ts & Hts & (E3 & P3 & C3)).
  apply Match_seqs_cons in HM as (s4 & H4 & HM).
  apply Match_ws_star in H4 as (ws2 & Hw2 & (E4 & P4 & C4)).
  apply Match_seqs_cons in HM as (s5 & H5 & HM).
  apply Match_digits_group in H5 as (x & [Hnx Hdx] & (E5 & P5 & C5)).
  apply Match_seqs_cons in HM as (s6 & H6 & HM).
  apply Match_chr in H6 as (E6 & P6 & C6).
  apply Match_seqs_cons in HM as (s7 & H7 & HM).
  apply Match_digits_group in H7 as (y & [Hny Hdy] & (E7 & P7 & C7)).
  apply Match_seqs_cons in HM as (s8 & H8 & HM).
  apply Match_ws_star in H8 as (ws3 & Hw3 & (E8 & P8 & C8)).
  apply Match_seqs_cons in HM as (s9 & H9 & HM).
  apply Match_lit_ci_upper in H9 as (pw & Hpw & (E9 & P9 & C9)).
  apply Match_seqs_nil in HM as ->.
  exists t, ws1, ts, ws2, x, y, ws3, pw. simpl in E1.
  split. { rewrite E1, E2, E3, E4, E5, E6, E7, E8, E9. reflexivity. }
  split. { rewrite C9, C8, C7, lookup_insert_ne, C6, C5 by done. apply lookup_insert_eq. }
  split. { rewrite C9, C8, C7. apply lookup_insert_eq. }
  done.
Qed.

Lemma testsOcc_Match s i x y :
  testsOcc s i x y -> exists st, Match lastTestsRe (start_at s i) st.
Proof.
  intros (Hi & t & ws1 & ts & ws2 & ws3 & pw & post & E & Ht & Hw1 & Hts & Hw2
          & Hnx & Hdx & Hny & Hdy & Hw3 & Hpw).
  unfold start_at. rewrite E. eexists. unfold lastTestsRe.
  apply Match_seqs_cons. eexists. split.
  { apply Match_lit_ci_upper. exists t. split; [exact Ht|]. apply reads_intro. }
  apply Match_seqs_cons. eexists. split.
  { apply Match_ws_star. exists ws1. split; [done|]. apply reads_intro. }
  apply Match_seqs_cons. eexists. split.
  { apply Match_lit_ci_upper. exists ts. split; [exact Hts|]. apply reads_intro. }
  apply Match_seqs_cons. eexists. split.
  { apply Match_ws_star. exists ws2. split; [done|]. apply reads_intro. }
  apply Match_seqs_cons. eexists. split.
  { apply Match_digits_group. exists x. split; [done|]. apply reads_cap_intro. }
  apply Match_seqs_cons. eexists. split.
  { apply Match_chr. apply (reads_intro _ [47%N]). }
  apply Match_seqs_cons. eexists. split.
  { apply Match_digits_group. exists y. split; [done|]. apply reads_cap_intro. }
  apply Match_seqs_cons. eexists. split.
  { apply Match_ws_star. exists ws3. split; [done|]. apply reads_intro. }
  apply Match_seqs_cons. eexists. split.
  { apply Match_lit_ci_upper. exists pw. split; [exact Hpw|]. apply reads_intro. }
  by apply Match_seqs_nil.
Qed.

(** What [parseFromString] reads in one text: the digits of the first
    occurrence, or nothing when there is no occurrence *)
Lemma parseFromString_spec src :
  exists r, parseFromString src = Returns r /\
    match r with
    | Some (passed, total) =>
        exists i x y, testsOcc src i x y /\
          (forall j x' y', testsOcc src j x' y' -> i <= j) /\
          passed = parseInt x /\ total = parseInt y
    | None => noOcc testsOcc src
    end.
Proof.
  unfold parseFromString. destruct (exec lastTestsRe src 0) as [m|] eqn:E.
  - eexists. split; [reflexivity|]. cbn beta iota.
    apply exec_Some in E as (k & st' & Hk & Hh & -> & Hno).
    pose proof (run_sound _ _ _ (head_In _ _ Hh)) as HM.
    apply lastTestsRe_Match in HM
      as (t & ws1 & ts & ws2 & x & y & ws3 & pw & Ed & C1 & C2 & H).
    exists k, x, y. split.
    { split; [lia|]. exists t, ws1, ts, ws2, ws3, pw, (m_rest st'). done. }
    split.
    { intros j x' y' Hocc. destruct (Nat.le_gt_cases k j) as [|Hlt]; [done|]. exfalso.
      destruct (testsOcc_Match _ _ _ _ Hocc) as [st HM'].
      apply run_complete in HM'. rewrite Hno in HM' by lia. done. }
    unfold capInt, cap. simpl. by rewrite C1, C2.
  - exists None. split; [done|]. intros j x y Hocc.
    destruct (testsOcc_Match _ _ _ _ Hocc) as [st HM].
    eapply exec_misses; [exact E| |exact HM]. by destruct Hocc.
Qed.

(** X20.  [extractTestsFromLastStep] looks at the last step only.  It returns
    [null] when there is no step or no source of the last step (a line of
    its tool result, or its content) holds an occurrence of
    "Total tests: X/Y passed"; otherwise it returns the two numbers of the
    first occurrence in the first source that holds one, and they are not
    NaN. *)
Theorem last_step_tests steps :
  exists r, extractTestsFromLastStep steps = Returns r /\
    (steps = [] -> r = None) /\
    (forall pre s, steps = pre ++ [s] ->
       extractTestsFromLastStep [s] = Returns r) /\
    match r with
    | Some (passed, total) =>
        exists s before src after i x y,
          last steps = Some s /\ sourcesOf s = before ++ src :: after /\
          Forall (noOcc testsOcc) before /\
          testsOcc src i x y /\
          (forall j x' y', testsOcc src j x' y' -> i <= j) /\
          passed = parseInt x /\ total = parseInt y /\
          natural passed /\ natural total
    | None =>
        forall s, last steps = Some s -> Forall (noOcc testsOcc) (sourcesOf s)
    end.
Proof.
  unfold extractTestsFromLastStep.
  assert (Hf : forall s, exists r, parseFromString s = Returns r).
  { intros s. destruct (parseFromString_spec s) as (r & E & _). eauto. }
  assert (Hnone : forall x, parseFromString x = Returns None -> noOcc testsOcc x).
  { intros x E. destruct (parseFromString_spec x) as (r & E' & H).
    rewrite E in E'. by injection E' as <-. }
  rewrite fromLastStep_sources. destruct (last steps) as [s|] eqn:El.
  - destruct (firstHit_spec parseFromString Hf (sourcesOf s)) as (r & E & H).
    exists r. split; [exact E|].
    split; [by intros ->|]. split.
    { intros pre s' ->. rewrite fromLastStep_sources. rewrite last_snoc in El.
      injection El as ->. exact E. }
    destruct r as [[passed total]|].
    + destruct H as (before & src & after & Es & Hb & Hsrc).
      destruct (parseFromString_spec src) as (r & E' & H').
      rewrite Hsrc in E'. injection E' as <-.
      destruct H' as (i & x & y & Hocc & Hmin & -> & ->).
      exists s, before, src, after, i, x, y.
      split; [done|]. split; [done|].
      split; [eapply Forall_impl; [exact Hb|exact Hnone]|].
      split; [done|]. split; [done|]. split; [done|]. split; [done|].
      destruct Hocc as (_ & t & ws1 & ts & ws2 & ws3 & pw & post & _ & _ & _ & _ & _
                        & Hnx & Hdx & Hny & Hdy & _).
      split; by apply parseInt_digits_natural.
    + intros s' [= <-]. eapply Forall_impl; [exact H|exact Hnone].
  - exists None. split; [done|]. split; [done|]. split; [|done].
    intros pre s ->. by rewrite last_snoc in El.
Qed.

(** ** Duration of the last step *)

Lemma lastDurationRe_ends s m :
  exec lastDurationRe s 0 = Some m ->
  match drop (mr_end m) s with [] => True | c :: _ => isLineTerminator c = true end.
Proof.
  intros E. apply exec_Some in E as (k & st' & Hk & Hh & -> & _).
  assert (HQ : match m_rest st' with [] => True | c :: _ => isDot c = false end).
  { revert Hh. unfold lastDurationRe.
    apply (head_seqs_last
             (fun x => match m_rest x with [] => True | c :: _ => isDot c = false end)
             (Seq (Group 1 (plus (Chr isDot))) Eps)
             [lit [0x23F1; 0xFE0F]%N; star dot; lit_ci (js "Total duration:"); star ws]).
    intros st st1. apply head_group_plus_greedy. }
  apply head_In, run_sound, Match_consumes in Hh as (w & Ew & Pw).
  unfold start_at in Ew, Pw. simpl in Ew, Pw. unfold result_at. simpl.
  assert (Ed : drop (m_pos st') s = m_rest st').
  { rewrite Pw, <- drop_drop, Ew. by rewrite drop_app_length. }
  rewrite Ed. destruct (m_rest st') as [|c r]; [done|].
  unfold isDot in HQ. by apply negb_false_iff in HQ.
Qed.

Lemma lastDurationRe_Match st st' :
  Match lastDurationRe st st' <->
  exists mid td w v,
    forallb isDot mid = true /\ toUpperCase td = js "TOTAL DURATION:" /\
    forallb isWS w = true /\ v <> [] /\ forallb isDot v = true /\
    reads st ([0x23F1; 0xFE0F]%N ++ mid ++ td ++ w)
      (MState (m_pos st' - length v) (v ++ m_rest st') (m_caps st)) /\
    reads_cap 1 (MState (m_pos st' - length v) (v ++ m_rest st') (m_caps st)) v st'.
Proof.
  unfold lastDurationRe. split.
  - intros HM.
    apply Match_seqs_cons in HM as (s1 & H1 & HM).
    apply Match_lit in H1.
    apply Match_seqs_cons in HM as (s2 & H2 & HM).
    apply Match_star_class in H2 as (mid & Hmid & R2).
    apply Match_seqs_cons in HM as (s3 & H3 & HM).
    apply Match_lit_ci_upper in H3 as (td & Htd & R3).
    apply Match_seqs_cons in HM as (s4 & H4 & HM).
    apply Match_ws_star in H4 as (w & Hw & R4).
    apply Match_seqs_cons in HM as (s5 & H5 & HM).
    apply (Match_Group_reads 1 _ (fun v => v <> [] /\ forallb isDot v = true))
      in H5 as (v & [Hnv Hv] & R5).
    2:{ intros sa sb. unfold dot. rewrite Match_plus_class.
        split; [intros (v' & ? & ? & ?)|intros (v' & [? ?] & ?)]; eauto. }
    apply Match_seqs_nil in HM. subst s5.
    exists mid, td, w, v. repeat (split; [done|]).
    assert (R : reads st ([0x23F1; 0xFE0F]%N ++ mid ++ td ++ w) s4)
      by (repeat (eapply reads_app; [eassumption|]); done).
    assert (E4 : s4 = MState (m_pos st' - length v) (v ++ m_rest st') (m_caps st)).
    { destruct R as (_ & _ & C), R5 as (E5 & P5 & _). destruct s4 as [pos4 rest4 caps4].
      simpl in *. subst. f_equal. lia. }
    by rewrite <- E4.
  - intros (mid & td & w & v & Hmid & Htd & Hw & Hnv & Hv & R & R5).
    apply reads_app_inv in R as (s1 & R1 & R). apply reads_app_inv in R as (s2 & R2 & R).
    apply reads_app_inv in R as (s3 & R3 & R4).
    apply Match_seqs_cons. exists s1. split; [by apply Match_lit|].
    apply Match_seqs_cons. exists s2. split; [apply Match_star_class; eauto|].
    apply Match_seqs_cons. exists s3. split; [apply Match_lit_ci_upper; eauto|].
    apply Match_seqs_cons. eexists. split; [apply Match_ws_star; eauto|].
    apply Match_seqs_cons. exists st'. split; [|by apply Match_seqs_nil].
    apply (Match_Group_reads 1 _ (fun v => v <> [] /\ forallb isDot v = true)).
    { intros sa sb. unfold dot. rewrite Match_plus_class.
      split; [intros (v' & ? & ? & ?)|intros (v' & [? ?] & ?)]; eauto. }
    eauto.
Qed.

(** What [durationIn] reads in one text *)
Lemma durationIn_spec src :
  exists r, durationIn src = Returns r /\
    match r with
    | Some d => trim d = d /\ exists v, viewDuration src v /\ d = trim v
    | None => forall v, ~ viewDuration src v
    end.
Proof.
  unfold durationIn. destruct (exec lastDurationRe src 0) as [m|] eqn:E.
  - pose proof (lastDurationRe_ends _ _ E) as Hend.
    apply exec_Match in E as (st' & [_ Hk] & HM & Em).
    set (k := mr_index m) in *. clearbody k.
    apply lastDurationRe_Match in HM
      as (mid & td & w & v & Hmid & Htd & Hw & Hnv & Hv & R & R5).
    assert (Hc : cap m 1 = Some v).
    { rewrite Em. unfold cap, result_at. simpl. by apply reads_cap_lookup in R5. }
    assert (He : drop (mr_end m) src = m_rest st').
    { rewrite Em. unfold result_at. simpl.
      destruct R as (E1 & P1 & _), R5 as (E5 & P5 & _). unfold start_at in E1, P1.
      cbn [m_pos m_rest m_caps] in E1, P1, E5, P5.
      assert (m_pos st' = k + length (([0x23F1; 0xFE0F]%N ++ mid ++ td ++ w) ++ v)) as ->
        by (rewrite length_app; lia).
      rewrite <- drop_drop, E1,
        (app_assoc ([0x23F1; 0xFE0F]%N ++ mid ++ td ++ w) v (m_rest st')).
      by rewrite drop_app_length. }
    rewrite Hc. simpl. eexists. split; [reflexivity|]. cbn beta iota.
    split; [apply trim_idem|]. exists v. split; [|done].
    exists (take k src), mid, td, w, (m_rest st').
    split.
    { destruct R as (E1 & _). unfold start_at in E1. cbn [m_pos m_rest m_caps] in E1.
      rewrite <- (take_drop k src) at 1. rewrite E1. by rewrite <- !app_assoc. }
    repeat (split; [done|]). by rewrite <- He.
  - exists None. split; [done|].
    intros v (pre & mid & td & w & post & -> & Hmid & Htd & Hw & Hnv & Hv & _).
    assert (Es : pre ++ [0x23F1; 0xFE0F]%N ++ mid ++ td ++ w ++ v ++ post
                 = pre ++ ([0x23F1; 0xFE0F]%N ++ mid ++ td ++ w) ++ v ++ post)
      by (by rewrite <- !app_assoc).
    rewrite Es in E. clear Es.
    assert (HM : Match lastDurationRe
              (MState (length pre)
                 (([0x23F1; 0xFE0F]%N ++ mid ++ td ++ w) ++ v ++ post) ∅)
              (MState (length pre + length ([0x23F1; 0xFE0F]%N ++ mid ++ td ++ w)
                       + length v) post (<[1 := v]> ∅))).
    { apply lastDurationRe_Match. exists mid, td, w, v.
      repeat (split; [done|]). cbn [m_pos m_rest m_caps].
      set (L := [0x23F1; 0xFE0F]%N ++ mid ++ td ++ w).
      replace (length pre + length L + length v - length v)
        with (length pre + length L) by lia.
      split; [apply reads_intro|apply reads_cap_intro]. }
    eapply (exec_misses _ _ (length pre) _ E).
    { rewrite length_app. lia. }
    unfold start_at. rewrite drop_app_length. exact HM.
Qed.

(** X21.  [extractDurationFromLastStep] never raises and looks at the last step
    only.  It returns [null] when there is no step or no source of the last
    step (a line of its tool result, or its content) holds a stopwatch glyph
    followed on its line by "Total duration:" and then, after white space
    that may run over line terminators, by a character other than a line
    terminator; otherwise it returns, for the first source that does, a
    text that starts behind such a marker and its white space and runs to
    the end of the line it stands on, trimmed. *)
Theorem last_step_duration steps :
  exists r, extractDurationFromLastStep steps = Returns r /\
    (steps = [] -> r = None) /\
    (forall pre s, steps = pre ++ [s] ->
       extractDurationFromLastStep [s] = Returns r) /\
    match r with
    | Some d =>
        trim d = d /\
        exists s before src after v,
          last steps = Some s /\ sourcesOf s = before ++ src :: after /\
          Forall (fun x => forall v', ~ viewDuration x v') before /\
          viewDuration src v /\ d = trim v
    | None =>
        forall s, last steps = Some s ->
          Forall (fun x => forall v, ~ viewDuration x v) (sourcesOf s)
    end.
Proof.
  unfold extractDurationFromLastStep.
  assert (Hf : forall s, exists r, durationIn s = Returns r).
  { intros s. destruct (durationIn_spec s) as (r & E & _). eauto. }
  assert (Hnone : forall x, durationIn x = Returns None -> forall v, ~ viewDuration x v).
  { intros x E. destruct (durationIn_spec x) as (r & E' & H).
    rewrite E in E'. by injection E' as <-. }
  rewrite fromLastStep_sources. destruct (last steps) as [s|] eqn:El.
  - destruct (firstHit_spec durationIn Hf (sourcesOf s)) as (r & E & H).
    exists r. split; [exact E|].
    split; [by intros ->|]. split.
    { intros pre s' ->. rewrite fromLastStep_sources. rewrite last_snoc in El.
      injection El as ->. exact E. }
    destruct r as [d|].
    + destruct H as (before & src & after & Es & Hb & Hsrc).
      destruct (durationIn_spec src) as (r & E' & H').
      rewrite Hsrc in E'. injection E' as <-.
      destruct H' as (Ht & v & Hv & ->).
      split; [done|]. exists s, before, src, after, v.
      split; [done|]. split; [done|].
      split; [eapply Forall_impl; [exact Hb|exact Hnone]|]. done.
    + intros s' [= <-]. eapply Forall_impl; [exact H|exact Hnone].
  - exists None. split; [done|]. split; [done|]. split; [|done].
    intros pre s ->. by rewrite last_snoc in El.
Qed.

(** The white space behind the colon runs over line terminators: the
    duration may stand on the line below the marker. *)
Lemma last_duration_below_the_marker :
  durationIn ([0x23F1; 0xFE0F]%N ++ js " Total duration:" ++ [13%N] ++ js "4s")
  = Returns (Some (js "4s")).
Proof. vm_compute. reflexivity. Qed.

(** ** Grading lines and the summary of the last step *)

Lemma testsOcc_piece a t b i x y :
  testsOcc t i x y -> testsOcc (a ++ t ++ b) (length a + i) x y.
Proof.
  intros (Hi & t0 & ws1 & ts & ws2 & ws3 & pw & post & E & H).
  split; [rewrite !length_app; lia|].
  exists t0, ws1, ts, ws2, ws3, pw, (post ++ b). split; [|exact H].
  rewrite <- drop_drop, drop_app_length, drop_app_le by lia. rewrite E.
  by rewrite <- !app_assoc.
Qed.

Lemma upperCU_space c : upperCU c = 32%N -> c = 32%N.
Proof.
  unfold upperCU, isLower.
  destruct ((97 <=? c)%N && (c <=? 122)%N) eqn:E; [|done].
  apply andb_true_iff in E as [E1 E2]. apply N.leb_le in E1, E2. lia.
Qed.

(** A text that reads "Total tests:" in some letter case is "Total", one
    space and "tests:" *)
Lemma total_tests_pieces v :
  toUpperCase v = toUpperCase (js "Total tests:") ->
  exists t ts, v = t ++ [32%N] ++ ts /\
    toUpperCase t = js "TOTAL" /\ toUpperCase ts = js "TESTS:".
Proof.
  intros H. assert (Hl : length v = 12).
  { apply (f_equal length) in H. unfold toUpperCase in H. by rewrite !length_map in H. }
  do 12 (destruct v as [|? v]; [done|]). destruct v; [|done].
  unfold toUpperCase in H. simpl in H. injection H as H1 H2 H3 H4 H5 H6 H7 H8 H9 H10 H11 H12.
  apply upperCU_space in H6 as ->.
  eexists [_; _; _; _; _], [_; _; _; _; _; _]. split; [reflexivity|].
  unfold toUpperCase. simpl. by rewrite H1, H2, H3, H4, H5, H7, H8, H9, H10, H11, H12.
Qed.

Lemma gradingTests_occ t :
  test (nth 0 gradingPatterns Eps) t = true -> exists i x y, testsOcc t i x y.
Proof.
  unfold test. cbn [nth gradingPatterns].
  destruct (exec _ t 0) as [m|] eqn:E; [intros _|done].
  apply exec_Match in E as (st' & [_ Hk] & HM & _).
  set (k := mr_index m) in *. clearbody k.
  apply Match_seqs_cons in HM as (s1 & H1 & HM).
  apply Match_lit in H1 as (E1 & P1 & _).
  apply Match_seqs_cons in HM as (s2 & H2 & HM).
  apply Match_ws_star in H2 as (w0 & Hw0 & (E2 & P2 & _)).
  apply Match_seqs_cons in HM as (s3 & H3 & HM).
  apply Match_lit_ci_upper in H3 as (v & Hv & (E3 & P3 & _)).
  apply Match_seqs_cons in HM as (s4 & H4 & HM).
  apply Match_ws_star in H4 as (ws2 & Hw2 & (E4 & P4 & _)).
  apply Match_seqs_cons in HM as (s5 & H5 & HM).
  apply Match_plus_class in H5 as (x & Hnx & Hdx & (E5 & P5 & _)).
  apply Match_seqs_cons in HM as (s6 & H6 & HM).
  apply Match_chr in H6 as (E6 & P6 & _).
  apply Match_seqs_cons in HM as (s7 & H7 & HM).
  apply Match_plus_class in H7 as (y & Hny & Hdy & (E7 & P7 & _)).
  apply Match_seqs_cons in HM as (s8 & H8 & HM).
  apply Match_ws_star in H8 as (ws3 & Hw3 & (E8 & P8 & _)).
  apply Match_seqs_cons in HM as (s9 & H9 & HM).
  apply Match_lit_ci_upper in H9 as (pw & Hpw & (E9 & P9 & _)).
  apply Match_seqs_nil in HM. subst s9.
  apply total_tests_pieces in Hv as (t0 & ts & -> & Ht0 & Hts).
  unfold start_at in E1, P1. cbn [m_pos m_rest] in E1, P1.
  assert (Ed : drop k t =
            ([0xD83E; 0xDDEA]%N ++ w0) ++
            t0 ++ [32%N] ++ ts ++ ws2 ++ x ++ [47%N] ++ y ++ ws3 ++ pw ++ m_rest st').
  { rewrite E1, E2, E3, E4, E5, E6, E7, E8, E9. by rewrite <- !app_assoc. }
  exists (k + length ([0xD83E; 0xDDEA]%N ++ w0)), x, y.
  assert (Hlen : length (drop k t) =
            length ([0xD83E; 0xDDEA]%N ++ w0) +
            length (t0 ++ [32%N] ++ ts ++ ws2 ++ x ++ [47%N] ++ y ++ ws3 ++ pw ++ m_rest st'))
    by (by rewrite Ed, length_app).
  rewrite length_drop in Hlen.
  split; [lia|].
  exists t0, [32%N], ts, ws2, ws3, pw, (m_rest st').
  split; [by rewrite <- drop_drop, Ed, drop_app_length|].
  done.
Qed.

Lemma gradingDuration_view t :
  test (nth 1 gradingPatterns Eps) t = true -> forallb isDot t = true ->
  exists v, viewDuration t v.
Proof.
  unfold test. cbn [nth gradingPatterns].
  destruct (exec _ t 0) as [m|] eqn:E; [intros _|done]. intros Hdot.
  apply exec_Match in E as (st' & [_ Hk] & HM & _).
  set (k := mr_index m) in *. clearbody k.
  apply Match_seqs_cons in HM as (s1 & H1 & HM).
  apply Match_lit in H1 as (E1 & P1 & _).
  apply Match_seqs_cons in HM as (s2 & H2 & HM).
  apply Match_ws_star in H2 as (w0 & Hw0 & (E2 & P2 & _)).
  apply Match_seqs_cons in HM as (s3 & H3 & HM).
  apply Match_lit_ci_upper in H3 as (td & Htd & (E3 & P3 & _)).
  apply Match_seqs_cons in HM as (s4 & H4 & HM).
  apply Match_ws_star in H4 as (w & Hw & (E4 & P4 & _)).
  apply Match_seqs_cons in HM as (s5 & H5 & HM).
  unfold dot in H5. apply Match_plus_class in H5 as (v & Hnv & Hdv & (E5 & P5 & _)).
  apply Match_seqs_nil in HM. subst s5.
  unfold start_at in E1. cbn [m_pos m_rest] in E1.
  assert (Et : t = take k t ++ [0x23F1; 0xFE0F]%N ++ w0 ++ td ++ w ++ (v ++ m_rest st') ++ []).
  { rewrite <- (take_drop k t) at 1. rewrite E1, E2, E3, E4, E5.
    by rewrite app_nil_r. }
  exists (v ++ m_rest st'), (take k t), w0, td, w, [].
  split; [exact Et|].
  rewrite Et in Hdot. rewrite !forallb_app in Hdot.
  repeat match type of Hdot with
         | (_ && _) = true => apply andb_true_iff in Hdot as [? Hdot]
         end.
  repeat match goal with
         | H : (_ && _) = true |- _ => apply andb_true_iff in H as [? ?]
         end.
  split; [done|]. split; [exact Htd|]. split; [done|].
  split; [by destruct v|]. split; [|done].
  rewrite forallb_app. by apply andb_true_iff.
Qed.

Lemma viewDuration_piece a t b v :
  viewDuration t v -> forallb isDot b = true ->
  exists v', viewDuration (a ++ t ++ b) v'.
Proof.
  intros (pre & mid & td & w & post & -> & Hmid & Htd & Hw & Hnv & Hv & Hp) Hb.
  destruct post as [|c post].
  - exists (v ++ b), (a ++ pre), mid, td, w, [].
    split; [by rewrite <- !app_assoc, app_nil_r|].
    repeat (split; [done|]). split; [by destruct v|].
    split; [|done]. rewrite forallb_app. by apply andb_true_iff.
  - exists v, (a ++ pre), mid, td, w, ((c :: post) ++ b).
    split; [by rewrite <- !app_assoc|]. done.
Qed.

(** X22.  A line of the last step's tool result that [extractGradingMetrics]
    keeps for its test-total pattern makes [extractTestsFromLastStep] find
    counts; one that it keeps for its duration pattern makes
    [extractDurationFromLastStep] find a duration, provided the line holds
    no line terminator (the grading pattern lets white space of any kind
    follow the glyph, the extractor only characters of the same line). *)
Theorem metrics_feed_summary steps s l :
  last steps = Some s -> In l (default [] (step_toolResult s)) ->
  (test (nth 0 gradingPatterns Eps) (trim l) = true ->
   exists c, extractTestsFromLastStep steps = Returns (Some c)) /\
  (test (nth 1 gradingPatterns Eps) (trim l) = true -> forallb isDot l = true ->
   exists d, extractDurationFromLastStep steps = Returns (Some d)).
Proof.
  intros Hlast Hl.
  assert (Hsrc : In l (sourcesOf s)) by (apply in_or_app; by left).
  destruct (occurs_trim l) as (a & b & El).
  unfold extractTestsFromLastStep, extractDurationFromLastStep.
  rewrite !fromLastStep_sources, Hlast. split.
  - intros Ht. apply gradingTests_occ in Ht as (i & x & y & Hocc).
    apply (testsOcc_piece a _ b) in Hocc. rewrite <- El in Hocc.
    destruct (firstHit_spec parseFromString) with (lines := sourcesOf s) as (r & -> & H).
    { intros src. destruct (parseFromString_spec src) as (r & E & _). eauto. }
    destruct r as [c|]; [eauto|]. exfalso.
    rewrite Forall_forall in H. specialize (H l (proj2 (list_elem_of_In _ _) Hsrc)).
    destruct (parseFromString_spec l) as (r & E & Hr). rewrite H in E.
    injection E as <-. by apply (Hr _ _ _ Hocc).
  - intros Ht Hdot.
    assert (Hdt : forallb isDot (trim l) = true /\ forallb isDot b = true).
    { rewrite El in Hdot. rewrite !forallb_app in Hdot.
      apply andb_true_iff in Hdot as [_ Hdot]. by apply andb_true_iff in Hdot. }
    destruct Hdt as [Hdt Hdb].
    apply gradingDuration_view in Ht as (v & Hv); [|done].
    apply (viewDuration_piece a _ b) in Hv as (v' & Hv'); [|done]. rewrite <- El in Hv'.
    destruct (firstHit_spec durationIn) with (lines := sourcesOf s) as (r & -> & H).
    { intros src. destruct (durationIn_spec src) as (r & E & _). eauto. }
    destruct r as [d|]; [eauto|]. exfalso.
    rewrite Forall_forall in H. specialize (H l (proj2 (list_elem_of_In _ _) Hsrc)).
    destruct (durationIn_spec l) as (r & E & Hr). rewrite H in E.
    injection E as <-. by apply (Hr v').
Qed.

Lemma metrics_feed_summary_witness :
  last [set_toolResult [[0xD83E; 0xDDEA]%N ++ js " Total tests: 3/3 passed"]
          (iterationStep (Num 1) (Some (js "run")) (js "N/A"))]
  = Some (set_toolResult [[0xD83E; 0xDDEA]%N ++ js " Total tests: 3/3 passed"]
            (iterationStep (Num 1) (Some (js "run")) (js "N/A"))) /\
  In ([0xD83E; 0xDDEA]%N ++ js " Total tests: 3/3 passed")
     (default []
        (step_toolResult
           (set_toolResult [[0xD83E; 0xDDEA]%N ++ js " Total tests: 3/3 passed"]
              (iterationStep (Num 1) (Some (js "run")) (js "N/A"))))) /\
  test (nth 0 gradingPatterns Eps)
       (trim ([0xD83E; 0xDDEA]%N ++ js " Total tests: 3/3 passed")) = true /\
  exists c,
    extractTestsFromLastStep
      [set_toolResult [[0xD83E; 0xDDEA]%N ++ js " Total tests: 3/3 passed"]
         (iterationStep (Num 1) (Some (js "run")) (js "N/A"))]
    = Returns (Some c).
Proof.
  assert (H1 : last [set_toolResult [[0xD83E; 0xDDEA]%N ++ js " Total tests: 3/3 passed"]
                       (iterationStep (Num 1) (Some (js "run")) (js "N/A"))]
               = Some (set_toolResult [[0xD83E; 0xDDEA]%N ++ js " Total tests: 3/3 passed"]
                         (iterationStep (Num 1) (Some (js "run")) (js "N/A"))))
    by reflexivity.
  assert (H2 : In ([0xD83E; 0xDDEA]%N ++ js " Total tests: 3/3 passed")
                 (default []
                    (step_toolResult
                       (set_toolResult
                          [[0xD83E; 0xDDEA]%N ++ js " Total tests: 3/3 passed"]
                          (iterationStep (Num 1) (Some (js "run")) (js "N/A"))))))
    by (left; reflexivity).
  assert (H3 : test (nth 0 gradingPatterns Eps)
                 (trim ([0xD83E; 0xDDEA]%N ++ js " Total tests: 3/3 passed")) = true)
    by (vm_compute; reflexivity).
  split; [exact H1|]. split; [exact H2|]. split; [exact H3|].
  exact (proj1 (metrics_feed_summary _ _ _ H1 H2) H3).
Defined.

(** The proviso on the duration line is needed: with a line separator
    U+2028 after the glyph the grading pattern matches and the extractor
    finds nothing. *)
Lemma duration_metric_without_summary :
  test (nth 1 gradingPatterns Eps)
       (trim ([0x23F1; 0xFE0F; 0x2028]%N ++ js "Total duration: 5s")) = true /\
  durationIn ([0x23F1; 0xFE0F; 0x2028]%N ++ js "Total duration: 5s") = Returns None.
Proof. by vm_compute. Qed.

(** ** Titles *)

(** *** Runs of separators replaced *)

Lemma sep_matches k c rest :
  isSep c = true ->
  Match (plus (Chr isSep)) (MState k (c :: rest) ∅) (MState (k + 1) rest ∅).
Proof.
  intros Hc. apply Match_plus_class. exists [c]. split; [done|].
  split; [simpl; by rewrite Hc|]. apply (reads_intro k [c] rest ∅).
Qed.

Lemma no_match_no_sep s k :
  run (plus (Chr isSep)) (start_at s k) = [] ->
  match drop k s with [] => True | c :: _ => isSep c = false end.
Proof.
  unfold start_at. intros H. destruct (drop k s) as [|c rest]; [done|].
  destruct (isSep c) eqn:Hc; [|done].
  apply (sep_matches k c rest) in Hc. apply run_complete in Hc. by rewrite H in Hc.
Qed.

Lemma segment_clean (s : jsstring) : forall n from,
  (forall k, from <= k < from + n ->
     match drop k s with [] => True | c :: _ => isSep c = false end) ->
  Forall (fun c => isSep c = false) (take n (drop from s)).
Proof.
  induction n as [|n IH]; intros from H; [constructor|].
  destruct (drop from s) as [|c rest] eqn:E; [constructor|].
  pose proof (H from ltac:(lia)) as Hc. rewrite E in Hc.
  simpl. constructor; [done|].
  assert (rest = drop (S from) s) as ->.
  { rewrite <- (Nat.add_1_l from), Nat.add_comm, <- drop_drop, E. done. }
  apply IH. intros k Hk. apply H. lia.
Qed.

Lemma replace_build_clean (P : N -> Prop) (s : jsstring) :
  P 32%N -> Forall P s ->
  forall fuel from, from <= length s -> length s - from < fuel ->
    Forall (fun c => isSep c = false /\ P c)
      (replace_build SP s from (matches_go (plus (Chr isSep)) s fuel from)).
Proof.
  intros HP Hs. induction fuel as [|n IH]; intros from Hf Hn; [lia|].
  cbn [matches_go]. destruct (exec (plus (Chr isSep)) s from) as [m|] eqn:E.
  - pose proof (exec_bounds _ _ _ _ E) as (Hb1 & Hb2 & Hb3).
    change (min_len (plus (Chr isSep))) with 1 in Hb2.
    apply exec_Some in E as (k & st' & Hk & Hh & Em & Hno).
    assert (mr_index m = k) as Hi by (by rewrite Em).
    assert ((mr_end m =? mr_index m) = false) as -> by (apply Nat.eqb_neq; lia).
    cbn [replace_build]. rewrite Hi.
    apply Forall_app. split; [|apply Forall_app; split].
    + apply Forall_forall. intros c Hc. split.
      * revert c Hc. apply Forall_forall. apply segment_clean.
        intros k' Hk'. apply no_match_no_sep, Hno. lia.
      * revert c Hc. apply Forall_forall. by apply Forall_take, Forall_drop.
    + constructor; [|constructor]. done.
    + apply IH; lia.
  - cbn [replace_build]. apply Forall_forall. intros c Hc. split.
    + revert c Hc. apply Forall_forall.
      rewrite <- (take_ge (drop from s) (length s - from))
        by (rewrite length_drop; lia).
      apply segment_clean. intros k Hk. apply no_match_no_sep.
      apply (exec_None _ _ _ E). lia.
    + revert c Hc. apply Forall_forall. by apply Forall_drop.
Qed.

Lemma replaceAll_clean (P : N -> Prop) (s : jsstring) :
  P 32%N -> Forall P s ->
  Forall (fun c => isSep c = false /\ P c) (replaceAllRe (plus (Chr isSep)) SP s).
Proof.
  intros HP Hs. unfold replaceAllRe, matchAll.
  apply replace_build_clean; [done|done|lia|lia].
Qed.

(** A text without separator is left as it is *)
Lemma replaceAll_none (s : jsstring) :
  Forall (fun c => isSep c = false) s -> replaceAllRe (plus (Chr isSep)) SP s = s.
Proof.
  intros Hs. unfold replaceAllRe, matchAll. cbn [matches_go].
  destruct (exec (plus (Chr isSep)) s 0) as [m|] eqn:E; [|done]. exfalso.
  apply exec_Match in E as (st' & _ & HM & _).
  apply Match_plus_class in HM as (v & Hne & Hv & (E & _)).
  unfold start_at in E. simpl in E. destruct v as [|c v]; [done|].
  simpl in Hv. apply andb_true_iff in Hv as [Hc _].
  assert (Hin : In c s).
  { rewrite <- (take_drop (mr_index m) s), E. apply in_or_app. right. by left. }
  rewrite Forall_forall in Hs. apply list_elem_of_In, Hs in Hin. by rewrite Hc in Hin.
Qed.

(** *** Pieces between spaces *)

Lemma split_go_chr_clean c s : forall cur l,
  ~ In c cur -> In l (split_go [c] 0 cur s) -> ~ In c l.
Proof.
  induction s as [|x s IH]; intros cur l Hcur.
  - simpl. intros [<-|[]]. by rewrite <- in_rev.
  - rewrite split_go_cons. cbn [isPrefix]. rewrite andb_true_r.
    destruct (c =? x)%N eqn:E.
    + change (length [c] - 1) with 0. intros [<-|H]; [by rewrite <- in_rev|].
      revert H. apply IH. by intros [].
    + apply IH. intros [->|H]; [|done]. by rewrite N.eqb_refl in E.
Qed.

Lemma split_chr_clean c s l : In l (split [c] s) -> ~ In c l.
Proof. apply split_go_chr_clean. by intros []. Qed.

Lemma split_join_chr c (ls : list jsstring) :
  ls <> [] -> Forall (fun l => ~ In c l) ls -> split [c] (join [c] ls) = ls.
Proof.
  induction ls as [|l ls IH]; [done|]. intros _ Hall.
  apply Forall_cons in Hall as [Hl Hall]. destruct ls as [|l' ls].
  - simpl. by apply split_chr_last.
  - rewrite join_cons by done. change ([c] ++ join [c] (l' :: ls)) with (c :: join [c] (l' :: ls)).
    rewrite split_chr_app, (split_chr_last _ _ Hl), IH by done. done.
Qed.

Lemma Forall_join (Q : N -> Prop) sep (ls : list jsstring) :
  Forall Q sep -> Forall (Forall Q) ls -> Forall Q (join sep ls).
Proof.
  intros Hsep. induction ls as [|l ls IH]; [constructor|].
  intros Hall. apply Forall_cons in Hall as [Hl Hall]. destruct ls as [|l' ls]; [done|].
  rewrite join_cons by done. apply Forall_app. split; [done|].
  apply Forall_app. split; [done|]. by apply IH.
Qed.

Lemma Forall_occurs (Q : N -> Prop) (x s : jsstring) :
  occurs x s -> Forall Q s -> Forall Q x.
Proof.
  intros (a & b & ->) H. apply Forall_app in H as [_ H]. by apply Forall_app in H as [H _].
Qed.

(** *** The ends of a trimmed text *)

Lemma dropWhile_fixed (p : N -> bool) (s : jsstring) :
  dropWhile p s = s -> match s with [] => True | c :: _ => p c = false end.
Proof.
  destruct s as [|c s]; [done|]. simpl. destruct (p c) eqn:E; [|done].
  intros H. destruct (dropWhile_suffix p s) as [a Ha].
  apply (f_equal length) in H. apply (f_equal length) in Ha.
  rewrite length_app in Ha. simpl in H. lia.
Qed.

Lemma trim_head s : match trim s with [] => True | c :: _ => isWS c = false end.
Proof. apply dropWhile_fixed. apply trimStart_trimEnd. Qed.

Lemma trim_last s : match rev (trim s) with [] => True | c :: _ => isWS c = false end.
Proof.
  unfold trim, trimEnd. rewrite rev_involutive. apply dropWhile_head.
Qed.

(** *** The first and the last word *)

Lemma first_word (ps : list jsstring) c t :
  join SP ps = c :: t -> c <> 32%N ->
  exists w r, List.filter (fun w => negb (eqs w [])) ps = (c :: w) :: r.
Proof.
  destruct ps as [|p ps]; [done|]. destruct p as [|x p].
  - destruct ps as [|q ps]; [done|]. rewrite join_cons by done.
    intros [= <- _] Hc. done.
  - intros E Hc. assert (x = c) as ->.
    { destruct ps; simpl in E; by injection E. }
    simpl. eauto.
Qed.

Lemma last_word : forall (ps : list jsstring) c t,
  rev (join SP ps) = c :: t -> c <> 32%N ->
  exists r w t', List.filter (fun w => negb (eqs w [])) ps = r ++ [w] /\ rev w = c :: t'.
Proof.
  induction ps as [|p ps IH]; intros c t E Hc; [done|].
  destruct ps as [|q ps].
  - simpl in E. destruct p as [|x p]; [done|].
    exists [], (x :: p), t. split; [done|exact E].
  - rewrite join_cons in E by done. rewrite !rev_app_distr in E.
    destruct (rev (join SP (q :: ps))) as [|d t1] eqn:Er.
    { simpl in E. injection E as <- _. done. }
    simpl in E. injection E as -> _.
    destruct (IH c t1 eq_refl Hc) as (r & w & t' & Ef & Ew).
    cbn [List.filter] in Ef |- *. rewrite Ef.
    destruct (negb (eqs p [])).
    + exists (p :: r), w, t'. done.
    + exists r, w, t'. done.
Qed.

Lemma join_head (w : jsstring) (r : list jsstring) c t :
  w = c :: t -> exists t', join SP (w :: r) = c :: t'.
Proof. intros ->. destruct r; simpl; eauto. Qed.

Lemma join_last : forall (r : list jsstring) (w : jsstring) c t,
  rev w = c :: t -> exists t', rev (join SP (r ++ [w])) = c :: t'.
Proof.
  induction r as [|p r IH]; intros w c t E.
  - simpl. eauto.
  - change ((p :: r) ++ [w]) with (p :: (r ++ [w])).
    rewrite join_cons by (by destruct r). rewrite !rev_app_distr.
    destruct (IH w c t E) as (t' & ->). simpl. eauto.
Qed.

(** *** Capitalized words *)

Lemma upperCU_keeps c :
  (c < 128)%N -> c <> 32%N -> isSep c = false ->
  upperCU c <> 32%N /\ isSep (upperCU c) = false /\ (upperCU c < 128)%N /\
  upperCU (upperCU c) = upperCU c.
Proof.
  intros Hc H32 Hs. unfold upperCU, isLower.
  destruct ((97 <=? c)%N && (c <=? 122)%N) eqn:E.
  - apply andb_true_iff in E as [E1 E2]. apply N.leb_le in E1, E2.
    split; [lia|]. split.
    { unfold isSep. apply orb_false_intro; apply N.eqb_neq; lia. }
    split; [lia|].
    assert (((97 <=? c - 32)%N && (c - 32 <=? 122)%N) = false) as ->; [|done].
    apply andb_false_iff. left. apply N.leb_gt. lia.
  - rewrite E. done.
Qed.

Lemma upperCU_not_ws c : isWS c = false -> isWS (upperCU c) = false.
Proof.
  intros H. unfold upperCU, isLower.
  destruct ((97 <=? c)%N && (c <=? 122)%N) eqn:E; [|done].
  apply andb_true_iff in E as [E1 E2]. apply N.leb_le in E1, E2.
  unfold isWS.
  repeat (apply orb_false_intro);
    try (apply N.eqb_neq; lia).
  apply andb_false_iff. left. apply N.leb_gt. lia.
Qed.

Section Titles.
Variable upperCase : jsstring -> jsstring.
Hypothesis upper_ascii : forall c, (c < 128)%N -> upperCase [c] = [upperCU c].

Let okChar (c : N) : Prop := c <> 32%N /\ isSep c = false /\ (c < 128)%N.

Lemma capitalize_word c (w : jsstring) :
  okChar c -> capitalize upperCase (c :: w) = upperCU c :: w.
Proof using upper_ascii. intros (_ & _ & Hc). unfold capitalize. simpl. by rewrite upper_ascii. Qed.

Lemma capitalize_ok (w : jsstring) :
  w <> [] -> Forall okChar w ->
  capitalize upperCase w <> [] /\ Forall okChar (capitalize upperCase w) /\
  capitalize upperCase (capitalize upperCase w) = capitalize upperCase w.
Proof using upper_ascii.
  destruct w as [|c w]; [done|]. intros _ H. apply Forall_cons in H as [Hc Hw].
  rewrite capitalize_word by done.
  destruct Hc as (H32 & Hs & Ha).
  destruct (upperCU_keeps c Ha H32 Hs) as (K1 & K2 & K3 & K4).
  split; [done|]. split; [by constructor|].
  rewrite capitalize_word by done. by rewrite K4.
Qed.

Lemma capitalize_last (w : jsstring) d t :
  w <> [] -> Forall okChar w -> rev w = d :: t -> isWS d = false ->
  exists d' t', rev (capitalize upperCase w) = d' :: t' /\ isWS d' = false.
Proof using upper_ascii.
  destruct w as [|c w]; [done|]. intros _ H E Hd.
  apply Forall_cons in H as [Hc Hw]. rewrite capitalize_word by done.
  simpl in E |- *. destruct (rev w) as [|x r] eqn:Er.
  - simpl in E. injection E as <- _. simpl. eexists _, _. split; [done|].
    by apply upperCU_not_ws.
  - simpl in E. injection E as -> _. simpl. eauto.
Qed.

(** X23.  For a task id of ASCII characters, the title is made of words (not
    empty, without space, hyphen or underscore) joined by single spaces; it
    has no white space at either end; and it is its own title. *)
Theorem title_normal_form taskId :
  Forall (fun c => (c < 128)%N) taskId ->
  (exists words,
     formatTaskIdToTitle upperCase taskId = join SP words /\ Forall titleWord words) /\
  trim (formatTaskIdToTitle upperCase taskId) = formatTaskIdToTitle upperCase taskId /\
  formatTaskIdToTitle upperCase (formatTaskIdToTitle upperCase taskId)
  = formatTaskIdToTitle upperCase taskId.
Proof using upper_ascii.
  intros Hascii. unfold formatTaskIdToTitle.
  set (X := trim (replaceAllRe (plus (Chr isSep)) SP taskId)).
  assert (HX : Forall (fun c => isSep c = false /\ (c < 128)%N) X).
  { eapply Forall_occurs; [apply occurs_trim|].
    apply (replaceAll_clean (fun c => (c < 128)%N)); [done|done]. }
  set (words := List.filter (fun w => negb (eqs w [])) (split SP X)).
  assert (Hwords : Forall (fun w => w <> [] /\ Forall okChar w) words).
  { apply Forall_forall. intros w Hw. apply list_elem_of_In, filter_In in Hw as [Hin Hne].
    split; [by apply negb_true_iff, eqs_false in Hne|].
    pose proof (split_chr_clean _ _ _ Hin) as H32.
    apply split_occurs in Hin. pose proof (Forall_occurs _ _ _ Hin HX) as Hall.
    apply Forall_forall. intros c Hc. rewrite Forall_forall in Hall.
    destruct (Hall c Hc) as [Hs Ha]. split; [|done]. intros ->.
    by apply H32, list_elem_of_In. }
  set (caps := List.map (capitalize upperCase) words).
  assert (Hcaps : Forall (fun w => w <> [] /\ Forall okChar w /\
                                   capitalize upperCase w = w) caps).
  { unfold caps. apply List.Forall_map. eapply Forall_impl; [exact Hwords|].
    intros w [Hne Hw]. simpl. by apply capitalize_ok. }
  assert (Htitle : titleCase upperCase taskId = join SP caps) by reflexivity.
  rewrite Htitle.
  (* the ends of the title *)
  assert (Hends : trim (join SP caps) = join SP caps).
  { pose proof (trim_head (replaceAllRe (plus (Chr isSep)) SP taskId)) as Hh.
    pose proof (trim_last (replaceAllRe (plus (Chr isSep)) SP taskId)) as Hl.
    fold X in Hh, Hl.
    pose proof (join_split SP X ltac:(done)) as Hj.
    destruct X as [|c t] eqn:EX.
    { unfold caps, words. done. }
    destruct (rev (c :: t)) as [|d t1] eqn:Er.
    { apply (f_equal (@length N)) in Er. rewrite length_rev in Er. done. }
    assert (Hc32 : c <> 32%N) by (by intros ->).
    assert (Hd32 : d <> 32%N) by (by intros ->).
    destruct (first_word _ c t Hj Hc32) as (w1 & r1 & E1).
    rewrite <- Hj in Er.
    destruct (last_word _ d t1 Er Hd32) as (r2 & w2 & t2 & E2 & Ew2).
    fold words in E1, E2.
    apply trim_id.
    - unfold caps. rewrite E1. cbn [List.map].
      rewrite E1 in Hwords. apply Forall_cons in Hwords as [[_ Hw] _].
      apply Forall_cons in Hw as [Hc _]. rewrite capitalize_word by done.
      destruct (join_head (upperCU c :: w1)
                  (List.map (capitalize upperCase) r1) (upperCU c) w1 eq_refl) as [t' ->].
      by apply upperCU_not_ws.
    - unfold caps. rewrite E2, List.map_app. cbn [List.map].
      rewrite E2 in Hwords. apply Forall_app in Hwords as [_ Hw].
      apply Forall_cons in Hw as [[Hne Hw] _].
      destruct (capitalize_last w2 d t2 Hne Hw Ew2 Hl) as (d' & t' & Ec & Hd').
      destruct (join_last (List.map (capitalize upperCase) r2) _ d' t' Ec) as [t'' ->].
      done. }
  split; [|split; [exact Hends|]].
  - exists caps. split; [done|]. eapply Forall_impl; [exact Hcaps|].
    intros w (Hne & Hw & _). split; [done|]. eapply Forall_impl; [exact Hw|].
    intros c (? & ? & _). done.
  - unfold titleCase. fold titleCase.
    assert (Hclean : Forall (fun c => isSep c = false) (join SP caps)).
    { apply Forall_join; [by constructor|]. eapply Forall_impl; [exact Hcaps|].
      intros w (_ & Hw & _). eapply Forall_impl; [exact Hw|]. by intros c (_ & ? & _). }
    rewrite (replaceAll_none _ Hclean), Hends.
    destruct caps as [|w0 caps0] eqn:Ec; [done|]. rewrite <- Ec in *.
    assert (Hsplit : split SP (join SP caps) = caps).
    { apply split_join_chr; [by rewrite Ec|]. eapply Forall_impl; [exact Hcaps|].
      intros w (_ & Hw & _) Hin. rewrite Forall_forall in Hw.
      apply list_elem_of_In, Hw in Hin. by destruct Hin. }
    rewrite Hsplit.
    assert (Hfilter : List.filter (fun w => negb (eqs w [])) caps = caps).
    { clear -Hcaps. induction caps as [|w ws IH]; [done|].
      apply Forall_cons in Hcaps as [(Hne & _) Hall]. simpl.
      apply eqs_false in Hne. rewrite Hne. simpl. by rewrite IH. }
    rewrite Hfilter.
    assert (Hmap : List.map (capitalize upperCase) caps = caps).
    { clear -Hcaps. induction caps as [|w ws IH]; [done|].
      apply Forall_cons in Hcaps as [(_ & _ & Hw) Hall]. simpl.
      by rewrite Hw, IH. }
    by rewrite Hmap.
Qed.
End Titles.

Lemma title_normal_form_witness :
  Forall (fun c => (c < 128)%N) (js "fix_the-bug") /\
  trim (formatTaskIdToTitle toUpperCase (js "fix_the-bug"))
  = formatTaskIdToTitle toUpperCase (js "fix_the-bug") /\
  formatTaskIdToTitle toUpperCase (formatTaskIdToTitle toUpperCase (js "fix_the-bug"))
  = formatTaskIdToTitle toUpperCase (js "fix_the-bug").
Proof.
  assert (H : Forall (fun c => (c < 128)%N) (js "fix_the-bug")).
  { vm_compute. repeat constructor. }
  split; [exact H|].
  exact (proj2 (title_normal_form toUpperCase (fun c _ => eq_refl) (js "fix_the-bug") H)).
Defined.

(** ** The default selection *)

(** *** The order of strings *)

Lemma str_ltb_irrefl a : str_ltb a a = false.
Proof.
  induction a as [|x a IH]; [done|]. simpl.
  rewrite N.ltb_irrefl, N.eqb_refl, IH. done.
Qed.

Lemma str_ltb_asym : forall a b, str_ltb a b = true -> str_ltb b a = false.
Proof.
  induction a as [|x a IH]; intros [|y b]; simpl; try done.
  intros H. apply orb_true_iff in H as [H|H].
  - apply N.ltb_lt in H. apply orb_false_intro; [apply N.ltb_ge; lia|].
    apply andb_false_iff. left. apply N.eqb_neq. lia.
  - apply andb_true_iff in H as [E H]. apply N.eqb_eq in E as ->.
    rewrite N.ltb_irrefl, N.eqb_refl. simpl. by apply IH.
Qed.

(** [a <= b] and [b <= c] give [a <= c] *)
Lemma str_leb_trans : forall a b c,
  str_ltb b a = false -> str_ltb c b = false -> str_ltb c a = false.
Proof.
  induction a as [|x a IH]; intros [|y b] [|z c]; simpl; try done.
  intros H1 H2.
  apply orb_false_iff in H1 as [L1 E1]. apply orb_false_iff in H2 as [L2 E2].
  apply N.ltb_ge in L1, L2.
  apply orb_false_intro; [apply N.ltb_ge; lia|].
  destruct (N.eqb_spec z x) as [->|Hzx]; [|done]. simpl.
  assert (y = x) as -> by lia.
  rewrite N.eqb_refl in E1, E2. simpl in E1, E2. by apply (IH b c).
Qed.

Lemma insertSorted_In x y l : In x (insertSorted y l) <-> x = y \/ In x l.
Proof.
  induction l as [|z l IH]; simpl; [intuition|].
  destruct (str_ltb z y); simpl; rewrite ?IH; intuition.
Qed.

Lemma sortStrings_In x l : In x (sortStrings l) <-> In x l.
Proof.
  induction l as [|y l IH]; simpl; [done|].
  rewrite insertSorted_In, IH. intuition.
Qed.

Lemma insertSorted_ascending x l : ascending l -> ascending (insertSorted x l).
Proof.
  induction l as [|y l IH]; intros H; simpl.
  - split; [constructor|done].
  - destruct H as [Hy Hl]. destruct (str_ltb y x) eqn:E.
    + split; [|by apply IH].
      apply Forall_forall. intros b Hb.
      apply list_elem_of_In, insertSorted_In in Hb as [->|Hb].
      * by apply str_ltb_asym.
      * rewrite Forall_forall in Hy. by apply Hy, list_elem_of_In.
    + split; [|done]. constructor; [done|].
      eapply Forall_impl; [exact Hy|]. intros b Hb. simpl in Hb.
      by apply (str_leb_trans x y b).
Qed.

Lemma sortStrings_ascending l : ascending (sortStrings l).
Proof.
  induction l as [|x l IH]; simpl; [done|]. by apply insertSorted_ascending.
Qed.

(** The first element of an ascending list with a property is the least
    one with it. *)
Lemma find_least (P : jsstring -> bool) : forall l m,
  ascending l -> List.find P l = Some m ->
  forall x, In x l -> P x = true -> str_ltb x m = false.
Proof.
  induction l as [|y l IH]; intros m Hl; simpl; [done|].
  destruct Hl as [Hy Hl]. destruct (P y) eqn:E.
  - intros [= <-] x [<-|Hx] _; [apply str_ltb_irrefl|].
    rewrite Forall_forall in Hy. by apply Hy, list_elem_of_In.
  - intros Hf x [<-|Hx] Px; [congruence|]. by apply (IH m).
Qed.

(** *** Finding in lists *)

Lemma find_exists {A} (P : A -> bool) l x :
  In x l -> P x = true -> exists y, List.find P l = Some y.
Proof.
  induction l as [|a l IH]; [done|]. simpl. intros [->|Hx] Px.
  - rewrite Px. eauto.
  - destruct (P a); eauto.
Qed.

Lemma find_app_split {A} (P : A -> bool) l1 l2 :
  List.find P (l1 ++ l2) =
  match List.find P l1 with Some x => Some x | None => List.find P l2 end.
Proof. induction l1 as [|a l1 IH]; [done|]. simpl. by destruct (P a). Qed.

Lemma find_filter {A} (P Q : A -> bool) l :
  (forall x, In x l -> P x = true -> Q x = true) ->
  List.find P (List.filter Q l) = List.find P l.
Proof.
  induction l as [|a l IH]; intros H; [done|]. simpl.
  destruct (Q a) eqn:Eq; simpl.
  - destruct (P a); [done|]. apply IH. intros x Hx. apply H. by right.
  - destruct (P a) eqn:Ep.
    + rewrite (H a (or_introl eq_refl) Ep) in Eq. done.
    + apply IH. intros x Hx. apply H. by right.
Qed.

(** *** Maps and sets *)

Lemma mapGet_In {V} (m : jsMap V) k v : mapGet m k = Some v -> In (k, v) m.
Proof.
  induction m as [|[k0 v0] m IH]; simpl; [done|].
  destruct (eqs k0 k) eqn:E.
  - apply eqs_true in E as ->. intros [= ->]. by left.
  - intros H. right. by apply IH.
Qed.

Lemma mapGet_unique {V} (m : jsMap V) k v :
  NoDup (List.map fst m) -> In (k, v) m -> mapGet m k = Some v.
Proof.
  induction m as [|[k0 v0] m IH]; simpl; [done|].
  intros Hnd [[= -> ->]|Hin].
  - assert (eqs k k = true) as -> by by apply eqs_true. done.
  - apply NoDup_cons in Hnd as [Hk Hnd].
    destruct (eqs k0 k) eqn:E; [|by apply IH].
    apply eqs_true in E as ->. destruct Hk.
    apply list_elem_of_In. apply (in_map fst) in Hin. exact Hin.
Qed.

Lemma mapSet_fresh {V} (m : jsMap V) k v :
  mapHas m k = false -> mapSet m k v = m ++ [(k, v)].
Proof.
  unfold mapHas. induction m as [|[k0 v0] m IH]; simpl; [done|].
  destruct (eqs k0 k); [done|]. intros H. by rewrite IH.
Qed.

Lemma firstSeen_fresh ks : forall seen k, k ∈ firstSeen seen ks -> k ∉ seen.
Proof.
  induction ks as [|a ks IH]; intros seen k; simpl; [by intros ?%elem_of_nil|].
  destruct (bool_decide (a ∈ seen)) eqn:B; [apply IH|].
  apply bool_decide_eq_false in B.
  intros [->|H]%elem_of_cons; [done|].
  apply IH in H. intros Hk. apply H. by right.
Qed.

Lemma firstSeen_NoDup ks : forall seen, NoDup (firstSeen seen ks).
Proof.
  induction ks as [|a ks IH]; intros seen; simpl; [constructor|].
  destruct (bool_decide (a ∈ seen)); [apply IH|].
  constructor; [|apply IH]. intros H. apply firstSeen_fresh in H. apply H. by left.
Qed.

Lemma setAdd_has s x y : setHas (setAdd s x) y = eqs y x || setHas s y.
Proof.
  unfold setAdd. destruct (setHas s x) eqn:E.
  - destruct (eqs y x) eqn:Eyx; [|done]. apply eqs_true in Eyx as ->. by rewrite E.
  - unfold setHas. rewrite existsb_app. simpl. rewrite orb_false_r. apply orb_comm.
Qed.

Lemma setHas_In s x : setHas s x = true <-> In x s.
Proof.
  unfold setHas. rewrite existsb_exists. split.
  - intros (y & Hy & E). by apply eqs_true in E as ->.
  - intros H. exists x. split; [done|]. by apply eqs_true.
Qed.

Lemma addModels_has entries : forall acc y,
  setHas (fold_left (fun acc e => setAdd acc (ge_model e)) entries acc) y
  = groupHas entries y || setHas acc y.
Proof.
  induction entries as [|e entries IH]; intros acc y; simpl; [done|].
  rewrite IH, setAdd_has. unfold groupHas.
  assert (eqs y (ge_model e) = eqs (ge_model e) y) as ->.
  { unfold eqs. apply bool_decide_ext. split; congruence. }
  destruct (eqs (ge_model e) y), (existsb _ entries); done.
Qed.

Lemma allModels_has (grouped : jsMap (list GroupedEntry)) y : forall acc,
  setHas
    (fold_left
       (fun acc kv => fold_left (fun acc e => setAdd acc (ge_model e)) (snd kv) acc)
       grouped acc) y
  = existsb (fun kv => groupHas (snd kv) y) grouped || setHas acc y.
Proof.
  induction grouped as [|kv grouped IH]; intros acc; simpl; [done|].
  rewrite IH, addModels_has.
  destruct (groupHas (snd kv) y), (existsb _ grouped); done.
Qed.

(** *** The model found for a group *)

Lemma truthy_Some o m : truthy o = Some m -> o = Some m /\ m <> [].
Proof. destruct o as [[|c s]|]; simpl; try done. by intros [= <-]. Qed.

Lemma truthy_nonempty m : m <> [] -> truthy (Some m) = Some m.
Proof. by destruct m. Qed.

Lemma groupHas_In entries m :
  groupHas entries m = true <-> exists e, In e entries /\ ge_model e = m.
Proof.
  unfold groupHas. rewrite existsb_exists. split.
  - intros (e & He & E). apply eqs_true in E. eauto.
  - intros (e & He & E). exists e. split; [done|]. by apply eqs_true.
Qed.

Lemma preferred_nonempty p : In p preferredOrder -> p <> [].
Proof. intros [<-|[<-|[<-|[]]]]; done. Qed.

(** What a truthy pick is: a model of the group, with an entry to request *)
Lemma available_found order entries m :
  truthy (availableModel order entries) = Some m ->
  m <> [] /\ groupHas entries m = true /\
  exists e, List.find (fun e => eqs (ge_model e) m) entries = Some e.
Proof.
  intros H. apply truthy_Some in H as [H Hm]. split; [done|].
  assert (Hg : groupHas entries m = true).
  { unfold availableModel in H.
    destruct (truthy (List.find _ order)) as [m'|] eqn:E.
    - injection H as ->. apply truthy_Some in E as [E _].
      apply find_some in E as [_ E]. exact E.
    - destruct entries as [|e entries]; [done|]. simpl in H. injection H as <-.
      apply groupHas_In. exists e. split; [by left|done]. }
  split; [done|]. apply groupHas_In in Hg as (e & He & E).
  apply (find_exists _ entries e He). by apply eqs_true.
Qed.

Lemma group_in_all (grouped : jsMap (list GroupedEntry)) id entries m :
  In (id, entries) grouped -> groupHas entries m = true ->
  setHas (allModelsOf grouped) m = true.
Proof.
  intros Hin Hm. unfold allModelsOf. rewrite allModels_has.
  apply orb_true_iff. left. apply existsb_exists. exists (id, entries). done.
Qed.

(** The pick for a group of the map: the first preferred model the group
    has; without one (and without empty model names), the least model of
    the group. *)
Lemma available_spec (grouped : jsMap (list GroupedEntry)) id entries :
  In (id, entries) grouped ->
  (forall p, List.find (groupHas entries) preferredOrder = Some p ->
     availableModel (modelDisplayOrder grouped) entries = Some p) /\
  (List.find (groupHas entries) preferredOrder = None ->
   entries <> [] -> Forall (fun e => ge_model e <> []) entries ->
   exists m, availableModel (modelDisplayOrder grouped) entries = Some m /\
     groupHas entries m = true /\
     Forall (fun e => str_ltb (ge_model e) m = false) entries).
Proof.
  intros Hin. unfold availableModel, modelDisplayOrder.
  change (fun m => existsb (fun e => eqs (ge_model e) m) entries) with (groupHas entries).
  rewrite find_app_split.
  rewrite (find_filter (groupHas entries)) by (intros x _; by apply (group_in_all _ id entries)).
  split.
  - intros p Hp. rewrite Hp.
    apply find_some in Hp as [Hp _]. by rewrite (truthy_nonempty _ (preferred_nonempty _ Hp)).
  - intros Hnone Hne Hall. rewrite Hnone.
    set (unknown := sortStrings _).
    assert (Hunknown : forall e, In e entries -> In (ge_model e) unknown).
    { intros e He. apply sortStrings_In, filter_In. split.
      - apply setHas_In, (group_in_all _ id entries); [done|].
        apply groupHas_In. eauto.
      - apply negb_true_iff. destruct (existsb _ preferredOrder) eqn:Ex; [|done].
        apply existsb_exists in Ex as (p & Hp & E). apply eqs_true in E.
        pose proof (find_none _ _ Hnone p Hp) as Hf.
        assert (groupHas entries p = true); [|congruence].
        apply groupHas_In. eauto. }
    destruct entries as [|e0 entries0] eqn:Een; [done|]. rewrite <- Een in *.
    assert (He0 : In e0 entries) by (rewrite Een; by left).
    destruct (find_exists (groupHas entries) unknown (ge_model e0)) as [m Hm].
    { by apply Hunknown. }
    { apply groupHas_In. eauto. }
    rewrite Hm. pose proof (find_some _ _ Hm) as [Hmu Hmg].
    assert (m <> []) as Hmne.
    { apply groupHas_In in Hmg as (e & He & <-).
      rewrite Forall_forall in Hall. by apply Hall, list_elem_of_In. }
    rewrite (truthy_nonempty _ Hmne). exists m. split; [done|]. split; [done|].
    apply Forall_forall. intros e He. apply list_elem_of_In in He.
    apply (find_least (groupHas entries) unknown m); [apply sortStrings_ascending|done| |].
    + by apply Hunknown.
    + apply groupHas_In. eauto.
Qed.

(** *** The loop over the groups *)

Lemma selectFor_cases order st kv :
  (selectFor order st kv = Returns st /\
   (mapHas (fst st) (fst kv) = true \/ truthy (availableModel order (snd kv)) = None)) \/
  (exists m e,
     mapHas (fst st) (fst kv) = false /\
     truthy (availableModel order (snd kv)) = Some m /\
     List.find (fun e => eqs (ge_model e) m) (snd kv) = Some e /\
     selectFor order st kv =
       Returns (fst st ++ [(fst kv, m)], snd st ++ [lf_filename (ge_log e)])).
Proof.
  unfold selectFor. destruct (mapHas (fst st) (fst kv)) eqn:Eh; [left; eauto|].
  destruct (truthy (availableModel order (snd kv))) as [m|] eqn:Ea; [|left; eauto].
  destruct (available_found _ _ _ Ea) as (_ & _ & e & Ef). rewrite Ef.
  right. exists m, e. by rewrite (mapSet_fresh _ _ _ Eh).
Qed.

Lemma mapGet_snoc {V} (m : jsMap V) k v id :
  mapHas m k = false ->
  mapGet (m ++ [(k, v)]) id = match mapGet m id with
                               | Some x => Some x
                               | None => if eqs k id then Some v else None
                               end.
Proof.
  intros H. rewrite <- (mapSet_fresh _ _ _ H), mapGet_mapSet.
  destruct (eqs k id) eqn:E; [|by destruct (mapGet m id)].
  apply eqs_true in E as ->. unfold mapHas in H. by destruct (mapGet m id).
Qed.

Lemma selectAll_spec order groups : forall st,
  exists st', selectAll order st groups = Returns st' /\
    (forall id m, mapGet (fst st) id = Some m -> mapGet (fst st') id = Some m) /\
    (forall id m, mapGet (fst st) id = None -> mapGet (fst st') id = Some m ->
       exists entries, In (id, entries) groups /\
         truthy (availableModel order entries) = Some m) /\
    (exists more, snd st' = snd st ++ more /\
       forall f, In f more ->
         exists id entries e, In (id, entries) groups /\
           mapGet (fst st) id = None /\ mapGet (fst st') id = Some (ge_model e) /\
           List.find (fun x => eqs (ge_model x) (ge_model e)) entries = Some e /\
           f = lf_filename (ge_log e)) /\
    (forall id entries, In (id, entries) groups ->
       truthy (availableModel order entries) <> None ->
       mapGet (fst st') id <> None) /\
    length (fst st) <= length (fst st') /\
    (length (fst st') = length (fst st) -> fst st' = fst st).
Proof.
  induction groups as [|kv groups IH]; intros st.
  - exists st. split; [done|]. split; [done|]. split; [congruence|].
    split; [exists []; split; [by rewrite app_nil_r|done]|]. done.
  - cbn [selectAll].
    destruct (selectFor_cases order st kv) as [[E Hwhy]|(m & e & Eh & Ea & Ef & E)];
      rewrite E; cbn [mbind outcome_bind].
    + destruct (IH st) as (st' & -> & Ha & Hb & (more & Em & Hc) & Hd & Hl & He).
      exists st'. split; [done|]. split; [done|]. split.
      { intros id m0 H1 H2. destruct (Hb id m0 H1 H2) as (entries & Hin & Hav).
        exists entries. split; [by right|done]. }
      split.
      { exists more. split; [done|]. intros f Hf.
        destruct (Hc f Hf) as (id & entries & e & Hin & H). exists id, entries, e.
        split; [by right|done]. }
      split; [|done].
      intros id entries [->|Hin] Hav; [|by apply (Hd id entries)].
      simpl in Hwhy. destruct Hwhy as [Hhas|Hno]; [|done].
      unfold mapHas in Hhas. destruct (mapGet (fst st) id) as [x|] eqn:Ex; [|done].
      by rewrite (Ha id x Ex).
    + set (st1 := (fst st ++ [(fst kv, m)], snd st ++ [lf_filename (ge_log e)])).
      destruct (IH st1) as (st' & -> & Ha & Hb & (more & Em & Hc) & Hd & Hl & He).
      assert (Hget1 : forall id, mapGet (fst st1) id =
                match mapGet (fst st) id with
                | Some x => Some x
                | None => if eqs (fst kv) id then Some m else None
                end).
      { intros id. by apply mapGet_snoc. }
      assert (Hem : ge_model e = m).
      { apply find_some in Ef as [_ Ef]. by apply eqs_true in Ef. }
      exists st'. split; [done|]. split.
      { intros id m0 H. apply Ha. by rewrite Hget1, H. }
      split.
      { intros id m0 H1 H2. destruct (eqs (fst kv) id) eqn:Ek.
        - apply eqs_true in Ek. exists (snd kv). split; [left; by destruct kv; subst|].
          assert (mapGet (fst st') id = Some m) as H3.
          { apply Ha. by rewrite Hget1, H1, (proj2 (eqs_true _ _) Ek). }
          congruence.
        - destruct (Hb id m0) as (entries & Hin & Hav); [by rewrite Hget1, H1, Ek|done|].
          exists entries. split; [by right|done]. }
      split.
      { exists (lf_filename (ge_log e) :: more). split.
        { rewrite Em. unfold st1. simpl. by rewrite <- app_assoc. }
        intros f [<-|Hf].
        - exists (fst kv), (snd kv), e. split; [left; by destruct kv|].
          unfold mapHas in Eh. split; [by destruct (mapGet (fst st) (fst kv))|].
          split; [|by rewrite Hem].
          apply Ha. rewrite Hget1. destruct (mapGet (fst st) (fst kv)); [done|].
          by rewrite (proj2 (eqs_true _ _) eq_refl), Hem.
        - destruct (Hc f Hf) as (id & entries & e' & Hin & H1 & H2 & H3 & H4).
          exists id, entries, e'. split; [by right|].
          rewrite Hget1 in H1. by destruct (mapGet (fst st) id). }
      split.
      { intros id entries [Ekv|Hin] Hav; [|by apply (Hd id entries)].
        assert (fst kv = id) as <- by (by rewrite Ekv).
        assert (mapGet (fst st') (fst kv) = Some m) as ->; [|done].
        apply Ha. rewrite Hget1. unfold mapHas in Eh.
        destruct (mapGet (fst st) (fst kv)); [done|].
        by rewrite (proj2 (eqs_true _ _) eq_refl). }
      assert (Hl1 : length (fst st1) = S (length (fst st)))
        by (unfold st1; simpl; rewrite length_app; simpl; lia).
      clear -Hl Hl1. clearbody st1. unfold jsMap in *. split; [lia|]. intros Heq. lia.
Qed.

(** *** The effect *)

Section DefaultSelection.
Variables upperCase lowerCase : jsstring -> jsstring.

Let taskOf (log : LogFile) : jsstring := getTaskIdFromFilename (lf_filename log).
Let modelOf (log : LogFile) : jsstring :=
  fst (parseTrajectoryFilename upperCase lowerCase (lf_filename log)).
Let entryOf (log : LogFile) : GroupedEntry :=
  {| ge_log := log; ge_model := modelOf log |}.
Let push (o : option (list GroupedEntry)) (log : LogFile) : list GroupedEntry :=
  default [] o ++ [entryOf log].

Lemma group_entries logs id entries :
  In (id, entries) (buildGroupedMap upperCase lowerCase logs) ->
  mapGet (buildGroupedMap upperCase lowerCase logs) id = Some entries /\
  entries = List.map entryOf (withKey taskOf id logs) /\ entries <> [].
Proof.
  assert (E : buildGroupedMap upperCase lowerCase logs = groupFold taskOf push [] logs)
    by done.
  intros Hin.
  assert (Hget : mapGet (buildGroupedMap upperCase lowerCase logs) id = Some entries).
  { apply mapGet_unique; [|done]. rewrite E, groupFold_keys. apply firstSeen_NoDup. }
  split; [done|]. rewrite E, groupFold_get in Hget. simpl in Hget.
  rewrite (pushes_none upperCase lowerCase) in Hget.
  destruct (withKey taskOf id logs) as [|h hits]; [done|].
  simpl in Hget. injection Hget as <-. done.
Qed.

(** X24.  The effect that follows a change of [logs] never raises.  It keeps the
    model already selected for a task.  For a task without selection it
    selects a model of the task's group that is not the empty string: the
    first of "GPT-5", "Claude Sonnet 4.5", "Gemini 2.5 Pro" that the group
    has, and, when the group has none of them (and no empty model name),
    the least model name of the group in code-unit order.  Every file it
    asks [ensureTrajectory] for is a log of a task that had no selection,
    and its model is the one now selected for that task.  When no log
    resolves to an empty model name, every task of the logs has a
    selection afterwards. *)
Theorem default_selection logs selected :
  exists next requested,
    selectDefaults upperCase lowerCase logs selected = Returns (next, requested) /\
    (forall id m, mapGet selected id = Some m -> mapGet next id = Some m) /\
    (forall id m, mapGet selected id = None -> mapGet next id = Some m ->
       m <> [] /\
       exists entries,
         mapGet (buildGroupedMap upperCase lowerCase logs) id = Some entries /\
         groupHas entries m = true /\
         (forall p, List.find (groupHas entries) preferredOrder = Some p -> m = p) /\
         (List.find (groupHas entries) preferredOrder = None ->
          Forall (fun e => ge_model e <> []) entries ->
          Forall (fun e => str_ltb (ge_model e) m = false) entries)) /\
    (forall f, In f requested ->
       exists log, In log logs /\ lf_filename log = f /\
         mapGet selected (taskOf log) = None /\
         mapGet next (taskOf log) = Some (modelOf log)) /\
    ((forall log, In log logs -> modelOf log <> []) ->
     forall log, In log logs -> mapGet next (taskOf log) <> None).
Proof.
  unfold selectDefaults. destruct logs as [|log0 logs0] eqn:El.
  { exists selected, []. split; [done|]. split; [done|]. split; [congruence|]. done. }
  rewrite <- El. clear El log0 logs0.
  set (grouped := buildGroupedMap upperCase lowerCase logs).
  destruct (selectAll_spec (modelDisplayOrder grouped) grouped (selected, []))
    as (st' & -> & Ha & Hb & (more & Em & Hc) & Hd & Hl & He).
  cbn [mbind outcome_bind fst snd] in *.
  match goal with
  | |- context [if ?c then selected else ?x] =>
      assert (Hnext : (if c then selected else x) = x)
  end.
  { match goal with |- context [?a =? ?b] => destruct (Nat.eqb_spec a b) as [Heq|] end;
      [|done]. symmetry. exact (He Heq). }
  rewrite Hnext. clear Hnext. exists (fst st'), (snd st'). split; [done|]. split; [exact Ha|].
  split; [|split].
  - intros id m H1 H2. destruct (Hb id m H1 H2) as (entries & Hin & Hav).
    destruct (available_found _ _ _ Hav) as (Hm & Hg & _). split; [done|].
    destruct (group_entries _ _ _ Hin) as (Hget & _ & Hne).
    apply truthy_Some in Hav as [Hav _].
    destruct (available_spec grouped id entries Hin) as [Hp Hu].
    exists entries. split; [done|]. split; [done|]. split.
    + intros p Hfp. specialize (Hp p Hfp). rewrite Hp in Hav. by injection Hav.
    + intros Hnone Hall. destruct (Hu Hnone Hne Hall) as (m' & Hav' & _ & Hmin).
      rewrite Hav' in Hav. injection Hav as <-. exact Hmin.
  - intros f Hf. rewrite Em in Hf. simpl in Hf.
    destruct (Hc f Hf) as (id & entries & e & Hin & H1 & H2 & Hfind & ->).
    destruct (group_entries _ _ _ Hin) as (_ & -> & _).
    apply find_some in Hfind as [He' _]. apply in_map_iff in He' as (log & <- & Hlog).
    apply filter_In in Hlog as [Hlog Hk]. apply eqs_true in Hk.
    exists log. split; [done|]. split; [done|]. by rewrite Hk.
  - intros Hall log Hlog.
    assert (Hin : In log (withKey taskOf (taskOf log) logs)).
    { apply filter_In. split; [done|]. by apply eqs_true. }
    assert (Hg : exists entries, In (taskOf log, entries) grouped).
    { assert (E : grouped = groupFold taskOf push [] logs) by done.
      destruct (mapGet grouped (taskOf log)) as [entries|] eqn:Eg.
      - exists entries. by apply mapGet_In.
      - rewrite E, groupFold_get in Eg. simpl in Eg.
        rewrite (pushes_none upperCase lowerCase) in Eg.
        by destruct (withKey taskOf (taskOf log) logs). }
    destruct Hg as [entries Hg]. apply (Hd _ entries Hg).
    destruct (group_entries _ _ _ Hg) as (_ & Een & Hne).
    assert (Hmodels : Forall (fun e => ge_model e <> []) entries).
    { rewrite Een. apply List.Forall_map, Forall_forall. intros x Hx.
      apply list_elem_of_In, filter_In in Hx as [Hx _]. by apply Hall. }
    destruct (available_spec grouped (taskOf log) entries Hg) as [Hp Hu].
    destruct (List.find (groupHas entries) preferredOrder) as [p|] eqn:Ef.
    + rewrite (Hp p eq_refl). apply find_some in Ef as [Ef _].
      by rewrite (truthy_nonempty _ (preferred_nonempty _ Ef)).
    + destruct (Hu eq_refl Hne Hmodels) as (m & -> & Hgm & _).
      apply groupHas_In in Hgm as (e & He' & <-).
      rewrite Forall_forall in Hmodels.
      by rewrite (truthy_nonempty _ (Hmodels e (proj2 (list_elem_of_In _ _) He'))).
Qed.
End DefaultSelection.

(** ** Logs made of iteration blocks *)

(** *** Code units a text does not hold *)

Lemma occurs_In (c : N) (m s : jsstring) : In c m -> occurs m s -> In c s.
Proof.
  intros Hc (a & b & ->). apply in_or_app. right. apply in_or_app. by left.
Qed.

Lemma includes_absent (c : N) (s m : jsstring) :
  In c m -> ~ In c s -> includes s m = false.
Proof.
  intros Hc Hs. apply includes_false. intros Ho. apply Hs. by apply (occurs_In c m).
Qed.

Lemma includes_longer (s m x : jsstring) :
  includes s m = false -> includes s (m ++ x) = false.
Proof.
  rewrite !includes_false. intros H Ho. apply H.
  eapply occurs_trans; [|exact Ho]. exists [], x. done.
Qed.

Lemma In_forallb (c : N) (p : N -> bool) (s : jsstring) :
  forallb p s = true -> p c = false -> ~ In c s.
Proof.
  intros H Hc Hin. rewrite forallb_forall in H. apply H in Hin. congruence.
Qed.

Lemma adjacent_occurs (p q : N -> bool) (s : jsstring) x y :
  p x = true -> q y = true -> occurs [x; y] s -> adjacent p q s = true.
Proof.
  intros Hx Hy (a & b & ->). induction a as [|c a IH].
  - simpl. by rewrite Hx, Hy.
  - change ((c :: a) ++ [x; y] ++ b) with (c :: (a ++ [x; y] ++ b)).
    destruct (a ++ [x; y] ++ b) as [|d r] eqn:E; [by destruct a|].
    cbn [adjacent]. apply orb_true_iff. by right.
Qed.

Lemma adjacent_none (p q : N -> bool) (s : jsstring) :
  forallb (fun c => negb (p c)) s = true -> adjacent p q s = false.
Proof.
  induction s as [|x s IH]; [done|]. intros H. simpl in H.
  apply andb_true_iff in H as [Hx Hs]. apply negb_true_iff in Hx.
  destruct s as [|y s]; [done|]. cbn [adjacent]. rewrite Hx. simpl. by apply IH.
Qed.

Lemma adjacent_app (p q : N -> bool) (x y : jsstring) :
  adjacent p q x = false -> adjacent p q y = false ->
  match rev x with [] => True | c :: _ => p c = false end ->
  adjacent p q (x ++ y) = false.
Proof.
  induction x as [|a x IH]; intros Hx Hy Hl; [done|].
  destruct x as [|b x].
  - simpl in Hl. destruct y as [|d y]; [done|].
    change ([a] ++ d :: y) with (a :: d :: y). cbn [adjacent]. rewrite Hl. simpl. exact Hy.
  - change ((a :: b :: x) ++ y) with (a :: b :: (x ++ y)).
    cbn [adjacent] in Hx |- *. apply orb_false_iff in Hx as [Hab Hx].
    rewrite Hab. simpl. apply IH; [done|done|].
    simpl in Hl |- *. destruct (rev x ++ [b]) as [|c r] eqn:E; [by destruct (rev x)|].
    simpl in Hl. exact Hl.
Qed.

Lemma adjacent_cons (p q : N -> bool) x (s : jsstring) :
  p x = false \/ match s with [] => True | y :: _ => q y = false end ->
  adjacent p q s = false -> adjacent p q (x :: s) = false.
Proof.
  intros H Hs. destruct s as [|y s]; [done|].
  change (adjacent p q (x :: y :: s)) with ((p x && q y) || adjacent p q (y :: s)).
  rewrite Hs. destruct H as [-> | ->]; [done|]. by rewrite andb_false_r.
Qed.

(** The place of a code unit that a text holds once *)
Lemma unique_position (c : N) (a b : jsstring) k x :
  ~ In c a -> ~ In c b -> k <= length (a ++ c :: b) ->
  drop k (a ++ c :: b) = c :: x -> k = length a.
Proof.
  intros Ha Hb Hk E.
  destruct (Nat.lt_trichotomy k (length a)) as [Hlt|[->|Hgt]]; [|done|].
  - exfalso. rewrite drop_app_le in E by lia.
    destruct (drop k a) as [|d r] eqn:Ed.
    { apply (f_equal length) in Ed. rewrite length_drop in Ed. simpl in Ed. lia. }
    simpl in E. injection E as -> _. apply Ha.
    rewrite <- (take_drop k a), Ed. apply in_or_app. right. by left.
  - exfalso. rewrite drop_app_ge in E by lia.
    destruct (k - length a) as [|j] eqn:Ej; [lia|]. simpl in E.
    apply Hb. rewrite <- (take_drop j b), E. apply in_or_app. right. by left.
Qed.

(** *** The lines of a block *)

Lemma numeral_lacks (c : N) (v : jsstring) :
  isDigit c = false -> forallb isDigit v = true -> ~ In c v.
Proof. intros Hc Hv. by apply (In_forallb c isDigit). Qed.

Lemma tool_lacks (c : N) (v : jsstring) :
  isToolChar c = false -> forallb isToolChar v = true -> ~ In c v.
Proof. intros Hc Hv. by apply (In_forallb c isToolChar). Qed.

Lemma not_In_app (c : N) (x y : jsstring) : ~ In c x -> ~ In c y -> ~ In c (x ++ y).
Proof. intros Hx Hy H. apply in_app_or in H as [H|H]; auto. Qed.

Lemma toolChar_word c : isToolChar c = true -> isWord c = true.
Proof.
  unfold isToolChar, isWord, isAlpha. intros H.
  apply orb_true_iff in H as [H|H]; [apply orb_true_iff in H as [H|H]|];
    rewrite H; rewrite ?orb_true_r; done.
Qed.

Lemma toolChar_not_ws c : isToolChar c = true -> isWS c = false.
Proof.
  unfold isToolChar, isLower, isDigit. intros H.
  assert ((48 <= c <= 57)%N \/ (97 <= c <= 122)%N \/ c = 95%N) as Hc.
  { apply orb_true_iff in H as [H|H]; [apply orb_true_iff in H as [H|H]|].
    - apply andb_true_iff in H as [H1 H2]. apply N.leb_le in H1, H2. lia.
    - apply andb_true_iff in H as [H1 H2]. apply N.leb_le in H1, H2. lia.
    - apply N.eqb_eq in H. lia. }
  unfold isWS. repeat (apply orb_false_intro); try (apply N.eqb_neq; lia).
  apply andb_false_iff. left. apply N.leb_gt. lia.
Qed.

Lemma rev_last_of (s : jsstring) (p : N -> bool) :
  s <> [] -> forallb p s = true -> exists c r, rev s = c :: r /\ p c = true.
Proof.
  intros Hne H. destruct (rev s) as [|c r] eqn:E.
  { apply (f_equal (@length N)) in E. rewrite length_rev in E. by destruct s. }
  exists c, r. split; [done|]. rewrite forallb_forall in H. apply H.
  apply in_rev. rewrite E. by left.
Qed.

(** A line that starts with neither white space nor a glyph unit and does
    not end in white space is what the loop sees of it *)
Lemma rendered_as_is (l : jsstring) c rest d r :
  l = c :: rest -> isWS c = false -> isGlyphUnit c = false ->
  rev l = d :: r -> isWS d = false ->
  trim l = l /\ normalizeLine l = l.
Proof.
  intros El Hc Hg Er Hd.
  assert (Ht : trim l = l).
  { apply trim_id; [by rewrite El|by rewrite Er]. }
  split; [done|]. unfold normalizeLine, replaceRe.
  destruct (exec emojiPrefix l 0) as [m|] eqn:E; [|done].
  apply emojiPrefix_Some in E as [E _]. rewrite El in E. simpl in E.
  destruct rest; [done|]. by rewrite Hg in E.
Qed.

Lemma iterationLine_as_is it :
  numeral it -> trim (iterationLine it) = iterationLine it /\
                normalizeLine (iterationLine it) = iterationLine it.
Proof.
  intros _. eapply (rendered_as_is _ 72%N _ 108%N); [reflexivity|done|done| |done].
  unfold iterationLine. rewrite !rev_app_distr. reflexivity.
Qed.

Lemma toolCallLine_as_is k name :
  toolName name -> trim (toolCallLine k name) = toolCallLine k name /\
                   normalizeLine (toolCallLine k name) = toolCallLine k name.
Proof.
  intros [Hne Hn]. destruct (rev_last_of name isToolChar Hne Hn) as (d & r & Er & Hd).
  eapply (rendered_as_is _ 72%N _ d); [reflexivity|done|done| |by apply toolChar_not_ws].
  unfold toolCallLine. rewrite !rev_app_distr, Er. reflexivity.
Qed.

Lemma successLine_as_is ok :
  trim (successLine ok) = successLine ok /\
  normalizeLine (successLine ok) = successLine ok.
Proof. destruct ok; by vm_compute. Qed.

(** *** What an output line becomes *)

Lemma dropWhile_nil (p : N -> bool) (s : jsstring) :
  dropWhile p s = [] -> forallb p s = true.
Proof.
  induction s as [|c s IH]; [done|]. simpl. destruct (p c); [|done]. exact IH.
Qed.

Lemma trim_nil_ws s : trim s = [] -> forallb isWS s = true.
Proof.
  unfold trim, trimEnd, trimStart. intros H.
  assert (H1 : dropWhile isWS (rev (dropWhile isWS s)) = []).
  { apply (f_equal (@rev N)) in H. by rewrite rev_involutive in H. }
  apply dropWhile_nil in H1.
  assert (H2 : dropWhile isWS s = []).
  { pose proof (dropWhile_head isWS s) as Hh.
    destruct (dropWhile isWS s) as [|c t]; [done|].
    rewrite forallb_forall in H1.
    assert (Hin : In c (rev (c :: t))) by (rewrite <- in_rev; by left).
    apply H1 in Hin. congruence. }
  by apply dropWhile_nil.
Qed.

Lemma normalized_nonblank r : trim r <> [] -> normalizeLine (trim r) <> [].
Proof.
  intros Hne. unfold normalizeLine, replaceRe.
  destruct (exec emojiPrefix (trim r) 0) as [m|] eqn:E.
  - destruct (trim r) as [|g rest] eqn:Et; [done|].
    pose proof (emojiPrefix_Some _ _ E) as (Hg & _ & _).
    apply emojiPrefix_removed in E as (-> & v & Hv & E). simpl.
    intros Hnil.
    assert (Hrest : trim rest = []).
    { rewrite E, trim_ws_prefix by done. exact Hnil. }
    apply trim_nil_ws in Hrest.
    pose proof (trim_last r) as Hl. rewrite Et in Hl.
    destruct rest as [|w rest]; [done|].
    destruct (rev_last_of (w :: rest) isWS ltac:(done) Hrest) as (d & t & Er & Hd).
    simpl in Hl. simpl in Er. rewrite Er in Hl. simpl in Hl. congruence.
  - by rewrite trim_idem.
Qed.

Lemma includes_piece (x s m : jsstring) :
  occurs x s -> includes s m = false -> includes x m = false.
Proof.
  rewrite !includes_false. intros Hx H Ho. apply H. by eapply occurs_trans.
Qed.

Lemma includes_prefixed (s pre m : jsstring) :
  isPrefix pre m = true -> includes s pre = false -> includes s m = false.
Proof.
  intros Hp H. apply isPrefix_spec in Hp as [b ->]. by apply includes_longer.
Qed.

Lemma normalized_occurs r : occurs (normalizeLine (trim r)) r.
Proof. eapply occurs_trans; [apply occurs_normalizeLine|apply occurs_trim]. Qed.

(** *** Which rule takes each line *)

Lemma iterationLine_lacks (c : N) it :
  isDigit c = false -> forallb isDigit it = true ->
  forallb (fun x => negb (x =? c)%N) (js "HARNESS: Iteration  making LLM call") = true ->
  ~ In c (iterationLine it).
Proof.
  intros Hc Hit Hfix. unfold iterationLine.
  apply not_In_app; [|apply not_In_app; [by apply numeral_lacks|]].
  - intros Hin. rewrite forallb_forall in Hfix.
    assert (In c (js "HARNESS: Iteration  making LLM call")) as H.
    { change (js "HARNESS: Iteration  making LLM call")
        with (js "HARNESS: Iteration " ++ js " making LLM call").
      apply in_or_app. by left. }
    apply Hfix in H. by rewrite N.eqb_refl in H.
  - intros Hin. rewrite forallb_forall in Hfix.
    assert (In c (js "HARNESS: Iteration  making LLM call")) as H.
    { change (js "HARNESS: Iteration  making LLM call")
        with (js "HARNESS: Iteration " ++ js " making LLM call").
      apply in_or_app. by right. }
    apply Hfix in H. by rewrite N.eqb_refl in H.
Qed.

Lemma toolCallLine_lacks (c : N) k name :
  isDigit c = false -> isToolChar c = false ->
  forallb isDigit k = true -> forallb isToolChar name = true ->
  forallb (fun x => negb (x =? c)%N) (js "HARNESS: Tool call : ") = true ->
  ~ In c (toolCallLine k name).
Proof.
  intros Hd Ht Hk Hn Hfix. unfold toolCallLine.
  assert (Hparts : ~ In c (js "HARNESS: Tool call ") /\ ~ In c (js ": ")).
  { rewrite forallb_forall in Hfix. split; intros Hin.
    - assert (In c (js "HARNESS: Tool call : ")) as H.
      { change (js "HARNESS: Tool call : ") with (js "HARNESS: Tool call " ++ js ": ").
        apply in_or_app. by left. }
      apply Hfix in H. by rewrite N.eqb_refl in H.
    - assert (In c (js "HARNESS: Tool call : ")) as H.
      { change (js "HARNESS: Tool call : ") with (js "HARNESS: Tool call " ++ js ": ").
        apply in_or_app. by right. }
      apply Hfix in H. by rewrite N.eqb_refl in H. }
  destruct Hparts as [H1 H2].
  apply not_In_app; [done|]. apply not_In_app; [by apply numeral_lacks|].
  apply not_In_app; [done|]. by apply tool_lacks.
Qed.

Lemma classify_iterationLine p it :
  numeral it -> classify p (iterationLine it) = RIteration.
Proof.
  intros [_ Hit]. unfold classify.
  assert (includes (iterationLine it) (js "Starting benchmark run") = false) as ->.
  { apply (includes_absent 98%N); [vm_compute; tauto|].
    by apply iterationLine_lacks. }
  assert (includes (iterationLine it) (js "Dataset:") = false) as ->.
  { apply (includes_absent 68%N); [vm_compute; tauto|].
    by apply iterationLine_lacks. }
  assert (includes (iterationLine it) (js "HARNESS: Iteration") = true) as ->.
  { apply includes_occurs. exists [], (js " " ++ it ++ js " making LLM call"). done. }
  assert (includes (iterationLine it) (js "making LLM call") = true) as ->.
  { apply includes_occurs. exists (js "HARNESS: Iteration " ++ it ++ js " "), [].
    unfold iterationLine. by rewrite <- !app_assoc. }
  done.
Qed.

Lemma toolCallLine_no_start k name :
  numeral k -> toolName name ->
  includes (toolCallLine k name) (js "Starting benchmark run") = false.
Proof.
  intros [_ Hk] [_ Hn]. apply includes_false. intros Ho.
  assert (Hadj : adjacent (N.eqb 83) (N.eqb 116) (toolCallLine k name) = true).
  { apply (adjacent_occurs _ _ _ 83%N 116%N); [done|done|].
    eapply occurs_trans; [|exact Ho]. exists [], (js "arting benchmark run"). done. }
  assert (Hno : adjacent (N.eqb 83) (N.eqb 116) (toolCallLine k name) = false).
  { unfold toolCallLine. apply adjacent_app; [done| |done].
    apply adjacent_none. rewrite !forallb_app.
    assert (forall v, forallb isDigit v = true ->
              forallb (fun c => negb (83 =? c)%N) v = true) as Hd.
    { intros v Hv. rewrite forallb_forall in Hv |- *. intros c Hc.
      apply Hv in Hc. apply negb_true_iff, N.eqb_neq. intros <-. done. }
    assert (forall v, forallb isToolChar v = true ->
              forallb (fun c => negb (83 =? c)%N) v = true) as Ht.
    { intros v Hv. rewrite forallb_forall in Hv |- *. intros c Hc.
      apply Hv in Hc. apply negb_true_iff, N.eqb_neq. intros <-. done. }
    rewrite (Hd k Hk), (Ht name Hn). done. }
  congruence.
Qed.

Lemma classify_toolCallLine p k name :
  numeral k -> toolName name -> currentIteration p <> None ->
  classify p (toolCallLine k name) = RToolCall.
Proof.
  intros Hk Hn Hcur. unfold classify.
  rewrite (toolCallLine_no_start k name Hk Hn).
  destruct Hk as [_ Hk], Hn as [_ Hn].
  assert (includes (toolCallLine k name) (js "Dataset:") = false) as ->.
  { apply (includes_absent 68%N); [vm_compute; tauto|].
    by apply toolCallLine_lacks. }
  assert (includes (toolCallLine k name) (js "HARNESS: Iteration") = false) as ->.
  { apply (includes_absent 73%N); [vm_compute; tauto|].
    by apply toolCallLine_lacks. }
  assert (includes (toolCallLine k name) (js "HARNESS: Tool call") = true) as ->.
  { apply includes_occurs. exists [], (js " " ++ k ++ js ": " ++ name). done. }
  rewrite bool_decide_eq_true_2 by done. done.
Qed.

Lemma classify_successLine p ok :
  hasStep p = true -> collectingToolResult p = false ->
  classify p (successLine ok) = RResult.
Proof.
  intros Hs Hc. unfold classify. rewrite Hs, Hc.
  destruct ok;
    repeat match goal with
           | |- context [includes (successLine ?b) (js ?m)] =>
               let v := eval vm_compute in (includes (successLine b) (js m)) in
               change (includes (successLine b) (js m)) with v
           | |- context [test editRe (successLine ?b)] =>
               let v := eval vm_compute in (test editRe (successLine b)) in
               change (test editRe (successLine b)) with v
           end; done.
Qed.

Lemma classify_output p r :
  outputLine r -> hasStep p = true -> collectingToolResult p = true ->
  classify p (normalizeLine (trim r)) = RCollect.
Proof.
  intros (_ & Hne & H1 & H2 & H3) Hs Hc.
  pose proof (normalized_occurs r) as Ho.
  set (line := normalizeLine (trim r)) in *.
  assert (Hl : line <> []) by by apply normalized_nonblank.
  apply (includes_piece line) in H1, H2, H3; try done.
  unfold classify. rewrite Hs, Hc, H1, H3.
  repeat match goal with
         | |- context [includes line (js ?m)] =>
             rewrite (includes_prefixed line (js "HARNESS:") (js m) eq_refl H2)
         end.
  assert (test editRe line = false) as ->.
  { unfold test. destruct (exec editRe line 0) as [m|] eqn:E; [|done].
    apply (exec_lit_occurs (js "HARNESS: Edit ")) in E; [|by left].
    apply includes_occurs in E.
    by rewrite (includes_prefixed line (js "HARNESS:") (js "HARNESS: Edit ") eq_refl H2)
      in E. }
  apply eqs_false in Hl. rewrite Hl. done.
Qed.

(** *** What the patterns capture in the lines of a block *)

Lemma word_class_Match i st st' :
  Match (Group i (plus word)) st st' <->
  exists v, (v <> [] /\ forallb isWord v = true) /\ reads_cap i st v st'.
Proof.
  apply Match_Group_reads. intros sa sb. unfold word. rewrite Match_plus_class.
  split; [intros (v' & ? & ? & ?) | intros (v' & [? ?] & ?)]; eauto.
Qed.

Lemma iteration_capture it :
  numeral it ->
  exists m, exec iterationRe (iterationLine it) 0 = Some m /\ cap m 1 = Some it.
Proof.
  intros [Hne Hit].
  assert (Hdrop : drop 9 (iterationLine it)
                  = js "Iteration " ++ it ++ js " making LLM call") by reflexivity.
  assert (Hlen : 9 <= length (iterationLine it)).
  { unfold iterationLine. rewrite length_app. simpl. lia. }
  destruct (exec iterationRe (iterationLine it) 0) as [m|] eqn:E.
  - exists m. split; [done|].
    apply exec_Some in E as (k & st' & Hk & Hh & -> & _).
    assert (HQ : match m_rest st' with [] => True | c :: _ => isDigit c = false end).
    { revert Hh. unfold iterationRe, digit.
      apply (head_seqs_last
               (fun x => match m_rest x with [] => True | c :: _ => isDigit c = false end)
               (Seq (Group 1 (plus (Chr isDigit))) Eps) [lit (js "Iteration ")]).
      intros st st1. apply head_group_plus_greedy. }
    apply head_In, run_sound in Hh. unfold iterationRe in Hh.
    apply Match_seqs_cons in Hh as (s1 & H1 & Hh).
    apply Match_lit in H1 as (E1 & _ & _).
    apply Match_seqs_cons in Hh as (s2 & H2 & Hh).
    apply Match_digits_group in H2 as (v & [Hnv Hv] & R2).
    apply Match_seqs_nil in Hh. subst s2.
    pose proof (reads_cap_lookup _ _ _ _ R2) as Hcap.
    destruct R2 as (E2 & _ & _).
    unfold start_at in E1. cbn [m_rest] in E1. rewrite E2 in E1.
    assert (k = 9) as ->.
    { apply (unique_position 73%N (js "HARNESS: ")
               (js "teration " ++ it ++ js " making LLM call") k
               (js "teration " ++ v ++ m_rest st'));
        [vm_compute; intuition discriminate| |exact (proj2 Hk)|exact E1].
      apply not_In_app; [vm_compute; intuition discriminate|].
      apply not_In_app; [by apply numeral_lacks|vm_compute; intuition discriminate]. }
    rewrite Hdrop in E1. apply app_inv_head in E1.
    destruct (span_unique isDigit it v (js " making LLM call") (m_rest st') E1 Hit Hv)
      as [-> _]; [done|done|].
    unfold cap, result_at. simpl. exact Hcap.
  - exfalso.
    apply (exec_misses _ _ 9
             (MState (9 + length (js "Iteration ") + length it)
                (js " making LLM call") (<[1 := it]> ∅)) E Hlen).
    unfold start_at. rewrite Hdrop. unfold iterationRe.
    apply Match_seqs_cons. eexists. split; [apply Match_lit, reads_intro|].
    apply Match_seqs_cons. eexists. split; [|by apply Match_seqs_nil].
    apply Match_digits_group. exists it. split; [done|]. apply reads_cap_intro.
Qed.

Lemma toolCall_capture k name :
  numeral k -> toolName name ->
  exists m, exec toolCallRe (toolCallLine k name) 0 = Some m /\ cap m 1 = Some name.
Proof.
  intros [Hnk Hk] [Hnn Hn].
  assert (Hw : forallb isWord name = true).
  { rewrite forallb_forall in Hn |- *. intros c Hc. by apply toolChar_word, Hn. }
  assert (Hdrop : drop 9 (toolCallLine k name)
                  = js "Tool call " ++ k ++ js ": " ++ name) by reflexivity.
  assert (Hlen : 9 <= length (toolCallLine k name)).
  { unfold toolCallLine. rewrite length_app. simpl. lia. }
  destruct (exec toolCallRe (toolCallLine k name) 0) as [m|] eqn:E.
  - exists m. split; [done|].
    apply exec_Some in E as (j & st' & Hj & Hh & -> & _).
    assert (HQ : match m_rest st' with [] => True | c :: _ => isWord c = false end).
    { revert Hh. unfold toolCallRe, word.
      apply (head_seqs_last
               (fun x => match m_rest x with [] => True | c :: _ => isWord c = false end)
               (Seq (Group 1 (plus (Chr isWord))) Eps)
               [lit (js "Tool call "); plus digit; lit (js ": ")]).
      intros st st1. apply head_group_plus_greedy. }
    apply head_In, run_sound in Hh. unfold toolCallRe in Hh.
    apply Match_seqs_cons in Hh as (s1 & H1 & Hh).
    apply Match_lit in H1 as (E1 & _ & _).
    apply Match_seqs_cons in Hh as (s2 & H2 & Hh).
    unfold digit in H2. apply Match_plus_class in H2 as (k' & Hnk' & Hk' & (E2 & _ & _)).
    apply Match_seqs_cons in Hh as (s3 & H3 & Hh).
    apply Match_lit in H3 as (E3 & _ & _).
    apply Match_seqs_cons in Hh as (s4 & H4 & Hh).
    apply word_class_Match in H4 as (v & [Hnv Hv] & R4).
    apply Match_seqs_nil in Hh. subst s4.
    pose proof (reads_cap_lookup _ _ _ _ R4) as Hcap.
    destruct R4 as (E4 & _ & _).
    unfold start_at in E1. cbn [m_rest] in E1. rewrite E2, E3, E4 in E1.
    assert (j = 9) as ->.
    { apply (unique_position 84%N (js "HARNESS: ")
               (js "ool call " ++ k ++ js ": " ++ name) j
               (js "ool call " ++ k' ++ js ": " ++ v ++ m_rest st'));
        [vm_compute; intuition discriminate| |exact (proj2 Hj)|exact E1].
      apply not_In_app; [vm_compute; intuition discriminate|].
      apply not_In_app; [by apply numeral_lacks|].
      apply not_In_app; [vm_compute; intuition discriminate|by apply tool_lacks]. }
    rewrite Hdrop in E1. apply app_inv_head in E1.
    destruct (span_unique isDigit k k' (js ": " ++ name) (js ": " ++ v ++ m_rest st')
                E1 Hk Hk') as [_ E5]; [done|done|].
    apply (app_inv_head (js ": ")) in E5.
    rewrite <- (app_nil_r name) in E5.
    destruct (span_unique isWord name v [] (m_rest st') E5 Hw Hv) as [-> _]; [done|done|].
    unfold cap, result_at. simpl. exact Hcap.
  - exfalso.
    apply (exec_misses _ _ 9
             (MState (9 + length (js "Tool call ") + length k + length (js ": ")
                      + length name) [] (<[1 := name]> ∅)) E Hlen).
    unfold start_at. rewrite Hdrop. unfold toolCallRe.
    apply Match_seqs_cons. eexists. split; [apply Match_lit, reads_intro|].
    apply Match_seqs_cons. eexists. split.
    { unfold digit. apply Match_plus_class. exists k. split; [done|]. split; [done|].
      apply reads_intro. }
    apply Match_seqs_cons. eexists. split; [apply Match_lit, reads_intro|].
    apply Match_seqs_cons. eexists. split; [|by apply Match_seqs_nil].
    apply word_class_Match. exists name. split; [done|].
    rewrite <- (app_nil_r name) at 1. apply reads_cap_intro.
Qed.

Lemma success_capture ok :
  exists m, exec successRe (successLine ok) 0 = Some m /\
            cap m 1 = Some (if ok then js "True" else js "False").
Proof. destruct ok; eexists; (split; [vm_compute; reflexivity|vm_compute; reflexivity]). Qed.

(** *** No time on a tool-call line *)

Lemma timeShape_adjacent t s :
  timeShape t -> occurs t s -> adjacent (N.eqb 58) isDigit s = true.
Proof.
  intros (h & mi & se & -> & _ & [Hl Hd] & _) Ho.
  destruct mi as [|d mi]; [done|]. simpl in Hd. apply andb_true_iff in Hd as [Hd _].
  apply (adjacent_occurs _ _ _ 58%N d); [done|done|].
  eapply occurs_trans; [|exact Ho]. exists h, (mi ++ [58%N] ++ se). done.
Qed.

Lemma no_time_no_stamp s :
  adjacent (N.eqb 58) isDigit s = false -> extractTimestamp s = js "N/A".
Proof.
  intros Hno. unfold extractTimestamp.
  change timestampPatterns with [dateTimePattern; timePattern]. cbn [firstMatch].
  assert (exec dateTimePattern s 0 = None) as ->.
  { apply exec_none_intro. intros k Hk. apply run_nil. intros st' HM.
    apply dateTimePattern_Match in HM as (t & (da & w & ti & -> & _ & _ & _ & Hti) & R).
    apply reads_occurs, start_at_occurs in R.
    assert (adjacent (N.eqb 58) isDigit s = true); [|congruence].
    apply (timeShape_adjacent ti); [done|].
    eapply occurs_trans; [|exact R]. exists (da ++ w), []. by rewrite app_nil_r, <- app_assoc. }
  assert (exec timePattern s 0 = None) as ->; [|done].
  apply exec_none_intro. intros k Hk. apply run_nil. intros st' HM.
  apply timePattern_Match in HM as (t & Ht & R).
  apply reads_occurs, start_at_occurs in R.
  assert (adjacent (N.eqb 58) isDigit s = true); [|congruence].
  by apply (timeShape_adjacent t).
Qed.

Lemma toolCallLine_stamp k name :
  numeral k -> toolName name -> extractTimestamp (toolCallLine k name) = js "N/A".
Proof.
  intros [Hnk Hk] [Hnn Hn]. apply no_time_no_stamp. unfold toolCallLine.
  assert (Hname : forallb (fun c => negb (58 =? c)%N) name = true).
  { rewrite forallb_forall in Hn |- *. intros c Hc. apply Hn in Hc.
    apply negb_true_iff, N.eqb_neq. intros <-. done. }
  assert (Hdig : forallb (fun c => negb (58 =? c)%N) k = true).
  { rewrite forallb_forall in Hk |- *. intros c Hc. apply Hk in Hc.
    apply negb_true_iff, N.eqb_neq. intros <-. done. }
  apply adjacent_app; [done| |done].
  apply adjacent_app; [by apply adjacent_none| |].
  - change (js ": " ++ name) with (58%N :: 32%N :: name).
    apply adjacent_cons; [by right|]. apply adjacent_cons; [by left|].
    by apply adjacent_none.
  - destruct (rev_last_of k isDigit Hnk Hk) as (d & r & -> & Hd).
    apply N.eqb_neq. intros <-. done.
Qed.

(** *** One line, one step of the loop *)

Lemma step_iterationLine p it :
  numeral it -> step_line p (iterationLine it) = Returns (set_iteration (parseInt it) p).
Proof.
  intros Hit. unfold step_line.
  destruct (iterationLine_as_is it Hit) as [-> ->].
  assert (eqs (iterationLine it) [] = false) as -> by by apply eqs_false.
  rewrite (classify_iterationLine p it Hit). cbn [apply_rule].
  destruct (iteration_capture it Hit) as (m & -> & Hc).
  unfold capInt. by rewrite Hc.
Qed.

Lemma step_toolCallLine p k name it :
  numeral k -> toolName name -> currentIteration p = Some it ->
  step_line p (toolCallLine k name)
  = Returns (start_step (iterationStep it (Some name) (js "N/A")) p).
Proof.
  intros Hk Hn Hcur. unfold step_line.
  destruct (toolCallLine_as_is k name Hn) as [-> ->].
  assert (eqs (toolCallLine k name) [] = false) as -> by by apply eqs_false.
  rewrite (classify_toolCallLine p k name Hk Hn) by congruence. cbn [apply_rule].
  destruct (toolCall_capture k name Hk Hn) as (m & -> & Hc).
  by rewrite Hcur, Hc, (toolCallLine_stamp k name Hk Hn).
Qed.

Lemma step_successLine p ok idx :
  currentStep p = Some idx -> collectingToolResult p = false ->
  step_line p (successLine ok)
  = Returns (set_collecting true []
               (if ok then on_step idx (set_success true) p
                else add_error (on_step idx (set_success false) p))).
Proof.
  intros Hs Hc. unfold step_line.
  destruct (successLine_as_is ok) as [-> ->].
  assert (eqs (successLine ok) [] = false) as -> by (apply eqs_false; by destruct ok).
  rewrite (classify_successLine p ok) by (try done; unfold hasStep; by rewrite Hs).
  cbn [apply_rule].
  destruct (success_capture ok) as (m & -> & Hcap). rewrite Hs, Hcap.
  by destruct ok.
Qed.

Lemma step_outputLine p r idx :
  outputLine r -> currentStep p = Some idx -> collectingToolResult p = true ->
  step_line p r
  = Returns (on_step idx (set_toolResult (toolResultBuffer p ++ [normalizeLine (trim r)]))
               (set_collecting true (toolResultBuffer p ++ [normalizeLine (trim r)]) p)).
Proof.
  intros Hr Hs Hc. unfold step_line.
  assert (eqs (trim r) [] = false) as -> by (apply eqs_false; by destruct Hr as (_ & ? & _)).
  rewrite (classify_output p r Hr) by (try done; unfold hasStep; by rewrite Hs).
  cbn [apply_rule]. by rewrite Hs, Hc.
Qed.

(** *** One block *)

Lemma alter_snoc {A} (f : A -> A) (l : list A) x :
  alter f (length l) (l ++ [x]) = l ++ [f x].
Proof. induction l as [|a l IH]; [done|]. simpl. f_equal. exact IH. Qed.

Lemma run_outputs b p : forall rs collected,
  Forall outputLine rs ->
  run_lines rs (blockState b collected p)
  = Returns (blockState b (collected ++ List.map (fun r => normalizeLine (trim r)) rs) p).
Proof.
  induction rs as [|r rs IH]; intros collected Hall.
  - simpl. by rewrite app_nil_r.
  - apply Forall_cons in Hall as [Hr Hall]. cbn [run_lines].
    rewrite (step_outputLine _ r (length (l_steps p)) Hr) by done.
    cbn [mbind outcome_bind].
    assert (E : on_step (length (l_steps p))
                  (set_toolResult
                     (toolResultBuffer (blockState b collected p) ++ [normalizeLine (trim r)]))
                  (set_collecting true
                     (toolResultBuffer (blockState b collected p) ++ [normalizeLine (trim r)])
                     (blockState b collected p))
                = blockState b (collected ++ [normalizeLine (trim r)]) p).
    { unfold on_step, with_steps, set_collecting, blockState.
      cbn [l_taskName l_modelName l_totalIterations l_toolCalls l_errors l_steps
           currentIteration currentStep collectingToolResult toolResultBuffer].
      by rewrite alter_snoc. }
    rewrite E, (IH _ Hall). cbn [List.map]. by rewrite <- app_assoc.
Qed.

Lemma run_block b p :
  wellFormedBlock b -> run_lines (blockLines b) p = Returns (afterBlock b p).
Proof.
  intros (Hit & Hk & Hn & Hout). unfold blockLines.
  change ([iterationLine (b_iteration b); toolCallLine (b_call b) (b_tool b);
           successLine (b_ok b)] ++ b_output b)
    with (iterationLine (b_iteration b) :: toolCallLine (b_call b) (b_tool b)
          :: successLine (b_ok b) :: b_output b).
  cbn [run_lines].
  rewrite (step_iterationLine p _ Hit). cbn [mbind outcome_bind].
  rewrite (step_toolCallLine _ _ _ (parseInt (b_iteration b)) Hk Hn) by done.
  cbn [mbind outcome_bind].
  rewrite (step_successLine _ (b_ok b) (length (l_steps p))) by done.
  cbn [mbind outcome_bind].
  assert (E : set_collecting true []
                (if b_ok b
                 then on_step (length (l_steps p)) (set_success true)
                        (start_step
                           (iterationStep (parseInt (b_iteration b)) (Some (b_tool b))
                              (js "N/A"))
                           (set_iteration (parseInt (b_iteration b)) p))
                 else add_error
                        (on_step (length (l_steps p)) (set_success false)
                           (start_step
                              (iterationStep (parseInt (b_iteration b)) (Some (b_tool b))
                                 (js "N/A"))
                              (set_iteration (parseInt (b_iteration b)) p))))
              = blockState b [] p).
  { unfold blockState, stepWith.
    destruct (b_ok b);
      unfold set_collecting, add_error, on_step, with_steps, start_step, set_iteration;
      cbn [l_taskName l_modelName l_totalIterations l_toolCalls l_errors l_steps
           currentIteration currentStep collectingToolResult toolResultBuffer];
      by rewrite alter_snoc. }
  rewrite E. by rewrite (run_outputs b p _ [] Hout).
Qed.

(** *** The blocks of a log *)

Lemma run_blocks : forall bs p,
  Forall wellFormedBlock bs ->
  run_lines (concat (List.map blockLines bs)) p
  = Returns (fold_left (fun p b => afterBlock b p) bs p).
Proof.
  induction bs as [|b bs IH]; intros p Hall; [done|].
  apply Forall_cons in Hall as [Hb Hall]. cbn [List.map concat fold_left].
  rewrite run_lines_app, (run_block b p Hb). cbn [mbind outcome_bind]. by apply IH.
Qed.

Lemma after_blocks : forall bs p,
  l_steps (fold_left (fun p b => afterBlock b p) bs p)
    = l_steps p ++ List.map stepOfBlock bs /\
  l_toolCalls (fold_left (fun p b => afterBlock b p) bs p)
    = l_toolCalls p + length bs /\
  l_errors (fold_left (fun p b => afterBlock b p) bs p)
    = l_errors p + length (List.filter (fun b => negb (b_ok b)) bs) /\
  l_totalIterations (fold_left (fun p b => afterBlock b p) bs p)
    = fold_left (fun acc b => num_max acc (parseInt (b_iteration b))) bs
        (l_totalIterations p).
Proof.
  induction bs as [|b bs IH]; intros p.
  - simpl. rewrite app_nil_r. repeat split; lia.
  - cbn [fold_left]. destruct (IH (afterBlock b p)) as (-> & -> & -> & ->).
    unfold afterBlock, blockState.
    cbn [l_steps l_toolCalls l_errors l_totalIterations List.map List.filter length].
    split; [by rewrite <- app_assoc|]. split; [lia|]. split; [|done].
    destruct (b_ok b); simpl; lia.
Qed.

Lemma blockLines_one_line b :
  wellFormedBlock b -> Forall (fun l => ~ In 10%N l) (blockLines b).
Proof.
  intros ([_ Hit] & [_ Hk] & [_ Hn] & Hout). unfold blockLines.
  apply Forall_app. split.
  - constructor; [by apply iterationLine_lacks|].
    constructor; [by apply toolCallLine_lacks|].
    constructor; [|constructor]. destruct (b_ok b); vm_compute; intuition discriminate.
  - eapply Forall_impl; [exact Hout|]. by intros r (? & _).
Qed.

(** X25.  A log of iteration blocks is read back block by block.  When every
    block is well formed (numerals for the iteration and the call, a tool
    name of lower-case letters, digits and underscores, output lines that
    are not blank and hold none of "Starting benchmark run", "HARNESS:" and
    "Dataset:"), [parseLogFile] returns a Trajectory with one step per
    block, in order: the step has type "iteration", content "Executing "
    and the tool, the iteration number, the success flag of the result
    line, timestamp "N/A", no error, empty tool details, and as tool result
    the output lines, each trimmed and normalized.  The tool calls are the
    number of blocks, the errors the number of blocks whose result is not
    a success, and the total of iterations the largest iteration number
    (0 for no block). *)
Theorem blocks_in_order fname bs :
  Forall wellFormedBlock bs ->
  exists t, parseLogFile fname (logOf bs) = Returns t /\
    steps t = List.map stepOfBlock bs /\
    toolCalls t = length bs /\
    errors t = length (List.filter (fun b => negb (b_ok b)) bs) /\
    totalIterations t =
      fold_left (fun acc b => num_max acc (parseInt (b_iteration b))) bs (Num 0).
Proof.
  intros Hall.
  destruct (parseLogFile_returns fname (logOf bs))
    as (p & results & success & diffs & Hp & _ & _ & _ & E).
  eexists. split; [exact E|]. cbn [steps toolCalls errors totalIterations].
  assert (Hrun : p = fold_left (fun p b => afterBlock b p) bs (initial fname)).
  { destruct bs as [|b bs].
    - vm_compute in Hp. by injection Hp as <-.
    - unfold logOf in Hp. rewrite split_join_LF in Hp.
      + rewrite (run_blocks _ _ Hall) in Hp. by injection Hp as <-.
      + apply Forall_cons in Hall as [(_ & _ & _ & _) _]. done.
      + clear Hp E. induction Hall as [|b' bs' Hb' _ IH]; [constructor|].
        cbn [List.map concat]. apply Forall_app. split; [|exact IH].
        by apply blockLines_one_line. }
  subst p.
  destruct (after_blocks bs (initial fname)) as (-> & -> & -> & ->).
  done.
Qed.

Lemma blocks_in_order_witness :
  let b := {| b_iteration := js "3"; b_call := js "1"; b_tool := js "read_file";
              b_ok := false; b_output := [js "  no such file"] |} in
  Forall wellFormedBlock [b] /\
  exists t, parseLogFile (js "gpt-5_task.log") (logOf [b]) = Returns t /\
    steps t = [stepOfBlock b] /\ toolCalls t = 1 /\ errors t = 1 /\
    totalIterations t = Num 3.
Proof.
  intros b.
  assert (H : Forall wellFormedBlock [b]).
  { constructor; [|constructor]. unfold wellFormedBlock, numeral, toolName.
    repeat split; try (vm_compute; congruence).
    constructor; [|constructor]. unfold outputLine.
    repeat split; try (vm_compute; congruence). vm_compute. intuition discriminate. }
  split; [exact H|].
  destruct (blocks_in_order (js "gpt-5_task.log") [b] H) as (t & E & Hs & Ht & He & Hi).
  exists t. repeat split; assumption.
Defined.

(** ** The header line *)

Lemma dropWhile_after (p : N -> bool) c : forall (x v : jsstring),
  p c = false -> dropWhile p (x ++ c :: v) = dropWhile p x ++ c :: v.
Proof.
  intros x v Hc. induction x as [|y x IH]; simpl.
  - by rewrite Hc.
  - by destruct (p y).
Qed.

Lemma trimEnd_after c (x v : jsstring) :
  isWS c = false -> trimEnd (x ++ c :: v) = x ++ c :: trimEnd v.
Proof.
  intros Hc. unfold trimEnd.
  rewrite rev_app_distr. simpl rev. rewrite <- app_assoc. simpl app.
  rewrite (dropWhile_after isWS c (rev v) (rev x) Hc).
  rewrite rev_app_distr. simpl rev. rewrite rev_involutive, <- app_assoc. done.
Qed.

Lemma In_dropWhile (p : N -> bool) (c : N) (s : jsstring) : In c (dropWhile p s) -> In c s.
Proof.
  destruct (dropWhile_suffix p s) as [a E]. intros H. rewrite E.
  apply in_or_app. by right.
Qed.

Lemma In_trimEnd (c : N) (s : jsstring) : In c (trimEnd s) -> In c s.
Proof.
  unfold trimEnd. rewrite <- in_rev. intros H. apply In_dropWhile in H.
  by rewrite <- in_rev in H.
Qed.

Lemma trim_trimEnd s : trim (trimEnd s) = trim s.
Proof.
  unfold trim at 1, trimStart, trimEnd.
  unfold trim, trimStart, trimEnd.
  induction s as [|c s IH] using rev_ind; [done|].
  rewrite rev_app_distr. simpl rev. simpl app. cbn [dropWhile].
  destruct (isWS c) eqn:Hc.
  - rewrite IH. clear IH.
    destruct (dropWhile_suffix isWS s) as [a E].
    destruct (dropWhile isWS s) as [|y r] eqn:Ed.
    + assert (Hall : forallb isWS s = true) by by apply dropWhile_nil.
      assert (dropWhile isWS (s ++ [c]) = []) as ->; [|done].
      clear -Hall Hc. induction s as [|x s IH]; simpl in *; [by rewrite Hc|].
      apply andb_true_iff in Hall as [-> Hall]. by apply IH.
    + assert (dropWhile isWS (s ++ [c]) = (y :: r) ++ [c]) as ->.
      { clear -Ed. induction s as [|x s IH]; [done|]. simpl in *.
        destruct (isWS x); [by apply IH|]. by injection Ed as <- <-. }
      rewrite rev_app_distr. simpl rev at 2. simpl app. cbn [dropWhile]. by rewrite Hc.
  - simpl rev. rewrite rev_involutive. done.
Qed.

(** A word followed by [c] occurs around the only [c] of a string only as
    the end of what stands before it. *)
Lemma occurs_ending (c : N) (w a b : jsstring) :
  ~ In c a -> ~ In c b -> occurs (w ++ [c]) (a ++ c :: b) -> exists x, a = x ++ w.
Proof.
  intros Ha Hb (u & v & E). exists u.
  assert (E' : a ++ c :: b = (u ++ w) ++ c :: v).
  { rewrite E, <- !app_assoc. done. }
  assert (Hk : length (u ++ w) = length a).
  { apply (unique_position c a b (length (u ++ w)) v Ha Hb).
    - rewrite E', !length_app. lia.
    - rewrite E'. by rewrite drop_app_length. }
  apply (f_equal (take (length a))) in E'.
  rewrite take_app_length in E'. rewrite <- Hk in E'. by rewrite take_app_length in E'.
Qed.

Lemma split_go_lacks (sep : jsstring) (c : N) : forall (s cur : jsstring),
  In c sep -> ~ In c s -> split_go sep 0 cur s = [rev cur ++ s].
Proof.
  induction s as [|x s IH]; intros cur Hc Hs.
  - simpl. by rewrite app_nil_r.
  - rewrite split_go_cons.
    destruct (isPrefix sep (x :: s)) eqn:E.
    + exfalso. apply isPrefix_spec in E as [b E]. apply Hs. rewrite E.
      apply in_or_app. by left.
    + rewrite IH; [|done|intros H; apply Hs; by right].
      simpl. by rewrite <- app_assoc.
Qed.

Lemma split_Model b :
  ~ In 58%N b -> split (js "Model:") (js " Model:" ++ b) = [[32%N]; b].
Proof.
  intros Hb. unfold split.
  change (js " Model:" ++ b) with (32 :: 77 :: 111 :: 100 :: 101 :: 108 :: 58 :: b)%N.
  rewrite split_go_cons.
  change (isPrefix (js "Model:") (32 :: 77 :: 111 :: 100 :: 101 :: 108 :: 58 :: b)%N)
    with false. cbv iota.
  rewrite split_go_cons.
  change (isPrefix (js "Model:") (77 :: 111 :: 100 :: 101 :: 108 :: 58 :: b)%N) with true.
  cbv iota. change (length (js "Model:") - 1) with 5. cbn [split_go rev app].
  by rewrite (split_go_lacks (js "Model:") 58%N b []) by (try done; vm_compute; tauto).
Qed.

Lemma split_Task b :
  ~ In 58%N b -> split (js "Task:") (js " Task:" ++ b) = [[32%N]; b].
Proof.
  intros Hb. unfold split.
  change (js " Task:" ++ b) with (32 :: 84 :: 97 :: 115 :: 107 :: 58 :: b)%N.
  rewrite split_go_cons.
  change (isPrefix (js "Task:") (32 :: 84 :: 97 :: 115 :: 107 :: 58 :: b)%N) with false.
  cbv iota.
  rewrite split_go_cons.
  change (isPrefix (js "Task:") (84 :: 97 :: 115 :: 107 :: 58 :: b)%N) with true.
  cbv iota. change (length (js "Task:") - 1) with 4. cbn [split_go rev app].
  by rewrite (split_go_lacks (js "Task:") 58%N b []) by (try done; vm_compute; tauto).
Qed.

(** No marker [w ++ ":"] in a piece [a ++ ":" ++ b] whose only colon does
    not follow [w] *)
Lemma piece_lacks (w a b : jsstring) :
  ~ In 58%N a -> ~ In 58%N b -> (forall x, a <> x ++ w) ->
  includes (a ++ 58%N :: b) (w ++ [58%N]) = false.
Proof.
  intros Ha Hb Hw. apply includes_false. intros Ho.
  destruct (occurs_ending 58%N w a b Ha Hb Ho) as [x E]. by apply (Hw x).
Qed.

Ltac not_ending :=
  let x := fresh "x" in let E := fresh "E" in
  intros x E; apply (f_equal (@rev N)) in E; rewrite rev_app_distr in E;
  simpl in E; discriminate.

Lemma normalize_trimmed l c rest :
  trim l = c :: rest -> isGlyphUnit c = false -> normalizeLine (trim l) = trim l.
Proof.
  intros E Hg. unfold normalizeLine, replaceRe.
  destruct (exec emojiPrefix (trim l) 0) as [r|] eqn:Ee; [|apply trim_idem].
  apply emojiPrefix_Some in Ee as [Ee _]. rewrite E in Ee. simpl in Ee.
  destruct rest; [done|]. by rewrite Hg in Ee.
Qed.

Lemma trim_space s : trim (32%N :: s) = trim s.
Proof. done. Qed.

(** The header line as the loop sees it: its four pieces between commas,
    the last one without the white space at its end *)
Lemma header_trimmed d a m t :
  trim (headerLine d a m t)
  = (js "Dataset:" ++ 32%N :: d) ++ 44%N
    :: (js " Agent:" ++ 32%N :: a) ++ 44%N
    :: (js " Model:" ++ 32%N :: m) ++ 44%N
    :: (js " Task:" ++ trimEnd (32%N :: t)).
Proof.
  unfold trim, trimStart.
  change (dropWhile isWS (headerLine d a m t)) with (headerLine d a m t).
  assert (E : headerLine d a m t
              = ((js "Dataset:" ++ 32%N :: d) ++ 44%N
                 :: (js " Agent:" ++ 32%N :: a) ++ 44%N
                 :: (js " Model:" ++ 32%N :: m) ++ 44%N :: js " Task")
                ++ 58%N :: 32%N :: t).
  { unfold headerLine. rewrite <- !app_assoc. simpl. rewrite <- !app_assoc. simpl.
    rewrite <- !app_assoc. reflexivity. }
  rewrite E, trimEnd_after by done.
  rewrite <- !app_assoc. simpl. rewrite <- !app_assoc. simpl.
  rewrite <- !app_assoc. reflexivity.
Qed.

Ltac piece_lacks_char :=
  apply not_In_app;
  [ vm_compute; intuition discriminate
  | let H := fresh in intros [H|H]; [discriminate H | auto] ].

Lemma step_headerLine p d a m t :
  plainField d -> plainField a -> plainField m -> plainField t ->
  includes (headerLine d a m t) (js "Starting benchmark run") = false ->
  step_line p (headerLine d a m t) = Returns (set_names (trim t) (trim m) p).
Proof.
  intros (_ & Hd44 & Hd58) (_ & Ha44 & Ha58) (_ & Hm44 & Hm58) (_ & Ht44 & Ht58) Hstart.
  set (u := trimEnd (32%N :: t)).
  assert (Hu44 : ~ In 44%N u).
  { intros H. apply In_trimEnd in H as [H|H]; [discriminate H|done]. }
  assert (Hu58 : ~ In 58%N u).
  { intros H. apply In_trimEnd in H as [H|H]; [discriminate H|done]. }
  pose proof (header_trimmed d a m t) as Et. fold u in Et.
  assert (En : normalizeLine (trim (headerLine d a m t)) = trim (headerLine d a m t)).
  { eapply (normalize_trimmed _ 68%N); [rewrite Et; reflexivity|done]. }
  assert (Hs : includes (trim (headerLine d a m t)) (js "Starting benchmark run") = false).
  { eapply includes_piece; [apply occurs_trim|exact Hstart]. }
  unfold step_line. rewrite En.
  assert (eqs (trim (headerLine d a m t)) [] = false) as ->
    by (apply eqs_false; by rewrite Et).
  assert (Hc : classify p (trim (headerLine d a m t)) = RHeader).
  { unfold classify. rewrite Hs.
    assert (includes (trim (headerLine d a m t)) (js "Dataset:") = true) as ->.
    { apply includes_occurs. rewrite Et. exists [].
      eexists. simpl. rewrite <- ?app_assoc. reflexivity. }
    assert (includes (trim (headerLine d a m t)) (js "Agent:") = true) as ->.
    { apply includes_occurs. rewrite Et. exists ((js "Dataset:" ++ 32%N :: d) ++ [44; 32]%N).
      eexists. simpl. rewrite <- ?app_assoc. simpl. reflexivity. }
    assert (includes (trim (headerLine d a m t)) (js "Model:") = true) as ->.
    { apply includes_occurs. rewrite Et.
      exists ((js "Dataset:" ++ 32%N :: d) ++ 44%N :: (js " Agent:" ++ 32%N :: a)
              ++ [44; 32]%N).
      eexists. simpl. rewrite <- ?app_assoc. simpl. rewrite <- ?app_assoc. simpl.
      reflexivity. }
    done. }
  rewrite Hc. cbn [apply_rule]. rewrite Et.
  change (js ",") with [44%N].
  rewrite !split_chr_app.
  rewrite (split_chr_last 44%N (js "Dataset:" ++ 32%N :: d)) by piece_lacks_char.
  rewrite (split_chr_last 44%N (js " Agent:" ++ 32%N :: a)) by piece_lacks_char.
  rewrite (split_chr_last 44%N (js " Model:" ++ 32%N :: m)) by piece_lacks_char.
  rewrite (split_chr_last 44%N (js " Task:" ++ u))
    by (apply not_In_app; [vm_compute; intuition discriminate|done]).
  cbn [app header_parts].
  assert (H58 : forall f, ~ In 58%N f -> ~ In 58%N (32%N :: f)).
  { intros f Hf [H|H]; [discriminate H|done]. }
  assert (includes (js "Dataset:" ++ 32%N :: d) (js "Model:") = false) as ->.
  { apply (piece_lacks (js "Model") (js "Dataset") (32%N :: d));
      [vm_compute; intuition discriminate|by apply H58|not_ending]. }
  assert (includes (js "Dataset:" ++ 32%N :: d) (js "Task:") = false) as ->.
  { apply (piece_lacks (js "Task") (js "Dataset") (32%N :: d));
      [vm_compute; intuition discriminate|by apply H58|not_ending]. }
  assert (includes (js " Agent:" ++ 32%N :: a) (js "Model:") = false) as ->.
  { apply (piece_lacks (js "Model") (js " Agent") (32%N :: a));
      [vm_compute; intuition discriminate|by apply H58|not_ending]. }
  assert (includes (js " Agent:" ++ 32%N :: a) (js "Task:") = false) as ->.
  { apply (piece_lacks (js "Task") (js " Agent") (32%N :: a));
      [vm_compute; intuition discriminate|by apply H58|not_ending]. }
  assert (includes (js " Model:" ++ 32%N :: m) (js "Model:") = true) as ->.
  { apply includes_occurs. by exists [32%N], (32%N :: m). }
  rewrite (split_Model (32%N :: m)) by by apply H58.
  cbn [lookup list_lookup defined mbind outcome_bind].
  assert (includes (js " Task:" ++ u) (js "Model:") = false) as ->.
  { apply (piece_lacks (js "Model") (js " Task") u);
      [vm_compute; intuition discriminate|done|not_ending]. }
  assert (includes (js " Task:" ++ u) (js "Task:") = true) as ->.
  { apply includes_occurs. by exists [32%N], u. }
  rewrite (split_Task u) by done.
  cbn [lookup list_lookup defined mbind outcome_bind].
  unfold u. rewrite trim_trimEnd, !trim_space. done.
Qed.

Lemma run_lines_no_header lines :
  Forall (fun l => hasHeaderMarkers l = false) lines ->
  forall p p', run_lines lines p = Returns p' ->
    l_taskName p' = l_taskName p /\ l_modelName p' = l_modelName p.
Proof.
  induction 1 as [|l lines Hl _ IH]; intros p p'; simpl.
  - by intros [= <-].
  - destruct (step_line p l) as [p1| |] eqn:E; simpl; [|done|done].
    intros E'. apply IH in E' as [-> ->].
    by apply (step_line_names p l p1 E).
Qed.

Lemma headerLine_one_line d a m t :
  plainField d -> plainField a -> plainField m -> plainField t ->
  ~ In 10%N (headerLine d a m t).
Proof.
  intros (Hd & _) (Ha & _) (Hm & _) (Ht & _). unfold headerLine.
  repeat (apply not_In_app; [first [assumption | vm_compute; intuition discriminate]|]).
  done.
Qed.

(** X26.  The names of a run are those of its last header line.  When the log
    holds the line "Dataset: d, Agent: a, Model: m, Task: t" (fields without
    comma, colon and line break, the line without "Starting benchmark run")
    and no later line holds the three markers "Dataset:", "Agent:" and
    "Model:", [parseLogFile] returns a Trajectory whose modelName is [m] and
    whose taskName is [t], both trimmed, whatever the file name and the
    lines before the header say. *)
Theorem header_names fname before after d a m t :
  Forall (fun l => ~ In 10%N l) before -> Forall (fun l => ~ In 10%N l) after ->
  plainField d -> plainField a -> plainField m -> plainField t ->
  includes (headerLine d a m t) (js "Starting benchmark run") = false ->
  Forall (fun l => hasHeaderMarkers l = false) after ->
  exists tr,
    parseLogFile fname (join LF (before ++ headerLine d a m t :: after)) = Returns tr /\
    modelName tr = trim m /\ taskName tr = trim t.
Proof.
  intros Hb Ha Hd Hag Hm Ht Hstart Hafter.
  destruct (parseLogFile_returns fname (join LF (before ++ headerLine d a m t :: after)))
    as (p & results & success & diffs & Hp & _ & _ & _ & E).
  eexists. split; [exact E|]. cbn [modelName taskName].
  rewrite split_join_LF in Hp.
  - rewrite run_lines_app in Hp.
    destruct (run_lines_returns before (initial fname)) as [p0 E0].
    rewrite E0 in Hp. cbn [mbind outcome_bind run_lines] in Hp.
    rewrite (step_headerLine p0 d a m t Hd Hag Hm Ht Hstart) in Hp.
    cbn [mbind outcome_bind] in Hp.
    by apply (run_lines_no_header after Hafter) in Hp as [-> ->].
  - by destruct before.
  - apply Forall_app. split; [done|]. constructor; [|done].
    by apply headerLine_one_line.
Qed.

Lemma header_names_witness :
  exists tr,
    parseLogFile (js "gpt-5_task.log")
      (join LF ([js "Starting benchmark run"]
                ++ headerLine (js "lab") (js "harness") (js "claude") (js "spike ")
                :: [js "done"])) = Returns tr /\
    modelName tr = js "claude" /\ taskName tr = js "spike".
Proof.
  apply (header_names (js "gpt-5_task.log") [js "Starting benchmark run"] [js "done"]
           (js "lab") (js "harness") (js "claude") (js "spike ")).
  - constructor; [|constructor]. vm_compute. intuition discriminate.
  - constructor; [|constructor]. vm_compute. intuition discriminate.
  - unfold plainField. repeat split; vm_compute; intuition discriminate.
  - unfold plainField. repeat split; vm_compute; intuition discriminate.
  - unfold plainField. repeat split; vm_compute; intuition discriminate.
  - unfold plainField. repeat split; vm_compute; intuition discriminate.
  - vm_compute. reflexivity.
  - constructor; [|constructor]. vm_compute. reflexivity.
Defined.

(** ** Test Result Extractor: the shapes of a record *)

(** *** The standalone shape in general *)

(** a fragment line without white space: it is added and the look-ahead
    goes on *)
Lemma lookahead_piece st lines b j acc g :
  lines !! j = Some g -> noWS g -> fragmentLine st g ->
  lookahead (outcomeWord st) (otherWord st) lines (S b) j acc
  = lookahead (outcomeWord st) (otherWord st) lines b (S j) (acc ++ g).
Proof.
  intros Hl Hg (H1 & H2 & H3 & H4). cbn [lookahead]. rewrite Hl, (trim_noWS g Hg).
  apply eqs_false in H1 as ->. apply eqs_false in H2 as ->. cbn [orb].
  change (js ": " ++ outcomeWord st) with (58%N :: 32%N :: outcomeWord st).
  rewrite noWS_no_colon_space by done.
  apply eqs_false in H3 as ->.
  destruct (includes g (js "::")) eqn:Ec; [done|].
  destruct H4 as [H4|H4]; [done|]. rewrite H4. cbn [negb].
  destruct g as [|c g]; [|done]. cbn [length Nat.ltb Nat.leb andb].
  by rewrite app_nil_r.
Qed.

Lemma lookahead_pieces st lines : forall frags b j acc,
  (forall k g, frags !! k = Some g -> lines !! (j + k) = Some g) ->
  Forall noWS frags -> Forall (fragmentLine st) frags ->
  lookahead (outcomeWord st) (otherWord st) lines (length frags + b) j acc
  = lookahead (outcomeWord st) (otherWord st) lines b (j + length frags)
      (acc ++ concat frags).
Proof.
  induction frags as [|g frags IH]; intros b j acc Hl Hw Hf.
  - simpl. by rewrite Nat.add_0_r, app_nil_r.
  - apply Forall_cons in Hw as [Hg Hw]. apply Forall_cons in Hf as [Hfg Hf].
    cbn [length Nat.add concat].
    rewrite (lookahead_piece st lines _ j acc g); [|by rewrite <- (Hl 0 g), Nat.add_0_r|done|done].
    rewrite IH; [|intros k g' Hk; rewrite <- (Hl (S k) g' Hk); f_equal; lia|done|done].
    rewrite <- app_assoc. f_equal. lia.
Qed.

Lemma noWS_concat frags : noWS (concat frags) -> Forall noWS frags.
Proof.
  induction frags as [|g frags IH]; [constructor|]. simpl. intros H.
  apply noWS_app in H as [Hg H]. constructor; auto.
Qed.

Lemma otherWord_spec st :
  otherWord st = outcomeWord (match st with pass => fail | fail => pass end).
Proof. by destruct st. Qed.

Lemma parse_standalone st p t frags e :
  plainPath p -> plainName t ->
  concat frags ++ lastText e = p ++ js "::" ++ t ->
  length frags <= 2 -> Forall (fragmentLine st) frags ->
  parseTestResults (standaloneShape st frags e) = Returns [recordOf st p t].
Proof.
  intros Hp Ht Ec Hlen Hf.
  pose proof (plainPath_noWS p Hp) as Hwp. pose proof Ht as [Hnt Hwt].
  pose proof (plainPath_no_colon p Hp) as Hcp.
  assert (Hwall : noWS (concat frags ++ lastText e)).
  { rewrite Ec. by apply noWS_fragment. }
  apply noWS_app in Hwall as [Hwc Hwx]. apply noWS_concat in Hwc.
  assert (Hlast : noWS (lastText e) -> ~ In 10%N (lastLine st e)).
  { intros Hx. destruct e as [|x]; simpl.
    - apply no_LF_outcomeWord.
    - apply no_LF_terminated; [done|apply noWS_outcomeWord]. }
  unfold parseTestResults, standaloneShape.
  rewrite split_join_LF; [|done|].
  2:{ constructor; [apply no_LF_keyword|]. apply Forall_app. split.
      - eapply Forall_impl; [exact Hwc|]. intros g. apply noWS_no_LF.
      - constructor; [by apply Hlast|constructor]. }
  set (lines := keyword st :: frags ++ [lastLine st e]).
  assert (Hfr : forall k g, frags !! k = Some g -> lines !! (1 + k) = Some g).
  { intros k g Hk.
    change (lines !! (1 + k)) with ((frags ++ [lastLine st e]) !! k).
    by apply lookup_app_l_Some. }
  assert (Hend : lines !! (1 + length frags) = Some (lastLine st e)).
  { change (lines !! (1 + length frags))
      with ((frags ++ [lastLine st e]) !! length frags).
    rewrite lookup_app_r by lia. by rewrite Nat.sub_diag. }
  assert (H1 : exists l, lines !! (0 + 1) = Some l).
  { destruct frags as [|g frags]; [by exists (lastLine st e)|by exists g]. }
  destruct H1 as [l1 H1].
  erewrite (test_loop_step _ lines 0 [] (keyword st)); [|reflexivity|].
  2:{ rewrite trim_noWS by apply noWS_keyword.
      rewrite (test_body_keyword _ 0 st l1 H1), <- otherWord_spec.
      apply standalone_record; [|done].
      replace 3 with (length frags + (3 - length frags)) by lia.
      rewrite (lookahead_pieces st lines frags _ (0 + 1) []); [|exact Hfr|done|done].
      destruct (3 - length frags) as [|b] eqn:Eb; [lia|].
      cbn [app]. rewrite <- Ec.
      destruct e as [|x]; cbn [lastLine lastText] in *.
      - rewrite app_nil_r.
        apply (lookahead_word _ _ _ _ _ _ (outcomeWord st));
          [exact Hend|apply trim_noWS, noWS_outcomeWord|apply noWS_outcomeWord
          |apply outcomeWord_not_keyword|apply outcomeWord_not_keyword].
      - apply (lookahead_terminator _ _ _ _ _ _ (x ++ js ": " ++ outcomeWord st));
          [exact Hend| |done].
        apply trim_colon_word; [done|apply outcomeWord_nonempty|apply noWS_outcomeWord]. }
  cbn [app]. apply test_loop_end.
  apply lookup_ge_None. unfold lines. cbn [length]. rewrite length_app. simpl. lia.
Qed.

(** C4, as the code has it.  Let the path be a non-empty text without white
    space or colon and the test name a non-empty text without white space
    (it may hold double colons).  Then the content made of the record in any
    of the shapes
      - one line, keyword, path::name, colon and outcome word;
      - the same with the outcome word alone on the next line;
      - the keyword alone on a line, then path::name, colon and outcome word;
      - the keyword alone, then path:: and the first part of the name, then
        the rest of the name, colon and outcome word;
      - the keyword, path::name and the outcome word on a line each;
      - in general the keyword alone on a line, then the text path::name cut
        at any places into at most two fragment lines, then a closing line
        that is the outcome word alone or the last piece of the text, a
        colon and the outcome word, provided that no fragment line is a
        bare "pass" or "fail" or the outcome word, and that a fragment line
        without double colon does not hold the other outcome word
    is parsed to one and the same list: the single record with that name,
    the status of the keyword, and path::name as full name.  The name is
    everything after the first double colon of the full name.  This holds
    for "pass" with "PASSED" and for "fail" with "FAILED". *)
Theorem test_shapes_agree st p t :
  plainPath p -> plainName t ->
  parseTestResults (singleLine st p t) = Returns [recordOf st p t] /\
  parseTestResults (wordBelow st p t) = Returns [recordOf st p t] /\
  parseTestResults (keywordAbove st p t) = Returns [recordOf st p t] /\
  (forall t1 t2, t = t1 ++ t2 ->
     parseTestResults (nameSplit st p t1 t2) = Returns [recordOf st p t]) /\
  parseTestResults (threeLines st p t) = Returns [recordOf st p t] /\
  (forall frags e,
     concat frags ++ lastText e = p ++ js "::" ++ t ->
     length frags <= 2 -> Forall (fragmentLine st) frags ->
     parseTestResults (standaloneShape st frags e) = Returns [recordOf st p t]) /\
  indexOf (js "::") (tr_fullName (recordOf st p t)) = Some (length p) /\
  tr_name (recordOf st p t) = Some (drop (length p + 2) (tr_fullName (recordOf st p t))).
Proof.
  intros Hp Ht.
  split; [by apply parse_singleLine|].
  split; [by apply parse_wordBelow|].
  split; [by apply parse_keywordAbove|].
  split; [intros t1 t2 ->; by apply parse_nameSplit|].
  split; [by apply parse_threeLines|].
  split; [intros frags e; by apply parse_standalone|].
  apply recordOf_name. by apply plainPath_no_colon.
Qed.

Lemma test_shapes_agree_witness :
  plainPath (js "tasks/a.py") /\ plainName (js "test_x") /\
  parseTestResults (js "pass tasks/a.py::test_x: PASSED") =
    Returns [{| tr_name := Some (js "test_x"); tr_status := pass;
                tr_fullName := js "tasks/a.py::test_x" |}] /\
  parseTestResults (js "pass" ++ LF ++ js "tasks/a.py::test_x" ++ LF ++ js "PASSED") =
    Returns [{| tr_name := Some (js "test_x"); tr_status := pass;
                tr_fullName := js "tasks/a.py::test_x" |}] /\
  parseTestResults (js "pass" ++ LF ++ js "tasks/a" ++ LF ++ js ".py::test_x" ++ LF
                    ++ js "PASSED") =
    Returns [{| tr_name := Some (js "test_x"); tr_status := pass;
                tr_fullName := js "tasks/a.py::test_x" |}].
Proof.
  assert (Hp : plainPath (js "tasks/a.py")) by (split; [discriminate|reflexivity]).
  assert (Ht : plainName (js "test_x")) by (split; [discriminate|reflexivity]).
  destruct (test_shapes_agree pass _ _ Hp Ht) as (H1 & _ & _ & _ & H5 & H6 & _).
  split; [exact Hp|]. split; [exact Ht|]. split; [exact H1|]. split; [exact H5|].
  apply (H6 [js "tasks/a"; js ".py::test_x"] WordAlone).
  - reflexivity.
  - simpl. lia.
  - constructor; [|constructor; [|constructor]].
    + split; [discriminate|]. split; [discriminate|]. split; [discriminate|].
      right. reflexivity.
    + split; [discriminate|]. split; [discriminate|]. split; [discriminate|].
      left. reflexivity.
Defined.

(** C4 as stated fails for the path [tasks/a.py] and the test name
    [test_FAILED_login]: on one line the record has that name, but with the
    keyword alone and the text cut after [test_] the second fragment holds
    "FAILED" and no double colon, the look-ahead of a "pass" record leaves
    it out, and the record has the name [test_]. *)
Lemma fragment_with_other_word_left_out :
  plainPath (js "tasks/a.py") /\ plainName (js "test_FAILED_login") /\
  concat [js "tasks/a.py::test_"; js "FAILED_login"]
    = js "tasks/a.py" ++ js "::" ++ js "test_FAILED_login" /\
  parseTestResults (js "pass tasks/a.py::test_FAILED_login: PASSED") =
    Returns [{| tr_name := Some (js "test_FAILED_login"); tr_status := pass;
                tr_fullName := js "tasks/a.py::test_FAILED_login" |}] /\
  parseTestResults (js "pass" ++ LF ++ js "tasks/a.py::test_" ++ LF
                    ++ js "FAILED_login" ++ LF ++ js "PASSED") =
    Returns [{| tr_name := Some (js "test_"); tr_status := pass;
                tr_fullName := js "tasks/a.py::test_" |}] /\
  parseTestResults (js "pass" ++ LF ++ js "tasks/a.py::test_" ++ LF
                    ++ js "FAILED_login" ++ LF ++ js "PASSED")
  <> parseTestResults (js "pass tasks/a.py::test_FAILED_login: PASSED").
Proof.
  split; [split; [discriminate|reflexivity]|].
  split; [split; [discriminate|reflexivity]|].
  split; [reflexivity|].
  split; [vm_compute; reflexivity|].
  split; [vm_compute; reflexivity|].
  vm_compute. discriminate.
Qed.

(** ** Diff Extractor: the value of a fragment *)

Lemma forallb_notQuote (v : jsstring) :
  ~ In 39%N v -> forallb (fun c => negb (c =? 39)%N) v = true.
Proof.
  induction v as [|c v IH]; [done|]. intros H. simpl.
  rewrite IH by (intros Hin; apply H; by right).
  destruct (N.eqb_spec c 39) as [->|]; [|done]. destruct H. by left.
Qed.

Lemma Match_Group_inv i a st st'' :
  Match (Group i a) st st'' -> exists st', Match a st st' /\ st'' = set_cap i st st'.
Proof. intros H. inversion H; subst. eauto. Qed.

Lemma Match_Star_inv g a st st2 :
  Match (Star g a) st st2 ->
  st2 = st \/ exists st1, Match a st st1 /\ Match (Star g a) st1 st2.
Proof. intros H. inversion H; subst; eauto. Qed.

(** A match of the pattern stands on a fragment, and on a closed value it
    captures the value: the run of non-quotes cannot stop early, and no
    backslash-quote piece can follow it. *)
Lemma diffRe_Match key s k st' :
  Match (diffRe key) (start_at s k) st' ->
  exists v, fragmentAt key s k v /\ (closedValue v -> m_caps st' !! 1 = Some v).
Proof.
  unfold diffRe. intros HM.
  apply Match_seqs_cons in HM as (st1 & H1 & HM). apply Match_chr in H1.
  apply Match_seqs_cons in HM as (st2 & H2 & HM). apply Match_lit in H2.
  apply Match_seqs_cons in HM as (st3 & H3 & HM). apply Match_chr in H3.
  apply Match_seqs_cons in HM as (st4 & H4 & HM). apply Match_chr in H4.
  apply Match_seqs_cons in HM as (st5 & H5 & HM).
  apply Match_star_class in H5 as (w & Hw & H5).
  apply Match_seqs_cons in HM as (st6 & H6 & HM). apply Match_chr in H6.
  apply Match_seqs_cons in HM as (st7 & H7 & HM).
  apply Match_seqs_cons in HM as (st8 & H8 & HM). apply Match_chr in H8.
  apply Match_seqs_nil in HM. subst st'.
  apply Match_Group_inv in H7 as (stb & Hbody & ->).
  apply Match_Seq_inv in Hbody as (stc & Hu & Hstar).
  apply Match_star_class in Hu as (u & Hu & Ru).
  destruct H1 as (E1 & _), H2 as (E2 & _), H3 as (E3 & _), H4 as (E4 & _),
    H5 as (E5 & _), H6 as (E6 & _), Ru as (Eu & Pu & _), H8 as (E8 & _ & C8).
  unfold start_at in E1. simpl in E1.
  assert (Hq : ~ In 39%N u) by (apply (In_forallb _ _ _ Hu); done).
  assert (Hfront : forall rest, m_rest stc = rest ->
            drop k s = [39%N] ++ js key ++ [39%N; 58%N] ++ w ++ [39%N] ++ u ++ rest).
  { intros rest <-. rewrite E1, E2, E3, E4, E5, E6, Eu. rewrite <- ?app_assoc. reflexivity. }
  apply Match_Star_inv in Hstar as [->|(std & Hx & _)].
  - (* no backslash-quote piece *)
    unfold set_cap in E8, C8. simpl in E8, C8.
    exists u. split.
    + exists w, (m_rest st8). split; [by apply Hfront|done].
    + intros _. rewrite C8, Pu.
      replace (m_pos st6 + length u - m_pos st6) with (length u) by lia.
      rewrite Eu, take_app_length. apply lookup_insert_eq.
  - (* a backslash in front of the quote *)
    apply Match_Seq_inv in Hx as (stf & Hl & _). apply Match_lit in Hl as (El & _).
    exists (u ++ [92%N]). split.
    + exists w, (m_rest stf). split.
      * rewrite (Hfront _ El). by rewrite <- !app_assoc.
      * split; [done|]. intros Hin. apply in_app_or in Hin as [Hin|Hin]; [done|].
        simpl in Hin. intuition discriminate.
    + intros Hc. destruct Hc. apply last_snoc.
Qed.

Lemma fragment_Match key s k v :
  fragmentAt key s k v -> exists st', Match (diffRe key) (start_at s k) st'.
Proof.
  intros (w & post & E & Hw & Hv). unfold start_at, diffRe. rewrite E.
  eexists. apply Match_seqs_cons. eexists. split.
  { apply Match_chr. apply (reads_intro k [39%N]). }
  apply Match_seqs_cons. eexists. split.
  { apply Match_lit. apply reads_intro. }
  apply Match_seqs_cons. eexists. split.
  { apply Match_chr. apply (reads_intro _ [39%N]). }
  apply Match_seqs_cons. eexists. split.
  { apply Match_chr. apply (reads_intro _ [58%N]). }
  apply Match_seqs_cons. eexists. split.
  { apply Match_star_class. exists w. split; [done|]. apply reads_intro. }
  apply Match_seqs_cons. eexists. split.
  { apply Match_chr. apply (reads_intro _ [39%N]). }
  apply Match_seqs_cons. eexists. split.
  { apply M_Group. apply Match_Seq_inv. eexists. split.
    - apply Match_star_class. exists v. split; [by apply forallb_notQuote|].
      apply reads_intro.
    - apply M_Star0. }
  apply Match_seqs_cons. eexists. split.
  { apply Match_chr. unfold set_cap. simpl. apply (reads_intro _ [39%N]). }
  by apply Match_seqs_nil.
Qed.

Lemma fragmentAt_unique key s k v v' :
  fragmentAt key s k v -> fragmentAt key s k v' -> v = v'.
Proof.
  intros (w & post & E & Hw & Hv) (w' & post' & E' & Hw' & Hv').
  rewrite E in E'. apply app_inv_head in E'. apply app_inv_head in E'.
  change ([39%N; 58%N] ++ w ++ [39%N] ++ v ++ [39%N] ++ post)
    with ([39%N; 58%N] ++ (w ++ [39%N] ++ v ++ [39%N] ++ post)) in E'.
  apply app_inv_head in E'.
  apply (span_unique isWS) in E' as [_ E']; [|done|done|done|done].
  apply app_inv_head in E'.
  apply (span_unique (fun c => negb (c =? 39)%N)) in E' as [E' _];
    [done|by apply forallb_notQuote|by apply forallb_notQuote|done|done].
Qed.

(** The value the extractor captures is that of the first fragment, when
    this value is closed *)
Lemma captured_first key content k v :
  firstFragment key content k v -> closedValue v ->
  captured key content = Some v.
Proof.
  intros [Hf Hmin] Hc. unfold captured.
  destruct (fragment_Match _ _ _ _ Hf) as [st0 H0].
  assert (Hk : k <= length content).
  { destruct Hf as (w & post & E & _).
    destruct (Nat.le_gt_cases k (length content)); [done|].
    rewrite drop_ge in E by lia. done. }
  destruct (exec (diffRe key) content 0) as [m|] eqn:E.
  2:{ by destruct (exec_misses _ _ k st0 E Hk). }
  apply exec_Some in E as (k' & st' & Hk' & Hh & -> & Hno).
  apply head_In, run_sound in Hh.
  destruct (diffRe_Match _ _ _ _ Hh) as (v' & Hf' & Hcap).
  assert (k' = k) as ->.
  { destruct (Nat.lt_trichotomy k' k) as [Hlt|[->|Hgt]]; [|done|].
    - by destruct (Hmin k' v' Hlt).
    - apply run_complete in H0. rewrite (Hno k) in H0; [done|lia]. }
  rewrite (fragmentAt_unique _ _ _ _ _ Hf Hf') in Hc |- *.
  unfold cap, result_at. simpl. by apply Hcap.
Qed.

Lemma captured_none key content :
  (forall k v, ~ fragmentAt key content k v) -> captured key content = None.
Proof.
  intros Hno. unfold captured.
  destruct (exec (diffRe key) content 0) as [m|] eqn:E; [|done].
  apply exec_Match in E as (st' & _ & HM & _).
  destruct (diffRe_Match _ _ _ _ HM) as (v & Hf & _). by destruct (Hno _ _ Hf).
Qed.

(** A value without quote holds no escaped quote to replace *)
Lemma unescape_closed v : ~ In 39%N v -> unescape v = unescapeBreaks v.
Proof.
  intros Hv. unfold unescape, unescapeBreaks. do 2 f_equal.
  unfold replaceAllRe, matchAll. cbn [matches_go].
  destruct (exec (lit [92; 39]%N) v 0) as [m|] eqn:E; [|done]. exfalso.
  apply exec_Match in E as (st' & _ & HM & _).
  apply Match_lit in HM as (E & _). unfold start_at in E. simpl in E.
  apply Hv. rewrite <- (take_drop (mr_index m) v), E.
  apply in_or_app. right. right. by left.
Qed.

(** C7, as the code has it.  For every content [extractDiffs] returns a
    bundle.  When the content holds a fragment ['agent_diff': 'v'] (resp.
    ['golden_diff': 'v']) and the value [v] of the first one, which runs up
    to the next quote, does not end in a backslash, then [agentDiff] (resp.
    [goldenDiff]) is [v] with backslash-n replaced by a newline and then
    backslash-t by a tab, and [agentLines] (resp. [goldenLines]) is the
    newline-split length of that text when the text is not empty, and 0 when
    it is empty.  Without a fragment the diff is absent and counts 0 lines.
    The fragment ['agent_diff': 'line1\nline2'] gives two lines. *)
Theorem diff_unescape_and_lines content :
  (exists b, extractDiffs content = Returns (Some b) /\
     (forall k v, firstFragment "agent_diff" content k v -> closedValue v ->
        agentDiff b = Some (unescapeBreaks v) /\
        agentLines (diffStats b) = reportedLines (Some (unescapeBreaks v))) /\
     (forall k v, firstFragment "golden_diff" content k v -> closedValue v ->
        goldenDiff b = Some (unescapeBreaks v) /\
        goldenLines (diffStats b) = reportedLines (Some (unescapeBreaks v))) /\
     ((forall k v, ~ fragmentAt "agent_diff" content k v) ->
        agentDiff b = None /\ agentLines (diffStats b) = 0) /\
     ((forall k v, ~ fragmentAt "golden_diff" content k v) ->
        goldenDiff b = None /\ goldenLines (diffStats b) = 0)) /\
  (exists b, extractDiffs (js "'agent_diff': 'line1\nline2'") = Returns (Some b) /\
     agentDiff b = Some (js "line1" ++ LF ++ js "line2") /\
     agentLines (diffStats b) = 2).
Proof.
  split.
  - unfold extractDiffs, extractDiffs_body.
    rewrite !diffText_captured by (vm_compute; auto). simpl.
    eexists. split; [reflexivity|]. simpl. rewrite !lineCount_reported.
    split; [|split; [|split]].
    + intros k v Hf Hc. rewrite (captured_first _ _ _ _ Hf Hc). simpl.
      destruct Hf as [(w & post & _ & _ & Hq) _]. by rewrite (unescape_closed v Hq).
    + intros k v Hf Hc. rewrite (captured_first _ _ _ _ Hf Hc). simpl.
      destruct Hf as [(w & post & _ & _ & Hq) _]. by rewrite (unescape_closed v Hq).
    + intros Hno. by rewrite (captured_none _ _ Hno).
    + intros Hno. by rewrite (captured_none _ _ Hno).
  - eexists. split; [vm_compute; reflexivity|]. vm_compute. done.
Qed.

Lemma diff_unescape_and_lines_witness :
  exists b,
    extractDiffs (js "'agent_diff': 'x\ty\nz', 'golden_diff': ''") = Returns (Some b) /\
    agentDiff b = Some (js "x" ++ [9%N] ++ js "y" ++ LF ++ js "z") /\
    agentLines (diffStats b) = 2 /\
    goldenDiff b = Some [] /\ goldenLines (diffStats b) = 0.
Proof.
  destruct (proj1 (diff_unescape_and_lines
                     (js "'agent_diff': 'x\ty\nz', 'golden_diff': ''")))
    as (b & E & Ha & Hg & _).
  exists b. split; [exact E|].
  destruct (Ha 0 (js "x\ty\nz")) as [Ha1 Ha2].
  { split; [|intros j v' Hj; lia].
    exists [32%N], (js ", 'golden_diff': ''").
    split; [reflexivity|]. split; [reflexivity|]. vm_compute. intuition discriminate. }
  { vm_compute. discriminate. }
  destruct (Hg 25 []) as [Hg1 Hg2].
  { split.
    - exists [32%N], []. split; [reflexivity|]. split; [reflexivity|]. by intros [].
    - intros j v' Hj (w & post & Ej & _).
      do 25 (destruct j as [|j]; [vm_compute in Ej; discriminate Ej|]). lia. }
  { vm_compute. discriminate. }
  split; [exact Ha1|]. split; [exact Ha2|]. split; [exact Hg1|exact Hg2].
Defined.

(** What the theorem leaves out: a value with an escaped quote.  The run of
    non-quotes takes the backslash and the quote behind it closes the
    value, so ['agent_diff': 'it\'s'] gives the text [it\]. *)
Lemma escaped_quote_closes_the_value :
  exists b, extractDiffs (js "'agent_diff': 'it\'s'") = Returns (Some b) /\
            agentDiff b = Some (js "it\").
Proof. eexists. split; [vm_compute; reflexivity|]. vm_compute. reflexivity. Qed.

(** C7 as stated fails on the content [{'agent_diff': ''}]: the fragment is
    found with an empty value, whose newline-split length is 1, while the
    reported [agentLines] is 0. *)
Lemma empty_diff_counts_no_line :
  ~ (forall c, captured "agent_diff" (js "{'agent_diff': ''}") = Some c ->
       exists b, extractDiffs (js "{'agent_diff': ''}") = Returns (Some b) /\
                 agentDiff b = Some (unescape c) /\
                 agentLines (diffStats b) = length (split LF (unescape c))).
Proof.
  intros H. destruct (H [] eq_refl) as (b & E & _ & Hl).
  vm_compute in E. injection E as <-. vm_compute in Hl. discriminate.
Qed.
